(** * AquaFuzzy Analytics: the fuzzy inference engine and the FCM solver

    A shallow embedding of the two numeric engines of the repository,
    [fuzzy-logic.ts] (Mamdani controller) and [fcm.ts] (Fuzzy C-Means), and
    the properties of them that the specification states.

    Numbers.  A JavaScript [number] is an IEEE double.  The controller only
    uses [+ - * /], comparisons, [Math.min], [Math.max], [Math.abs] and
    [Math.round], which are closed over the rationals, so it is embedded over
    [Q] and stays executable.  The FCM solver needs [Math.sqrt] and [Math.pow]
    with a real exponent and is embedded over [R].  In both cases arithmetic is
    exact: rounding error, NaN and overflow to Infinity are outside the model
    (the one Infinity the solver writes itself, as a sentinel, is modelled).

    The properties of the code stated over [Q] and [R] are kept to what
    exact and double arithmetic share: orders, structure, ranges after
    rounding, and equations between expressions of the code.  A lemma that
    holds of the exact formula only says so.

    Doubles.  Where a property turns on rounding, overflow or NaN, the lines
    of [fcm.ts] are embedded a second time, in [FCMDouble], over binary64
    numbers: the kernel's primitive floats, with [Math.pow], [Math.max],
    [Math.min] and [Math.round] as the language defines them.

    Around the engines.  The scenarios of [scenarios.ts], the store of the
    simulator ([water-store.ts]) and the clustering, animation and tour part
    of the diagnostics store are embedded too, each store as a record and its
    actions as functions on it, with further properties of the code. *)

From Stdlib Require Import ZArith QArith Qround Qminmax Qabs Reals.
From Stdlib Require Import Lia List Permutation String Sorted.
From Stdlib Require Floats.
From stdpp Require Import base option list gmap strings.
From Stdlib Require Import Psatz.

Open Scope Q_scope.

Module Fuzzy.

(** ** JavaScript primitives on exact rationals *)

(** [x < y] as a boolean. *)
Definition Qlt_bool (x y : Q) : bool := negb (Qle_bool y x).

(** [Math.round]: the nearest integer, halves towards plus infinity. *)
Definition Math_round (x : Q) : Z := Qfloor (x + 0.5).

(** [Math.min(...xs)] on a non-empty argument list (the engine guards the
    empty one, for which JavaScript answers Infinity). *)
Definition Math_min (x : Q) (xs : list Q) : Q := fold_left Qmin xs x.

(** ** Types of [fuzzy-logic.ts] *)

Record WaterInputs := mkInputs {
  turbidity : Q;
  ph : Q;
  temperature : Q
}.

Inductive PhCorrection := none | slight | moderate | intense.

Inductive RiskLevel := optimal | caution | critical.

Record TrapezoidalSet := mkSet {
  name : string;
  points : Q * Q * Q * Q
}.

(** [conditions]: each variable is optional. *)
Record RuleConditions := mkCond {
  c_turbidity : option string;
  c_ph : option string;
  c_temperature : option string
}.

Record RuleOutputs := mkOut {
  dose : string;
  time : string;
  o_phCorrection : PhCorrection
}.

Record FuzzyRule := mkRule {
  id : Z;
  rule_name : string;
  conditions : RuleConditions;
  outputs : RuleOutputs;
  baseCost : Q
}.

Record RuleActivation := mkActivation {
  ra_id : Z;
  ra_name : string;
  firingStrength : Q;
  ra_conditions : RuleConditions;
  ra_outputs : RuleOutputs
}.

(** [FuzzyOutputs] without its [explanation] string, whose number formatting
    ([toFixed]) is not part of this embedding. *)
Record FuzzyOutputs := mkOutputs {
  coagulantDose : Q;
  flocculationTime : Z;
  phCorrection : PhCorrection;
  phCorrectionAmount : Q;
  operationalCost : Q;
  qualityScore : Z;
  riskLevel : RiskLevel;
  efficiency : Z;
  ruleActivations : list RuleActivation
}.

(** ** The catalogues *)

Definition TURBIDITY_SETS : list TrapezoidalSet :=
  [ mkSet "muy_baja" (0, 0, 5, 15);
    mkSet "baja" (10, 20, 40, 60);
    mkSet "media" (50, 80, 150, 200);
    mkSet "alta" (150, 250, 400, 500);
    mkSet "muy_alta" (400, 600, 1000, 1000) ].

Definition PH_SETS : list TrapezoidalSet :=
  [ mkSet "muy_acido" (0, 0, 4, 5.5);
    mkSet "acido" (5, 5.5, 6, 6.5);
    mkSet "neutro" (6.2, 6.8, 7.5, 8.2);
    mkSet "alcalino" (7.8, 8.5, 9, 9.5);
    mkSet "muy_alcalino" (9, 10, 14, 14) ].

Definition TEMPERATURE_SETS : list TrapezoidalSet :=
  [ mkSet "fria" (0, 0, 10, 18);
    mkSet "normal" (15, 20, 25, 28);
    mkSet "calida" (25, 30, 40, 40) ].

Definition DOSE_SETS : list TrapezoidalSet :=
  [ mkSet "muy_baja" (0, 0, 5, 12);
    mkSet "baja" (8, 15, 22, 28);
    mkSet "media" (25, 35, 45, 55);
    mkSet "alta" (50, 60, 75, 85);
    mkSet "muy_alta" (80, 90, 100, 100) ].

Definition TIME_SETS : list TrapezoidalSet :=
  [ mkSet "muy_corto" (0, 0, 8, 12);
    mkSet "corto" (10, 14, 18, 22);
    mkSet "medio" (20, 25, 32, 38);
    mkSet "largo" (35, 42, 50, 55);
    mkSet "muy_largo" (50, 55, 60, 60) ].

(** ** Membership functions *)

Definition calculateMembership (value : Q) (set : TrapezoidalSet) : Q :=
  let '(a, b, c, d) := points set in
  if Qle_bool value a || Qle_bool d value then 0
  else if Qle_bool b value && Qle_bool value c then 1
  else if Qlt_bool a value && Qlt_bool value b then (value - a) / (b - a)
  else if Qlt_bool c value && Qlt_bool value d then (d - value) / (d - c)
  else 0.

(** The [Map] is built by successive [set] calls: a later set of the same
    name overwrites an earlier one. *)
Definition getMemberships (value : Q) (sets : list TrapezoidalSet)
  : gmap string Q :=
  fold_left (fun memberships set =>
               <[name set := calculateMembership value set]> memberships)
            sets ∅.

(** ** The rule base *)

Definition rule (i : Z) (n : string) (t p tp : option string)
  (d tm : string) (pc : PhCorrection) (cost : Q) : FuzzyRule :=
  mkRule i n (mkCond t p tp) (mkOut d tm pc) cost.

Definition FUZZY_RULES : list FuzzyRule :=
  [ rule 1 "Agua cristalina - Condiciones óptimas"
      (Some "muy_baja") (Some "neutro") None "muy_baja" "muy_corto" none 0.05;
    rule 2 "Agua limpia - pH ácido leve"
      (Some "muy_baja") (Some "acido") None "baja" "corto" slight 0.08;
    rule 3 "Agua limpia - pH alcalino leve"
      (Some "muy_baja") (Some "alcalino") None "baja" "corto" slight 0.08;
    rule 4 "Agua baja turbidez - Condiciones normales"
      (Some "baja") (Some "neutro") None "baja" "corto" none 0.10;
    rule 5 "Turbidez media - pH neutro óptimo"
      (Some "media") (Some "neutro") None "media" "medio" none 0.18;
    rule 6 "Turbidez media - pH ácido"
      (Some "media") (Some "acido") None "media" "medio" moderate 0.22;
    rule 7 "Turbidez media - pH alcalino"
      (Some "media") (Some "alcalino") None "alta" "medio" slight 0.24;
    rule 8 "Turbidez media - Agua fría"
      (Some "media") None (Some "fria") "alta" "largo" none 0.25;
    rule 9 "Alta turbidez - pH neutro"
      (Some "alta") (Some "neutro") None "alta" "largo" none 0.35;
    rule 10 "Alta turbidez - pH ácido"
      (Some "alta") (Some "acido") None "alta" "largo" moderate 0.42;
    rule 11 "Alta turbidez - pH alcalino"
      (Some "alta") (Some "alcalino") None "muy_alta" "largo" moderate 0.45;
    rule 12 "Alta turbidez - Agua fría"
      (Some "alta") None (Some "fria") "muy_alta" "muy_largo" none 0.48;
    rule 13 "Emergencia - Turbidez extrema, pH neutro"
      (Some "muy_alta") (Some "neutro") None "muy_alta" "muy_largo" none 0.55;
    rule 14 "Emergencia - Turbidez extrema, pH ácido severo"
      (Some "muy_alta") (Some "muy_acido") None
      "muy_alta" "muy_largo" intense 0.75;
    rule 15 "Emergencia - Turbidez extrema, pH alcalino severo"
      (Some "muy_alta") (Some "muy_alcalino") None
      "muy_alta" "muy_largo" intense 0.72;
    rule 16 "Vertido ácido - Turbidez baja"
      (Some "baja") (Some "muy_acido") None "media" "medio" intense 0.38;
    rule 17 "Vertido alcalino - Turbidez baja"
      (Some "baja") (Some "muy_alcalino") None "media" "medio" intense 0.35;
    rule 18 "Vertido ácido - Turbidez media"
      (Some "media") (Some "muy_acido") None "alta" "largo" intense 0.52;
    rule 19 "Agua caliente - Turbidez baja"
      (Some "baja") None (Some "calida") "baja" "muy_corto" none 0.08;
    rule 20 "Agua caliente - Turbidez alta"
      (Some "alta") None (Some "calida") "media" "medio" none 0.28 ].

(** ** Defuzzification *)

Definition center (set : TrapezoidalSet) : Q :=
  let '(_, b, c, _) := points set in (b + c) / 2.

Definition defuzzifyStep (activations : gmap string Q)
  (acc : Q * Q) (set : TrapezoidalSet) : Q * Q :=
  let activation := default 0 (activations !! name set) in
  if Qlt_bool 0 activation
  then (fst acc + center set * activation, snd acc + activation)
  else acc.

Definition defuzzify (activations : gmap string Q)
  (sets : list TrapezoidalSet) : Q :=
  let '(numerator, denominator) :=
    fold_left (defuzzifyStep activations) sets (0, 0) in
  if Qlt_bool 0 denominator then numerator / denominator else 0.

(** ** Rule evaluation *)

(** [if (rule.conditions.x)]: a condition is present when it is defined and
    not the empty string. *)
Definition truthy (c : option string) : option string :=
  match c with
  | Some s => if String.eqb s "" then None else Some s
  | None => None
  end.

(** One [conditions.push(memberships.get(set) || 0)], when present. *)
Definition pushCondition (memberships : gmap string Q) (c : option string)
  : list Q :=
  match truthy c with
  | Some s => [default 0 (memberships !! s)]
  | None => []
  end.

(** The [conditions] array and the [activation] of one rule. *)
Definition ruleConditions (tm pm tpm : gmap string Q) (r : FuzzyRule)
  : list Q :=
  pushCondition tm (c_turbidity (conditions r))
  ++ pushCondition pm (c_ph (conditions r))
  ++ pushCondition tpm (c_temperature (conditions r)).

Definition ruleActivation (tm pm tpm : gmap string Q) (r : FuzzyRule) : Q :=
  match ruleConditions tm pm tpm r with
  | [] => 0
  | c :: cs => Math_min c cs
  end.

(** The variables the rule loop updates. *)
Record InferState := mkState {
  doseActivations : gmap string Q;
  timeActivations : gmap string Q;
  st_ruleActivations : list RuleActivation;
  totalCost : Q;
  totalWeight : Q;
  phCorrectionLevel : PhCorrection;
  maxPhCorrectionWeight : Q
}.

Definition initState : InferState :=
  mkState ∅ ∅ [] 0 0 none 0.

(** The body of [for (const rule of FUZZY_RULES)]. *)
Definition ruleStep (tm pm tpm : gmap string Q)
  (st : InferState) (r : FuzzyRule) : InferState :=
  let activation := ruleActivation tm pm tpm r in
  if Qlt_bool 0 activation then
    let currentDose := default 0 (doseActivations st !! dose (outputs r)) in
    let currentTime := default 0 (timeActivations st !! time (outputs r)) in
    let dominant := Qlt_bool (maxPhCorrectionWeight st) activation in
    mkState
      (<[dose (outputs r) := Qmax currentDose activation]>
         (doseActivations st))
      (<[time (outputs r) := Qmax currentTime activation]>
         (timeActivations st))
      (st_ruleActivations st ++
         [mkActivation (id r) (rule_name r) activation
            (conditions r) (outputs r)])
      (totalCost st + baseCost r * activation)
      (totalWeight st + activation)
      (if dominant then o_phCorrection (outputs r)
       else phCorrectionLevel st)
      (if dominant then activation else maxPhCorrectionWeight st)
  else st.

Definition evalRules (tm pm tpm : gmap string Q) (rules : list FuzzyRule)
  : InferState :=
  fold_left (ruleStep tm pm tpm) rules initState.

(** [Array.prototype.sort] with [(a, b) => b.firingStrength -
    a.firingStrength]: a stable sort by descending strength. *)
Fixpoint insertActivation (x : RuleActivation) (l : list RuleActivation)
  : list RuleActivation :=
  match l with
  | [] => [x]
  | y :: l' =>
      if Qlt_bool (firingStrength y) (firingStrength x)
      then x :: y :: l'
      else y :: insertActivation x l'
  end.

Definition sortActivations (l : list RuleActivation) : list RuleActivation :=
  fold_left (fun acc x => insertActivation x acc) l [].

(** ** [runFuzzyInference] *)

(** The loop and the defuzzified dose before it is rounded for output; the
    derived metrics read this unrounded value. *)
Definition inferState (rules : list FuzzyRule) (inputs : WaterInputs)
  : InferState :=
  evalRules (getMemberships (turbidity inputs) TURBIDITY_SETS)
            (getMemberships (ph inputs) PH_SETS)
            (getMemberships (temperature inputs) TEMPERATURE_SETS)
            rules.

Definition rawDose (rules : list FuzzyRule) (inputs : WaterInputs) : Q :=
  defuzzify (doseActivations (inferState rules inputs)) DOSE_SETS.

Definition processFactorOf (coagulant turb : Q) : Q :=
  if Qlt_bool 0 coagulant then Qmin 100 ((coagulant / turb) * 500) else 50.

Definition runFuzzyInferenceWith (rules : list FuzzyRule)
  (inputs : WaterInputs) : FuzzyOutputs :=
  let st := inferState rules inputs in
  let coagulant := defuzzify (doseActivations st) DOSE_SETS in
  let flocculation := defuzzify (timeActivations st) TIME_SETS in
  let cost :=
    if Qlt_bool 0 (totalWeight st) then totalCost st / totalWeight st
    else 0.10 in
  let phDeviation := Qabs (ph inputs - 7.0) in
  let amount :=
    match phCorrectionLevel st with
    | none => 0
    | slight => phDeviation * 5
    | moderate => phDeviation * 12
    | intense => phDeviation * 25
    end in
  let turbidityFactor := Qmax 0 (100 - turbidity inputs / 10) in
  let phFactor := Qmax 0 (100 - Qabs (ph inputs - 7) * 15) in
  let processFactor := processFactorOf coagulant (turbidity inputs) in
  let quality :=
    Math_round (turbidityFactor * 0.5 + phFactor * 0.3
                + processFactor * 0.2) in
  let risk :=
    if Qlt_bool 400 (turbidity inputs) || Qlt_bool (ph inputs) 5.5
       || Qlt_bool 9.5 (ph inputs) then critical
    else if Qlt_bool 150 (turbidity inputs) || Qlt_bool (ph inputs) 6.2
            || Qlt_bool 8.5 (ph inputs) then caution
    else optimal in
  let eff :=
    Qmin 100 (Qmax 20
      (100 - turbidity inputs / 20
       + (if Qle_bool 6.5 (ph inputs) && Qle_bool (ph inputs) 8.0
          then 20 else 0)
       - (if Qlt_bool (temperature inputs) 15 then 10 else 0))) in
  mkOutputs
    (inject_Z (Math_round (coagulant * 10)) / 10)
    (Math_round flocculation)
    (phCorrectionLevel st)
    (inject_Z (Math_round (amount * 10)) / 10)
    (inject_Z (Math_round (cost * 1000)) / 1000)
    (Z.max 0 (Z.min 100 quality))
    risk
    (Math_round eff)
    (sortActivations (st_ruleActivations st)).

Definition runFuzzyInference (inputs : WaterInputs) : FuzzyOutputs :=
  runFuzzyInferenceWith FUZZY_RULES inputs.

End Fuzzy.

Module FCM.

Local Open Scope R_scope.

(** ** JavaScript primitives on exact reals *)

(** [Math.pow(x, y)] where the solver calls it with a real exponent: on a
    positive base, and on base zero with a positive exponent.  The other
    cases of the language ([Math.pow(0, 0) = 1], a negative exponent on 0,
    the infinite exponent that a fuzziness of 1 gives, NaN) are those of
    [FCMDouble.Math_pow]. *)
Definition Math_pow (x y : R) : R :=
  if Req_dec_T x 0 then 0 else Rpower x y.

(** [Math.round]: the nearest integer, halves towards plus infinity. *)
Definition Math_round (x : R) : Z := Int_part (x + / 2).

(** [Array(k).fill(v)]. *)
Definition Array_fill (k : nat) (v : R) : list R := repeat v k.

(** [xs.reduce((a, b) => a + b, 0)]. *)
Definition reduceSum (xs : list R) : R := fold_left Rplus xs 0.

(** ** Types of [fcm.ts] *)

(** A data point.  [runFCM] reads [features] only; the optional [timestamp],
    [memberships] and [color] are attached and read by its callers. *)
Record DataPoint := mkPoint {
  id : string;
  features : list R;
  label : option string
}.

(** [clusterCount] and [maxIterations] are counts. *)
Record FCMConfig := mkConfig {
  clusterCount : nat;
  fuzziness : R;
  maxIterations : nat;
  tolerance : R;
  trackHistory : bool
}.

Record IterationState := mkIteration {
  iteration : nat;
  it_centroids : list (list R);
  it_membershipMatrix : list (list R);
  it_convergenceError : R;
  objectiveFunction : R
}.

Record FCMResult := mkResult {
  centroids : list (list R);
  membershipMatrix : list (list R);
  iterationHistory : list IterationState;
  convergenceError : R;
  iterationCount : nat;
  clusterAssignments : list Z;
  converged : bool
}.

(** The three [throw new Error(...)] of the file. *)
Inductive FCMError :=
| NoData
| TooManyClusters (k n : nat)
| DimensionMismatch (n1 n2 : nat).

Definition bindE {A B : Type} (x : FCMError + A) (f : A -> FCMError + B)
  : FCMError + B :=
  match x with
  | inl e => inl e
  | inr a => f a
  end.

Notation "'do' x <- e ; k" := (bindE e (fun x => k))
  (at level 10, x pattern, e at level 100, k at level 200).

Fixpoint mapE {A B : Type} (f : A -> FCMError + B) (l : list A)
  : FCMError + list B :=
  match l with
  | [] => inr []
  | a :: l' => do b <- f a; do bs <- mapE f l'; inr (b :: bs)
  end.

Fixpoint foldE {A B : Type} (f : B -> A -> FCMError + B) (l : list A) (b : B)
  : FCMError + B :=
  match l with
  | [] => inr b
  | a :: l' => do b' <- f b a; foldE f l' b'
  end.

(** ** Auxiliary functions *)

(** Over the reals a square neither overflows to [Infinity] nor underflows
    to 0; in [FCMDouble.euclideanDistance] it does both. *)
Definition euclideanDistance (p1 p2 : list R) : FCMError + R :=
  if Nat.eqb (length p1) (length p2)
  then inr (sqrt (fold_left (fun sum vw => sum + (fst vw - snd vw) ^ 2)
                            (combine p1 p2) 0))
  else inl (DimensionMismatch (length p1) (length p2)).

(** [shuffled] is what [[...data].sort(() => Math.random() - 0.5)] returned:
    some rearrangement of [data], chosen by the random source. *)
Definition initializeCentroids (shuffled : list DataPoint) (k : nat)
  : list (list R) :=
  map features (firstn k shuffled).

Definition calculateObjectiveFunction (data : list DataPoint)
  (cs : list (list R)) (memberships : list (list R)) (m : R)
  : FCMError + R :=
  foldE (fun J pr =>
           foldE (fun J' jc =>
                    do distance <- euclideanDistance (features (fst pr))
                                                     (snd jc);
                    inr (J' + Math_pow (nth (fst jc) (snd pr) 0) m
                              * distance ^ 2))
                 (combine (seq 0 (length cs)) cs) J)
        (combine data memberships) 0.

(** ** The membership update of one point *)

(** The inner [for l] loop; [None] is the [Infinity] it stores when it meets
    a zero distance. *)
Definition sumRatios (distances : list R) (m : R) (k j : nat) : option R :=
  fold_left
    (fun acc l =>
       match acc with
       | None => None
       | Some s =>
           if Req_dec_T (nth l distances 0) 0 then None
           else Some (s + Math_pow (nth j distances 0 / nth l distances 0)
                                   (2 / (m - 1)))
       end)
    (seq 0 k) (Some 0).

(** The [for j] loop over the indices [js] still to visit; a zero distance
    replaces the row and leaves the loop.  The row has [k] entries, so each
    write is in range. *)
Fixpoint membershipLoop (distances : list R) (m : R) (k : nat)
  (js : list nat) (row : list R) : list R :=
  match js with
  | [] => row
  | j :: js' =>
      if Req_dec_T (nth j distances 0) 0
      then <[j := 1]> (Array_fill k 0)
      else membershipLoop distances m k js'
             (<[j := match sumRatios distances m k j with
                     | None => 0
                     | Some s => 1 / s
                     end]> row)
  end.

Definition normalizeRow (row : list R) : list R :=
  let sum := reduceSum row in
  if Rlt_dec 0 sum then map (fun v => v / sum) row else row.

Definition updateRow (cs : list (list R)) (m : R) (k : nat)
  (p : DataPoint) (row : list R) : FCMError + list R :=
  do distances <- mapE (euclideanDistance (features p)) cs;
  inr (normalizeRow (membershipLoop distances m k (seq 0 k) row)).

(** The [for i] loop: [memberships] has one row per point. *)
Definition updateMemberships (data : list DataPoint) (cs : list (list R))
  (m : R) (k : nat) (memberships : list (list R))
  : FCMError + list (list R) :=
  mapE (fun pr => updateRow cs m k (fst pr) (snd pr))
       (combine data memberships).

(** ** The centroid update *)

Definition dimensionCountOf (data : list DataPoint) : nat :=
  match data with
  | p :: _ => length (features p)
  | [] => 0%nat
  end.

Definition updateCentroid (data : list DataPoint)
  (memberships : list (list R)) (m : R) (j : nat) : list R :=
  let '(newCentroid, weightSum) :=
    fold_left
      (fun acc pr =>
         let weight := Math_pow (nth j (snd pr) 0) m in
         (imap (fun d v => v + weight * nth d (features (fst pr)) 0)
               (fst acc),
          snd acc + weight))
      (combine data memberships)
      (Array_fill (dimensionCountOf data) 0, 0) in
  map (fun v => if Rlt_dec 0 weightSum then v / weightSum else v)
      newCentroid.

Definition updateCentroids (data : list DataPoint)
  (memberships : list (list R)) (m : R) (k : nat) : list (list R) :=
  map (updateCentroid data memberships m) (seq 0 k).

(** ** The convergence check *)

Definition maxChangeOf (k : nat) (memberships prev : list (list R)) : R :=
  fold_left
    (fun maxChange rows =>
       fold_left
         (fun maxChange' j =>
            Rmax maxChange' (Rabs (nth j (fst rows) 0 - nth j (snd rows) 0)))
         (seq 0 k) maxChange)
    (combine memberships prev) 0.

(** ** The main loop *)

Record LoopState := mkLoop {
  l_centroids : list (list R);
  l_memberships : list (list R);
  l_prevMemberships : list (list R);
  l_history : list IterationState;
  l_converged : bool;
  l_iteration : nat
}.

(** One pass of the [while] body, with the [maxChange] it computed. *)
Definition fcmPass (data : list DataPoint) (cfg : FCMConfig)
  (st : LoopState) : FCMError + (LoopState * R) :=
  let k := clusterCount cfg in
  let m := fuzziness cfg in
  do memberships <-
    updateMemberships data (l_centroids st) m k (l_memberships st);
  let cs := updateCentroids data memberships m k in
  let maxChange := maxChangeOf k memberships (l_prevMemberships st) in
  let conv := if Rlt_dec maxChange (tolerance cfg) then true else false in
  do history <-
    (if trackHistory cfg then
       do objective <- calculateObjectiveFunction data cs memberships m;
       inr (l_history st ++
              [mkIteration (l_iteration st) cs memberships maxChange
                 objective])
     else inr (l_history st));
  inr (mkLoop cs memberships memberships history conv
         (S (l_iteration st)), maxChange).

(** [while (iteration < maxIterations && !converged)], by recursion on the
    passes left, [maxIterations - iteration]. *)
Fixpoint fcmLoop (data : list DataPoint) (cfg : FCMConfig)
  (remaining : nat) (st : LoopState) : FCMError + LoopState :=
  match remaining with
  | O => inr st
  | S remaining' =>
      if l_converged st then inr st
      else do r <- fcmPass data cfg st; fcmLoop data cfg remaining' (fst r)
  end.

(** [row.indexOf(x)], or [-1]. *)
Fixpoint indexOf (x : R) (row : list R) : Z :=
  match row with
  | [] => (-1)%Z
  | y :: row' =>
      if Req_dec_T y x then 0%Z
      else let i := indexOf x row' in
           if (i <? 0)%Z then (-1)%Z else (i + 1)%Z
  end.

(** [row.indexOf(Math.max(...row))]; [Math.max()] of no argument is
    [-Infinity], which no row contains. *)
Definition indexOfMax (row : list R) : Z :=
  match row with
  | [] => (-1)%Z
  | x :: xs => indexOf (fold_left Rmax xs x) row
  end.

Definition initialState (shuffled data : list DataPoint) (k : nat)
  : LoopState :=
  let memberships :=
    map (fun _ => Array_fill k (1 / INR k)) data in
  mkLoop (initializeCentroids shuffled k) memberships memberships []
         false 0.

Definition runFCM (shuffled data : list DataPoint) (cfg : FCMConfig)
  : FCMError + FCMResult :=
  let k := clusterCount cfg in
  if Nat.eqb (length data) 0 then inl NoData
  else if Nat.ltb (length data) k
  then inl (TooManyClusters k (length data))
  else
    do st <- fcmLoop data cfg (maxIterations cfg)
                     (initialState shuffled data k);
    let finalError :=
      match trackHistory cfg, last (l_history st) with
      | true, Some s => it_convergenceError s
      | _, _ => 0
      end in
    inr (mkResult (l_centroids st) (l_memberships st) (l_history st)
           finalError (l_iteration st)
           (map indexOfMax (l_memberships st)) (l_converged st)).

(** ** Analysis *)

Inductive RiskCategory := low | medium | high | critical.

(** [RiskAnalysis] without its [description] string, whose number formatting
    ([toFixed]) is not part of this embedding. *)
Record RiskAnalysis := mkRisk {
  riskScore : Z;
  riskCategory : RiskCategory;
  dominantCluster : Z;
  recommendation : string
}.

(** [memberships[i] || 0]: an index outside the array reads [undefined]. *)
Definition membershipOr0 (memberships : list R) (i : Z) : R :=
  if (i <? 0)%Z then 0 else nth (Z.to_nat i) memberships 0.

Definition analyzeRisk (memberships : list R) : RiskAnalysis :=
  let len := Z.of_nat (length memberships) in
  let failureIndex := (len - 1)%Z in
  let alertIndex := if (2 <? len)%Z then (len - 2)%Z else 0%Z in
  let score :=
    Math_round (membershipOr0 memberships alertIndex * 40
                + membershipOr0 memberships failureIndex * 100) in
  let '(category, recommend) :=
    if (score <? 20)%Z then
      (low, "Operación normal. Continuar monitoreo estándar."%string)
    else if (score <? 45)%Z then
      (medium,
       "Programar inspección preventiva en las próximas semanas."%string)
    else if (score <? 70)%Z then
      (high,
       "Requiere inspección urgente. Considerar reducir carga operativa."%string)
    else
      (critical,
       "⚠️ ACCIÓN INMEDIATA: Programar mantenimiento correctivo antes de falla."%string) in
  mkRisk (Z.min 100 score) category (indexOfMax memberships) recommend.

End FCM.

(** ** [runFCM] over a store of arrays

    The functions above compute on values.  To speak about what [runFCM]
    mutates, the same code is embedded once more with the features arrays,
    the centroids and the membership rows as objects in a store: a reference
    is an index into the store, [[...xs]] and [map] allocate, [xs[i] = v]
    writes in place.  The arrays of references ([data], [centroids],
    [memberships]) are held by one variable each and are kept as lists of
    references; the [distances] of a point are read and dropped within one
    iteration and are kept as a value. *)

Module FCMStore.

Import FCM.

Local Open Scope R_scope.

(** A reference is an index into the store. *)
Abbreviation loc := nat (only parsing).

Abbreviation store := (list (list R)) (only parsing).

Record DataPointRef := mkPointRef {
  r_id : string;
  r_features : loc;
  r_label : option string
}.

Record IterationStateRef := mkIterationRef {
  r_iteration : nat;
  r_it_centroids : list loc;
  r_it_membershipMatrix : list loc;
  r_it_convergenceError : R;
  r_objectiveFunction : R
}.

Record FCMResultRef := mkResultRef {
  r_centroids : list loc;
  r_membershipMatrix : list loc;
  r_iterationHistory : list IterationStateRef;
  r_convergenceError : R;
  r_iterationCount : nat;
  r_clusterAssignments : list Z;
  r_converged : bool
}.

(** A computation reads and updates the store and returns or throws. *)
Definition M (A : Type) : Type := store -> (FCMError + A) * store.

Definition ret {A : Type} (a : A) : M A := fun h => (inr a, h).

Definition throw {A : Type} (e : FCMError) : M A := fun h => (inl e, h).

Definition bind {A B : Type} (c : M A) (f : A -> M B) : M B :=
  fun h =>
    match c h with
    | (inl e, h') => (inl e, h')
    | (inr a, h') => f a h'
    end.

Notation "'let!' x ':=' c 'in' k" := (bind c (fun x => k))
  (at level 10, x name, c at level 100, k at level 200).

(** A new array object. *)
Definition alloc (a : list R) : M loc :=
  fun h => (inr (length h), h ++ [a]).

(** The current contents of an array object. *)
Definition readArray (l : loc) : M (list R) :=
  fun h => (inr (default [] (h !! l)), h).

(** [xs[i] = v], in place. *)
Definition writeAt (l : loc) (i : nat) (v : R) : M unit :=
  fun h => (inr tt, <[l := <[i := v]> (default [] (h !! l))]> h).

(** [[...xs]]. *)
Definition copyArray (l : loc) : M loc :=
  let! a := readArray l in alloc a.

Definition liftE {A : Type} (x : FCMError + A) : M A :=
  match x with
  | inl e => throw e
  | inr a => ret a
  end.

Fixpoint mapM {A B : Type} (f : A -> M B) (l : list A) : M (list B) :=
  match l with
  | [] => ret []
  | a :: l' => let! b := f a in let! bs := mapM f l' in ret (b :: bs)
  end.

Fixpoint foldM {A B : Type} (f : B -> A -> M B) (l : list A) (b : B) : M B :=
  match l with
  | [] => ret b
  | a :: l' => let! b' := f b a in foldM f l' b'
  end.

Definition euclideanDistanceRef (l1 l2 : loc) : M R :=
  let! p1 := readArray l1 in
  let! p2 := readArray l2 in
  liftE (euclideanDistance p1 p2).

(** [shuffled.slice(0, k).map(p => [...p.features])]. *)
Definition initializeCentroidsRef (shuffled : list DataPointRef) (k : nat)
  : M (list loc) :=
  mapM (fun p => copyArray (r_features p)) (firstn k shuffled).

Definition calculateObjectiveFunctionRef (data : list DataPointRef)
  (cs rows : list loc) (m : R) : M R :=
  foldM (fun J pr =>
           foldM (fun J' jc =>
                    let! distance := euclideanDistanceRef
                                   (r_features (fst pr)) (snd jc) in
                    let! row := readArray (snd pr) in
                    ret (J' + Math_pow (nth (fst jc) row 0) m
                              * distance ^ 2))
                 (combine (seq 0 (length cs)) cs) J)
        (combine data rows) 0.

(** The [for j] loop on the row object [row]; it returns the object that
    [memberships[i]] refers to afterwards. *)
Fixpoint membershipLoopRef (distances : list R) (m : R) (k : nat)
  (js : list nat) (row : loc) : M loc :=
  match js with
  | [] => ret row
  | j :: js' =>
      if Req_dec_T (nth j distances 0) 0
      then
        let! fresh := alloc (Array_fill k 0) in
        let! _ := writeAt fresh j 1 in
        ret fresh
      else
        let! _ := writeAt row j
               match sumRatios distances m k j with
               | None => 0
               | Some s => 1 / s
               end in
        membershipLoopRef distances m k js' row
  end.

Definition normalizeRowRef (row : loc) : M loc :=
  let! a := readArray row in
  let sum := reduceSum a in
  if Rlt_dec 0 sum then alloc (map (fun v => v / sum) a) else ret row.

Definition updateRowRef (cs : list loc) (m : R) (k : nat)
  (p : DataPointRef) (row : loc) : M loc :=
  let! distances := mapM (euclideanDistanceRef (r_features p)) cs in
  let! row' := membershipLoopRef distances m k (seq 0 k) row in
  normalizeRowRef row'.

Definition updateMembershipsRef (data : list DataPointRef) (cs : list loc)
  (m : R) (k : nat) (rows : list loc) : M (list loc) :=
  mapM (fun pr => updateRowRef cs m k (fst pr) (snd pr)) (combine data rows).

Definition dimensionCountRef (data : list DataPointRef) : M nat :=
  match data with
  | p :: _ => let! a := readArray (r_features p) in ret (length a)
  | [] => ret 0%nat
  end.

Definition updateCentroidRef (data : list DataPointRef) (rows : list loc)
  (m : R) (dimensionCount : nat) (j : nat) : M loc :=
  let! newCentroid := alloc (Array_fill dimensionCount 0) in
  let! weightSum :=
    foldM (fun weightSum pr =>
             let! row := readArray (snd pr) in
             let weight := Math_pow (nth j row 0) m in
             let! _ := foldM (fun _ d =>
                            let! fs := readArray (r_features (fst pr)) in
                            let! nc := readArray newCentroid in
                            writeAt newCentroid d
                              (nth d nc 0 + weight * nth d fs 0))
                         (seq 0 dimensionCount) tt in
             ret (weightSum + weight))
          (combine data rows) 0 in
  let! nc := readArray newCentroid in
  alloc (map (fun v => if Rlt_dec 0 weightSum then v / weightSum else v) nc).

Definition updateCentroidsRef (data : list DataPointRef) (rows : list loc)
  (m : R) (k : nat) : M (list loc) :=
  let! dimensionCount := dimensionCountRef data in
  mapM (updateCentroidRef data rows m dimensionCount) (seq 0 k).

Definition maxChangeRef (k : nat) (rows prev : list loc) : M R :=
  foldM (fun maxChange rp =>
           let! row := readArray (fst rp) in
           let! old := readArray (snd rp) in
           ret (fold_left
                  (fun maxChange' j =>
                     Rmax maxChange' (Rabs (nth j row 0 - nth j old 0)))
                  (seq 0 k) maxChange))
        (combine rows prev) 0.

Record LoopStateRef := mkLoopRef {
  lr_centroids : list loc;
  lr_memberships : list loc;
  lr_prevMemberships : list loc;
  lr_history : list IterationStateRef;
  lr_converged : bool;
  lr_iteration : nat
}.

Definition fcmPassRef (data : list DataPointRef) (cfg : FCMConfig)
  (st : LoopStateRef) : M LoopStateRef :=
  let k := clusterCount cfg in
  let m := fuzziness cfg in
  let! rows := updateMembershipsRef data (lr_centroids st) m k
             (lr_memberships st) in
  let! cs := updateCentroidsRef data rows m k in
  let! maxChange := maxChangeRef k rows (lr_prevMemberships st) in
  let conv := if Rlt_dec maxChange (tolerance cfg) then true else false in
  let! history :=
    (if trackHistory cfg then
       let! objective := calculateObjectiveFunctionRef data cs rows m in
       let! csCopy := mapM copyArray cs in
       let! rowsCopy := mapM copyArray rows in
       ret (lr_history st ++
              [mkIterationRef (lr_iteration st) csCopy rowsCopy maxChange
                 objective])
     else ret (lr_history st)) in
  let! prev := mapM copyArray rows in
  ret (mkLoopRef cs rows prev history conv (S (lr_iteration st))).

Fixpoint fcmLoopRef (data : list DataPointRef) (cfg : FCMConfig)
  (remaining : nat) (st : LoopStateRef) : M LoopStateRef :=
  match remaining with
  | O => ret st
  | S remaining' =>
      if lr_converged st then ret st
      else
        let! st' := fcmPassRef data cfg st in
        fcmLoopRef data cfg remaining' st'
  end.

Definition runFCMRef (shuffled data : list DataPointRef) (cfg : FCMConfig)
  : M FCMResultRef :=
  let k := clusterCount cfg in
  if Nat.eqb (length data) 0 then throw NoData
  else if Nat.ltb (length data) k
  then throw (TooManyClusters k (length data))
  else
    let! cs := initializeCentroidsRef shuffled k in
    let! rows := mapM (fun _ => alloc (Array_fill k (1 / INR k))) data in
    let! prev := mapM copyArray rows in
    let! st := fcmLoopRef data cfg (maxIterations cfg)
             (mkLoopRef cs rows prev [] false 0) in
    let! assignments := mapM (fun row => let! a := readArray row in
                                     ret (indexOfMax a))
                         (lr_memberships st) in
    let finalError :=
      match trackHistory cfg, last (lr_history st) with
      | true, Some s => r_it_convergenceError s
      | _, _ => 0
      end in
    ret (mkResultRef (lr_centroids st) (lr_memberships st) (lr_history st)
           finalError (lr_iteration st) assignments (lr_converged st)).

End FCMStore.

(** * Vocabulary for the properties of the controller *)

Module FuzzySpec.

Import Fuzzy.

(** The points [(a, b, c, d)] of a set, by name. *)
Definition leftFoot (set : TrapezoidalSet) : Q :=
  let '(a, _, _, _) := points set in a.

Definition leftShoulder (set : TrapezoidalSet) : Q :=
  let '(_, b, _, _) := points set in b.

Definition rightShoulder (set : TrapezoidalSet) : Q :=
  let '(_, _, c, _) := points set in c.

Definition rightFoot (set : TrapezoidalSet) : Q :=
  let '(_, _, _, d) := points set in d.

(** [a <= b <= c <= d]. *)
Definition ordered (set : TrapezoidalSet) : Prop :=
  let '(a, b, c, d) := points set in a <= b /\ b <= c /\ c <= d.


(** The set of a catalogue that a rule names. *)
Definition namedSet (sets : list TrapezoidalSet) (n : string)
  : option TrapezoidalSet :=
  List.find (fun set => String.eqb (name set) n) sets.

(** The membership degree of a value in the set named [n]; a name the
    catalogue does not have counts for nothing. *)
Definition degree (value : Q) (sets : list TrapezoidalSet) (n : string) : Q :=
  match namedSet sets n with
  | Some set => calculateMembership value set
  | None => 0
  end.

Definition presentDegree (value : Q) (sets : list TrapezoidalSet)
  (c : option string) : list Q :=
  match truthy c with
  | Some n => [degree value sets n]
  | None => []
  end.

(** The degrees of the conditions a rule has, absent ones left out. *)
Definition presentDegrees (inputs : WaterInputs) (r : FuzzyRule) : list Q :=
  presentDegree (turbidity inputs) TURBIDITY_SETS (c_turbidity (conditions r))
  ++ presentDegree (ph inputs) PH_SETS (c_ph (conditions r))
  ++ presentDegree (temperature inputs) TEMPERATURE_SETS
       (c_temperature (conditions r)).

Definition minimumOf (l : list Q) : Q :=
  match l with
  | [] => 0
  | d :: ds => Math_min d ds
  end.

(** The firing strength of a rule. *)
Definition firing (inputs : WaterInputs) (r : FuzzyRule) : Q :=
  minimumOf (presentDegrees inputs r).

(** The record of a fired rule. *)
Definition activationOf (inputs : WaterInputs) (r : FuzzyRule)
  : RuleActivation :=
  mkActivation (id r) (rule_name r) (firing inputs r) (conditions r)
               (outputs r).

(** The quality score, as a formula of the process factor. *)
Definition clampScore (z : Z) : Z := Z.max 0 (Z.min 100 z).

Definition qualityFormula (inputs : WaterInputs) (processFactor : Q) : Z :=
  let turbidityFactor := Qmax 0 (100 - turbidity inputs / 10) in
  let phFactor := Qmax 0 (100 - Qabs (ph inputs - 7) * 15) in
  clampScore (Math_round (0.5 * turbidityFactor + 0.3 * phFactor
                          + 0.2 * processFactor)).

(** The process factor chosen by [turbidity > 0], and the score it gives. *)
Definition statedProcessFactor (coagulant turb : Q) : Q :=
  if Qlt_bool 0 turb then Qmin 100 ((coagulant / turb) * 500) else 50.

Definition statedQualityScore (inputs : WaterInputs) (coagulant : Q) : Z :=
  qualityFormula inputs (statedProcessFactor coagulant (turbidity inputs)).

Definition hasTurbidityCondition (r : FuzzyRule) : bool :=
  match truthy (c_turbidity (conditions r)) with
  | Some _ => true
  | None => false
  end.

(** What the rule loop does to the key [s] of [doseActivations]. *)
Definition doseKeyStep (tm pm tpm : gmap string Q) (s : string) (acc : Q)
  (r : FuzzyRule) : Q :=
  if String.eqb (dose (outputs r)) s
     && Qlt_bool 0 (ruleActivation tm pm tpm r)
  then Qmax acc (ruleActivation tm pm tpm r) else acc.

(** A rule that leaves the key [s] alone or writes [x] there. *)
Definition writesOnly (tm pm tpm : gmap string Q) (s : string) (x : Q)
  (r : FuzzyRule) : Prop :=
  String.eqb (dose (outputs r)) s = false
  \/ ruleActivation tm pm tpm r <= 0
  \/ ruleActivation tm pm tpm r == x.

(** The slice [ph = 7], [temperature = 22]. *)
Definition sliceInputs (t : Q) : WaterInputs := mkInputs t 7 22.

Definition noRule : FuzzyRule := rule 0 "" None None None "" "" none 0.

(** The centroid of the plateau centres, as sums over the catalogue. *)
Definition weightedCenters (A : string -> Q) (sets : list TrapezoidalSet)
  : Q :=
  fold_right (fun set acc => center set * A (name set) + acc) 0 sets.

Definition totalActivation (A : string -> Q) (sets : list TrapezoidalSet)
  : Q :=
  fold_right (fun set acc => A (name set) + acc) 0 sets.

Definition centroidOf (numerator denominator : Q) : Q :=
  if Qlt_bool 0 denominator then numerator / denominator else 0.

(** The five turbidity memberships along the slice, and the dose they
    give: each dose set is activated by the turbidity set of its name. *)
Definition mu (k : nat) (t : Q) : Q :=
  calculateMembership t (nth k TURBIDITY_SETS (mkSet "" (0, 0, 0, 0))).

Definition sliceNumerator (t : Q) : Q :=
  2.5 * mu 0 t + 18.5 * mu 1 t + 40 * mu 2 t + 67.5 * mu 3 t + 95 * mu 4 t.

Definition sliceDenominator (t : Q) : Q :=
  mu 0 t + mu 1 t + mu 2 t + mu 3 t + mu 4 t.

(** The divisor of the division that [calculateMembership] evaluates on its
    way to the result, if it evaluates one. *)
Definition membershipDivisor (value : Q) (set : TrapezoidalSet) : option Q :=
  let '(a, b, c, d) := points set in
  if Qle_bool value a || Qle_bool d value then None
  else if Qle_bool b value && Qle_bool value c then None
  else if Qlt_bool a value && Qlt_bool value b then Some (b - a)
  else if Qlt_bool c value && Qlt_bool value d then Some (d - c)
  else None.

End FuzzySpec.

(** * Vocabulary for the properties of the solver *)

Module FCMSpec.

Import FCM FCMStore.

Local Open Scope R_scope.

(** The sum of a membership row. *)
Fixpoint rowSum (row : list R) : R :=
  match row with
  | [] => 0
  | x :: row' => x + rowSum row'
  end.

(** A row of [k] memberships in [0, 1] that sum to 1. *)
Definition goodRow (k : nat) (row : list R) : Prop :=
  length row = k /\ Forall (fun x => 0 <= x <= 1) row /\ rowSum row = 1.

(** A row whose sum is 1 within 1e-9 and whose entries lie in [0, 1]. *)
Definition rowOK (row : list R) : Prop :=
  Rabs (rowSum row - 1) <= 1 / 10 ^ 9 /\ Forall (fun x => 0 <= x <= 1) row.

Definition rowsGood (k n : nat) (st : LoopState) : Prop :=
  length (l_memberships st) = n
  /\ Forall (goodRow k) (l_memberships st)
  /\ Forall (fun it => Forall (goodRow k) (it_membershipMatrix it))
            (l_history st).

(** The body of the [for l] loop, and the entry the [for j] loop writes. *)
Definition ratioStep (distances : list R) (m : R) (j : nat)
  (acc : option R) (l : nat) : option R :=
  match acc with
  | None => None
  | Some s =>
      if Req_dec_T (nth l distances 0) 0 then None
      else Some (s + Math_pow (nth j distances 0 / nth l distances 0)
                              (2 / (m - 1)))
  end.

Definition written (distances : list R) (m : R) (k j : nat) : R :=
  match sumRatios distances m k j with
  | None => 0
  | Some s => 1 / s
  end.

(** Every point has [D] features; every centroid has [D] coordinates. *)
Definition uniformDim (D : nat) (data : list DataPoint) : Prop :=
  Forall (fun p => length (features p) = D) data.

Definition centroidsDim (D : nat) (cs : list (list R)) : Prop :=
  Forall (fun c => length c = D) cs.

(** The [maxChange] of each pass the loop runs, in order. *)
Fixpoint maxChangeTrace (data : list DataPoint) (cfg : FCMConfig)
  (remaining : nat) (st : LoopState) : list R :=
  match remaining with
  | O => []
  | S remaining' =>
      if l_converged st then []
      else match fcmPass data cfg st with
           | inl _ => []
           | inr (st', maxChange) =>
               maxChange :: maxChangeTrace data cfg remaining' st'
           end
  end.

(** The last [maxChange] computed, if a pass ran. *)
Definition lastMaxChange (shuffled data : list DataPoint) (cfg : FCMConfig)
  : option R :=
  last (maxChangeTrace data cfg (maxIterations cfg)
          (initialState shuffled data (clusterCount cfg))).

(** Small inputs. *)
Definition pointA : DataPoint := mkPoint "A" [0] None.

Definition pointB : DataPoint := mkPoint "B" [1] None.

Definition untracked : FCMConfig := mkConfig 2 2 1 (1 / 1000) false.

Definition single : list DataPoint := [pointA].

Definition oneCluster : FCMConfig := mkConfig 1 2 1 (1 / 1000) true.

Definition oneStore : list (list R) := [[0]].

Definition refA : DataPointRef := mkPointRef "A" 0 None.

(** [c] leaves the first [n] objects of the store as they are, and what it
    returns satisfies [P]. *)
Definition preserves {A : Type} (n : nat) (P : A -> Prop) (c : M A) : Prop :=
  forall h : list (list R),
    (n <= length h)%nat ->
    (n <= length (snd (c h)))%nat
    /\ (forall l : nat, (l < n)%nat -> snd (c h) !! l = h !! l)
    /\ (forall a, fst (c h) = inr a -> P a).

(** An object that is not among the first [n]. *)
Definition fresh (n : nat) (l : nat) : Prop := (n <= l)%nat.

Definition anything {A : Type} (_ : A) : Prop := True.

(** The rows and centroids a loop state or a result refers to are objects
    the run allocated. *)
Definition ownArrays (n : nat) (st : LoopStateRef) : Prop :=
  Forall (fresh n) (lr_memberships st) /\ Forall (fresh n) (lr_centroids st).

Definition ownResult (n : nat) (res : FCMResultRef) : Prop :=
  Forall (fresh n) (r_membershipMatrix res)
  /\ Forall (fresh n) (r_centroids res).

(** ** The store and the values

    What a store holds for the references of the store embedding, and the
    vocabulary that relates a run on the store to the run on values. *)

(** The contents of an object, and the values that references stand for. *)
Definition deref (h : list (list R)) (l : nat) : list R := default [] (h !! l).

Definition derefs (h : list (list R)) (ls : list nat) : list (list R) :=
  map (deref h) ls.

Definition pointAt (h : list (list R)) (p : DataPointRef) : DataPoint :=
  mkPoint (r_id p) (deref h (r_features p)) (r_label p).

Definition iterationAt (h : list (list R)) (it : IterationStateRef)
  : IterationState :=
  mkIteration (r_iteration it) (derefs h (r_it_centroids it))
    (derefs h (r_it_membershipMatrix it)) (r_it_convergenceError it)
    (r_objectiveFunction it).

Definition stateAt (h : list (list R)) (st : LoopStateRef) : LoopState :=
  mkLoop (derefs h (lr_centroids st)) (derefs h (lr_memberships st))
    (derefs h (lr_prevMemberships st)) (map (iterationAt h) (lr_history st))
    (lr_converged st) (lr_iteration st).

Definition resultAt (h : list (list R)) (res : FCMResultRef) : FCMResult :=
  mkResult (derefs h (r_centroids res)) (derefs h (r_membershipMatrix res))
    (map (iterationAt h) (r_iterationHistory res)) (r_convergenceError res)
    (r_iterationCount res) (r_clusterAssignments res) (r_converged res).

(** [c] only reads: it returns [x] and leaves the store as it is. *)
Definition reads {A : Type} (c : M A) (h : list (list R)) (x : FCMError + A)
  : Prop :=
  c h = (x, h).

(** [h'] extends [h] and changes no object of [h] outside [W]. *)
Definition modifies (W : list nat) (h h' : list (list R)) : Prop :=
  (length h <= length h')%nat
  /\ forall l, (l < length h)%nat -> ~ In l W -> h' !! l = h !! l.

(** A point and its row, as values. *)
Definition valueOf (h : list (list R)) (pr : DataPointRef * nat)
  : DataPoint * list R :=
  (pointAt h (fst pr), deref h (snd pr)).

(** The [for d] loop as a fold of writes, and as one pass over the array. *)
Definition addWeighted (weight : R) (fs : list R) (v : list R) (d : nat)
  : list R :=
  <[d := nth d v 0 + weight * nth d fs 0]> v.

(** One point's share of centroid [j]: the body of the [for i] loop. *)
Definition centroidStep (m : R) (j : nat) (acc : list R * R)
  (pr : DataPoint * list R) : list R * R :=
  let weight := Math_pow (nth j (snd pr) 0) m in
  (imap (fun d v => v + weight * nth d (features (fst pr)) 0) (fst acc),
   snd acc + weight).

(** The objects the history refers to. *)
Definition iterationLocs (it : IterationStateRef) : list nat :=
  r_it_centroids it ++ r_it_membershipMatrix it.

Definition historyLocs (hist : list IterationStateRef) : list nat :=
  concat (map iterationLocs hist).

(** The objects a pass reads and does not write. *)
Definition heldLocs (data : list DataPointRef) (st : LoopStateRef)
  : list nat :=
  map r_features data ++ lr_centroids st ++ lr_prevMemberships st
  ++ historyLocs (lr_history st).

(** The rows of [memberships] are distinct objects of the store, and no
    other variable of the loop refers to one of them. *)
Record wellFormed (h : list (list R)) (data : list DataPointRef)
  (st : LoopStateRef) : Prop := {
  wf_rows : List.Forall (fun l => (l < length h)%nat) (lr_memberships st);
  wf_distinct : List.NoDup (lr_memberships st);
  wf_held : List.Forall (fun l => (l < length h)%nat) (heldLocs data st);
  wf_apart : forall l, In l (lr_memberships st) -> ~ In l (heldLocs data st)
}.

End FCMSpec.

(** * [getMembershipDegrees]

    [Array.from(map.entries())] lists the entries of a [Map] in the order in
    which their keys were first set, which a [gmap] does not keep.  Here the
    [Map] that [getMemberships] builds is its list of entries. *)

Module FuzzyView.

Import Fuzzy.

(** [map.set(k, v)]: a key that is there keeps its place and takes the new
    value, a new key goes to the end. *)
Fixpoint mapSet (k : string) (v : Q) (entries : list (string * Q))
  : list (string * Q) :=
  match entries with
  | [] => [(k, v)]
  | (k', v') :: entries' =>
      if String.eqb k' k then (k', v) :: entries'
      else (k', v') :: mapSet k v entries'
  end.

(** The entries of [getMemberships(value, sets)]. *)
Definition getMembershipEntries (value : Q) (sets : list TrapezoidalSet)
  : list (string * Q) :=
  fold_left (fun memberships set =>
               mapSet (name set) (calculateMembership value set) memberships)
            sets [].

(** [{ name, degree }]. *)
Record MembershipDegree := mkDegree {
  md_name : string;
  md_degree : Q
}.

Record MembershipDegrees := mkDegrees {
  md_turbidity : list MembershipDegree;
  md_ph : list MembershipDegree;
  md_temperature : list MembershipDegree
}.

Definition entriesToDegrees (entries : list (string * Q))
  : list MembershipDegree :=
  map (fun e => mkDegree (fst e) (snd e)) entries.

Definition getMembershipDegrees (inputs : WaterInputs) : MembershipDegrees :=
  mkDegrees
    (entriesToDegrees
       (getMembershipEntries (turbidity inputs) TURBIDITY_SETS))
    (entriesToDegrees (getMembershipEntries (ph inputs) PH_SETS))
    (entriesToDegrees
       (getMembershipEntries (temperature inputs) TEMPERATURE_SETS)).

End FuzzyView.

(** * Vocabulary for further properties of the controller *)

Module FuzzyMoreSpec.

Import Fuzzy FuzzyView.

(** The activation that [defuzzify] reads for a set. *)
Definition activationFor (activations : gmap string Q) (set : TrapezoidalSet)
  : Q :=
  default 0 (activations !! name set).

(** By decreasing firing strength. *)
Definition descending (l : list RuleActivation) : Prop :=
  StronglySorted (fun a b => firingStrength b <= firingStrength a) l.

(** The records of a given strength, in the order of the list. *)
Definition ofStrength (q : Q) (l : list RuleActivation)
  : list RuleActivation :=
  List.filter (fun a => Qeq_bool (firingStrength a) q) l.

(** The degree of a value in each set of a catalogue, in catalogue order. *)
Definition degreesOf (value : Q) (sets : list TrapezoidalSet)
  : list MembershipDegree :=
  map (fun set => mkDegree (name set) (calculateMembership value set)) sets.

End FuzzyMoreSpec.

(** * Vocabulary for further properties of the solver *)

Module FCMMoreSpec.

Import FCM FCMSpec.

Local Open Scope R_scope.

(** The sum under the square root. *)
Definition squaredDistance (p1 p2 : list R) : R :=
  fold_left (fun sum vw => sum + (fst vw - snd vw) ^ 2) (combine p1 p2) 0.

(** [k] centroids and [n] rows of [k] memberships. *)
Definition shaped (k n : nat) (cs memberships : list (list R)) : Prop :=
  length cs = k /\ length memberships = n
  /\ Forall (fun row => length row = k) memberships.

(** The state of the loop shaped as the result will be, with its history. *)
Definition shapedState (k n : nat) (st : LoopState) : Prop :=
  shaped k n (l_centroids st) (l_memberships st)
  /\ Forall (fun it => shaped k n (it_centroids it) (it_membershipMatrix it))
            (l_history st).

(** The index [indexOfMax] answers on a row that is not empty: the least
    index of a largest entry. *)
Definition firstMaximum (row : list R) (a : Z) : Prop :=
  exists i : nat,
    a = Z.of_nat i /\ (i < length row)%nat
    /\ Forall (fun y => y <= nth i row 0) row
    /\ forall j, (j < i)%nat -> nth j row 0 < nth i row 0.

(** What one pass leaves. *)
Definition entryOK (it : IterationState) : Prop :=
  0 <= it_convergenceError it /\ 0 <= objectiveFunction it.

(** The state after at least one pass. *)
Definition afterPass (data : list DataPoint) (cfg : FCMConfig)
  (st : LoopState) : Prop :=
  l_centroids st
  = updateCentroids data (l_memberships st) (fuzziness cfg)
      (clusterCount cfg)
  /\ (trackHistory cfg = true ->
      exists it,
        last (l_history st) = Some it
        /\ it_centroids it = l_centroids st
        /\ it_membershipMatrix it = l_memberships st
        /\ (l_converged st = true <-> it_convergenceError it < tolerance cfg)).

(** Two points on a line. *)
Definition twoPoints : list DataPoint := [pointA; pointB].

(** Two clusters and at most three passes. *)
Definition twoClusters : FCMConfig := mkConfig 2 2 3 (1 / 1000) true.

(** The loop over the points, for cluster [j]. *)
Definition centroidSums (m : R) (j : nat) (l : list (DataPoint * list R))
  (acc : list R * R) : list R * R :=
  fold_left
    (fun acc pr =>
       let weight := Math_pow (nth j (snd pr) 0) m in
       (imap (fun d v => v + weight * nth d (features (fst pr)) 0) (fst acc),
        snd acc + weight))
    l acc.

(** Membership 1 in cluster [j] and 0 in the others. *)
Definition oneHot (k j : nat) : list R := <[j := 1]> (Array_fill k 0).

(** A row with all the membership in the last cluster. *)
Definition failingRow : list R := [0; 0; 1].

End FCMMoreSpec.

(** * [scenarios.ts]: the simulated events

    Times are milliseconds; all numbers are exact rationals. *)

Module Scenarios.

Import Fuzzy.

Record ScenarioKeyframe := mkKeyframe {
  kf_time : Q;
  kf_turbidity : Q;
  kf_ph : Q;
  kf_temperature : Q
}.

Record Scenario := mkScenario {
  s_id : string;
  s_name : string;
  s_description : string;
  s_icon : string;
  s_duration : Q;
  s_keyframes : list ScenarioKeyframe;
  s_themeColor : string
}.

(** [t < 0.5 ? 4 * t * t * t : 1 - Math.pow(-2 * t + 2, 3) / 2]. *)
Definition easeInOutCubic (t : Q) : Q :=
  if Qlt_bool t 0.5 then 4 * t * t * t
  else 1 - (-2 * t + 2) ^ 3 / 2.

(** The [for] loop of [interpolateKeyframes]: the first pair of
    neighbouring keyframes whose times enclose [currentTime]. *)
Fixpoint findSegment (keyframes : list ScenarioKeyframe) (currentTime : Q)
  : option (ScenarioKeyframe * ScenarioKeyframe) :=
  match keyframes with
  | k1 :: ((k2 :: _) as rest) =>
      if Qle_bool (kf_time k1) currentTime
         && Qle_bool currentTime (kf_time k2)
      then Some (k1, k2)
      else findSegment rest currentTime
  | _ => None
  end.

(** [interpolateKeyframes]; [None] is the [TypeError] of reading [.time] of
    [undefined], which an empty [keyframes] leads to. *)
Definition interpolateKeyframes (keyframes : list ScenarioKeyframe)
  (currentTime : Q) : option WaterInputs :=
  match head keyframes, last keyframes with
  | Some first, Some final =>
      let '(prevKeyframe, nextKeyframe) :=
        default (first, final) (findSegment keyframes currentTime) in
      let duration := kf_time nextKeyframe - kf_time prevKeyframe in
      let progress :=
        if Qlt_bool 0 duration
        then (currentTime - kf_time prevKeyframe) / duration
        else 1 in
      let eased := easeInOutCubic (Qmax 0 (Qmin 1 progress)) in
      Some (mkInputs
              (kf_turbidity prevKeyframe
               + (kf_turbidity nextKeyframe - kf_turbidity prevKeyframe)
                 * eased)
              (kf_ph prevKeyframe
               + (kf_ph nextKeyframe - kf_ph prevKeyframe) * eased)
              (kf_temperature prevKeyframe
               + (kf_temperature nextKeyframe - kf_temperature prevKeyframe)
                 * eased))
  | _, _ => None
  end.

Definition STORM_SCENARIO : Scenario :=
  mkScenario "storm" "Tormenta Súbita"
    "Simula una tormenta intensa que arrastra sedimentos al agua cruda, aumentando drásticamente la turbidez y acidificando ligeramente el pH."
    "⛈️" 30000
    [ mkKeyframe 0 50 7.0 22;
      mkKeyframe 3000 200 6.8 20;
      mkKeyframe 6000 650 6.5 18;
      mkKeyframe 10000 800 6.3 17;
      mkKeyframe 15000 500 6.5 18;
      mkKeyframe 20000 250 6.7 19;
      mkKeyframe 25000 120 6.9 21;
      mkKeyframe 30000 60 7.0 22 ]
    "hsl(220, 70%, 50%)".

Definition INDUSTRIAL_ACID_SPILL : Scenario :=
  mkScenario "acid_spill" "Vertido Industrial Ácido"
    "Simula un vertido accidental de sustancias ácidas. El pH cae drásticamente requiriendo neutralización de emergencia."
    "🏭" 25000
    [ mkKeyframe 0 40 7.2 23;
      mkKeyframe 2000 80 6.0 24;
      mkKeyframe 5000 150 4.5 26;
      mkKeyframe 8000 200 3.8 28;
      mkKeyframe 12000 180 4.2 27;
      mkKeyframe 16000 120 5.5 25;
      mkKeyframe 20000 80 6.5 24;
      mkKeyframe 25000 45 7.0 23 ]
    "hsl(45, 90%, 50%)".

Definition INDUSTRIAL_ALKALINE_SPILL : Scenario :=
  mkScenario "alkaline_spill" "Vertido Industrial Alcalino"
    "Simula un vertido de sustancias alcalinas típico de industrias papeleras o de lavandería. El pH sube requiriendo acidificación."
    "🧪" 25000
    [ mkKeyframe 0 35 7.0 22;
      mkKeyframe 2000 60 8.5 23;
      mkKeyframe 5000 100 10.0 25;
      mkKeyframe 8000 130 11.2 28;
      mkKeyframe 12000 110 10.5 26;
      mkKeyframe 16000 80 9.0 24;
      mkKeyframe 20000 50 8.0 23;
      mkKeyframe 25000 40 7.2 22 ]
    "hsl(280, 70%, 50%)".

Definition RECOVERY_SCENARIO : Scenario :=
  mkScenario "recovery" "Recuperación del Sistema"
    "Simula la vuelta gradual a condiciones óptimas desde un estado crítico. Demuestra la respuesta del sistema durante la normalización."
    "🔄" 20000
    [ mkKeyframe 0 600 5.0 30;
      mkKeyframe 4000 400 5.8 28;
      mkKeyframe 8000 200 6.5 26;
      mkKeyframe 12000 100 6.9 24;
      mkKeyframe 16000 50 7.0 22;
      mkKeyframe 20000 25 7.1 21 ]
    "hsl(142, 70%, 45%)".

Definition DIURNAL_FLUCTUATION : Scenario :=
  mkScenario "diurnal" "Fluctuación Diurna"
    "Simula variaciones típicas a lo largo de un día: cambios de temperatura, pequeñas fluctuaciones de turbidez por actividad biológica."
    "🌅" 35000
    [ mkKeyframe 0 30 7.0 18;
      mkKeyframe 7000 45 7.1 20;
      mkKeyframe 14000 70 7.3 26;
      mkKeyframe 21000 55 7.2 28;
      mkKeyframe 28000 40 7.1 24;
      mkKeyframe 35000 30 7.0 19 ]
    "hsl(35, 80%, 55%)".

Definition EXTREME_CONDITIONS : Scenario :=
  mkScenario "extreme" "Condiciones Extremas"
    "Escenario de prueba de estrés: lleva todos los parámetros a valores extremos para evaluar la respuesta del sistema en límites operativos."
    "⚠️" 20000
    [ mkKeyframe 0 100 7.0 22;
      mkKeyframe 5000 950 3.5 38;
      mkKeyframe 10000 900 12.0 5;
      mkKeyframe 15000 500 7.0 22;
      mkKeyframe 20000 80 7.0 22 ]
    "hsl(0, 80%, 50%)".

Definition ALL_SCENARIOS : list Scenario :=
  [ STORM_SCENARIO; INDUSTRIAL_ACID_SPILL; INDUSTRIAL_ALKALINE_SPILL;
    RECOVERY_SCENARIO; DIURNAL_FLUCTUATION; EXTREME_CONDITIONS ].

(** [ALL_SCENARIOS.find(s => s.id === id)]. *)
Definition getScenarioById (id : string) : option Scenario :=
  List.find (fun s => String.eqb (s_id s) id) ALL_SCENARIOS.

End Scenarios.

(** * Vocabulary for the properties of the scenarios *)

Module ScenariosSpec.

Import Fuzzy Scenarios.

(** Keyframes in the order of their times, no two at the same time. *)
Definition increasing (keyframes : list ScenarioKeyframe) : Prop :=
  StronglySorted (fun a b => kf_time a < kf_time b) keyframes.

(** The parameters a keyframe asks for. *)
Definition atKeyframe (k : ScenarioKeyframe) : WaterInputs :=
  mkInputs (kf_turbidity k) (kf_ph k) (kf_temperature k).

(** The same parameters, as rational numbers. *)
Definition sameInputs (a b : WaterInputs) : Prop :=
  turbidity a == turbidity b /\ ph a == ph b
  /\ temperature a == temperature b.

(** The parameters [e] of the way from [a] to [b]. *)
Definition blend (a b : ScenarioKeyframe) (e : Q) : WaterInputs :=
  mkInputs
    (kf_turbidity a + (kf_turbidity b - kf_turbidity a) * e)
    (kf_ph a + (kf_ph b - kf_ph a) * e)
    (kf_temperature a + (kf_temperature b - kf_temperature a) * e).

(** The progress between two keyframes, before the easing. *)
Definition progressOf (a b : ScenarioKeyframe) (t : Q) : Q :=
  if Qlt_bool 0 (kf_time b - kf_time a)
  then (t - kf_time a) / (kf_time b - kf_time a) else 1.

End ScenariosSpec.

(** * [water-store.ts]: the state of the simulator

    The store is a record and each action a function on it.  [Date.now()] is
    an argument of the actions that read the clock, one argument for each
    reading.  An action that throws leaves the store as the [set] calls
    before the exception made it. *)

Module WaterStore.

Import Fuzzy FuzzyView Scenarios.

Record HistoryPoint := mkHistoryPoint {
  hp_timestamp : Z;
  hp_qualityScore : Z;
  hp_turbidity : Q;
  hp_ph : Q;
  hp_temperature : Q;
  hp_operationalCost : Q
}.

Record WaterState := mkWaterState {
  ws_turbidity : Q;
  ws_ph : Q;
  ws_temperature : Q;
  ws_fuzzyOutputs : option FuzzyOutputs;
  ws_memberships : option MembershipDegrees;
  ws_isSimulating : bool;
  ws_currentScenario : option Scenario;
  ws_simulationStartTime : option Z;
  ws_simulationElapsedTime : Q;
  ws_simulationSpeed : Q;
  ws_history : list HistoryPoint;
  ws_maxHistoryLength : nat
}.

(** [Partial<WaterInputs>]: a field that is [undefined] is [None]. *)
Record PartialInputs := mkPartial {
  p_turbidity : option Q;
  p_ph : option Q;
  p_temperature : option Q
}.

(** How a call of an action ends, and the store it leaves. *)
Inductive Outcome :=
| Done (st : WaterState)
| Thrown (st : WaterState).

Definition DEFAULT_STATE : WaterState :=
  mkWaterState 50 7 22 None None false None None 0 1 [] 200.

(** The [set] calls of the actions. *)
Definition setInputs (turbidity ph temperature : Q) (st : WaterState)
  : WaterState :=
  mkWaterState turbidity ph temperature
    (ws_fuzzyOutputs st) (ws_memberships st) (ws_isSimulating st)
    (ws_currentScenario st) (ws_simulationStartTime st)
    (ws_simulationElapsedTime st) (ws_simulationSpeed st)
    (ws_history st) (ws_maxHistoryLength st).

Definition setResults (outputs : FuzzyOutputs)
  (memberships : MembershipDegrees) (history : list HistoryPoint)
  (st : WaterState) : WaterState :=
  mkWaterState (ws_turbidity st) (ws_ph st) (ws_temperature st)
    (Some outputs) (Some memberships) (ws_isSimulating st)
    (ws_currentScenario st) (ws_simulationStartTime st)
    (ws_simulationElapsedTime st) (ws_simulationSpeed st)
    history (ws_maxHistoryLength st).

Definition setSimulation (isSimulating : bool)
  (currentScenario : option Scenario) (simulationStartTime : option Z)
  (simulationElapsedTime : Q) (st : WaterState) : WaterState :=
  mkWaterState (ws_turbidity st) (ws_ph st) (ws_temperature st)
    (ws_fuzzyOutputs st) (ws_memberships st) isSimulating
    currentScenario simulationStartTime simulationElapsedTime
    (ws_simulationSpeed st) (ws_history st) (ws_maxHistoryLength st).

Definition setIsSimulating (isSimulating : bool) (st : WaterState)
  : WaterState :=
  mkWaterState (ws_turbidity st) (ws_ph st) (ws_temperature st)
    (ws_fuzzyOutputs st) (ws_memberships st) isSimulating
    (ws_currentScenario st) (ws_simulationStartTime st)
    (ws_simulationElapsedTime st) (ws_simulationSpeed st)
    (ws_history st) (ws_maxHistoryLength st).

Definition setElapsedTime (simulationElapsedTime : Q) (st : WaterState)
  : WaterState :=
  mkWaterState (ws_turbidity st) (ws_ph st) (ws_temperature st)
    (ws_fuzzyOutputs st) (ws_memberships st) (ws_isSimulating st)
    (ws_currentScenario st) (ws_simulationStartTime st)
    simulationElapsedTime (ws_simulationSpeed st)
    (ws_history st) (ws_maxHistoryLength st).

Definition setSpeed (simulationSpeed : Q) (st : WaterState) : WaterState :=
  mkWaterState (ws_turbidity st) (ws_ph st) (ws_temperature st)
    (ws_fuzzyOutputs st) (ws_memberships st) (ws_isSimulating st)
    (ws_currentScenario st) (ws_simulationStartTime st)
    (ws_simulationElapsedTime st) simulationSpeed
    (ws_history st) (ws_maxHistoryLength st).

Definition setHistory (history : list HistoryPoint) (st : WaterState)
  : WaterState :=
  mkWaterState (ws_turbidity st) (ws_ph st) (ws_temperature st)
    (ws_fuzzyOutputs st) (ws_memberships st) (ws_isSimulating st)
    (ws_currentScenario st) (ws_simulationStartTime st)
    (ws_simulationElapsedTime st) (ws_simulationSpeed st)
    history (ws_maxHistoryLength st).

(** [runInference]; [newHistory.shift()] drops the oldest point. *)
Definition runInference (now : Z) (st : WaterState) : WaterState :=
  let inputs :=
    mkInputs (ws_turbidity st) (ws_ph st) (ws_temperature st) in
  let outputs := runFuzzyInference inputs in
  let memberships := getMembershipDegrees inputs in
  let newPoint :=
    mkHistoryPoint now (qualityScore outputs) (ws_turbidity st)
      (ws_ph st) (ws_temperature st) (operationalCost outputs) in
  let newHistory := ws_history st ++ [newPoint] in
  let newHistory :=
    if (ws_maxHistoryLength st <? length newHistory)%nat
    then tail newHistory else newHistory in
  setResults outputs memberships newHistory st.

Definition setTurbidity (value : Q) (now : Z) (st : WaterState)
  : WaterState :=
  runInference now
    (setInputs (Qmax 0 (Qmin 1000 value)) (ws_ph st) (ws_temperature st)
       st).

Definition setPh (value : Q) (now : Z) (st : WaterState) : WaterState :=
  runInference now
    (setInputs (ws_turbidity st) (Qmax 0 (Qmin 14 value))
       (ws_temperature st) st).

Definition setTemperature (value : Q) (now : Z) (st : WaterState)
  : WaterState :=
  runInference now
    (setInputs (ws_turbidity st) (ws_ph st) (Qmax 0 (Qmin 40 value)) st).

Definition setParameters (params : PartialInputs) (now : Z)
  (st : WaterState) : WaterState :=
  runInference now
    (setInputs
       (match p_turbidity params with
        | Some turbidity => Qmax 0 (Qmin 1000 turbidity)
        | None => ws_turbidity st
        end)
       (match p_ph params with
        | Some ph => Qmax 0 (Qmin 14 ph)
        | None => ws_ph st
        end)
       (match p_temperature params with
        | Some temperature => Qmax 0 (Qmin 40 temperature)
        | None => ws_temperature st
        end)
       st).

(** [{ turbidity, ph, temperature }] with the three fields given. *)
Definition allOf (turbidity ph temperature : Q) : PartialInputs :=
  mkPartial (Some turbidity) (Some ph) (Some temperature).

(** [startSimulation]; [startedAt] is the first reading of the clock, [now]
    the one of [runInference]. *)
Definition startSimulation (scenario : Scenario) (startedAt now : Z)
  (st : WaterState) : Outcome :=
  let st := setSimulation true (Some scenario) (Some startedAt) 0 st in
  match interpolateKeyframes (s_keyframes scenario) 0 with
  | None => Thrown st
  | Some first =>
      Done (setParameters
              (allOf (turbidity first) (ph first) (temperature first))
              now st)
  end.

Definition stopSimulation (st : WaterState) : WaterState :=
  setSimulation false None None 0 st.

Definition pauseSimulation (st : WaterState) : WaterState :=
  setIsSimulating false st.

Definition resumeSimulation (st : WaterState) : WaterState :=
  match ws_currentScenario st with
  | Some _ => setIsSimulating true st
  | None => st
  end.

(** [updateSimulation]; reading a field of the final keyframe of a scenario
    without keyframes throws, and so does [interpolateKeyframes]. *)
Definition updateSimulation (deltaTime : Q) (now : Z) (st : WaterState)
  : Outcome :=
  match ws_isSimulating st, ws_currentScenario st with
  | true, Some currentScenario =>
      let newElapsedTime :=
        ws_simulationElapsedTime st + deltaTime * ws_simulationSpeed st in
      if Qle_bool (s_duration currentScenario) newElapsedTime then
        match last (s_keyframes currentScenario) with
        | None => Thrown st
        | Some finalKeyframe =>
            Done (stopSimulation
                    (setParameters
                       (allOf (kf_turbidity finalKeyframe)
                          (kf_ph finalKeyframe)
                          (kf_temperature finalKeyframe))
                       now st))
        end
      else
        match interpolateKeyframes (s_keyframes currentScenario)
                newElapsedTime with
        | None => Thrown st
        | Some inputs =>
            Done (setParameters
                    (allOf (turbidity inputs) (ph inputs)
                       (temperature inputs))
                    now (setElapsedTime newElapsedTime st))
        end
  | _, _ => Done st
  end.

Definition setSimulationSpeed (speed : Q) (st : WaterState) : WaterState :=
  setSpeed (Qmax 0.25 (Qmin 4 speed)) st.

(** [reset]: the defaults with the history kept, then an inference. *)
Definition reset (now : Z) (st : WaterState) : WaterState :=
  runInference now
    (mkWaterState 50 7 22 None None false None None 0 1 (ws_history st)
       200).

Definition clearHistory (st : WaterState) : WaterState :=
  setHistory [] st.

End WaterStore.

(** * Vocabulary for the properties of the simulator *)

Module WaterStoreSpec.

Import Fuzzy FuzzyView Scenarios ScenariosSpec WaterStore.

(** A call of an action of the store. *)
Inductive Action :=
| CallSetTurbidity (value : Q) (now : Z)
| CallSetPh (value : Q) (now : Z)
| CallSetTemperature (value : Q) (now : Z)
| CallSetParameters (params : PartialInputs) (now : Z)
| CallRunInference (now : Z)
| CallStartSimulation (scenario : Scenario) (startedAt now : Z)
| CallStopSimulation
| CallPauseSimulation
| CallResumeSimulation
| CallUpdateSimulation (deltaTime : Q) (now : Z)
| CallSetSimulationSpeed (speed : Q)
| CallReset (now : Z)
| CallClearHistory.

(** The call carried out. *)
Definition perform (a : Action) (st : WaterState) : Outcome :=
  match a with
  | CallSetTurbidity value now => Done (setTurbidity value now st)
  | CallSetPh value now => Done (setPh value now st)
  | CallSetTemperature value now => Done (setTemperature value now st)
  | CallSetParameters params now => Done (setParameters params now st)
  | CallRunInference now => Done (runInference now st)
  | CallStartSimulation scenario startedAt now =>
      startSimulation scenario startedAt now st
  | CallStopSimulation => Done (stopSimulation st)
  | CallPauseSimulation => Done (pauseSimulation st)
  | CallResumeSimulation => Done (resumeSimulation st)
  | CallUpdateSimulation deltaTime now => updateSimulation deltaTime now st
  | CallSetSimulationSpeed speed => Done (setSimulationSpeed speed st)
  | CallReset now => Done (reset now st)
  | CallClearHistory => Done (clearHistory st)
  end.

(** The store after a call, whether it returned or threw. *)
Definition stateOf (o : Outcome) : WaterState :=
  match o with Done st => st | Thrown st => st end.

(** The store after a sequence of calls. *)
Definition after (actions : list Action) (st : WaterState) : WaterState :=
  fold_left (fun st a => stateOf (perform a st)) actions st.

(** The parameters of the store. *)
Definition inputsOf (st : WaterState) : WaterInputs :=
  mkInputs (ws_turbidity st) (ws_ph st) (ws_temperature st).

(** On the sliders: the ranges the setters clamp to. *)
Definition onSliders (inputs : WaterInputs) : Prop :=
  0 <= turbidity inputs <= 1000 /\ 0 <= ph inputs <= 14
  /\ 0 <= temperature inputs <= 40.

(** The results shown are those of the parameters of the store. *)
Definition resultsCurrent (st : WaterState) : Prop :=
  (ws_fuzzyOutputs st = None
   \/ ws_fuzzyOutputs st = Some (runFuzzyInference (inputsOf st)))
  /\ (ws_memberships st = None
      \/ ws_memberships st = Some (getMembershipDegrees (inputsOf st))).

(** The newest point of the history records the parameters of the store
    and the results of the inference on them. *)
Definition newestCurrent (st : WaterState) : Prop :=
  match last (ws_history st) with
  | None => True
  | Some p =>
      hp_turbidity p = ws_turbidity st /\ hp_ph p = ws_ph st
      /\ hp_temperature p = ws_temperature st
      /\ hp_qualityScore p = qualityScore (runFuzzyInference (inputsOf st))
      /\ hp_operationalCost p
         = operationalCost (runFuzzyInference (inputsOf st))
  end.

(** Every keyframe of the scenario on the sliders. *)
Definition keyframesOnSliders (keyframes : list ScenarioKeyframe) : Prop :=
  forall k, In k keyframes ->
    0 <= kf_turbidity k <= 1000 /\ 0 <= kf_ph k <= 14
    /\ 0 <= kf_temperature k <= 40.

(** A call within the ranges the simulator works in: a scenario has its
    keyframes on the sliders and none before time 0, and the time that has
    passed since the last frame is not negative. *)
Definition admissible (a : Action) : Prop :=
  match a with
  | CallStartSimulation scenario _ _ =>
      keyframesOnSliders (s_keyframes scenario)
      /\ Forall (fun k => 0 <= kf_time k) (s_keyframes scenario)
  | CallUpdateSimulation deltaTime _ => 0 <= deltaTime
  | _ => True
  end.

(** What holds of the store whatever was called. *)
Definition invariant (st : WaterState) : Prop :=
  onSliders (inputsOf st)
  /\ resultsCurrent st
  /\ newestCurrent st
  /\ (length (ws_history st) <= 200)%nat
  /\ ws_maxHistoryLength st = 200%nat
  /\ 0.25 <= ws_simulationSpeed st <= 4
  /\ (ws_isSimulating st = true -> is_Some (ws_currentScenario st))
  /\ (is_Some (ws_simulationStartTime st)
      <-> is_Some (ws_currentScenario st)).

(** A scenario as the built-in ones are: keyframes in the order of their
    times, from time 0 to the duration, all on the sliders. *)
Definition wellBuilt (s : Scenario) : Prop :=
  increasing (s_keyframes s)
  /\ (exists first final,
        head (s_keyframes s) = Some first
        /\ last (s_keyframes s) = Some final
        /\ kf_time first = 0 /\ kf_time final = s_duration s)
  /\ keyframesOnSliders (s_keyframes s).

(** A store on which the storm has run for 29.9 seconds. *)
Definition lateInStorm : WaterState :=
  setSimulation true (Some STORM_SCENARIO) (Some 0%Z) 29900 DEFAULT_STATE.

(** A scenario without keyframes. *)
Definition emptyScenario : Scenario :=
  mkScenario "empty" "Empty" "No keyframes" "-" 1000 [] "#000000".

End WaterStoreSpec.

(** * The diagnostics store: clustering, animation and tour

    The part of the store that [runClustering], the animation actions and the
    tour actions read and write: the data points, the configuration, the
    result, [isRunning], [animation] and [tour].  The processed points, with
    their colours, and the selection are not part of it.  Frames and speeds
    are exact rationals. *)

Module DiagnosticsStore.

Import FCM.

Record AnimationState := mkAnimation {
  isPlaying : bool;
  currentFrame : Q;
  totalFrames : Q;
  playbackSpeed : Q
}.

(** The steps of the tour are counted in whole numbers. *)
Record TourState := mkTour {
  isActive : bool;
  currentStep : Z;
  totalSteps : Z;
  hasCompletedTour : bool
}.

Record DiagnosticsState := mkDiagnostics {
  dataPoints : list DataPoint;
  config : FCMConfig;
  result : option FCMResult;
  isRunning : bool;
  animation : AnimationState;
  tour : TourState
}.

(** [Partial<FCMConfig>]: a field that is absent is [None]. *)
Record PartialConfig := mkPartialConfig {
  p_clusterCount : option nat;
  p_fuzziness : option R;
  p_maxIterations : option nat;
  p_tolerance : option R;
  p_trackHistory : option bool
}.

Definition DEFAULT_FCM_CONFIG : FCMConfig :=
  mkConfig 3 2%R 100 (1 / 1000)%R true.

Definition DEFAULT_ANIMATION : AnimationState := mkAnimation false 0 0 2.

Definition DEFAULT_STATE : DiagnosticsState :=
  mkDiagnostics [] DEFAULT_FCM_CONFIG None false DEFAULT_ANIMATION
    (mkTour false 0 5 false).

Definition setAnimation (a : AnimationState) (st : DiagnosticsState)
  : DiagnosticsState :=
  mkDiagnostics (dataPoints st) (config st) (result st) (isRunning st) a
    (tour st).

Definition setTour (t : TourState) (st : DiagnosticsState)
  : DiagnosticsState :=
  mkDiagnostics (dataPoints st) (config st) (result st) (isRunning st)
    (animation st) t.

Definition setIsRunning (b : bool) (st : DiagnosticsState)
  : DiagnosticsState :=
  mkDiagnostics (dataPoints st) (config st) (result st) b (animation st)
    (tour st).

(** [result.iterationHistory.length]. *)
Definition historyLength (res : FCMResult) : Q :=
  inject_Z (Z.of_nat (length (iterationHistory res))).

(** [generateSynthetic]; [generated] is what [generateSyntheticData] drew. *)
Definition generateSynthetic (generated : list DataPoint)
  (st : DiagnosticsState) : DiagnosticsState :=
  mkDiagnostics generated (config st) None (isRunning st) (animation st)
    (tour st).

Definition clearData (st : DiagnosticsState) : DiagnosticsState :=
  mkDiagnostics [] (config st) None (isRunning st) DEFAULT_ANIMATION
    (tour st).

(** [{ ...state.config, ...newConfig }]. *)
Definition updateConfig (newConfig : PartialConfig) (st : DiagnosticsState)
  : DiagnosticsState :=
  mkDiagnostics (dataPoints st)
    (mkConfig
       (default (clusterCount (config st)) (p_clusterCount newConfig))
       (default (fuzziness (config st)) (p_fuzziness newConfig))
       (default (maxIterations (config st)) (p_maxIterations newConfig))
       (default (tolerance (config st)) (p_tolerance newConfig))
       (default (trackHistory (config st)) (p_trackHistory newConfig)))
    (result st) (isRunning st) (animation st) (tour st).

(** [runClustering] up to its [setTimeout]: the store it leaves and, when it
    set the timer, the data points and the configuration that the callback
    holds. *)
Definition runClustering (st : DiagnosticsState)
  : DiagnosticsState * option (list DataPoint * FCMConfig) :=
  if Nat.eqb (length (dataPoints st)) 0 then (st, None)
  else (setIsRunning true st, Some (dataPoints st, config st)).

(** [{ ...config, trackHistory: true }]. *)
Definition tracking (cfg : FCMConfig) : FCMConfig :=
  mkConfig (clusterCount cfg) (fuzziness cfg) (maxIterations cfg)
    (tolerance cfg) true.

(** The callback of the timer; [shuffled] is the order in which [runFCM]
    draws the initial centroids. *)
Definition runClusteringCallback (held : list DataPoint * FCMConfig)
  (shuffled : list DataPoint) (st : DiagnosticsState) : DiagnosticsState :=
  match runFCM shuffled (fst held) (tracking (snd held)) with
  | inr res =>
      mkDiagnostics (dataPoints st) (config st) (Some res) false
        (mkAnimation (isPlaying (animation st)) (historyLength res - 1)
           (historyLength res) (playbackSpeed (animation st)))
        (tour st)
  | inl _ => setIsRunning false st
  end.

Definition resetClustering (st : DiagnosticsState) : DiagnosticsState :=
  mkDiagnostics (dataPoints st) (config st) None (isRunning st)
    DEFAULT_ANIMATION (tour st).

Definition playAnimation (st : DiagnosticsState) : DiagnosticsState :=
  match result st with
  | Some res =>
      if Nat.eqb (length (iterationHistory res)) 0 then st
      else setAnimation
             (mkAnimation true 0 (totalFrames (animation st))
                (playbackSpeed (animation st))) st
  | None => st
  end.

Definition pauseAnimation (st : DiagnosticsState) : DiagnosticsState :=
  setAnimation
    (mkAnimation false (currentFrame (animation st))
       (totalFrames (animation st)) (playbackSpeed (animation st))) st.

Definition stopAnimation (st : DiagnosticsState) : DiagnosticsState :=
  setAnimation
    (mkAnimation false
       (match result st with
        | Some res => historyLength res - 1
        | None => 0
        end)
       (totalFrames (animation st)) (playbackSpeed (animation st))) st.

Definition stepForward (st : DiagnosticsState) : DiagnosticsState :=
  let newFrame :=
    Qmin (currentFrame (animation st) + 1)
      (totalFrames (animation st) - 1) in
  setAnimation
    (mkAnimation false newFrame (totalFrames (animation st))
       (playbackSpeed (animation st))) st.

Definition stepBackward (st : DiagnosticsState) : DiagnosticsState :=
  setAnimation
    (mkAnimation false (Qmax 0 (currentFrame (animation st) - 1))
       (totalFrames (animation st)) (playbackSpeed (animation st))) st.

Definition setAnimationFrame (frame : Q) (st : DiagnosticsState)
  : DiagnosticsState :=
  setAnimation
    (mkAnimation (isPlaying (animation st))
       (Qmax 0 (Qmin frame (totalFrames (animation st) - 1)))
       (totalFrames (animation st)) (playbackSpeed (animation st))) st.

Definition setPlaybackSpeed (fps : Q) (st : DiagnosticsState)
  : DiagnosticsState :=
  setAnimation
    (mkAnimation (isPlaying (animation st)) (currentFrame (animation st))
       (totalFrames (animation st)) (Qmax 0.5 (Qmin 10 fps))) st.

Definition startTour (st : DiagnosticsState) : DiagnosticsState :=
  setTour
    (mkTour true 0 (totalSteps (tour st)) (hasCompletedTour (tour st))) st.

Definition nextTourStep (st : DiagnosticsState) : DiagnosticsState :=
  let newStep := (currentStep (tour st) + 1)%Z in
  if (totalSteps (tour st) <=? newStep)%Z
  then setTour (mkTour false 0 (totalSteps (tour st)) true) st
  else setTour
         (mkTour (isActive (tour st)) newStep (totalSteps (tour st))
            (hasCompletedTour (tour st))) st.

Definition prevTourStep (st : DiagnosticsState) : DiagnosticsState :=
  setTour
    (mkTour (isActive (tour st)) (Z.max 0 (currentStep (tour st) - 1))
       (totalSteps (tour st)) (hasCompletedTour (tour st))) st.

Definition skipTour (st : DiagnosticsState) : DiagnosticsState :=
  setTour
    (mkTour false (currentStep (tour st)) (totalSteps (tour st)) true) st.

End DiagnosticsStore.

(** * Vocabulary for the properties of the diagnostics store *)

Module DiagnosticsSpec.

Import FCM DiagnosticsStore.

(** A call of an action of the store, or the run of a timer callback. *)
Inductive Action :=
| CallGenerateSynthetic (generated : list DataPoint)
| CallClearData
| CallUpdateConfig (newConfig : PartialConfig)
| CallRunClustering
| RunCallback (held : list DataPoint * FCMConfig)
    (shuffled : list DataPoint)
| CallResetClustering
| CallPlayAnimation
| CallPauseAnimation
| CallStopAnimation
| CallStepForward
| CallStepBackward
| CallSetAnimationFrame (frame : Q)
| CallSetPlaybackSpeed (fps : Q)
| CallStartTour
| CallNextTourStep
| CallPrevTourStep
| CallSkipTour.

(** The call carried out. *)
Definition perform (a : Action) (st : DiagnosticsState)
  : DiagnosticsState :=
  match a with
  | CallGenerateSynthetic generated => generateSynthetic generated st
  | CallClearData => clearData st
  | CallUpdateConfig newConfig => updateConfig newConfig st
  | CallRunClustering => fst (runClustering st)
  | RunCallback held shuffled => runClusteringCallback held shuffled st
  | CallResetClustering => resetClustering st
  | CallPlayAnimation => playAnimation st
  | CallPauseAnimation => pauseAnimation st
  | CallStopAnimation => stopAnimation st
  | CallStepForward => stepForward st
  | CallStepBackward => stepBackward st
  | CallSetAnimationFrame frame => setAnimationFrame frame st
  | CallSetPlaybackSpeed fps => setPlaybackSpeed fps st
  | CallStartTour => startTour st
  | CallNextTourStep => nextTourStep st
  | CallPrevTourStep => prevTourStep st
  | CallSkipTour => skipTour st
  end.

(** The store after a sequence of calls and callbacks. *)
Definition after (actions : list Action) (st : DiagnosticsState)
  : DiagnosticsState :=
  fold_left (fun st a => perform a st) actions st.

(** What holds of the animation and the tour whatever was called. *)
Definition invariant (st : DiagnosticsState) : Prop :=
  (forall res, result st = Some res ->
     totalFrames (animation st) == historyLength res)
  /\ (exists n : nat,
        totalFrames (animation st) == inject_Z (Z.of_nat n))
  /\ (1 <= totalFrames (animation st) ->
      0 <= currentFrame (animation st)
           <= totalFrames (animation st) - 1)
  /\ (totalFrames (animation st) == 0 ->
      -1 <= currentFrame (animation st) <= 0)
  /\ 0.5 <= playbackSpeed (animation st) <= 10
  /\ totalSteps (tour st) = 5%Z
  /\ (0 <= currentStep (tour st) <= 4)%Z.

End DiagnosticsSpec.

(** * The solver in double arithmetic

    The same lines of [fcm.ts] as in [FCM], with a [number] as what it is, an
    IEEE 754 binary64 value: the kernel's primitive [float], whose [+ - * /],
    square root and comparisons are those of the processor, rounding to
    nearest, ties to even, with NaN, the two zeros and the two infinities.
    This is where overflow, underflow and rounding show; [FCM] is the same
    program on exact reals. *)

Module FCMDouble.

Import FCM Floats.

Local Open Scope float_scope.

(** ** JavaScript primitives on doubles *)

(** A whole number as a double; exact below [2 ^ 53]. *)
Definition ofZ (z : Z) : float :=
  if (z <? 0)%Z then - of_uint63 (Uint63.of_Z (- z))
  else of_uint63 (Uint63.of_Z z).

(** A count as a [number]. *)
Definition ofNat (n : nat) : float := ofZ (Z.of_nat n).

(** Whether a double is an odd whole number. *)
Definition isOddInteger (x : float) : bool :=
  match Prim2SF x with
  | S754_finite _ m e =>
      if (0 <? e)%Z then false
      else
        let d := (2 ^ (- e))%Z in
        ((Z.pos m mod d =? 0) && Z.odd (Z.pos m / d))%Z
  | _ => false
  end.

(** Whether a double is a whole number. *)
Definition isInteger (x : float) : bool :=
  match Prim2SF x with
  | S754_finite _ m e =>
      if (0 <=? e)%Z then true
      else (Z.pos m mod 2 ^ (- e) =? 0)%Z
  | S754_zero _ => true
  | _ => false
  end.

Section Power.

(** What the engine returns where the language leaves the power to it: an
    approximation of [base ^ exponent] for a finite base other than 0 and a
    finite exponent other than 0. *)
Variable approximatePower : float -> float -> float.

(** [Math.pow(base, exponent)], step by step as the language defines
    [Number::exponentiate]. *)
Definition Math_pow (base exponent : float) : float :=
  if is_nan exponent then nan
  else if exponent =? 0 then 1
  else if is_nan base then nan
  else if base =? infinity then
    if 0 <? exponent then infinity else 0
  else if base =? neg_infinity then
    if 0 <? exponent
    then if isOddInteger exponent then neg_infinity else infinity
    else if isOddInteger exponent then neg_zero else 0
  else if base =? 0 then
    if get_sign base
    then
      if 0 <? exponent
      then if isOddInteger exponent then neg_zero else 0
      else if isOddInteger exponent then neg_infinity else infinity
    else if 0 <? exponent then 0 else infinity
  else if exponent =? infinity then
    if 1 <? abs base then infinity
    else if abs base =? 1 then nan else 0
  else if exponent =? neg_infinity then
    if 1 <? abs base then 0
    else if abs base =? 1 then nan else infinity
  else if (base <? 0) && negb (isInteger exponent) then nan
  else approximatePower base exponent.

(** [Math.max(a, b)]: NaN if either is, and [+0] above [-0]. *)
Definition Math_max (a b : float) : float :=
  if is_nan a || is_nan b then nan
  else if a <? b then b
  else if b <? a then a
  else if is_zero a then a + b
  else a.

(** [Math.min(a, b)]: NaN if either is, and [-0] below [+0]. *)
Definition Math_min (a b : float) : float :=
  if is_nan a || is_nan b then nan
  else if a <? b then a
  else if b <? a then b
  else if is_zero a then - (- a + - b)
  else a.

(** [Math.round]: the nearest whole number, halves towards plus infinity,
    computed exactly; a result of zero keeps the sign of a negative
    argument. *)
Definition Math_round (x : float) : float :=
  match Prim2SF x with
  | S754_finite s m e =>
      if (0 <=? e)%Z then x
      else
        let n := if s then Z.neg m else Z.pos m in
        let d := (2 ^ (- e))%Z in
        let r := ((2 * n + d) / (2 * d))%Z in
        if (r =? 0)%Z then (if s then neg_zero else 0) else ofZ r
  | _ => x
  end.

(** [x || 0] on a number: NaN and the zeros are falsy. *)
Definition orZero (x : float) : float :=
  if is_nan x || is_zero x then 0 else x.

(** [xs[i]] in arithmetic: outside the array it reads [undefined], which
    counts as NaN. *)
Definition at_ (xs : list float) (i : nat) : float := nth i xs nan.

(** [Array(k).fill(v)]. *)
Definition Array_fill (k : nat) (v : float) : list float := repeat v k.

(** [xs.reduce((a, b) => a + b, 0)]. *)
Definition reduceSum (xs : list float) : float := fold_left add xs 0.

(** ** Types of [fcm.ts] *)

Record DataPoint := mkPoint {
  id : string;
  features : list float;
  label : option string
}.

Record FCMConfig := mkConfig {
  clusterCount : nat;
  fuzziness : float;
  maxIterations : nat;
  tolerance : float;
  trackHistory : bool
}.

Record IterationState := mkIteration {
  iteration : nat;
  it_centroids : list (list float);
  it_membershipMatrix : list (list float);
  it_convergenceError : float;
  objectiveFunction : float
}.

Record FCMResult := mkResult {
  centroids : list (list float);
  membershipMatrix : list (list float);
  iterationHistory : list IterationState;
  convergenceError : float;
  iterationCount : nat;
  clusterAssignments : list Z;
  converged : bool
}.

(** ** Auxiliary functions *)

(** [p1.reduce((sum, val, i) => sum + Math.pow(val - p2[i], 2), 0)] under
    [Math.sqrt]. *)
Definition euclideanDistance (p1 p2 : list float) : FCMError + float :=
  if Nat.eqb (length p1) (length p2)
  then inr (sqrt (fold_left (fun sum vw => sum + Math_pow (fst vw - snd vw) 2)
                            (combine p1 p2) 0))
  else inl (DimensionMismatch (length p1) (length p2)).

Definition initializeCentroids (shuffled : list DataPoint) (k : nat)
  : list (list float) :=
  map features (firstn k shuffled).

Definition calculateObjectiveFunction (data : list DataPoint)
  (cs : list (list float)) (memberships : list (list float)) (m : float)
  : FCMError + float :=
  foldE (fun J pr =>
           foldE (fun J' jc =>
                    do distance <- euclideanDistance (features (fst pr))
                                                     (snd jc);
                    inr (J' + Math_pow (at_ (snd pr) (fst jc)) m
                              * Math_pow distance 2))
                 (combine (seq 0 (length cs)) cs) J)
        (combine data memberships) 0.

(** ** The membership update of one point *)

(** The inner [for l] loop: the sum so far and whether the loop was left.  A
    zero distance stores [Infinity] and leaves. *)
Definition sumRatios (distances : list float) (m : float) (k j : nat)
  : float :=
  fst (fold_left
         (fun (acc : float * bool) l =>
            if snd acc then acc
            else if at_ distances l =? 0 then (infinity, true)
            else (fst acc
                  + Math_pow (at_ distances j / at_ distances l)
                             (2 / (m - 1)),
                  false))
         (seq 0 k) (0, false)).

(** The [for j] loop over the indices [js] still to visit; a zero distance
    replaces the row and leaves the loop. *)
Fixpoint membershipLoop (distances : list float) (m : float) (k : nat)
  (js : list nat) (row : list float) : list float :=
  match js with
  | [] => row
  | j :: js' =>
      if at_ distances j =? 0
      then <[j := 1]> (Array_fill k 0)
      else membershipLoop distances m k js'
             (<[j := let s := sumRatios distances m k j in
                     if s =? infinity then 0 else 1 / s]> row)
  end.

(** [if (sum > 0)]: false on NaN, so a row that sums to NaN stays. *)
Definition normalizeRow (row : list float) : list float :=
  let sum := reduceSum row in
  if 0 <? sum then map (fun v => v / sum) row else row.

Definition updateRow (cs : list (list float)) (m : float) (k : nat)
  (p : DataPoint) (row : list float) : FCMError + list float :=
  do distances <- mapE (euclideanDistance (features p)) cs;
  inr (normalizeRow (membershipLoop distances m k (seq 0 k) row)).

Definition updateMemberships (data : list DataPoint)
  (cs : list (list float)) (m : float) (k : nat)
  (memberships : list (list float)) : FCMError + list (list float) :=
  mapE (fun pr => updateRow cs m k (fst pr) (snd pr))
       (combine data memberships).

(** ** The centroid update *)

Definition dimensionCountOf (data : list DataPoint) : nat :=
  match data with
  | p :: _ => length (features p)
  | [] => 0%nat
  end.

Definition updateCentroid (data : list DataPoint)
  (memberships : list (list float)) (m : float) (j : nat) : list float :=
  let '(newCentroid, weightSum) :=
    fold_left
      (fun acc pr =>
         let weight := Math_pow (at_ (snd pr) j) m in
         (imap (fun d v => v + weight * at_ (features (fst pr)) d)
               (fst acc),
          snd acc + weight))
      (combine data memberships)
      (Array_fill (dimensionCountOf data) 0, 0) in
  map (fun v => if 0 <? weightSum then v / weightSum else v) newCentroid.

Definition updateCentroids (data : list DataPoint)
  (memberships : list (list float)) (m : float) (k : nat)
  : list (list float) :=
  map (updateCentroid data memberships m) (seq 0 k).

(** ** The convergence check *)

Definition maxChangeOf (k : nat) (memberships prev : list (list float))
  : float :=
  fold_left
    (fun maxChange rows =>
       fold_left
         (fun maxChange' j =>
            Math_max maxChange' (abs (at_ (fst rows) j - at_ (snd rows) j)))
         (seq 0 k) maxChange)
    (combine memberships prev) 0.

(** ** The main loop *)

Record LoopState := mkLoop {
  l_centroids : list (list float);
  l_memberships : list (list float);
  l_prevMemberships : list (list float);
  l_history : list IterationState;
  l_converged : bool;
  l_iteration : nat
}.

Definition fcmPass (data : list DataPoint) (cfg : FCMConfig)
  (st : LoopState) : FCMError + (LoopState * float) :=
  let k := clusterCount cfg in
  let m := fuzziness cfg in
  do memberships <-
    updateMemberships data (l_centroids st) m k (l_memberships st);
  let cs := updateCentroids data memberships m k in
  let maxChange := maxChangeOf k memberships (l_prevMemberships st) in
  let conv := maxChange <? tolerance cfg in
  do history <-
    (if trackHistory cfg then
       do objective <- calculateObjectiveFunction data cs memberships m;
       inr (l_history st ++
              [mkIteration (l_iteration st) cs memberships maxChange
                 objective])
     else inr (l_history st));
  inr (mkLoop cs memberships memberships history conv
         (S (l_iteration st)), maxChange).

Fixpoint fcmLoop (data : list DataPoint) (cfg : FCMConfig)
  (remaining : nat) (st : LoopState) : FCMError + LoopState :=
  match remaining with
  | O => inr st
  | S remaining' =>
      if l_converged st then inr st
      else do r <- fcmPass data cfg st; fcmLoop data cfg remaining' (fst r)
  end.

(** [row.indexOf(x)], or [-1]; [===] never finds NaN. *)
Fixpoint indexOf (x : float) (row : list float) : Z :=
  match row with
  | [] => (-1)%Z
  | y :: row' =>
      if y =? x then 0%Z
      else let i := indexOf x row' in
           if (i <? 0)%Z then (-1)%Z else (i + 1)%Z
  end.

(** [row.indexOf(Math.max(...row))]; [Math.max()] of no argument is
    [-Infinity]. *)
Definition indexOfMax (row : list float) : Z :=
  indexOf (fold_left Math_max row neg_infinity) row.

Definition initialState (shuffled data : list DataPoint) (k : nat)
  : LoopState :=
  let memberships := map (fun _ => Array_fill k (1 / ofNat k)) data in
  mkLoop (initializeCentroids shuffled k) memberships memberships []
         false 0.

Definition runFCM (shuffled data : list DataPoint) (cfg : FCMConfig)
  : FCMError + FCMResult :=
  let k := clusterCount cfg in
  if Nat.eqb (length data) 0 then inl NoData
  else if Nat.ltb (length data) k
  then inl (TooManyClusters k (length data))
  else
    do st <- fcmLoop data cfg (maxIterations cfg)
                     (initialState shuffled data k);
    let finalError :=
      match trackHistory cfg, last (l_history st) with
      | true, Some s => it_convergenceError s
      | _, _ => 0
      end in
    inr (mkResult (l_centroids st) (l_memberships st) (l_history st)
           finalError (l_iteration st)
           (map indexOfMax (l_memberships st)) (l_converged st)).

End Power.

(** ** Analysis *)

(** [RiskAnalysis] without its [description] string. *)
Record RiskAnalysis := mkRisk {
  riskScore : float;
  riskCategory : RiskCategory;
  dominantCluster : Z;
  recommendation : string
}.

(** [memberships[i] || 0] for an index that may be [-1]. *)
Definition membershipOr0 (memberships : list float) (i : Z) : float :=
  if (i <? 0)%Z then 0 else orZero (at_ memberships (Z.to_nat i)).

Definition analyzeRisk (memberships : list float) : RiskAnalysis :=
  let len := Z.of_nat (length memberships) in
  let failureIndex := (len - 1)%Z in
  let alertIndex := if (2 <? len)%Z then (len - 2)%Z else 0%Z in
  let score :=
    Math_round (membershipOr0 memberships alertIndex * 40
                + membershipOr0 memberships failureIndex * 100) in
  let '(category, recommend) :=
    if score <? 20 then
      (low, "Operación normal. Continuar monitoreo estándar."%string)
    else if score <? 45 then
      (medium,
       "Programar inspección preventiva en las próximas semanas."%string)
    else if score <? 70 then
      (high,
       "Requiere inspección urgente. Considerar reducir carga operativa."%string)
    else
      (critical,
       "⚠️ ACCIÓN INMEDIATA: Programar mantenimiento correctivo antes de falla."%string) in
  mkRisk (Math_min 100 score) category (indexOfMax memberships) recommend.

End FCMDouble.

(** * Inputs for the properties in double arithmetic *)

Module FCMDoubleSpec.

Import FCM FCMDouble Floats.

Local Open Scope float_scope.

(** Two points of one feature, at the doubles nearest to [-1e308] and
    [1e308]: finite numbers whose difference is not. *)
Definition near : DataPoint :=
  mkPoint "near" [- 0x1.1ccf385ebc8a0p+1023] None.
Definition far : DataPoint :=
  mkPoint "far" [0x1.1ccf385ebc8a0p+1023] None.

(** One cluster, fuzziness 2, no history. *)
Definition singleCluster (passes : nat) (tolerance : float) : FCMConfig :=
  mkConfig 1 2 passes tolerance false.

(** The state of the loop once every membership is NaN. *)
Definition lostState (iteration : nat) : LoopState :=
  mkLoop [[nan]] [[nan]; [nan]] [[nan]; [nan]] [] false iteration.

(** An engine whose power is exact on squares, the only power these runs
    ask it for. *)
Definition squarePower (base exponent : float) : float := base * base.

(** The double just below [0.025]. *)
Definition belowFortieth : float := 0x1.9999999999999p-6.

End FCMDoubleSpec.

(** * Properties of the controller *)

Module FuzzyProps.

Import Fuzzy FuzzySpec.

Lemma Qlt_bool_iff (x y : Q) : Qlt_bool x y = true <-> x < y.
Proof.
  unfold Qlt_bool. rewrite negb_true_iff.
  destruct (Qle_bool y x) eqn:E.
  - apply Qle_bool_iff in E. split; [discriminate | lra].
  - split; [intros _ | reflexivity].
    apply Qnot_le_lt. intros H. apply Qle_bool_iff in H. congruence.
Qed.

Lemma Qlt_bool_false (x y : Q) : Qlt_bool x y = false <-> y <= x.
Proof.
  rewrite <- not_true_iff_false, Qlt_bool_iff. split; [apply Qnot_lt_le | lra].
Qed.

Lemma Qle_bool_false (x y : Q) : Qle_bool x y = false <-> y < x.
Proof.
  rewrite <- not_true_iff_false, Qle_bool_iff. split; [apply Qnot_le_lt | lra].
Qed.

Ltac qbool :=
  repeat match goal with
  | H : Qle_bool _ _ = true |- _ => apply Qle_bool_iff in H
  | H : Qle_bool _ _ = false |- _ => apply Qle_bool_false in H
  | H : Qlt_bool _ _ = true |- _ => apply Qlt_bool_iff in H
  | H : Qlt_bool _ _ = false |- _ => apply Qlt_bool_false in H
  | H : (_ || _)%bool = true |- _ => apply orb_true_iff in H
  | H : (_ || _)%bool = false |- _ => apply orb_false_iff in H; destruct H
  | H : (_ && _)%bool = true |- _ => apply andb_true_iff in H; destruct H
  | H : (_ && _)%bool = false |- _ => apply andb_false_iff in H
  end.

Lemma calculateMembership_range (v : Q) (set : TrapezoidalSet) :
  0 <= calculateMembership v set <= 1.
Proof.
  unfold calculateMembership. destruct (points set) as [[[a b] c] d].
  destruct (Qle_bool v a || Qle_bool d v)%bool eqn:E1; [lra|].
  destruct (Qle_bool b v && Qle_bool v c)%bool eqn:E2; [lra|].
  destruct (Qlt_bool a v && Qlt_bool v b)%bool eqn:E3.
  { qbool. split; [apply Qle_shift_div_l | apply Qle_shift_div_r]; lra. }
  destruct (Qlt_bool c v && Qlt_bool v d)%bool eqn:E4; [|lra].
  qbool. split; [apply Qle_shift_div_l | apply Qle_shift_div_r]; lra.
Qed.

Lemma calculateMembership_foot (set : TrapezoidalSet) :
  calculateMembership (leftFoot set) set = 0.
Proof.
  unfold calculateMembership, leftFoot. destruct (points set) as [[[a b] c] d].
  replace (Qle_bool a a) with true; [reflexivity|].
  symmetry. apply Qle_bool_iff. lra.
Qed.


Lemma getMemberships_fold_lookup (v : Q) (n : string) :
  forall (sets : list TrapezoidalSet) (m : gmap string Q),
    NoDup (map name sets) ->
    fold_left (fun memberships set =>
                 <[name set := calculateMembership v set]> memberships)
              sets m !! n
    = match namedSet sets n with
      | Some set => Some (calculateMembership v set)
      | None => m !! n
      end.
Proof.
  induction sets as [|s sets IH]; intros m Hnd; [reflexivity|].
  apply NoDup_cons in Hnd as [Hnotin Hnd]. cbn [fold_left].
  rewrite IH by assumption. unfold namedSet. cbn [List.find].
  destruct (String.eqb_spec (name s) n) as [Hs|Hne].
  - destruct (List.find _ sets) eqn:Ef.
    + apply find_some in Ef as [Hin Heq]. apply String.eqb_eq in Heq.
      exfalso. apply Hnotin. rewrite Hs, <- Heq. apply list_elem_of_In.
      apply in_map, Hin.
    + rewrite Hs. apply lookup_insert_eq.
  - destruct (List.find _ sets); [reflexivity|].
    apply lookup_insert_ne. assumption.
Qed.

Lemma getMemberships_degree (v : Q) (sets : list TrapezoidalSet) (n : string) :
  NoDup (map name sets) ->
  default 0 (getMemberships v sets !! n) = degree v sets n.
Proof.
  intros Hnd. unfold getMemberships, degree.
  rewrite getMemberships_fold_lookup by assumption.
  destruct (namedSet sets n); reflexivity.
Qed.

Lemma NoDup_turbidity : NoDup (map name TURBIDITY_SETS).
Proof. apply NoDup_ListNoDup. repeat constructor; cbn; intuition discriminate. Qed.

Lemma NoDup_ph : NoDup (map name PH_SETS).
Proof. apply NoDup_ListNoDup. repeat constructor; cbn; intuition discriminate. Qed.

Lemma NoDup_temperature : NoDup (map name TEMPERATURE_SETS).
Proof. apply NoDup_ListNoDup. repeat constructor; cbn; intuition discriminate. Qed.

Lemma Math_min_le_acc (ds : list Q) : forall d, Math_min d ds <= d.
Proof.
  unfold Math_min. induction ds as [|x ds IH]; intros d; cbn; [lra|].
  eapply Qle_trans; [apply IH|]. apply Q.le_min_l.
Qed.

Lemma Math_min_In (ds : list Q) : forall d, In (Math_min d ds) (d :: ds).
Proof.
  unfold Math_min. induction ds as [|x ds IH]; intros d; cbn; [auto|].
  destruct (IH (Qmin d x)) as [H|H].
  - rewrite <- H. unfold Qmin, GenericMinMax.gmin.
    destruct (d ?= x); auto.
  - auto.
Qed.

Lemma Math_min_lower (ds : list Q) : forall d y,
  In y (d :: ds) -> Math_min d ds <= y.
Proof.
  unfold Math_min. induction ds as [|x ds IH]; intros d y Hy; cbn.
  - destruct Hy as [->|[]]. lra.
  - destruct Hy as [->|[->|Hy]].
    + eapply Qle_trans; [apply Math_min_le_acc|]. apply Q.le_min_l.
    + eapply Qle_trans; [apply Math_min_le_acc|]. apply Q.le_min_r.
    + apply IH. right. assumption.
Qed.

Lemma pushCondition_degree (v : Q) (sets : list TrapezoidalSet)
  (c : option string) :
  NoDup (map name sets) ->
  pushCondition (getMemberships v sets) c = presentDegree v sets c.
Proof.
  intros Hnd. unfold pushCondition, presentDegree.
  destruct (truthy c); [|reflexivity].
  rewrite getMemberships_degree by assumption. reflexivity.
Qed.

Lemma ruleActivation_firing (inputs : WaterInputs) (r : FuzzyRule) :
  ruleActivation (getMemberships (turbidity inputs) TURBIDITY_SETS)
                 (getMemberships (ph inputs) PH_SETS)
                 (getMemberships (temperature inputs) TEMPERATURE_SETS) r
  = firing inputs r.
Proof.
  unfold ruleActivation, ruleConditions, firing, presentDegrees, minimumOf.
  rewrite !pushCondition_degree
    by (apply NoDup_turbidity || apply NoDup_ph || apply NoDup_temperature).
  reflexivity.
Qed.

Section RuleLoop.

Variables tm pm tpm : gmap string Q.

Let act := ruleActivation tm pm tpm.

Let step := ruleStep tm pm tpm.

Lemma ruleStep_idle (st : InferState) (r : FuzzyRule) :
  act r <= 0 -> step st r = st.
Proof.
  intros H. unfold step, ruleStep. fold (act r).
  apply Qlt_bool_false in H. rewrite H. reflexivity.
Qed.

Lemma evalRules_idle (rules : list FuzzyRule) : forall st,
  Forall (fun r => act r <= 0) rules -> fold_left step rules st = st.
Proof.
  induction rules as [|r rules IH]; intros st H; [reflexivity|].
  apply Forall_cons in H as [Hr H]. cbn. rewrite ruleStep_idle by assumption.
  apply IH, H.
Qed.

Lemma ruleStep_weight (st : InferState) (r : FuzzyRule) :
  maxPhCorrectionWeight (step st r) = maxPhCorrectionWeight st
  \/ maxPhCorrectionWeight (step st r) = act r.
Proof.
  unfold step, ruleStep. fold (act r).
  destruct (Qlt_bool 0 (act r)); [|auto]. cbn.
  destruct (Qlt_bool _ _); auto.
Qed.

Lemma evalRules_weight_below (x : Q) (rules : list FuzzyRule) : forall st,
  Forall (fun r => act r < x) rules ->
  maxPhCorrectionWeight st < x ->
  maxPhCorrectionWeight (fold_left step rules st) < x.
Proof.
  induction rules as [|r rules IH]; intros st H Hst; [assumption|].
  apply Forall_cons in H as [Hr H]. cbn. apply IH; [assumption|].
  destruct (ruleStep_weight st r) as [-> | ->]; assumption.
Qed.

Lemma evalRules_not_dominated (rules : list FuzzyRule) : forall st,
  Forall (fun r => act r <= maxPhCorrectionWeight st) rules ->
  phCorrectionLevel (fold_left step rules st) = phCorrectionLevel st
  /\ maxPhCorrectionWeight (fold_left step rules st)
     = maxPhCorrectionWeight st.
Proof.
  induction rules as [|r rules IH]; intros st H; [auto|].
  apply Forall_cons in H as [Hr H]. cbn.
  assert (Hst : phCorrectionLevel (step st r) = phCorrectionLevel st
                /\ maxPhCorrectionWeight (step st r)
                   = maxPhCorrectionWeight st).
  { unfold step, ruleStep. fold (act r).
    destruct (Qlt_bool 0 (act r)); [|auto]. cbn.
    apply Qlt_bool_false in Hr. rewrite Hr. auto. }
  destruct Hst as [Hl Hw]. rewrite <- Hl, <- Hw. apply IH.
  rewrite Hw. assumption.
Qed.

Lemma evalRules_dominant (pre post : list FuzzyRule) (r : FuzzyRule) :
  0 < act r ->
  Forall (fun r' => act r' < act r) pre ->
  Forall (fun r' => act r' <= act r) post ->
  phCorrectionLevel (evalRules tm pm tpm (pre ++ r :: post))
  = o_phCorrection (outputs r).
Proof.
  intros Hpos Hpre Hpost. unfold evalRules. rewrite fold_left_app.
  cbn [fold_left]. fold step.
  pose proof (evalRules_weight_below (act r) pre initState Hpre Hpos) as Hw.
  set (st1 := fold_left step pre initState) in *.
  assert (Hst : phCorrectionLevel (step st1 r) = o_phCorrection (outputs r)
                /\ maxPhCorrectionWeight (step st1 r) = act r).
  { unfold step, ruleStep. fold (act r).
    apply Qlt_bool_iff in Hpos, Hw. rewrite Hpos. cbn. rewrite Hw. auto. }
  destruct Hst as [Hl Hm].
  destruct (evalRules_not_dominated post (step st1 r)) as [Hl' _].
  { rewrite Hm. assumption. }
  exact (eq_trans Hl' Hl).
Qed.

Lemma evalRules_activations (rules : list FuzzyRule) : forall st,
  st_ruleActivations (fold_left step rules st)
  = st_ruleActivations st
    ++ map (fun r => mkActivation (id r) (rule_name r) (act r)
                       (conditions r) (outputs r))
           (List.filter (fun r => Qlt_bool 0 (act r)) rules).
Proof.
  induction rules as [|r rules IH]; intros st; cbn [fold_left List.filter map].
  - rewrite app_nil_r. reflexivity.
  - rewrite IH. unfold step, ruleStep. fold (act r).
    destruct (Qlt_bool 0 (act r)); cbn; [|reflexivity].
    rewrite <- app_assoc. reflexivity.
Qed.

End RuleLoop.

Lemma Math_round_comp (x y : Q) : x == y -> Math_round x = Math_round y.
Proof. intros H. unfold Math_round. apply Qfloor_comp. rewrite H. reflexivity. Qed.

Lemma qualityScore_formula (inputs : WaterInputs) :
  qualityScore (runFuzzyInference inputs)
  = qualityFormula inputs
      (processFactorOf (rawDose FUZZY_RULES inputs) (turbidity inputs)).
Proof.
  lazy beta iota zeta
    delta [runFuzzyInference runFuzzyInferenceWith qualityScore rawDose
           qualityFormula clampScore].
  generalize (processFactorOf
                (defuzzify (doseActivations (inferState FUZZY_RULES inputs))
                           DOSE_SETS) (turbidity inputs)).
  intros pf. do 2 f_equal. apply Math_round_comp. ring.
Qed.

Lemma getMemberships_all_zero (v : Q) (sets : list TrapezoidalSet) (n : string) :
  Forall (fun set => calculateMembership v set = 0) sets ->
  default 0 (getMemberships v sets !! n) = 0.
Proof.
  intros H. unfold getMemberships.
  assert (G : forall m : gmap string Q, default 0 (m !! n) = 0 ->
    default 0 (fold_left (fun memberships set =>
       <[name set := calculateMembership v set]> memberships) sets m !! n) = 0).
  { induction H as [|s sets Hs H IH]; intros m Hm; [assumption|].
    cbn [fold_left]. apply IH.
    destruct (decide (name s = n)) as [->|Hne].
    - rewrite lookup_insert_eq. assumption.
    - rewrite lookup_insert_ne by assumption. assumption. }
  apply G. reflexivity.
Qed.

Lemma turbidity_sets_zero (t : Q) :
  t <= 0 -> Forall (fun set => calculateMembership t set = 0) TURBIDITY_SETS.
Proof.
  intros Ht. repeat constructor; unfold calculateMembership; cbn [points];
    match goal with
    | |- context [Qle_bool t ?a] =>
        replace (Qle_bool t a) with true
          by (symmetry; apply Qle_bool_iff; lra)
    end; reflexivity.
Qed.

Lemma rules_have_turbidity :
  Forall (fun r => hasTurbidityCondition r = true) FUZZY_RULES.
Proof. repeat constructor. Qed.

Lemma rawDose_idle (rules : list FuzzyRule) (inputs : WaterInputs) :
  Forall (fun r => firing inputs r <= 0) rules ->
  rawDose rules inputs = 0.
Proof.
  intros H. unfold rawDose, inferState, evalRules.
  rewrite evalRules_idle; [reflexivity|].
  eapply List.Forall_impl; [|exact H]. intros r Hr. cbn beta.
  rewrite ruleActivation_firing. assumption.
Qed.

Lemma firing_no_turbidity (inputs : WaterInputs) (r : FuzzyRule) :
  turbidity inputs <= 0 -> hasTurbidityCondition r = true ->
  firing inputs r <= 0.
Proof.
  intros Ht Hr. rewrite <- ruleActivation_firing.
  unfold ruleActivation, ruleConditions, pushCondition at 1.
  unfold hasTurbidityCondition in Hr.
  destruct (truthy (c_turbidity (conditions r))); [|discriminate].
  rewrite getMemberships_all_zero by (apply turbidity_sets_zero, Ht).
  cbn [app]. apply Math_min_le_acc.
Qed.

Lemma rawDose_no_turbidity (inputs : WaterInputs) :
  turbidity inputs <= 0 -> rawDose FUZZY_RULES inputs = 0.
Proof.
  intros Ht. apply rawDose_idle.
  eapply List.Forall_impl; [|exact rules_have_turbidity].
  intros r Hr. apply firing_no_turbidity; assumption.
Qed.

(** C2, amended.  The quality score is the clamped, rounded weighted sum
    of the three factors, where the process factor is
    [min(100, dose / turbidity * 500)] when the defuzzified dose (before it
    is rounded for output) is positive and 50 otherwise.  When
    [turbidity <= 0] no rule fires, the dose is 0 and the factor is 50; a
    positive dose implies [turbidity > 0]. *)
Theorem qualityScore_by_dose (inputs : WaterInputs) :
  qualityScore (runFuzzyInference inputs)
  = qualityFormula inputs
      (if Qlt_bool 0 (rawDose FUZZY_RULES inputs)
       then Qmin 100 (rawDose FUZZY_RULES inputs / turbidity inputs * 500)
       else 50)
  /\ (turbidity inputs <= 0 ->
      qualityScore (runFuzzyInference inputs) = qualityFormula inputs 50)
  /\ (0 < rawDose FUZZY_RULES inputs -> 0 < turbidity inputs).
Proof.
  split; [|split].
  - rewrite qualityScore_formula. unfold processFactorOf. reflexivity.
  - intros Ht. rewrite qualityScore_formula. unfold processFactorOf.
    rewrite rawDose_no_turbidity by assumption.
    change (Qlt_bool 0 0) with false. cbv iota. reflexivity.
  - intros Hd. apply Qnot_le_lt. intros Ht.
    rewrite rawDose_no_turbidity in Hd by assumption. lra.
Qed.

(** C2: the amended statement at turbidity 0 and at turbidity 800. *)
Lemma qualityScore_by_dose_witness :
  qualityScore (runFuzzyInference (mkInputs 0 7 22)) = 90%Z
  /\ 0 < turbidity (mkInputs 800 7 22).
Proof.
  split.
  - apply (proj1 (proj2 (qualityScore_by_dose (mkInputs 0 7 22)))).
    vm_compute. discriminate.
  - apply (proj2 (proj2 (qualityScore_by_dose (mkInputs 800 7 22)))).
    vm_compute. reflexivity.
Defined.

(** C2, as stated, fails at [turbidity = 5], [ph = 12],
    [temperature = 22]: no rule fires, so the dose is 0 and the code takes
    the midpoint 50 although [turbidity > 0]; the score is 67, where the
    selection by [turbidity > 0] gives 57. *)
Lemma qualityScore_turbidity_selector_fails :
  let inputs := mkInputs 5 12 22 in
  let out := runFuzzyInference inputs in
  0 < turbidity inputs
  /\ qualityScore out = 67%Z
  /\ statedQualityScore inputs (coagulantDose out) = 57%Z
  /\ statedQualityScore inputs (rawDose FUZZY_RULES inputs) = 57%Z.
Proof. vm_compute. repeat split; reflexivity. Qed.

Lemma inferState_activations (rules : list FuzzyRule) (inputs : WaterInputs) :
  st_ruleActivations (inferState rules inputs)
  = map (activationOf inputs)
        (List.filter (fun r => Qlt_bool 0 (firing inputs r)) rules).
Proof.
  unfold inferState, evalRules. rewrite evalRules_activations.
  cbn [st_ruleActivations initState app].
  induction rules as [|r rules IH]; [reflexivity|].
  cbn [List.filter]. rewrite ruleActivation_firing.
  destruct (Qlt_bool 0 (firing inputs r)); cbn [map];
    rewrite ?ruleActivation_firing, IH; reflexivity.
Qed.

Lemma inferState_dominant (inputs : WaterInputs)
  (pre post : list FuzzyRule) (r : FuzzyRule) :
  0 < firing inputs r ->
  Forall (fun r' => firing inputs r' < firing inputs r) pre ->
  Forall (fun r' => firing inputs r' <= firing inputs r) post ->
  phCorrectionLevel (inferState (pre ++ r :: post) inputs)
  = o_phCorrection (outputs r).
Proof.
  intros Hr Hpre Hpost. unfold inferState.
  apply evalRules_dominant; rewrite ?ruleActivation_firing; [assumption| |].
  - eapply List.Forall_impl; [|exact Hpre]. intros r' H. cbn beta.
    rewrite ruleActivation_firing. assumption.
  - eapply List.Forall_impl; [|exact Hpost]. intros r' H. cbn beta.
    rewrite ruleActivation_firing. assumption.
Qed.

Lemma inferState_idle (inputs : WaterInputs) (rules : list FuzzyRule) :
  Forall (fun r => firing inputs r <= 0) rules ->
  inferState rules inputs = initState.
Proof.
  intros H. unfold inferState, evalRules. apply evalRules_idle.
  eapply List.Forall_impl; [|exact H]. intros r Hr. cbn beta.
  rewrite ruleActivation_firing. assumption.
Qed.

(** C7.  For every rule base and input: the activation the loop computes
    for a rule is the minimum of the membership degrees of the rule's present
    conditions (it is below each of them and is one of them), and 0 for a
    rule without conditions; the activation records are those of the rules
    of positive strength; and [phCorrection] is that of the rule whose
    strength is positive, strictly above the strength of every earlier rule
    and not below that of any later rule, or [none] when no rule fires. *)
Theorem firing_strength_and_dominant_rule
  (rules : list FuzzyRule) (inputs : WaterInputs) :
  let out := runFuzzyInferenceWith rules inputs in
  (forall r,
      ruleActivation (getMemberships (turbidity inputs) TURBIDITY_SETS)
                     (getMemberships (ph inputs) PH_SETS)
                     (getMemberships (temperature inputs) TEMPERATURE_SETS) r
      = minimumOf (presentDegrees inputs r))
  /\ (forall r d, In d (presentDegrees inputs r) ->
                  minimumOf (presentDegrees inputs r) <= d)
  /\ (forall r, presentDegrees inputs r <> [] ->
                In (minimumOf (presentDegrees inputs r))
                   (presentDegrees inputs r))
  /\ (forall r, presentDegrees inputs r = [] ->
                minimumOf (presentDegrees inputs r) = 0)
  /\ ruleActivations out
     = sortActivations
         (map (activationOf inputs)
              (List.filter (fun r => Qlt_bool 0 (firing inputs r)) rules))
  /\ (forall pre r post,
        rules = pre ++ r :: post ->
        0 < firing inputs r ->
        Forall (fun r' => firing inputs r' < firing inputs r) pre ->
        Forall (fun r' => firing inputs r' <= firing inputs r) post ->
        phCorrection out = o_phCorrection (outputs r))
  /\ (Forall (fun r => firing inputs r <= 0) rules ->
      phCorrection out = none).
Proof.
  cbv zeta. repeat apply conj.
  - intros r. apply ruleActivation_firing.
  - intros r d Hd. unfold minimumOf.
    destruct (presentDegrees inputs r) as [|x xs]; [contradiction|].
    apply Math_min_lower, Hd.
  - intros r Hne. unfold minimumOf.
    destruct (presentDegrees inputs r) as [|x xs]; [congruence|].
    apply Math_min_In.
  - intros r ->. reflexivity.
  - change (ruleActivations (runFuzzyInferenceWith rules inputs))
      with (sortActivations (st_ruleActivations (inferState rules inputs))).
    rewrite inferState_activations. reflexivity.
  - intros pre r post -> Hr Hpre Hpost.
    change (phCorrection (runFuzzyInferenceWith (pre ++ r :: post) inputs))
      with (phCorrectionLevel (inferState (pre ++ r :: post) inputs)).
    apply inferState_dominant; assumption.
  - intros H.
    change (phCorrection (runFuzzyInferenceWith rules inputs))
      with (phCorrectionLevel (inferState rules inputs)).
    rewrite inferState_idle by assumption. reflexivity.
Qed.

(** C7 at [(170, 5.8, 12)], where rules 6 and 8 tie at 0.6 and rule 6,
    the earlier one, decides; and at [(5, 12, 22)], where no rule fires. *)
Lemma firing_strength_and_dominant_rule_witness :
  phCorrection (runFuzzyInference (mkInputs 170 5.8 12)) = moderate
  /\ phCorrection (runFuzzyInference (mkInputs 5 12 22)) = none.
Proof.
  split.
  - pose proof (firing_strength_and_dominant_rule FUZZY_RULES
                  (mkInputs 170 5.8 12)) as H.
    cbv zeta in H. destruct H as (_ & _ & _ & _ & _ & H & _).
    apply (H (firstn 5 FUZZY_RULES) (nth 5 FUZZY_RULES (rule 0 "" None None None "" "" none 0))
             (skipn 6 FUZZY_RULES)).
    + reflexivity.
    + vm_compute. reflexivity.
    + repeat constructor; vm_compute; reflexivity.
    + repeat constructor; vm_compute; discriminate.
  - pose proof (firing_strength_and_dominant_rule FUZZY_RULES
                  (mkInputs 5 12 22)) as H.
    cbv zeta in H. destruct H as (_ & _ & _ & _ & _ & _ & H).
    apply H. repeat constructor; vm_compute; discriminate.
Defined.

(** C4.  At the left foot of a set with [a = b] the code answers 0, not
    1: [value <= a] is tested before the plateau.  The same holds at the
    right foot of a set with [c = d], and at either foot of any set. *)
Theorem degenerate_edge_membership :
  calculateMembership 0 (mkSet "muy_baja" (0, 0, 5, 15)) = 0
  /\ calculateMembership 1000 (mkSet "muy_alta" (400, 600, 1000, 1000)) = 0
  /\ (forall set, calculateMembership (leftFoot set) set = 0)
  /\ (forall set, calculateMembership (rightFoot set) set = 0).
Proof.
  split; [reflexivity|]. split; [reflexivity|]. split.
  - apply calculateMembership_foot.
  - intros set. unfold calculateMembership, rightFoot.
    destruct (points set) as [[[a b] c] d].
    replace (Qle_bool d d) with true by (symmetry; apply Qle_bool_iff; lra).
    rewrite orb_true_r. reflexivity.
Qed.




Lemma calculateMembership_left (v : Q) (set : TrapezoidalSet) :
  v <= leftFoot set -> calculateMembership v set = 0.
Proof.
  unfold calculateMembership, leftFoot. destruct (points set) as [[[a b] c] d].
  intros H. apply Qle_bool_iff in H. rewrite H. reflexivity.
Qed.

Lemma calculateMembership_right (v : Q) (set : TrapezoidalSet) :
  rightFoot set <= v -> calculateMembership v set = 0.
Proof.
  unfold calculateMembership, rightFoot. destruct (points set) as [[[a b] c] d].
  intros H. apply Qle_bool_iff in H. rewrite H, orb_true_r. reflexivity.
Qed.

Lemma calculateMembership_support (v : Q) (set : TrapezoidalSet) :
  0 < calculateMembership v set <-> leftFoot set < v /\ v < rightFoot set.
Proof.
  split.
  - intros H. split; apply Qnot_le_lt; intros C.
    + rewrite calculateMembership_left in H by assumption. lra.
    + rewrite calculateMembership_right in H by assumption. lra.
  - unfold calculateMembership, leftFoot, rightFoot.
    destruct (points set) as [[[a b] c] d]. intros [Ha Hd].
    destruct (Qle_bool v a || Qle_bool d v)%bool eqn:E1.
    { qbool. destruct E1; qbool; lra. }
    destruct (Qle_bool b v && Qle_bool v c)%bool eqn:E2; [lra|].
    destruct (Qlt_bool a v && Qlt_bool v b)%bool eqn:E3.
    { qbool. apply Qlt_shift_div_l; lra. }
    destruct (Qlt_bool c v && Qlt_bool v d)%bool eqn:E4.
    { qbool. apply Qlt_shift_div_l; lra. }
    qbool. destruct E2, E3, E4; qbool; lra.
Qed.

Lemma calculateMembership_rising (v1 v2 : Q) (set : TrapezoidalSet) :
  ordered set -> v1 <= v2 -> v2 <= rightShoulder set -> v2 < rightFoot set ->
  calculateMembership v1 set <= calculateMembership v2 set.
Proof.
  intros Hord H12 Hc Hd.
  destruct (Qlt_le_dec (leftFoot set) v1) as [Ha|Ha].
  2:{ rewrite (calculateMembership_left v1) by assumption.
      apply calculateMembership_range. }
  revert Hord Hc Hd Ha.
  unfold calculateMembership, ordered, leftFoot, rightFoot, rightShoulder.
  destruct (points set) as [[[a b] c] d]. intros (Hab & Hbc & Hcd) Hc Hd Ha.
  replace (Qle_bool v1 a || Qle_bool d v1)%bool with false
    by (symmetry; apply orb_false_iff; split; apply Qle_bool_false; lra).
  replace (Qle_bool v2 a || Qle_bool d v2)%bool with false
    by (symmetry; apply orb_false_iff; split; apply Qle_bool_false; lra).
  destruct (Qle_bool b v2 && Qle_bool v2 c)%bool eqn:E2.
  - destruct (Qle_bool b v1 && Qle_bool v1 c)%bool eqn:E1; [lra|].
    destruct (Qlt_bool a v1 && Qlt_bool v1 b)%bool eqn:E3.
    + qbool. apply Qle_shift_div_r; lra.
    + qbool. destruct E1, E3; qbool; lra.
  - assert (Hv2 : v2 < b) by (qbool; destruct E2; qbool; lra).
    replace (Qle_bool b v1 && Qle_bool v1 c)%bool with false
      by (symmetry; apply andb_false_iff; left; apply Qle_bool_false; lra).
    replace (Qlt_bool a v1 && Qlt_bool v1 b)%bool with true
      by (symmetry; apply andb_true_iff; split; apply Qlt_bool_iff; lra).
    replace (Qlt_bool a v2 && Qlt_bool v2 b)%bool with true
      by (symmetry; apply andb_true_iff; split; apply Qlt_bool_iff; lra).
    apply Qmult_le_compat_r; [lra|]. apply Qinv_le_0_compat. lra.
Qed.

Lemma calculateMembership_falling (v1 v2 : Q) (set : TrapezoidalSet) :
  ordered set -> v1 <= v2 -> leftShoulder set <= v1 -> leftFoot set < v1 ->
  calculateMembership v2 set <= calculateMembership v1 set.
Proof.
  intros Hord H12 Hb Ha.
  destruct (Qlt_le_dec v2 (rightFoot set)) as [Hd|Hd].
  2:{ rewrite (calculateMembership_right v2) by assumption.
      apply calculateMembership_range. }
  revert Hord Hb Ha Hd.
  unfold calculateMembership, ordered, leftFoot, rightFoot, leftShoulder.
  destruct (points set) as [[[a b] c] d]. intros (Hab & Hbc & Hcd) Hb Ha Hd.
  replace (Qle_bool v1 a || Qle_bool d v1)%bool with false
    by (symmetry; apply orb_false_iff; split; apply Qle_bool_false; lra).
  replace (Qle_bool v2 a || Qle_bool d v2)%bool with false
    by (symmetry; apply orb_false_iff; split; apply Qle_bool_false; lra).
  destruct (Qle_bool b v1 && Qle_bool v1 c)%bool eqn:E1.
  - destruct (Qle_bool b v2 && Qle_bool v2 c)%bool eqn:E2; [lra|].
    destruct (Qlt_bool a v2 && Qlt_bool v2 b)%bool eqn:E3.
    { qbool. lra. }
    destruct (Qlt_bool c v2 && Qlt_bool v2 d)%bool eqn:E4; [|lra].
    qbool. apply Qle_shift_div_r; lra.
  - assert (Hv1 : c < v1) by (qbool; destruct E1; qbool; lra).
    replace (Qle_bool b v2 && Qle_bool v2 c)%bool with false
      by (symmetry; apply andb_false_iff; right; apply Qle_bool_false; lra).
    replace (Qlt_bool a v1 && Qlt_bool v1 b)%bool with false
      by (symmetry; apply andb_false_iff; right; apply Qlt_bool_false; lra).
    replace (Qlt_bool a v2 && Qlt_bool v2 b)%bool with false
      by (symmetry; apply andb_false_iff; right; apply Qlt_bool_false; lra).
    replace (Qlt_bool c v1 && Qlt_bool v1 d)%bool with true
      by (symmetry; apply andb_true_iff; split; apply Qlt_bool_iff; lra).
    replace (Qlt_bool c v2 && Qlt_bool v2 d)%bool with true
      by (symmetry; apply andb_true_iff; split; apply Qlt_bool_iff; lra).
    apply Qmult_le_compat_r; [lra|]. apply Qinv_le_0_compat. lra.
Qed.

(** Two sets, the lower one [lo] left of the upper one [hi]: as the value
    grows, weight moves from [lo] to [hi]. *)
Lemma membership_shift (lo hi : TrapezoidalSet) (v1 v2 : Q) :
  ordered lo -> ordered hi ->
  leftShoulder lo <= leftFoot hi -> rightFoot lo <= rightShoulder hi ->
  v1 <= v2 ->
  calculateMembership v1 hi * calculateMembership v2 lo
  <= calculateMembership v1 lo * calculateMembership v2 hi.
Proof.
  intros Hlo Hhi Hb Hd H12.
  pose proof (calculateMembership_range v1 lo) as R1.
  pose proof (calculateMembership_range v2 hi) as R2.
  destruct (Qlt_le_dec 0 (calculateMembership v2 lo)) as [P2|P2].
  2:{ assert (E : calculateMembership v2 lo == 0)
        by (pose proof (calculateMembership_range v2 lo); lra).
      rewrite E. nra. }
  destruct (Qlt_le_dec 0 (calculateMembership v1 hi)) as [P1|P1].
  2:{ assert (E : calculateMembership v1 hi == 0)
        by (pose proof (calculateMembership_range v1 hi); lra).
      rewrite E. nra. }
  apply calculateMembership_support in P1, P2. destruct P1 as [A1 D1], P2 as [A2 D2].
  assert (Hc : rightShoulder hi <= rightFoot hi).
  { unfold ordered, rightShoulder, rightFoot in *.
    destruct (points hi) as [[[a b] c] d]. tauto. }
  assert (Ha : leftFoot lo <= leftShoulder lo).
  { unfold ordered, leftShoulder, leftFoot in *.
    destruct (points lo) as [[[a b] c] d]. tauto. }
  assert (M1 : calculateMembership v1 hi <= calculateMembership v2 hi)
    by (apply calculateMembership_rising; try assumption; lra).
  assert (M2 : calculateMembership v2 lo <= calculateMembership v1 lo)
    by (apply calculateMembership_falling; try assumption; lra).
  pose proof (calculateMembership_range v1 hi).
  pose proof (calculateMembership_range v2 lo).
  nra.
Qed.

Section DoseLookup.

Variables tm pm tpm : gmap string Q.

Let step := ruleStep tm pm tpm.

Lemma evalRules_dose_key (s : string) (rules : list FuzzyRule) : forall st,
  default 0 (doseActivations (fold_left step rules st) !! s)
  = fold_left (doseKeyStep tm pm tpm s) rules (default 0 (doseActivations st !! s)).
Proof.
  induction rules as [|r rules IH]; intros st; [reflexivity|].
  cbn [fold_left]. rewrite IH. f_equal.
  unfold step, ruleStep, doseKeyStep.
  destruct (Qlt_bool 0 (ruleActivation tm pm tpm r)).
  - cbn [doseActivations].
    destruct (String.eqb_spec (dose (outputs r)) s) as [E|E]; cbn [andb].
    + rewrite E, lookup_insert_eq. reflexivity.
    + rewrite lookup_insert_ne by assumption. reflexivity.
  - rewrite andb_false_r. reflexivity.
Qed.

Lemma doseKey_keeps (s : string) (x : Q) (rules : list FuzzyRule) :
  0 <= x -> Forall (writesOnly tm pm tpm s x) rules ->
  forall acc,
    (acc == 0 \/ acc == x ->
     fold_left (doseKeyStep tm pm tpm s) rules acc == 0
     \/ fold_left (doseKeyStep tm pm tpm s) rules acc == x)
    /\ (acc == x -> fold_left (doseKeyStep tm pm tpm s) rules acc == x).
Proof.
  intros Hx H. induction H as [|r rules Hr H IH]; intros acc; [tauto|].
  cbn [fold_left]. destruct (IH (doseKeyStep tm pm tpm s acc r)) as [IH1 IH2].
  unfold doseKeyStep in *.
  destruct (String.eqb (dose (outputs r)) s) eqn:Es; cbn [andb] in *; [|tauto].
  destruct (Qlt_bool 0 (ruleActivation tm pm tpm r)) eqn:E; [|tauto]. apply Qlt_bool_iff in E.
  destruct Hr as [Hr|[Hr|Hr]]; [congruence|lra|].
  assert (G : acc == 0 \/ acc == x -> Qmax acc (ruleActivation tm pm tpm r) == x).
  { intros Ha. rewrite Q.max_r; [assumption|]. destruct Ha; lra. }
  split; intros Ha; [right|]; apply IH2, G; tauto.
Qed.

Lemma doseKey_value (s : string) (x : Q) (pre post : list FuzzyRule)
  (r : FuzzyRule) :
  0 <= x ->
  Forall (writesOnly tm pm tpm s x) (pre ++ r :: post) ->
  String.eqb (dose (outputs r)) s = true -> ruleActivation tm pm tpm r == x ->
  fold_left (doseKeyStep tm pm tpm s) (pre ++ r :: post) 0 == x.
Proof.
  intros Hx H Hs Hr. apply Forall_app in H as [Hpre H].
  apply Forall_cons in H as [_ Hpost].
  rewrite fold_left_app. cbn [fold_left].
  destruct (doseKey_keeps s x pre Hx Hpre 0) as [K _].
  specialize (K (or_introl (Qeq_refl 0))).
  apply (doseKey_keeps s x post Hx Hpost). unfold doseKeyStep at 1.
  rewrite Hs. cbn [andb].
  destruct (Qlt_bool 0 (ruleActivation tm pm tpm r)) eqn:E.
  - apply Qlt_bool_iff in E.
    rewrite Q.max_r; [assumption|]. destruct K; lra.
  - apply Qlt_bool_false in E. destruct K as [K|K]; rewrite K; lra.
Qed.

End DoseLookup.

Lemma degree_range (v : Q) (sets : list TrapezoidalSet) (n : string) :
  0 <= degree v sets n <= 1.
Proof.
  unfold degree. destruct (namedSet sets n); [|lra].
  apply calculateMembership_range.
Qed.

Ltac slice_rule :=
  unfold writesOnly; rewrite ruleActivation_firing;
  unfold firing, presentDegrees, presentDegree, minimumOf, sliceInputs;
  cbn -[degree];
  first
    [ left; reflexivity
    | right; left;
      (eapply Qle_trans; [apply Q.le_min_r|]); vm_compute; discriminate
    | right; right; apply Q.min_l;
      (eapply Qle_trans; [apply (proj2 (degree_range _ _ _))|]);
      vm_compute; discriminate ].

Ltac slice_key i :=
  apply (doseKey_value _ _ _ _ _ (firstn i FUZZY_RULES)
           (skipn (S i) FUZZY_RULES) (nth i FUZZY_RULES noRule));
  [ apply (proj1 (degree_range _ _ _))
  | unfold FUZZY_RULES; cbn [firstn skipn nth app];
    repeat (apply List.Forall_cons; [slice_rule|]); apply List.Forall_nil
  | reflexivity
  | unfold FUZZY_RULES; cbn [nth]; rewrite ruleActivation_firing;
    unfold firing, presentDegrees, presentDegree, minimumOf, sliceInputs;
    cbn -[degree]; apply Q.min_l;
    (eapply Qle_trans; [apply (proj2 (degree_range _ _ _))|]);
    vm_compute; discriminate ].

Lemma slice_dose_lookup (t : Q) (k : nat) :
  (k < 5)%nat ->
  let s := name (nth k DOSE_SETS (mkSet "" (0, 0, 0, 0))) in
  default 0 (doseActivations (inferState FUZZY_RULES (sliceInputs t)) !! s)
  == degree t TURBIDITY_SETS s.
Proof.
  intros Hk. cbv zeta. unfold inferState, evalRules.
  rewrite evalRules_dose_key.
  change (default 0 (doseActivations initState !! _)) with 0.
  destruct k as [|[|[|[|[|k]]]]]; [| | | | |lia]; cbn [nth DOSE_SETS name].
  - slice_key 0%nat.
  - slice_key 3%nat.
  - slice_key 4%nat.
  - slice_key 8%nat.
  - slice_key 12%nat.
Qed.

Lemma Qlt_bool_comp (x y x' y' : Q) :
  x == x' -> y == y' -> Qlt_bool x y = Qlt_bool x' y'.
Proof.
  intros Hx Hy.
  destruct (Qlt_bool x y) eqn:E1, (Qlt_bool x' y') eqn:E2; try reflexivity;
    qbool; lra.
Qed.

Lemma centroidOf_comp (n d n' d' : Q) :
  n == n' -> d == d' -> centroidOf n d == centroidOf n' d'.
Proof.
  intros Hn Hd. unfold centroidOf.
  rewrite (Qlt_bool_comp 0 d 0 d') by (assumption || reflexivity).
  destruct (Qlt_bool 0 d'); [|reflexivity]. rewrite Hn, Hd. reflexivity.
Qed.

Lemma defuzzify_fold (acts : gmap string Q) (sets : list TrapezoidalSet) :
  Forall (fun set => 0 <= default 0 (acts !! name set)) sets ->
  forall acc,
    fst (fold_left (defuzzifyStep acts) sets acc)
    == fst acc + weightedCenters (fun s => default 0 (acts !! s)) sets
    /\ snd (fold_left (defuzzifyStep acts) sets acc)
       == snd acc + totalActivation (fun s => default 0 (acts !! s)) sets.
Proof.
  intros H. induction H as [|set sets Hs H IH]; intros acc;
    cbn [fold_left weightedCenters totalActivation fold_right].
  - split; ring.
  - destruct (IH (defuzzifyStep acts acc set)) as [IH1 IH2].
    rewrite IH1, IH2. unfold defuzzifyStep.
    fold (weightedCenters (fun s => default 0 (acts !! s)) sets).
    fold (totalActivation (fun s => default 0 (acts !! s)) sets).
    destruct (Qlt_bool 0 (default 0 (acts !! name set))) eqn:E;
      cbn [fst snd]; [split; ring|].
    apply Qlt_bool_false in E.
    assert (Z : default 0 (acts !! name set) == 0) by lra.
    rewrite Z. split; ring.
Qed.

Lemma defuzzify_centroid (acts : gmap string Q) (sets : list TrapezoidalSet) :
  Forall (fun set => 0 <= default 0 (acts !! name set)) sets ->
  defuzzify acts sets
  == centroidOf (weightedCenters (fun s => default 0 (acts !! s)) sets)
                (totalActivation (fun s => default 0 (acts !! s)) sets).
Proof.
  intros H. unfold defuzzify.
  destruct (defuzzify_fold acts sets H (0, 0)) as [Hn Hd].
  destruct (fold_left (defuzzifyStep acts) sets (0, 0)) as [n d].
  cbn [fst snd] in Hn, Hd.
  change (if Qlt_bool 0 d then n / d else 0) with (centroidOf n d).
  apply centroidOf_comp; [rewrite Hn|rewrite Hd]; ring.
Qed.

Lemma rawDose_slice (t : Q) :
  rawDose FUZZY_RULES (sliceInputs t)
  == centroidOf (sliceNumerator t) (sliceDenominator t).
Proof.
  unfold rawDose.
  pose proof (slice_dose_lookup t 0 ltac:(lia)) as H0.
  pose proof (slice_dose_lookup t 1 ltac:(lia)) as H1.
  pose proof (slice_dose_lookup t 2 ltac:(lia)) as H2.
  pose proof (slice_dose_lookup t 3 ltac:(lia)) as H3.
  pose proof (slice_dose_lookup t 4 ltac:(lia)) as H4.
  cbv zeta in H0, H1, H2, H3, H4. cbn [nth DOSE_SETS name] in H0, H1, H2, H3, H4.
  change (degree t TURBIDITY_SETS "muy_baja") with (mu 0 t) in H0.
  change (degree t TURBIDITY_SETS "baja") with (mu 1 t) in H1.
  change (degree t TURBIDITY_SETS "media") with (mu 2 t) in H2.
  change (degree t TURBIDITY_SETS "alta") with (mu 3 t) in H3.
  change (degree t TURBIDITY_SETS "muy_alta") with (mu 4 t) in H4.
  pose proof (calculateMembership_range t (nth 0 TURBIDITY_SETS (mkSet "" (0, 0, 0, 0)))) as R0.
  pose proof (calculateMembership_range t (nth 1 TURBIDITY_SETS (mkSet "" (0, 0, 0, 0)))) as R1.
  pose proof (calculateMembership_range t (nth 2 TURBIDITY_SETS (mkSet "" (0, 0, 0, 0)))) as R2.
  pose proof (calculateMembership_range t (nth 3 TURBIDITY_SETS (mkSet "" (0, 0, 0, 0)))) as R3.
  pose proof (calculateMembership_range t (nth 4 TURBIDITY_SETS (mkSet "" (0, 0, 0, 0)))) as R4.
  fold (mu 0 t) in R0. fold (mu 1 t) in R1. fold (mu 2 t) in R2.
  fold (mu 3 t) in R3. fold (mu 4 t) in R4.
  set (acts := doseActivations (inferState FUZZY_RULES (sliceInputs t))) in *.
  rewrite defuzzify_centroid.
  - apply centroidOf_comp; unfold weightedCenters, totalActivation,
      sliceNumerator, sliceDenominator; cbn [fold_right DOSE_SETS name];
      rewrite H0, H1, H2, H3, H4; unfold center; cbn [points]; field.
  - unfold DOSE_SETS. repeat (apply List.Forall_cons; [cbn [name]; lra|]).
    apply List.Forall_nil.
Qed.

Lemma mu_range (k : nat) (t : Q) : 0 <= mu k t <= 1.
Proof. apply calculateMembership_range. Qed.

Lemma mu_shift (j i : nat) (t1 t2 : Q) :
  (j < i < 5)%nat -> t1 <= t2 -> mu i t1 * mu j t2 <= mu j t1 * mu i t2.
Proof.
  intros Hji H12. unfold mu.
  assert (C : ((j = 0 /\ i = 1) \/ (j = 0 /\ i = 2) \/ (j = 0 /\ i = 3)
              \/ (j = 0 /\ i = 4) \/ (j = 1 /\ i = 2) \/ (j = 1 /\ i = 3)
              \/ (j = 1 /\ i = 4) \/ (j = 2 /\ i = 3) \/ (j = 2 /\ i = 4)
              \/ (j = 3 /\ i = 4))%nat) by lia.
  repeat destruct C as [C|C]; destruct C as [-> ->];
    apply membership_shift; try assumption;
    vm_compute; repeat split; discriminate.
Qed.

Lemma mu_nonpositive (k : nat) (t : Q) : t <= 0 -> mu k t == 0.
Proof.
  intros Ht. unfold mu.
  destruct k as [|[|[|[|[|[|k]]]]]];
    rewrite calculateMembership_left; try reflexivity;
    unfold leftFoot; cbn [nth TURBIDITY_SETS points]; lra.
Qed.

Lemma sliceDenominator_positive (t : Q) :
  0 < t -> t < 1000 -> 0 < sliceDenominator t.
Proof.
  intros H0 H1. unfold sliceDenominator.
  pose proof (mu_range 0 t). pose proof (mu_range 1 t).
  pose proof (mu_range 2 t). pose proof (mu_range 3 t).
  pose proof (mu_range 4 t).
  assert (P : 0 < mu 0 t \/ 0 < mu 1 t \/ 0 < mu 2 t \/ 0 < mu 3 t
              \/ 0 < mu 4 t).
  { unfold mu.
    destruct (Qlt_le_dec t 12); [left|right].
    { apply calculateMembership_support. unfold leftFoot, rightFoot.
      cbn [nth TURBIDITY_SETS points]. lra. }
    destruct (Qlt_le_dec t 55); [left|right].
    { apply calculateMembership_support. unfold leftFoot, rightFoot.
      cbn [nth TURBIDITY_SETS points]. lra. }
    destruct (Qlt_le_dec t 175); [left|right].
    { apply calculateMembership_support. unfold leftFoot, rightFoot.
      cbn [nth TURBIDITY_SETS points]. lra. }
    destruct (Qlt_le_dec t 450); [left|right].
    { apply calculateMembership_support. unfold leftFoot, rightFoot.
      cbn [nth TURBIDITY_SETS points]. lra. }
    apply calculateMembership_support. unfold leftFoot, rightFoot.
    cbn [nth TURBIDITY_SETS points]. lra. }
  lra.
Qed.

Lemma sliceNumerator_bounds (t : Q) :
  0 <= sliceNumerator t.
Proof.
  unfold sliceNumerator.
  pose proof (mu_range 0 t). pose proof (mu_range 1 t).
  pose proof (mu_range 2 t). pose proof (mu_range 3 t).
  pose proof (mu_range 4 t). lra.
Qed.

Lemma slice_cross (t1 t2 : Q) :
  t1 <= t2 ->
  sliceNumerator t1 * sliceDenominator t2
  <= sliceNumerator t2 * sliceDenominator t1.
Proof.
  intros H. unfold sliceNumerator, sliceDenominator.
  pose proof (mu_shift 0 1 t1 t2 ltac:(lia) H).
  pose proof (mu_shift 0 2 t1 t2 ltac:(lia) H).
  pose proof (mu_shift 0 3 t1 t2 ltac:(lia) H).
  pose proof (mu_shift 0 4 t1 t2 ltac:(lia) H).
  pose proof (mu_shift 1 2 t1 t2 ltac:(lia) H).
  pose proof (mu_shift 1 3 t1 t2 ltac:(lia) H).
  pose proof (mu_shift 1 4 t1 t2 ltac:(lia) H).
  pose proof (mu_shift 2 3 t1 t2 ltac:(lia) H).
  pose proof (mu_shift 2 4 t1 t2 ltac:(lia) H).
  pose proof (mu_shift 3 4 t1 t2 ltac:(lia) H).
  generalize dependent (mu 0 t1). generalize dependent (mu 1 t1).
  generalize dependent (mu 2 t1). generalize dependent (mu 3 t1).
  generalize dependent (mu 4 t1).
  generalize dependent (mu 0 t2). generalize dependent (mu 1 t2).
  generalize dependent (mu 2 t2). generalize dependent (mu 3 t2).
  generalize dependent (mu 4 t2). intros. nra.
Qed.

Lemma Qdiv_le_cross (a b c d : Q) :
  0 < b -> 0 < d -> a * d <= c * b -> a / b <= c / d.
Proof.
  intros Hb Hd H. apply Qle_shift_div_l; [assumption|].
  assert (E : a / b * d == a * d / b) by (field; lra).
  rewrite E. apply Qle_shift_div_r; assumption.
Qed.

Lemma centroid_slice_monotone (t1 t2 : Q) :
  t1 <= t2 -> t2 < 1000 ->
  centroidOf (sliceNumerator t1) (sliceDenominator t1)
  <= centroidOf (sliceNumerator t2) (sliceDenominator t2).
Proof.
  intros H12 H2. unfold centroidOf.
  destruct (Qlt_le_dec 0 t2) as [P2|P2].
  - pose proof (sliceDenominator_positive t2 P2 H2) as S2.
    pose proof (sliceNumerator_bounds t2) as N2.
    replace (Qlt_bool 0 (sliceDenominator t2)) with true
      by (symmetry; apply Qlt_bool_iff; assumption).
    destruct (Qlt_bool 0 (sliceDenominator t1)) eqn:E1.
    + apply Qlt_bool_iff in E1.
      apply Qdiv_le_cross; try assumption. apply slice_cross, H12.
    + apply Qle_shift_div_l; [assumption|]. lra.
  - assert (Z : forall t, t <= 0 -> Qlt_bool 0 (sliceDenominator t) = false).
    { intros t Ht. apply Qlt_bool_false. unfold sliceDenominator.
      rewrite !mu_nonpositive by assumption. lra. }
    rewrite !Z by lra. lra.
Qed.

Lemma Math_round_monotone (x y : Q) : x <= y -> (Math_round x <= Math_round y)%Z.
Proof. intros H. unfold Math_round. apply Qfloor_resp_le. lra. Qed.

Lemma coagulantDose_rounded (inputs : WaterInputs) :
  coagulantDose (runFuzzyInference inputs)
  = inject_Z (Math_round (rawDose FUZZY_RULES inputs * 10)) / 10.
Proof.
  lazy beta iota zeta
    delta [runFuzzyInference runFuzzyInferenceWith coagulantDose rawDose].
  reflexivity.
Qed.

(** C8, amended.  With [ph = 7] and [temperature = 22], the coagulant
    dose does not decrease as the turbidity grows, as long as the larger
    turbidity stays below 1000, the end of the last turbidity set. *)
Theorem coagulantDose_monotone_below_1000 (t1 t2 : Q) :
  t1 <= t2 -> t2 < 1000 ->
  coagulantDose (runFuzzyInference (mkInputs t1 7 22))
  <= coagulantDose (runFuzzyInference (mkInputs t2 7 22)).
Proof.
  intros H12 H2. rewrite !coagulantDose_rounded.
  apply Qmult_le_compat_r; [|vm_compute; discriminate].
  rewrite <- Zle_Qle. apply Math_round_monotone.
  apply Qmult_le_compat_r; [|lra].
  change (mkInputs t1 7 22) with (sliceInputs t1).
  change (mkInputs t2 7 22) with (sliceInputs t2).
  rewrite !rawDose_slice. apply centroid_slice_monotone; assumption.
Qed.

(** C8: the amended statement between turbidity 55 and 170. *)
Lemma coagulantDose_monotone_below_1000_witness :
  coagulantDose (runFuzzyInference (mkInputs 55 7 22))
  <= coagulantDose (runFuzzyInference (mkInputs 170 7 22)).
Proof.
  apply (coagulantDose_monotone_below_1000 55 170); vm_compute;
    [discriminate|reflexivity].
Defined.

(** C8, as stated, fails between turbidity 999 and 1001: past the last
    turbidity set every membership is 0, no rule fires and the dose falls
    from 95 to 0. *)
Lemma coagulantDose_drops_past_catalogue :
  let low := coagulantDose (runFuzzyInference (mkInputs 999 7 22)) in
  let high := coagulantDose (runFuzzyInference (mkInputs 1001 7 22)) in
  999 <= 1001 /\ low == 95 /\ high == 0 /\ ~ low <= high.
Proof. vm_compute. repeat split; discriminate || auto. Qed.

(** No evaluation of the membership function divides by zero, on any set:
    a division is reached only strictly inside an edge. *)
Lemma membershipDivisor_positive (value : Q) (set : TrapezoidalSet) (q : Q) :
  membershipDivisor value set = Some q -> 0 < q.
Proof.
  unfold membershipDivisor. destruct (points set) as [[[a b] c] d].
  destruct (Qle_bool value a || Qle_bool d value); [discriminate|].
  destruct (Qle_bool b value && Qle_bool value c); [discriminate|].
  destruct (Qlt_bool a value && Qlt_bool value b) eqn:E1.
  - intros [= <-]. apply andb_true_iff in E1 as [H1 H2].
    apply Qlt_bool_iff in H1, H2. lra.
  - destruct (Qlt_bool c value && Qlt_bool value d) eqn:E2; [|discriminate].
    intros [= <-]. apply andb_true_iff in E2 as [H1 H2].
    apply Qlt_bool_iff in H1, H2. lra.
Qed.

(** The result is the quotient by that divisor when there is one, and 0 or
    1 otherwise. *)
Lemma calculateMembership_divides (value : Q) (set : TrapezoidalSet) :
  match membershipDivisor value set with
  | Some q =>
      calculateMembership value set = (value - leftFoot set) / q
      \/ calculateMembership value set = (rightFoot set - value) / q
  | None =>
      calculateMembership value set = 0 \/ calculateMembership value set = 1
  end.
Proof.
  unfold membershipDivisor, calculateMembership, leftFoot, rightFoot.
  destruct (points set) as [[[a b] c] d].
  destruct (Qle_bool value a || Qle_bool d value); [left; reflexivity|].
  destruct (Qle_bool b value && Qle_bool value c); [right; reflexivity|].
  destruct (Qlt_bool a value && Qlt_bool value b); [left; reflexivity|].
  destruct (Qlt_bool c value && Qlt_bool value d); [right; reflexivity|].
  left; reflexivity.
Qed.

End FuzzyProps.

(** * Properties of the solver *)

Module FCMProps.

Import FCM FCMSpec.

Local Open Scope R_scope.

Lemma fold_left_Rplus (xs : list R) : forall a, fold_left Rplus xs a = a + rowSum xs.
Proof.
  induction xs as [|x xs IH]; intros a; cbn; [lra|]. rewrite IH.
  lra.
Qed.

Lemma reduceSum_rowSum (xs : list R) : reduceSum xs = rowSum xs.
Proof. unfold reduceSum. rewrite fold_left_Rplus. lra. Qed.

Lemma rowSum_nonneg (xs : list R) : Forall (fun x => 0 <= x) xs -> 0 <= rowSum xs.
Proof. induction 1; cbn; lra. Qed.

Lemma rowSum_ge_entry (xs : list R) (j : nat) (x : R) :
  Forall (fun x => 0 <= x) xs -> xs !! j = Some x -> x <= rowSum xs.
Proof.
  intros H. revert j. induction H as [|y xs Hy H IH]; intros j Hj.
  - discriminate.
  - pose proof (rowSum_nonneg xs H). destruct j as [|j]; cbn in *.
    + injection Hj as ->. lra.
    + specialize (IH j Hj). lra.
Qed.

Lemma rowSum_map_div (xs : list R) (s : R) :
  rowSum (map (fun v => v / s) xs) = rowSum xs / s.
Proof. induction xs as [|x xs IH]; cbn; [lra|]. rewrite IH. lra. Qed.

Lemma rowSum_repeat (v : R) (k : nat) : rowSum (repeat v k) = INR k * v.
Proof.
  induction k as [|k IH]; [cbn; lra|].
  rewrite S_INR. cbn [repeat rowSum]. rewrite IH. lra.
Qed.

Lemma Rdiv_nonneg (x y : R) : 0 <= x -> 0 < y -> 0 <= x / y.
Proof.
  intros Hx Hy. unfold Rdiv. apply Rmult_le_pos; [assumption|].
  left. apply Rinv_0_lt_compat, Hy.
Qed.

Lemma Rdiv_le_one (x y : R) : x <= y -> 0 < y -> x / y <= 1.
Proof.
  intros Hx Hy. replace 1 with (y / y) by (field; lra).
  unfold Rdiv. apply Rmult_le_compat_r; [|assumption].
  left. apply Rinv_0_lt_compat, Hy.
Qed.

Lemma normalizeRow_good (k : nat) (row : list R) (j : nat) (x : R) :
  length row = k -> Forall (fun x => 0 <= x) row ->
  row !! j = Some x -> 0 < x ->
  goodRow k (normalizeRow row).
Proof.
  intros Hlen Hpos Hj Hx. unfold normalizeRow. rewrite reduceSum_rowSum.
  pose proof (rowSum_ge_entry row j x Hpos Hj) as Hs.
  destruct (Rlt_dec 0 (rowSum row)) as [_|C]; [|lra].
  repeat split.
  - rewrite length_map. assumption.
  - apply Forall_map. apply Forall_lookup_2. intros i y Hi. cbn beta.
    pose proof (rowSum_ge_entry row i y Hpos Hi).
    assert (0 <= y) by (eapply (Forall_lookup_1 _ _ _ _ Hpos); eassumption).
    split.
    + apply Rdiv_nonneg; lra.
    + apply Rdiv_le_one; lra.
  - rewrite rowSum_map_div. field. lra.
Qed.

Lemma Math_pow_nonneg (x y : R) : 0 <= Math_pow x y.
Proof.
  unfold Math_pow. destruct (Req_dec_T x 0); [lra|].
  left. apply exp_pos.
Qed.

Lemma Math_pow_pos (x y : R) : x <> 0 -> 0 < Math_pow x y.
Proof.
  intros H. unfold Math_pow. destruct (Req_dec_T x 0); [contradiction|].
  apply exp_pos.
Qed.

Section MembershipUpdate.

Variables (distances : list R) (m : R) (k : nat).

Lemma ratio_fold_None (j : nat) (ls : list nat) :
  fold_left (ratioStep distances m j) ls None = None.
Proof. induction ls as [|l ls IH]; [reflexivity|exact IH]. Qed.

Lemma ratio_fold_bounds (j : nat) (ls : list nat) : forall acc s,
  nth j distances 0 <> 0 ->
  fold_left (ratioStep distances m j) ls (Some acc) = Some s ->
  acc <= s /\ (ls <> [] -> acc < s).
Proof.
  intros acc s Hj. revert acc.
  induction ls as [|l ls IH]; intros acc H; cbn in H.
  - injection H as ->. split; [lra|congruence].
  - destruct (Req_dec_T (nth l distances 0) 0) as [E|E].
    + rewrite ratio_fold_None in H. discriminate.
    + apply IH in H as [H _].
      assert (P : 0 < Math_pow (nth j distances 0 / nth l distances 0)
                             (2 / (m - 1))).
      { apply Math_pow_pos. unfold Rdiv. apply Rmult_integral_contrapositive.
        split; [assumption|]. apply Rinv_neq_0_compat, E. }
      split; [lra|intros _; lra].
Qed.

Lemma ratio_fold_total (j : nat) (ls : list nat) : forall acc,
  Forall (fun l => nth l distances 0 <> 0) ls ->
  exists s, fold_left (ratioStep distances m j) ls (Some acc) = Some s.
Proof.
  induction ls as [|l ls IH]; intros acc H; cbn; [eauto|].
  apply Forall_cons in H as [Hl H].
  destruct (Req_dec_T (nth l distances 0) 0); [contradiction|].
  apply IH, H.
Qed.

Lemma written_nonneg (j : nat) :
  nth j distances 0 <> 0 -> 0 <= written distances m k j.
Proof.
  intros Hj. unfold written, sumRatios. fold (ratioStep distances m j).
  destruct (fold_left (ratioStep distances m j) (seq 0 k) (Some 0)) as [s|] eqn:E; [|lra].
  apply ratio_fold_bounds in E as [E _]; [|assumption].
  destruct (Req_dec_T s 0) as [->|N].
  - unfold Rdiv. rewrite Rinv_0. lra.
  - apply Rdiv_nonneg; lra.
Qed.

Lemma written_pos (j : nat) :
  (0 < k)%nat -> (forall l, (l < k)%nat -> nth l distances 0 <> 0) ->
  (j < k)%nat -> 0 < written distances m k j.
Proof.
  intros Hk Hall Hj. unfold written, sumRatios. fold (ratioStep distances m j).
  destruct (ratio_fold_total j (seq 0 k) 0) as [s E].
  { apply Forall_forall. intros l Hl. apply Hall.
    apply list_elem_of_In, in_seq in Hl. lia. }
  rewrite E. apply ratio_fold_bounds in E as [_ E]; [|apply Hall, Hj].
  assert (0 < s) by (apply E; destruct k; [lia|discriminate]).
  unfold Rdiv. rewrite Rmult_1_l. apply Rinv_0_lt_compat. assumption.
Qed.

Lemma Array_fill_length (n : nat) (v : R) : length (Array_fill n v) = n.
Proof. apply repeat_length. Qed.

Lemma membershipLoop_length (js : list nat) : forall row,
  length row = k -> length (membershipLoop distances m k js row) = k.
Proof.
  induction js as [|j js IH]; intros row H; cbn; [assumption|].
  destruct (Req_dec_T (nth j distances 0) 0).
  - rewrite length_insert. apply Array_fill_length.
  - apply IH. rewrite length_insert. assumption.
Qed.

Lemma membershipLoop_nonneg (js : list nat) : forall row,
  Forall (fun x => 0 <= x) row ->
  Forall (fun x => 0 <= x) (membershipLoop distances m k js row).
Proof.
  induction js as [|j js IH]; intros row H; cbn; [assumption|].
  destruct (Req_dec_T (nth j distances 0) 0).
  - apply Forall_insert; [|lra]. apply Forall_forall.
    intros x Hx. apply list_elem_of_In, repeat_spec in Hx. lra.
  - apply IH. apply Forall_insert; [assumption|].
    apply written_nonneg. assumption.
Qed.

(** Visiting the indices [a .. a+n-1], the last ones of the row, when no
    earlier index has a zero distance, leaves a positive entry. *)
Lemma membershipLoop_positive (n : nat) : forall a row,
  (0 < n)%nat -> (a + n = k)%nat -> length row = k ->
  (forall l, (l < a)%nat -> nth l distances 0 <> 0) ->
  exists j x,
    membershipLoop distances m k (seq a n) row !! j = Some x /\ 0 < x.
Proof.
  induction n as [|n IH]; intros a row Hn Hk Hlen Hbefore; [lia|].
  cbn [seq membershipLoop].
  destruct (Req_dec_T (nth a distances 0) 0) as [E|E].
  - exists a, 1. split; [|lra]. apply list_lookup_insert_eq.
    rewrite Array_fill_length. lia.
  - destruct n as [|n].
    + cbn [seq membershipLoop]. exists a, (written distances m k a). split.
      * apply list_lookup_insert_eq. lia.
      * apply written_pos; [lia| |lia]. intros l Hl.
        destruct (Nat.eq_dec l a) as [->|]; [assumption|].
        apply Hbefore. lia.
    + apply IH; [lia|lia|rewrite length_insert; assumption|].
      intros l Hl. destruct (Nat.eq_dec l a) as [->|]; [assumption|].
      apply Hbefore. lia.
Qed.

End MembershipUpdate.

Lemma updateRow_good (cs : list (list R)) (m : R) (k : nat)
  (p : DataPoint) (row row' : list R) :
  (0 < k)%nat -> length row = k -> Forall (fun x => 0 <= x) row ->
  updateRow cs m k p row = inr row' -> goodRow k row'.
Proof.
  intros Hk Hlen Hpos. unfold updateRow.
  destruct (mapE (euclideanDistance (features p)) cs) as [e|distances];
    cbn [bindE]; [discriminate|].
  intros H. injection H as <-.
  destruct (membershipLoop_positive distances m k k 0 row) as (j & x & Hj & Hx);
    try assumption; try lia.
  eapply normalizeRow_good; try eassumption.
  - apply membershipLoop_length. assumption.
  - apply membershipLoop_nonneg. assumption.
Qed.

Lemma goodRow_nonneg (k : nat) (row : list R) :
  goodRow k row -> Forall (fun x => 0 <= x) row.
Proof.
  intros (_ & H & _). eapply List.Forall_impl; [|exact H].
  cbn beta. intros x Hx. lra.
Qed.

Lemma mapE_Forall2 {A B : Type} (f : A -> FCMError + B) (l : list A) :
  forall l', mapE f l = inr l' -> Forall2 (fun a b => f a = inr b) l l'.
Proof.
  induction l as [|a l IH]; intros l' H; cbn in H.
  - injection H as <-. constructor.
  - destruct (f a) as [e|b] eqn:Ea; cbn [bindE] in H; [discriminate|].
    destruct (mapE f l) as [e|bs]; cbn [bindE] in H; [discriminate|].
    injection H as <-. constructor; [assumption|]. apply IH. reflexivity.
Qed.

Lemma combine_lookup {A B : Type} (l : list A) (l' : list B) (i : nat)
  (x : A) (y : B) :
  combine l l' !! i = Some (x, y) <-> l !! i = Some x /\ l' !! i = Some y.
Proof.
  revert l' i. induction l as [|a l IH]; intros [|b l'] [|i]; cbn;
    try (split; [discriminate|intros []; discriminate]).
  - split; [intros [= -> ->]; auto|intros [[= ->] [= ->]]; reflexivity].
  - apply IH.
Qed.

Lemma updateMemberships_good (data : list DataPoint) (cs : list (list R))
  (m : R) (k : nat) (memberships memberships' : list (list R)) :
  (0 < k)%nat -> length memberships = length data ->
  Forall (goodRow k) memberships ->
  updateMemberships data cs m k memberships = inr memberships' ->
  length memberships' = length data /\ Forall (goodRow k) memberships'.
Proof.
  intros Hk Hlen Hgood H. unfold updateMemberships in H.
  apply mapE_Forall2 in H. split.
  - apply Forall2_length in H. rewrite <- H, length_combine. lia.
  - apply Forall_lookup_2. intros i row' Hi.
    destruct (Forall2_lookup_r _ _ _ _ _ H Hi) as ([p row] & Hpr & Hup).
    apply combine_lookup in Hpr. cbn [fst snd] in *.
    destruct Hpr as [_ Hrow].
    pose proof (Forall_lookup_1 _ _ _ _ Hgood Hrow) as Hg.
    eapply updateRow_good; [exact Hk| |apply (goodRow_nonneg k), Hg|exact Hup].
    apply Hg.
Qed.

Lemma uniformRow_good (k : nat) :
  (0 < k)%nat -> goodRow k (Array_fill k (1 / INR k)).
Proof.
  intros Hk. assert (0 < INR k) by (apply lt_0_INR; lia).
  unfold Array_fill. repeat split.
  - apply repeat_length.
  - apply Forall_forall. intros x Hx.
    apply list_elem_of_In, repeat_spec in Hx. subst x. split.
    + apply Rdiv_nonneg; lra.
    + apply Rdiv_le_one; [|assumption].
      replace 1 with (INR 1) by reflexivity. apply le_INR. lia.
  - rewrite rowSum_repeat. field. lra.
Qed.

Lemma initialState_good (shuffled data : list DataPoint) (k : nat) :
  (0 < k)%nat -> rowsGood k (length data) (initialState shuffled data k).
Proof.
  intros Hk. unfold rowsGood, initialState. cbn. repeat split.
  - apply length_map.
  - apply Forall_map, Forall_forall. intros p _. apply uniformRow_good, Hk.
  - constructor.
Qed.

Lemma fcmPass_good (data : list DataPoint) (cfg : FCMConfig)
  (st st' : LoopState) (mc : R) :
  (0 < clusterCount cfg)%nat ->
  rowsGood (clusterCount cfg) (length data) st ->
  fcmPass data cfg st = inr (st', mc) ->
  rowsGood (clusterCount cfg) (length data) st'.
Proof.
  intros Hk (Hlen & Hrows & Hhist). unfold fcmPass.
  destruct (updateMemberships data (l_centroids st) (fuzziness cfg)
              (clusterCount cfg) (l_memberships st)) as [e|ms] eqn:Eu;
    cbn [bindE]; [discriminate|].
  apply updateMemberships_good in Eu as [Hlen' Hrows']; try assumption.
  destruct (trackHistory cfg).
  - destruct (calculateObjectiveFunction data _ ms (fuzziness cfg)) as [e|J];
      cbn [bindE]; [discriminate|].
    intros [= <- _]. unfold rowsGood. cbn. repeat split; try assumption.
    apply Forall_app. split; [assumption|]. repeat constructor. assumption.
  - cbn [bindE]. intros [= <- _]. unfold rowsGood. cbn.
    repeat split; assumption.
Qed.

Lemma fcmLoop_good (data : list DataPoint) (cfg : FCMConfig)
  (remaining : nat) : forall st st',
  (0 < clusterCount cfg)%nat ->
  rowsGood (clusterCount cfg) (length data) st ->
  fcmLoop data cfg remaining st = inr st' ->
  rowsGood (clusterCount cfg) (length data) st'.
Proof.
  induction remaining as [|r IH]; intros st st' Hk Hst H; cbn in H.
  - injection H as <-. assumption.
  - destruct (l_converged st); [injection H as <-; assumption|].
    destruct (fcmPass data cfg st) as [e|[st1 mc]] eqn:Ep; cbn [bindE] in H;
      [discriminate|].
    eapply IH; [assumption| |exact H].
    eapply fcmPass_good; eassumption.
Qed.

Lemma runFCM_inv (shuffled data : list DataPoint) (cfg : FCMConfig)
  (res : FCMResult) :
  runFCM shuffled data cfg = inr res ->
  exists st,
    fcmLoop data cfg (maxIterations cfg)
      (initialState shuffled data (clusterCount cfg)) = inr st
    /\ data <> []
    /\ (clusterCount cfg <= length data)%nat
    /\ res = mkResult (l_centroids st) (l_memberships st) (l_history st)
               (match trackHistory cfg, last (l_history st) with
                | true, Some s => it_convergenceError s
                | _, _ => 0
                end)
               (l_iteration st) (map indexOfMax (l_memberships st))
               (l_converged st).
Proof.
  unfold runFCM.
  destruct (Nat.eqb_spec (length data) 0) as [E|E]; [discriminate|].
  destruct (Nat.ltb_spec (length data) (clusterCount cfg)) as [L|L];
    [discriminate|].
  destruct (fcmLoop data cfg (maxIterations cfg) _) as [e|st];
    cbn [bindE]; [discriminate|].
  intros [= <-]. exists st. repeat split; try assumption; try reflexivity.
  destruct data; [contradiction|discriminate].
Qed.

Lemma goodRow_rowOK (k : nat) (row : list R) : goodRow k row -> rowOK row.
Proof.
  intros (_ & H & S). split; [|assumption].
  rewrite S. replace (1 - 1) with 0 by lra. rewrite Rabs_R0.
  apply Rdiv_nonneg; [lra|]. apply pow_lt. lra.
Qed.

(** The rows in exact arithmetic.  When [runFCM] returns, with
    [1 <= clusterCount <= n] and [fuzziness > 1], every row of the membership
    matrix, and of every snapshot of the history, sums to 1 within 1e-9 and
    has its entries in [0, 1].  This is what the formula gives over the
    reals; the doubles of the code can leave it, which the properties in
    double arithmetic show. *)
Theorem membership_rows_normalised
  (shuffled data : list DataPoint) (cfg : FCMConfig) (res : FCMResult) :
  (1 <= clusterCount cfg)%nat -> 1 < fuzziness cfg ->
  (clusterCount cfg <= length data)%nat ->
  runFCM shuffled data cfg = inr res ->
  Forall rowOK (membershipMatrix res)
  /\ Forall (fun it => Forall rowOK (it_membershipMatrix it))
            (iterationHistory res).
Proof.
  intros Hk _ _ H. apply runFCM_inv in H as (st & Hloop & _ & _ & ->).
  apply fcmLoop_good in Hloop as (_ & Hrows & Hhist);
    [| lia | apply initialState_good; lia].
  cbn [membershipMatrix iterationHistory]. split.
  - eapply List.Forall_impl; [|exact Hrows]. apply goodRow_rowOK.
  - eapply List.Forall_impl; [|exact Hhist]. cbn beta. intros it Hit.
    eapply List.Forall_impl; [|exact Hit]. apply goodRow_rowOK.
Qed.

Lemma euclideanDistance_ok (p1 p2 : list R) :
  length p1 = length p2 -> exists d, euclideanDistance p1 p2 = inr d.
Proof.
  intros H. unfold euclideanDistance. rewrite H, Nat.eqb_refl. eauto.
Qed.

Lemma euclideanDistance_mismatch (p1 p2 : list R) :
  length p1 <> length p2 ->
  euclideanDistance p1 p2 = inl (DimensionMismatch (length p1) (length p2)).
Proof.
  intros H. unfold euclideanDistance.
  destruct (Nat.eqb_spec (length p1) (length p2)); [contradiction|reflexivity].
Qed.

Lemma mapE_ok {A B : Type} (f : A -> FCMError + B) (l : list A) :
  Forall (fun a => exists b, f a = inr b) l -> exists l', mapE f l = inr l'.
Proof.
  induction 1 as [|a l [b Hb] _ [l' IH]]; cbn; [eauto|].
  rewrite Hb, IH. cbn. eauto.
Qed.

Lemma foldE_ok {A B : Type} (f : B -> A -> FCMError + B) (l : list A) :
  (forall b, Forall (fun a => exists b', f b a = inr b') l) ->
  forall b, exists b', foldE f l b = inr b'.
Proof.
  intros H. induction l as [|a l IH]; intros b; cbn; [eauto|].
  destruct (proj1 (Forall_cons _ _ _) (H b)) as [[b' Hb'] _].
  rewrite Hb'. cbn. apply IH. intros b0.
  apply (proj1 (Forall_cons _ _ _) (H b0)).
Qed.

Lemma updateMemberships_ok (D : nat) (data : list DataPoint)
  (cs : list (list R)) (m : R) (k : nat) (memberships : list (list R)) :
  uniformDim D data -> centroidsDim D cs ->
  exists ms, updateMemberships data cs m k memberships = inr ms.
Proof.
  intros Hd Hc. unfold updateMemberships. apply mapE_ok.
  apply Forall_forall. intros [p row] Hin. cbn [fst snd].
  apply list_elem_of_In, in_combine_l in Hin.
  assert (Hp : length (features p) = D).
  { eapply (proj1 (List.Forall_forall _ _) Hd), Hin. }
  unfold updateRow.
  destruct (mapE_ok (euclideanDistance (features p)) cs) as [ds ->].
  - eapply List.Forall_impl; [|exact Hc]. cbn beta. intros c Hcl.
    apply euclideanDistance_ok. congruence.
  - cbn. eauto.
Qed.

Lemma updateCentroid_length (data : list DataPoint)
  (memberships : list (list R)) (m : R) (j : nat) :
  length (updateCentroid data memberships m j) = dimensionCountOf data.
Proof.
  unfold updateCentroid.
  assert (G : forall prs acc,
            length (fst (fold_left
              (fun acc pr =>
                 let weight := Math_pow (nth j (snd pr) 0) m in
                 (imap (fun d v => v + weight * nth d (features (fst pr)) 0)
                       (fst acc), snd acc + weight))
              prs acc)) = length (fst acc)).
  { induction prs as [|pr prs IH]; intros acc; [reflexivity|].
    cbn [fold_left]. rewrite IH. cbn [fst]. apply length_imap. }
  specialize (G (combine data memberships)
                (Array_fill (dimensionCountOf data) 0, 0)).
  destruct (fold_left _ _ _) as [nc ws]. cbn [fst] in G.
  rewrite length_map, G. apply Array_fill_length.
Qed.

Lemma updateCentroids_dim (D : nat) (data : list DataPoint)
  (memberships : list (list R)) (m : R) (k : nat) :
  data <> [] -> uniformDim D data ->
  centroidsDim D (updateCentroids data memberships m k).
Proof.
  intros Hne Hd. unfold centroidsDim, updateCentroids.
  apply Forall_map, Forall_forall. intros j _. cbn beta.
  rewrite updateCentroid_length.
  destruct data as [|p data]; [contradiction|].
  apply Forall_cons in Hd as [Hp _]. exact Hp.
Qed.

Lemma calculateObjectiveFunction_ok (D : nat) (data : list DataPoint)
  (cs : list (list R)) (memberships : list (list R)) (m : R) :
  uniformDim D data -> centroidsDim D cs ->
  exists J, calculateObjectiveFunction data cs memberships m = inr J.
Proof.
  intros Hd Hc. unfold calculateObjectiveFunction. apply foldE_ok.
  intros J. apply Forall_forall. intros [p row] Hin. cbn [fst snd].
  apply list_elem_of_In, in_combine_l in Hin.
  assert (Hp : length (features p) = D).
  { eapply (proj1 (List.Forall_forall _ _) Hd), Hin. }
  apply foldE_ok. intros J'. apply Forall_forall. intros [j c] Hjc.
  cbn [fst snd]. apply list_elem_of_In, in_combine_r in Hjc.
  assert (Hcl : length c = D).
  { eapply (proj1 (List.Forall_forall _ _) Hc), Hjc. }
  destruct (euclideanDistance_ok (features p) c) as [d ->]; [congruence|].
  cbn. eauto.
Qed.

Lemma fcmPass_ok (D : nat) (data : list DataPoint) (cfg : FCMConfig)
  (st : LoopState) :
  data <> [] -> uniformDim D data -> centroidsDim D (l_centroids st) ->
  exists st' mc, fcmPass data cfg st = inr (st', mc)
                 /\ centroidsDim D (l_centroids st').
Proof.
  intros Hne Hd Hc. unfold fcmPass.
  destruct (updateMemberships_ok D data (l_centroids st) (fuzziness cfg)
              (clusterCount cfg) (l_memberships st) Hd Hc) as [ms ->].
  cbn [bindE].
  pose proof (updateCentroids_dim D data ms (fuzziness cfg)
                (clusterCount cfg) Hne Hd) as Hc'.
  destruct (trackHistory cfg).
  - destruct (calculateObjectiveFunction_ok D data _ ms (fuzziness cfg)
                Hd Hc') as [J ->].
    cbn [bindE]. eexists _, _. split; [reflexivity|exact Hc'].
  - cbn [bindE]. eexists _, _. split; [reflexivity|exact Hc'].
Qed.

Lemma fcmLoop_ok (D : nat) (data : list DataPoint) (cfg : FCMConfig)
  (remaining : nat) : forall st,
  data <> [] -> uniformDim D data -> centroidsDim D (l_centroids st) ->
  exists st', fcmLoop data cfg remaining st = inr st'.
Proof.
  induction remaining as [|r IH]; intros st Hne Hd Hc; cbn; [eauto|].
  destruct (l_converged st); [eauto|].
  destruct (fcmPass_ok D data cfg st Hne Hd Hc) as (st1 & mc & -> & Hc1).
  cbn [bindE fst]. apply IH; assumption.
Qed.

Lemma initialState_dim (D : nat) (shuffled data : list DataPoint) (k : nat) :
  uniformDim D data -> Permutation data shuffled ->
  centroidsDim D (l_centroids (initialState shuffled data k)).
Proof.
  intros Hd Hperm. unfold initialState, initializeCentroids, centroidsDim.
  cbn [l_centroids]. apply Forall_map.
  apply Forall_take. eapply Permutation_Forall; [|exact Hd].
  exact Hperm.
Qed.

Lemma runFCM_ok (D : nat) (shuffled data : list DataPoint) (cfg : FCMConfig) :
  uniformDim D data -> Permutation data shuffled ->
  data <> [] -> (clusterCount cfg <= length data)%nat ->
  exists res, runFCM shuffled data cfg = inr res.
Proof.
  intros Hd Hperm Hne Hk. unfold runFCM.
  destruct (Nat.eqb_spec (length data) 0) as [E|_].
  { destruct data; [contradiction|discriminate]. }
  destruct (Nat.ltb_spec (length data) (clusterCount cfg)) as [L|_]; [lia|].
  destruct (fcmLoop_ok D data cfg (maxIterations cfg)
              (initialState shuffled data (clusterCount cfg)) Hne Hd)
    as [st ->].
  - apply initialState_dim; assumption.
  - cbn [bindE]. eauto.
Qed.

Lemma runFCM_empty (shuffled : list DataPoint) (cfg : FCMConfig) :
  runFCM shuffled [] cfg = inl NoData.
Proof. reflexivity. Qed.

Lemma runFCM_too_many (shuffled data : list DataPoint) (cfg : FCMConfig) :
  data <> [] -> (length data < clusterCount cfg)%nat ->
  runFCM shuffled data cfg
  = inl (TooManyClusters (clusterCount cfg) (length data)).
Proof.
  intros Hne Hk. unfold runFCM.
  destruct (Nat.eqb_spec (length data) 0) as [E|_].
  { destruct data; [contradiction|discriminate]. }
  destruct (Nat.ltb_spec (length data) (clusterCount cfg)) as [_|L];
    [reflexivity|lia].
Qed.

(** C6.  On points that all have the same number of features, [runFCM]
    throws exactly when there is no point or [clusterCount] exceeds the
    number of points, and returns a result otherwise. *)
Theorem runFCM_fails_exactly_on_invalid_input
  (D : nat) (shuffled data : list DataPoint) (cfg : FCMConfig) :
  uniformDim D data -> Permutation data shuffled ->
  (data = [] -> runFCM shuffled data cfg = inl NoData)
  /\ (data <> [] -> (length data < clusterCount cfg)%nat ->
      runFCM shuffled data cfg
      = inl (TooManyClusters (clusterCount cfg) (length data)))
  /\ ((exists e, runFCM shuffled data cfg = inl e)
      <-> data = [] \/ (length data < clusterCount cfg)%nat)
  /\ ((exists res, runFCM shuffled data cfg = inr res)
      <-> data <> [] /\ (clusterCount cfg <= length data)%nat).
Proof.
  intros Hd Hperm.
  assert (F1 : data = [] -> runFCM shuffled data cfg = inl NoData)
    by (intros ->; apply runFCM_empty).
  assert (F2 : data <> [] -> (length data < clusterCount cfg)%nat ->
               runFCM shuffled data cfg
               = inl (TooManyClusters (clusterCount cfg) (length data)))
    by apply runFCM_too_many.
  assert (F3 : data <> [] -> (clusterCount cfg <= length data)%nat ->
               exists res, runFCM shuffled data cfg = inr res)
    by (intros; eapply runFCM_ok; eassumption).
  assert (Cases : data = [] \/ data <> []).
  { destruct data; [left; reflexivity|right; discriminate]. }
  repeat split; try assumption.
  - intros [e He]. destruct Cases as [C|C]; [left; exact C|].
    destruct (Nat.lt_ge_cases (length data) (clusterCount cfg)) as [L|L];
      [right; exact L|].
    destruct (F3 C L) as [res Hres]. congruence.
  - intros [C|C].
    + eexists. apply F1, C.
    + destruct Cases as [C'|C']; [eexists; apply F1, C'|].
      eexists. apply F2; assumption.
  - destruct H as [res Hres]. intros C. rewrite F1 in Hres by assumption.
    discriminate.
  - destruct H as [res Hres].
    destruct (Nat.lt_ge_cases (length data) (clusterCount cfg)) as [L|L];
      [|exact L].
    destruct Cases as [C|C]; [rewrite F1 in Hres by assumption; discriminate|].
    rewrite F2 in Hres by assumption. discriminate.
  - intros [C L]. apply F3; assumption.
Qed.

Lemma fcmPass_history (data : list DataPoint) (cfg : FCMConfig)
  (st st' : LoopState) (mc : R) :
  fcmPass data cfg st = inr (st', mc) ->
  map it_convergenceError (l_history st')
  = map it_convergenceError (l_history st)
    ++ (if trackHistory cfg then [mc] else []).
Proof.
  unfold fcmPass.
  destruct (updateMemberships _ _ _ _ _) as [e|ms]; cbn [bindE];
    [discriminate|].
  destruct (trackHistory cfg).
  - destruct (calculateObjectiveFunction _ _ _ _) as [e|J]; cbn [bindE];
      [discriminate|].
    intros [= <- <-]. cbn [l_history]. rewrite map_app. reflexivity.
  - cbn [bindE]. intros [= <- <-]. cbn [l_history]. rewrite app_nil_r.
    reflexivity.
Qed.

Lemma fcmLoop_history (data : list DataPoint) (cfg : FCMConfig)
  (remaining : nat) : forall st st',
  fcmLoop data cfg remaining st = inr st' ->
  map it_convergenceError (l_history st')
  = map it_convergenceError (l_history st)
    ++ (if trackHistory cfg then maxChangeTrace data cfg remaining st
        else []).
Proof.
  induction remaining as [|r IH]; intros st st' H; cbn in H |- *.
  - injection H as <-. destruct (trackHistory cfg); rewrite app_nil_r;
      reflexivity.
  - destruct (l_converged st).
    { injection H as <-. destruct (trackHistory cfg); rewrite app_nil_r;
        reflexivity. }
    destruct (fcmPass data cfg st) as [e|[st1 mc]] eqn:Ep; cbn [bindE fst] in H;
      [discriminate|].
    rewrite (IH _ _ H), (fcmPass_history _ _ _ _ _ Ep).
    rewrite <- app_assoc. destruct (trackHistory cfg); reflexivity.
Qed.

Lemma last_map {A B : Type} (f : A -> B) (l : list A) :
  last (map f l) = option_map f (last l).
Proof.
  induction l as [|a [|b l] IH]; try reflexivity.
  change (last (map f (a :: b :: l))) with (last (map f (b :: l))).
  rewrite IH. reflexivity.
Qed.

Lemma convergenceError_trace
  (shuffled data : list DataPoint) (cfg : FCMConfig) (res : FCMResult) :
  runFCM shuffled data cfg = inr res ->
  convergenceError res
  = if trackHistory cfg
    then default 0 (lastMaxChange shuffled data cfg)
    else 0.
Proof.
  intros H. apply runFCM_inv in H as (st & Hloop & _ & _ & ->).
  cbn [convergenceError]. unfold lastMaxChange.
  apply fcmLoop_history in Hloop. cbn [initialState l_history map app] in Hloop.
  destruct (trackHistory cfg); [|reflexivity].
  rewrite <- Hloop, last_map.
  destruct (last (l_history st)); reflexivity.
Qed.

(** What the code reports.  When [runFCM] returns, [convergenceError] is
    the last [maxChange] the loop computed (0 if no pass ran) when
    [trackHistory] is set, and 0 when it is not. *)
Theorem convergenceError_is_last_tracked_change
  (shuffled data : list DataPoint) (cfg : FCMConfig) (res : FCMResult) :
  runFCM shuffled data cfg = inr res ->
  (trackHistory cfg = true ->
   convergenceError res = default 0 (lastMaxChange shuffled data cfg))
  /\ (trackHistory cfg = false -> convergenceError res = 0).
Proof.
  intros H. apply convergenceError_trace in H.
  split; intros Ht; rewrite Ht in H; exact H.
Qed.

Lemma distance_1d (x y : R) :
  euclideanDistance [x] [y] = inr (sqrt ((x - y) ^ 2)).
Proof.
  unfold euclideanDistance. cbn. f_equal. f_equal. ring.
Qed.

Lemma sqrt_sq_0 : sqrt ((0 - 0) ^ 2) = 0.
Proof. replace ((0 - 0) ^ 2) with 0 by ring. apply sqrt_0. Qed.

Lemma sqrt_sq_1 : sqrt ((0 - 1) ^ 2) = 1.
Proof. replace ((0 - 1) ^ 2) with 1 by ring. apply sqrt_1. Qed.

Lemma sqrt_sq_1' : sqrt ((1 - 0) ^ 2) = 1.
Proof. replace ((1 - 0) ^ 2) with 1 by ring. apply sqrt_1. Qed.

Lemma sqrt_sq_0' : sqrt ((1 - 1) ^ 2) = 0.
Proof. replace ((1 - 1) ^ 2) with 0 by ring. apply sqrt_0. Qed.

Ltac decide_reals :=
  repeat match goal with
  | |- context [Req_dec_T ?x ?y] =>
      destruct (Req_dec_T x y) as [?|?]; try lra
  | |- context [Rlt_dec ?x ?y] =>
      destruct (Rlt_dec x y) as [?|?]; try lra
  end.

Lemma updateRow_A (m : R) (row : list R) :
  updateRow [[0]; [1]] m 2 pointA row = inr [1 / 1; 0 / 1].
Proof.
  unfold updateRow, pointA. cbn [features mapE].
  rewrite !distance_1d, sqrt_sq_0, sqrt_sq_1. cbn [bindE].
  cbn [seq membershipLoop nth]. decide_reals.
  unfold normalizeRow, reduceSum, Array_fill. cbn.
  decide_reals. repeat f_equal; lra.
Qed.

Lemma updateRow_B (m : R) (a b : R) :
  updateRow [[0]; [1]] m 2 pointB [a; b] = inr [0 / 1; 1 / 1].
Proof.
  unfold updateRow, pointB. cbn [features mapE].
  rewrite !distance_1d, sqrt_sq_1', sqrt_sq_0'. cbn [bindE].
  cbn [seq membershipLoop nth]. decide_reals.
  unfold normalizeRow, reduceSum, Array_fill. cbn.
  decide_reals. repeat f_equal; lra.
Qed.

Lemma maxChange_two_points :
  maxChangeOf 2 [[1 / 1; 0 / 1]; [0 / 1; 1 / 1]]
                [[1 / 2; 1 / 2]; [1 / 2; 1 / 2]] = 1 / 2.
Proof.
  unfold maxChangeOf. cbn.
  replace (1 / 1 - 1 / 2) with (1 / 2) by lra.
  replace (0 / 1 - 1 / 2) with (- (1 / 2)) by lra.
  rewrite Rabs_Ropp, (Rabs_pos_eq (1 / 2)) by lra.
  rewrite (Rmax_right 0 (1 / 2)) by lra.
  rewrite !(Rmax_left (1 / 2) (1 / 2)) by lra. reflexivity.
Qed.

Lemma two_points_pass (cfg : FCMConfig) :
  clusterCount cfg = 2%nat -> trackHistory cfg = false ->
  exists st',
    fcmPass [pointA; pointB] cfg
      (initialState [pointA; pointB] [pointA; pointB] 2)
    = inr (st', 1 / 2).
Proof.
  intros Hk Ht. unfold fcmPass. rewrite Hk, Ht.
  unfold updateMemberships, initialState, initializeCentroids.
  cbn [l_centroids l_memberships l_prevMemberships map firstn features
       pointA pointB combine mapE fst snd Array_fill repeat].
  change [mkPoint "A" [0] None; mkPoint "B" [1] None] with [pointA; pointB].
  fold pointA. fold pointB.
  rewrite updateRow_A. cbn [bindE].
  rewrite updateRow_B. cbn [bindE].
  replace (1 / INR 2) with (1 / 2) by (cbn; lra).
  rewrite maxChange_two_points. eexists. reflexivity.
Qed.

(** C3.  The claim is what [FCMResult] documents for this field, the final
    convergence error, and what the run with history reports; without history
    the code does not keep it.  On the points [0] and [1] with two clusters,
    one pass and no history, the pass computes [maxChange = 1/2] and the
    result reports 0. *)
Lemma untracked_run_reports_zero :
  exists res,
    runFCM [pointA; pointB] [pointA; pointB] untracked = inr res
    /\ convergenceError res = 0
    /\ lastMaxChange [pointA; pointB] [pointA; pointB] untracked
       = Some (1 / 2)
    /\ convergenceError res <> 1 / 2.
Proof.
  destruct (two_points_pass untracked eq_refl eq_refl) as [st' Hpass].
  destruct (runFCM_ok 1 [pointA; pointB] [pointA; pointB] untracked)
    as [res Hres].
  { repeat constructor. }
  { apply Permutation_refl. }
  { discriminate. }
  { cbn. lia. }
  exists res. split; [exact Hres|].
  pose proof (convergenceError_trace _ _ _ _ Hres) as E.
  cbn [trackHistory untracked] in E.
  split; [exact E|]. split.
  - unfold lastMaxChange.
    change (maxIterations untracked) with 1%nat.
    change (clusterCount untracked) with 2%nat.
    cbn [maxChangeTrace initialState l_converged].
    rewrite Hpass. reflexivity.
  - rewrite E. lra.
Qed.

Lemma analyzeRisk_fields (memberships : list R) :
  let len := Z.of_nat (length memberships) in
  let score :=
    Math_round (membershipOr0 memberships
                  (if (2 <? len)%Z then (len - 2)%Z else 0%Z) * 40
                + membershipOr0 memberships (len - 1)%Z * 100) in
  riskScore (analyzeRisk memberships) = Z.min 100 score
  /\ riskCategory (analyzeRisk memberships)
     = (if (score <? 20)%Z then low
        else if (score <? 45)%Z then medium
        else if (score <? 70)%Z then high else critical).
Proof.
  cbv zeta. unfold analyzeRisk.
  set (score := Math_round _).
  destruct (score <? 20)%Z; [split; reflexivity|].
  destruct (score <? 45)%Z; [split; reflexivity|].
  destruct (score <? 70)%Z; split; reflexivity.
Qed.

(** The rows in exact arithmetic, on one point and one cluster. *)
Lemma membership_rows_normalised_witness :
  exists res,
    runFCM single single oneCluster = inr res
    /\ Forall rowOK (membershipMatrix res)
    /\ Forall (fun it => Forall rowOK (it_membershipMatrix it))
              (iterationHistory res).
Proof.
  destruct (runFCM_ok 1 single single oneCluster) as [res Hres].
  { repeat constructor. }
  { apply Permutation_refl. }
  { discriminate. }
  { cbn. lia. }
  exists res. split; [exact Hres|].
  apply (membership_rows_normalised single single oneCluster res).
  - cbn. lia.
  - cbn. lra.
  - cbn. lia.
  - exact Hres.
Defined.

(** What the code reports on two points without history. *)
Lemma convergenceError_is_last_tracked_change_witness :
  exists res,
    runFCM [pointA; pointB] [pointA; pointB] untracked = inr res
    /\ convergenceError res = 0.
Proof.
  destruct (runFCM_ok 1 [pointA; pointB] [pointA; pointB] untracked)
    as [res Hres].
  { repeat constructor. }
  { apply Permutation_refl. }
  { discriminate. }
  { cbn. lia. }
  exists res. split; [exact Hres|].
  apply (convergenceError_is_last_tracked_change
           [pointA; pointB] [pointA; pointB] untracked res Hres).
  reflexivity.
Defined.

(** C6 on one point and on no point. *)
Lemma runFCM_fails_exactly_on_invalid_input_witness :
  (exists res, runFCM single single oneCluster = inr res)
  /\ runFCM [] [] oneCluster = inl NoData.
Proof.
  split.
  - apply (runFCM_fails_exactly_on_invalid_input 1 single single oneCluster).
    + repeat constructor.
    + apply Permutation_refl.
    + split; [discriminate|cbn; lia].
  - apply (runFCM_fails_exactly_on_invalid_input 1 [] [] oneCluster).
    + constructor.
    + apply Permutation_refl.
    + reflexivity.
Defined.

Lemma runFCM_dimension_mismatch :
  runFCM [pointA; mkPoint "C" [0; 1] None] [mkPoint "C" [0; 1] None; pointA]
         oneCluster
  = inl (DimensionMismatch 2 1).
Proof. reflexivity. Qed.

End FCMProps.

(** * The solver and the store *)

Module StoreProps.

Import FCM FCMStore FCMSpec.

Local Open Scope R_scope.

Section Preserves.

Variable n : nat.

Lemma preserves_ret {A : Type} (P : A -> Prop) (a : A) :
  P a -> preserves n P (ret a).
Proof.
  intros Ha h Hh. cbn. repeat split; [assumption|]. intros a' [= <-]. exact Ha.
Qed.

Lemma preserves_throw {A : Type} (P : A -> Prop) (e : FCMError) :
  preserves n P (throw e).
Proof. intros h Hh. cbn. repeat split; [assumption|discriminate]. Qed.

Lemma preserves_bind {A B : Type} (P : A -> Prop) (Q : B -> Prop)
  (c : M A) (f : A -> M B) :
  preserves n P c -> (forall a, P a -> preserves n Q (f a)) ->
  preserves n Q (bind c f).
Proof.
  intros Hc Hf h Hh. unfold bind. destruct (Hc h Hh) as (L & K & R).
  destruct (c h) as [[e|a] h1]; cbn [fst snd] in *.
  - repeat split; [assumption|assumption|discriminate].
  - destruct (Hf a (R a eq_refl) h1 L) as (L' & K' & R').
    repeat split; [assumption| |assumption].
    intros l Hl. rewrite K' by assumption. apply K, Hl.
Qed.

Lemma preserves_weaken {A : Type} (P Q : A -> Prop) (c : M A) :
  (forall a, P a -> Q a) -> preserves n P c -> preserves n Q c.
Proof.
  intros HPQ Hc h Hh. destruct (Hc h Hh) as (L & K & R).
  repeat split; auto.
Qed.

Lemma preserves_alloc (a : list R) : preserves n (fresh n) (alloc a).
Proof.
  intros h Hh. unfold alloc. cbn [fst snd]. repeat split.
  - rewrite length_app. lia.
  - intros l Hl. apply lookup_app_l. lia.
  - intros l [= <-]. exact Hh.
Qed.

Lemma preserves_readArray (l : loc) :
  preserves n (fun _ => True) (readArray l).
Proof. intros h Hh. cbn. repeat split; assumption. Qed.

Lemma preserves_writeAt (l : loc) (i : nat) (v : R) :
  fresh n l -> preserves n (fun _ => True) (writeAt l i v).
Proof.
  intros Hl h Hh. unfold writeAt. cbn [fst snd]. repeat split.
  - rewrite length_insert. assumption.
  - intros l' Hl'. apply list_lookup_insert_ne. unfold fresh in Hl. lia.
Qed.

Lemma preserves_copyArray (l : loc) : preserves n (fresh n) (copyArray l).
Proof.
  unfold copyArray. eapply preserves_bind; [apply preserves_readArray|].
  intros a _. apply preserves_alloc.
Qed.

Lemma preserves_liftE {A : Type} (x : FCMError + A) :
  preserves n (fun _ => True) (liftE x).
Proof.
  destruct x; [apply preserves_throw|apply preserves_ret; exact I].
Qed.

Lemma preserves_mapM {A B : Type} (I : A -> Prop) (P : B -> Prop)
  (f : A -> M B) (l : list A) :
  (forall a, I a -> preserves n P (f a)) -> Forall I l ->
  preserves n (Forall P) (mapM f l).
Proof.
  intros Hf. induction 1 as [|a l Ha Hl IH]; cbn [mapM].
  - apply preserves_ret. constructor.
  - eapply preserves_bind; [apply Hf, Ha|]. intros b Hb.
    eapply preserves_bind; [exact IH|]. intros bs Hbs.
    apply preserves_ret. constructor; assumption.
Qed.

Lemma preserves_foldM {A B : Type} (I : A -> Prop) (P : B -> Prop)
  (f : B -> A -> M B) (l : list A) :
  (forall b a, P b -> I a -> preserves n P (f b a)) -> Forall I l ->
  forall b, P b -> preserves n P (foldM f l b).
Proof.
  intros Hf. induction 1 as [|a l Ha Hl IH]; intros b Hb; cbn [foldM].
  - apply preserves_ret, Hb.
  - eapply preserves_bind; [apply Hf; assumption|]. exact IH.
Qed.

End Preserves.

Lemma Forall_anything {A : Type} (l : list A) : Forall anything l.
Proof. apply Forall_forall. intros; exact I. Qed.

Section Frame.

Variable n : nat.

Lemma preserves_euclideanDistanceRef (l1 l2 : loc) :
  preserves n anything (euclideanDistanceRef l1 l2).
Proof.
  unfold euclideanDistanceRef.
  eapply preserves_bind; [apply preserves_readArray|]. intros p1 _.
  eapply preserves_bind; [apply preserves_readArray|]. intros p2 _.
  apply preserves_liftE.
Qed.

Lemma preserves_initializeCentroidsRef (shuffled : list DataPointRef)
  (k : nat) :
  preserves n (Forall (fresh n)) (initializeCentroidsRef shuffled k).
Proof.
  unfold initializeCentroidsRef.
  eapply preserves_mapM; [|apply Forall_anything].
  intros p _. apply preserves_copyArray.
Qed.

Lemma preserves_copies (ls : list loc) :
  preserves n (Forall (fresh n)) (mapM copyArray ls).
Proof.
  eapply preserves_mapM; [|apply Forall_anything].
  intros l _. apply preserves_copyArray.
Qed.

Lemma preserves_calculateObjectiveFunctionRef (data : list DataPointRef)
  (cs rows : list loc) (m : R) :
  preserves n anything (calculateObjectiveFunctionRef data cs rows m).
Proof.
  unfold calculateObjectiveFunctionRef.
  eapply preserves_foldM; [|apply Forall_anything|exact I].
  intros J pr _ _.
  eapply preserves_foldM; [|apply Forall_anything|exact I].
  intros J' jc _ _.
  eapply preserves_bind; [apply preserves_euclideanDistanceRef|].
  intros d _.
  eapply preserves_bind; [apply preserves_readArray|]. intros row _.
  apply preserves_ret. exact I.
Qed.

Lemma preserves_membershipLoopRef (distances : list R) (m : R) (k : nat)
  (js : list nat) (row : loc) :
  fresh n row ->
  preserves n (fresh n) (membershipLoopRef distances m k js row).
Proof.
  intros Hrow. induction js as [|j js IH]; cbn [membershipLoopRef].
  - apply preserves_ret, Hrow.
  - destruct (Req_dec_T (nth j distances 0) 0).
    + eapply preserves_bind; [apply preserves_alloc|]. intros l Hl.
      eapply preserves_bind; [apply preserves_writeAt, Hl|]. intros _ _.
      apply preserves_ret, Hl.
    + eapply preserves_bind; [apply preserves_writeAt, Hrow|]. intros _ _.
      exact IH.
Qed.

Lemma preserves_normalizeRowRef (row : loc) :
  fresh n row -> preserves n (fresh n) (normalizeRowRef row).
Proof.
  intros Hrow. unfold normalizeRowRef.
  eapply preserves_bind; [apply preserves_readArray|]. intros a _.
  destruct (Rlt_dec 0 (reduceSum a)).
  - apply preserves_alloc.
  - apply preserves_ret, Hrow.
Qed.

Lemma preserves_updateRowRef (cs : list loc) (m : R) (k : nat)
  (p : DataPointRef) (row : loc) :
  fresh n row -> preserves n (fresh n) (updateRowRef cs m k p row).
Proof.
  intros Hrow. unfold updateRowRef.
  eapply preserves_bind.
  { eapply preserves_mapM; [|apply Forall_anything].
    intros c _. apply preserves_euclideanDistanceRef. }
  intros distances _.
  eapply preserves_bind; [apply preserves_membershipLoopRef, Hrow|].
  intros row' Hrow'. apply preserves_normalizeRowRef, Hrow'.
Qed.

Lemma Forall_combine_r {A B : Type} (P : B -> Prop) (l : list A)
  (l' : list B) :
  Forall P l' -> Forall (fun pr => P (snd pr)) (combine l l').
Proof.
  intros H. apply Forall_forall. intros [a b] Hin.
  apply list_elem_of_In, in_combine_r in Hin. cbn.
  eapply (proj1 (List.Forall_forall _ _) H), Hin.
Qed.

Lemma preserves_updateMembershipsRef (data : list DataPointRef)
  (cs : list loc) (m : R) (k : nat) (rows : list loc) :
  Forall (fresh n) rows ->
  preserves n (Forall (fresh n)) (updateMembershipsRef data cs m k rows).
Proof.
  intros Hrows. unfold updateMembershipsRef.
  eapply preserves_mapM; [|apply Forall_combine_r, Hrows].
  intros [p row] Hrow. apply preserves_updateRowRef, Hrow.
Qed.

Lemma preserves_updateCentroidRef (data : list DataPointRef)
  (rows : list loc) (m : R) (dimensionCount j : nat) :
  preserves n (fresh n) (updateCentroidRef data rows m dimensionCount j).
Proof.
  unfold updateCentroidRef.
  eapply preserves_bind; [apply preserves_alloc|]. intros newCentroid Hnew.
  eapply preserves_bind.
  { eapply (preserves_foldM n anything anything);
      [|apply Forall_anything|exact I].
    intros ws pr _ _.
    eapply preserves_bind; [apply preserves_readArray|]. intros row _.
    eapply preserves_bind.
    { eapply (preserves_foldM n anything anything);
        [|apply Forall_anything|exact I].
      intros [] d _ _.
      eapply preserves_bind; [apply preserves_readArray|]. intros fs _.
      eapply preserves_bind; [apply preserves_readArray|]. intros nc _.
      eapply preserves_weaken; [|apply preserves_writeAt, Hnew].
      intros; exact I. }
    intros _ _. apply preserves_ret. exact I. }
  intros weightSum _.
  eapply preserves_bind; [apply preserves_readArray|]. intros nc _.
  apply preserves_alloc.
Qed.

Lemma preserves_updateCentroidsRef (data : list DataPointRef)
  (rows : list loc) (m : R) (k : nat) :
  preserves n (Forall (fresh n)) (updateCentroidsRef data rows m k).
Proof.
  unfold updateCentroidsRef.
  eapply (preserves_bind n anything).
  { unfold dimensionCountRef. destruct data as [|p data].
    - apply preserves_ret. exact I.
    - eapply preserves_bind; [apply preserves_readArray|]. intros a _.
      apply preserves_ret. exact I. }
  intros dimensionCount _.
  eapply preserves_mapM; [|apply Forall_anything].
  intros j _. apply preserves_updateCentroidRef.
Qed.

Lemma preserves_maxChangeRef (k : nat) (rows prev : list loc) :
  preserves n anything (maxChangeRef k rows prev).
Proof.
  unfold maxChangeRef.
  eapply preserves_foldM; [|apply Forall_anything|exact I].
  intros mc rp _ _.
  eapply preserves_bind; [apply preserves_readArray|]. intros row _.
  eapply preserves_bind; [apply preserves_readArray|]. intros old _.
  apply preserves_ret. exact I.
Qed.

Lemma preserves_fcmPassRef (data : list DataPointRef) (cfg : FCMConfig)
  (st : LoopStateRef) :
  ownArrays n st -> preserves n (ownArrays n) (fcmPassRef data cfg st).
Proof.
  intros [Hst _]. unfold fcmPassRef.
  eapply preserves_bind; [apply preserves_updateMembershipsRef, Hst|].
  intros rows Hrows.
  eapply preserves_bind; [apply preserves_updateCentroidsRef|]. intros cs Hcs.
  eapply preserves_bind; [apply preserves_maxChangeRef|]. intros mc _.
  eapply (preserves_bind n anything).
  { destruct (trackHistory cfg); [|apply preserves_ret; exact I].
    eapply preserves_bind; [apply preserves_calculateObjectiveFunctionRef|].
    intros J _.
    eapply preserves_bind; [apply preserves_copies|]. intros csCopy _.
    eapply preserves_bind; [apply preserves_copies|]. intros rowsCopy _.
    apply preserves_ret. exact I. }
  intros history _.
  eapply preserves_bind; [apply preserves_copies|]. intros prev _.
  apply preserves_ret. split; assumption.
Qed.

Lemma preserves_fcmLoopRef (data : list DataPointRef) (cfg : FCMConfig)
  (remaining : nat) : forall st,
  ownArrays n st -> preserves n (ownArrays n) (fcmLoopRef data cfg remaining st).
Proof.
  induction remaining as [|r IH]; intros st Hst; cbn [fcmLoopRef].
  - apply preserves_ret, Hst.
  - destruct (lr_converged st); [apply preserves_ret, Hst|].
    eapply preserves_bind; [apply preserves_fcmPassRef, Hst|]. exact IH.
Qed.

Lemma preserves_runFCMRef (shuffled data : list DataPointRef)
  (cfg : FCMConfig) :
  preserves n (ownResult n) (runFCMRef shuffled data cfg).
Proof.
  unfold runFCMRef.
  destruct (Nat.eqb (length data) 0); [apply preserves_throw|].
  destruct (Nat.ltb (length data) (clusterCount cfg));
    [apply preserves_throw|].
  eapply preserves_bind; [apply preserves_initializeCentroidsRef|].
  intros cs Hcs.
  eapply preserves_bind.
  { eapply (preserves_mapM n anything (fresh n)); [|apply Forall_anything].
    intros p _. apply preserves_alloc. }
  intros rows Hrows.
  eapply preserves_bind; [apply preserves_copies|]. intros prev _.
  eapply preserves_bind; [apply preserves_fcmLoopRef; split; assumption|].
  intros st Hst.
  eapply (preserves_bind n (Forall anything)).
  { eapply (preserves_mapM n anything anything); [|apply Forall_anything].
    intros row _.
    eapply preserves_bind; [apply preserves_readArray|]. intros a _.
    apply preserves_ret. exact I. }
  intros assignments _. apply preserves_ret. exact Hst.
Qed.

End Frame.

(** C9.  [runFCM] leaves the features array of every input point as it
    was, and no centroid or membership row of the result is that array. *)
Theorem runFCM_leaves_features_unchanged
  (h : list (list R)) (shuffled data : list DataPointRef) (cfg : FCMConfig)
  (p : DataPointRef) :
  In p data -> (r_features p < length h)%nat ->
  snd (runFCMRef shuffled data cfg h) !! r_features p = h !! r_features p
  /\ (forall res,
        fst (runFCMRef shuffled data cfg h) = inr res ->
        ~ In (r_features p) (r_centroids res)
        /\ ~ In (r_features p) (r_membershipMatrix res)).
Proof.
  intros _ Hp.
  destruct (preserves_runFCMRef (length h) shuffled data cfg h (le_n _))
    as (_ & K & O).
  split; [apply K, Hp|]. intros res Hres. destruct (O res Hres) as [Om Oc].
  split; intros Hin.
  - apply (proj1 (List.Forall_forall _ _) Oc) in Hin. unfold fresh in Hin. lia.
  - apply (proj1 (List.Forall_forall _ _) Om) in Hin. unfold fresh in Hin. lia.
Qed.

(** C9 on a store with one features array. *)
Lemma runFCM_leaves_features_unchanged_witness :
  snd (runFCMRef [refA] [refA] (mkConfig 1 2 1 (1 / 1000) true) oneStore) !! 0%nat
  = Some [0].
Proof.
  apply (runFCM_leaves_features_unchanged oneStore [refA] [refA]
           (mkConfig 1 2 1 (1 / 1000) true) refA).
  - left. reflexivity.
  - cbn. lia.
Defined.

(** ** The run on the store and the run on values

    The store embedding and the value embedding are two readings of the same
    code.  What follows shows that they agree: a run on a store whose
    features arrays exist fails when the run on the values they hold fails,
    with the same error, and otherwise returns references to arrays that hold
    the values of its result. *)

Lemma reads_bind {A B : Type} (c : M A) (f : A -> M B) h x y :
  reads c h x ->
  (forall a, x = inr a -> reads (f a) h (y a)) ->
  reads (bind c f) h (bindE x y).
Proof.
  unfold reads, bind. intros -> Hf. destruct x as [e|a]; [reflexivity|].
  cbn [bindE]. apply Hf. reflexivity.
Qed.

Lemma reads_readArray (l : nat) h : reads (readArray l) h (inr (deref h l)).
Proof. reflexivity. Qed.

Lemma reads_liftE {A : Type} (x : FCMError + A) h : reads (liftE x) h x.
Proof. destruct x; reflexivity. Qed.

Lemma reads_mapM {A B : Type} (f : A -> M B) (g : A -> FCMError + B)
  (l : list A) h :
  (forall a, In a l -> reads (f a) h (g a)) ->
  reads (mapM f l) h (mapE g l).
Proof.
  induction l as [|a l IH]; intros H; cbn [mapM mapE]; [reflexivity|].
  apply reads_bind; [apply H; left; reflexivity|]. intros b _.
  apply reads_bind; [apply IH; intros; apply H; right; assumption|].
  intros bs _. reflexivity.
Qed.

Lemma reads_foldM {A B : Type} (f : B -> A -> M B)
  (g : B -> A -> FCMError + B) (l : list A) h :
  (forall b a, In a l -> reads (f b a) h (g b a)) ->
  forall b, reads (foldM f l b) h (foldE g l b).
Proof.
  induction l as [|a l IH]; intros H b; cbn [foldM foldE]; [reflexivity|].
  apply reads_bind; [apply H; left; reflexivity|]. intros b' _.
  apply IH. intros; apply H; right; assumption.
Qed.

Lemma reads_euclideanDistanceRef (l1 l2 : nat) h :
  reads (euclideanDistanceRef l1 l2) h
        (euclideanDistance (deref h l1) (deref h l2)).
Proof.
  unfold euclideanDistanceRef.
  change (euclideanDistance (deref h l1) (deref h l2))
    with (bindE (inr (deref h l1)) (fun p1 =>
            bindE (inr (deref h l2)) (fun p2 => euclideanDistance p1 p2))).
  apply reads_bind; [apply reads_readArray|]. intros p1 [= <-].
  apply reads_bind; [apply reads_readArray|]. intros p2 [= <-].
  apply reads_liftE.
Qed.

Lemma modifies_refl W h : modifies W h h.
Proof. split; [lia|reflexivity]. Qed.

Lemma modifies_trans W h1 h2 h3 :
  modifies W h1 h2 -> modifies W h2 h3 -> modifies W h1 h3.
Proof.
  intros [L1 K1] [L2 K2]. split; [lia|]. intros l Hl HW.
  rewrite K2 by (lia || assumption). apply K1; assumption.
Qed.

Lemma modifies_weaken W W' h h' :
  (forall l, In l W -> In l W') -> modifies W h h' -> modifies W' h h'.
Proof. intros HW [L K]. split; [assumption|]. intros l Hl Hn. apply K; auto. Qed.

(** Changes to objects allocated after [h1] do not count against [h1]. *)
Lemma modifies_trans_fresh W W' h1 h2 h3 :
  modifies W h1 h2 -> modifies W' h2 h3 ->
  (forall l, In l W' -> In l W \/ (length h1 <= l)%nat) ->
  modifies W h1 h3.
Proof.
  intros [L1 K1] [L2 K2] HW. split; [lia|]. intros l Hl Hn.
  rewrite K2; [apply K1; assumption|lia|].
  intros Hin. destruct (HW l Hin); [contradiction|lia].
Qed.

Lemma modifies_deref W h h' l :
  modifies W h h' -> (l < length h)%nat -> ~ In l W -> deref h' l = deref h l.
Proof. intros [_ K] Hl Hn. unfold deref. rewrite K by assumption. reflexivity. Qed.

Lemma modifies_alloc W h a : modifies W h (h ++ [a]).
Proof.
  split; [rewrite length_app; lia|]. intros l Hl _. apply lookup_app_l, Hl.
Qed.

Lemma modifies_write h l v : modifies [l] h (<[l := v]> h).
Proof.
  split; [rewrite length_insert; lia|]. intros l' Hl' Hn.
  apply list_lookup_insert_ne. intros ->. apply Hn. left. reflexivity.
Qed.

Lemma deref_alloc h a : deref (h ++ [a]) (length h) = a.
Proof.
  unfold deref. rewrite lookup_app_r by lia.
  rewrite Nat.sub_diag. reflexivity.
Qed.

Lemma deref_write h l v : (l < length h)%nat -> deref (<[l := v]> h) l = v.
Proof. intros Hl. unfold deref. rewrite list_lookup_insert_eq by assumption. reflexivity. Qed.

Lemma modifies_length W h h' : modifies W h h' -> (length h <= length h')%nat.
Proof. intros [L _]. exact L. Qed.

(** The [for j] loop on a row object. *)
Lemma membershipLoopRef_spec (distances : list R) (m : R) (k : nat)
  (js : list nat) (row : nat) : forall h,
  (row < length h)%nat ->
  exists row' h',
    membershipLoopRef distances m k js row h = (inr row', h')
    /\ modifies [row] h h'
    /\ (row' < length h')%nat
    /\ (row' = row \/ (length h <= row')%nat)
    /\ deref h' row' = membershipLoop distances m k js (deref h row).
Proof.
  induction js as [|j js IH]; intros h Hrow; cbn [membershipLoopRef membershipLoop].
  - exists row, h. repeat split; auto using modifies_refl.
  - destruct (Req_dec_T (nth j distances 0) 0) as [E|E].
    + exists (length h), (<[length h := <[j := 1]> (Array_fill k 0)]> (h ++ [Array_fill k 0])).
      assert (Hl : (length h < length (h ++ [Array_fill k 0]))%nat)
        by (rewrite length_app; cbn; lia).
      split; [|split; [|split; [|split]]].
      * unfold bind, alloc, writeAt, ret.
        fold (deref (h ++ [Array_fill k 0]) (length h)).
        rewrite deref_alloc. reflexivity.
      * eapply modifies_trans_fresh;
          [apply (modifies_alloc _ h (Array_fill k 0))|apply modifies_write|].
        intros l [<-|[]]. right. lia.
      * rewrite length_insert. exact Hl.
      * right. lia.
      * apply deref_write. exact Hl.
    + set (v := match sumRatios distances m k j with None => 0 | Some s => 1 / s end).
      set (h1 := <[row := <[j := v]> (deref h row)]> h).
      assert (Hrow1 : (row < length h1)%nat) by (unfold h1; rewrite length_insert; exact Hrow).
      destruct (IH h1 Hrow1) as (row' & h' & E1 & M1 & L1 & F1 & D1).
      exists row', h'. split; [|split; [|split; [|split]]].
      * unfold bind at 1. unfold writeAt. fold (deref h row). fold v. fold h1. exact E1.
      * eapply modifies_trans; [apply modifies_write|exact M1].
      * exact L1.
      * destruct F1 as [F1|F1]; [left; exact F1|right].
        unfold h1 in F1. rewrite length_insert in F1. exact F1.
      * rewrite D1. unfold h1. rewrite deref_write by exact Hrow. reflexivity.
Qed.

Lemma normalizeRowRef_spec (row : nat) h :
  (row < length h)%nat ->
  exists row' h',
    normalizeRowRef row h = (inr row', h')
    /\ modifies [] h h'
    /\ (row' < length h')%nat
    /\ (row' = row \/ (length h <= row')%nat)
    /\ deref h' row' = normalizeRow (deref h row).
Proof.
  intros Hrow. unfold normalizeRowRef, normalizeRow, bind, readArray.
  fold (deref h row).
  destruct (Rlt_dec 0 (reduceSum (deref h row))) as [Hs|Hs].
  - eexists _, _. split; [reflexivity|].
    split; [apply modifies_alloc|]. split; [rewrite length_app; cbn; lia|].
    split; [right; lia|]. apply deref_alloc.
  - exists row, h. split; [reflexivity|].
    split; [apply modifies_refl|]. auto.
Qed.

Lemma mapE_map {A B C : Type} (f : B -> FCMError + C) (g : A -> B) (l : list A) :
  mapE f (map g l) = mapE (fun a => f (g a)) l.
Proof.
  induction l as [|a l IH]; cbn [map mapE]; [reflexivity|].
  rewrite IH. reflexivity.
Qed.

Lemma reads_distances (f : nat) (cs : list nat) h :
  reads (mapM (euclideanDistanceRef f) cs) h
        (mapE (euclideanDistance (deref h f)) (derefs h cs)).
Proof.
  unfold derefs. rewrite mapE_map. apply reads_mapM.
  intros c _. apply reads_euclideanDistanceRef.
Qed.

(** One point of the [for i] loop. *)
Lemma updateRowRef_spec (cs : list nat) (m : R) (k : nat) (p : DataPointRef)
  (row : nat) h :
  (row < length h)%nat ->
  match updateRowRef cs m k p row h with
  | (inl e, h') =>
      h' = h /\ updateRow (derefs h cs) m k (pointAt h p) (deref h row) = inl e
  | (inr row', h') =>
      modifies [row] h h'
      /\ (row' < length h')%nat
      /\ (row' = row \/ (length h <= row')%nat)
      /\ updateRow (derefs h cs) m k (pointAt h p) (deref h row)
         = inr (deref h' row')
  end.
Proof.
  intros Hrow. unfold updateRowRef, updateRow. cbn [pointAt features].
  unfold bind at 1. rewrite (reads_distances (r_features p) cs h).
  destruct (mapE (euclideanDistance (deref h (r_features p))) (derefs h cs))
    as [e|distances]; cbn [bindE]; [split; reflexivity|].
  destruct (membershipLoopRef_spec distances m k (seq 0 k) row h Hrow)
    as (row1 & h1 & E1 & M1 & L1 & F1 & D1).
  unfold bind. rewrite E1.
  destruct (normalizeRowRef_spec row1 h1 L1)
    as (row2 & h2 & E2 & M2 & L2 & F2 & D2).
  rewrite E2. split; [|split; [|split]].
  - eapply modifies_trans; [exact M1|].
    eapply modifies_weaken; [|exact M2]. intros ? [].
  - exact L2.
  - pose proof (modifies_length _ _ _ M1).
    destruct F2 as [->|F2]; [exact F1|right; lia].
  - rewrite D2, D1. reflexivity.
Qed.

Lemma combine_map {A B C D : Type} (f : A -> C) (g : B -> D) (l : list A)
  (l' : list B) :
  combine (map f l) (map g l') = map (fun ab => (f (fst ab), g (snd ab))) (combine l l').
Proof.
  revert l'. induction l as [|a l IH]; intros [|b l']; cbn; [reflexivity..|].
  rewrite IH. reflexivity.
Qed.

Lemma derefs_stable W h h' ls :
  modifies W h h' ->
  List.Forall (fun l => (l < length h)%nat) ls ->
  (forall l, In l ls -> ~ In l W) ->
  derefs h' ls = derefs h ls.
Proof.
  intros Hm Hlt Hd. unfold derefs. apply map_ext_in. intros l Hl.
  apply (modifies_deref W); [assumption| |auto].
  rewrite List.Forall_forall in Hlt. apply Hlt, Hl.
Qed.

Lemma pointAt_stable W h h' p :
  modifies W h h' -> (r_features p < length h)%nat -> ~ In (r_features p) W ->
  pointAt h' p = pointAt h p.
Proof.
  intros Hm Hl Hn. unfold pointAt. rewrite (modifies_deref W h h'); auto.
Qed.

Lemma Forall_lt_mono (n n' : nat) (ls : list nat) :
  (n <= n')%nat -> List.Forall (fun l => (l < n)%nat) ls ->
  List.Forall (fun l => (l < n')%nat) ls.
Proof. intros Hn. apply List.Forall_impl. intros; lia. Qed.

(** The [for i] loop, on the pairs of a point and its row. *)
Lemma updateRowsRef_spec (cs : list nat) (m : R) (k : nat) :
  forall (prs : list (DataPointRef * nat)) h,
  List.Forall (fun l => (l < length h)%nat) (map snd prs) ->
  List.NoDup (map snd prs) ->
  (forall l, In l (map snd prs) ->
     ~ In l cs /\ ~ In l (map (fun pr => r_features (fst pr)) prs)) ->
  List.Forall (fun l => (l < length h)%nat) cs ->
  List.Forall (fun l => (l < length h)%nat)
    (map (fun pr => r_features (fst pr)) prs) ->
  match mapM (fun pr => updateRowRef cs m k (fst pr) (snd pr)) prs h with
  | (inl e, h') =>
      modifies (map snd prs) h h'
      /\ mapE (fun pr => updateRow (derefs h cs) m k (fst pr) (snd pr))
              (map (valueOf h) prs) = inl e
  | (inr rows', h') =>
      modifies (map snd prs) h h'
      /\ List.Forall (fun l => (l < length h')%nat) rows'
      /\ List.NoDup rows'
      /\ List.Forall (fun l => In l (map snd prs) \/ (length h <= l)%nat) rows'
      /\ length rows' = length prs
      /\ mapE (fun pr => updateRow (derefs h cs) m k (fst pr) (snd pr))
              (map (valueOf h) prs) = inr (derefs h' rows')
  end.
Proof.
  induction prs as [|[p row] prs IH]; intros h Hlt Hnd Hdisj Hcs Hfs.
  - cbn. repeat split; auto using modifies_refl, List.NoDup_nil.
  - cbn [map snd fst] in *. cbn [mapM mapE]. cbn [valueOf fst snd].
    apply List.Forall_cons_iff in Hlt as [Hrow Hlt].
    apply List.NoDup_cons_iff in Hnd as [Hnotin Hnd].
    apply List.Forall_cons_iff in Hfs as [Hf Hfs].
    destruct (Hdisj row (or_introl eq_refl)) as [Hrcs Hrfs].
    pose proof (updateRowRef_spec cs m k p row h Hrow) as S.
    unfold bind at 1.
    destruct (updateRowRef cs m k p row h) as [[e|row1] h1].
    + destruct S as [-> S]. rewrite S. split; [apply modifies_refl|reflexivity].
    + destruct S as (M1 & L1 & F1 & S). rewrite S. cbn [bindE].
      pose proof (modifies_length _ _ _ M1) as Hlen.
      assert (Hcs1 : derefs h1 cs = derefs h cs).
      { apply (derefs_stable [row]); auto. intros l Hl [<-|[]]. contradiction. }
      assert (Hv1 : map (valueOf h1) prs = map (valueOf h) prs).
      { apply map_ext_in. intros [q r] Hin. unfold valueOf. cbn [fst snd].
        rewrite List.Forall_forall in Hlt, Hfs.
        f_equal.
        - apply (pointAt_stable [row]); auto.
          + apply Hfs. apply (in_map (fun pr => r_features (fst pr)) _ _ Hin).
          + intros [E|[]]. apply Hrfs. rewrite E. right.
            apply (in_map (fun pr => r_features (fst pr)) _ _ Hin).
        - apply (modifies_deref [row]); auto.
          + apply Hlt. apply (in_map snd _ _ Hin).
          + intros [<-|[]]. apply Hnotin. apply (in_map snd _ _ Hin). }
      specialize (IH h1 (Forall_lt_mono _ _ _ Hlen Hlt) Hnd).
      assert (Hd' : forall l, In l (map snd prs) ->
                ~ In l cs /\ ~ In l (map (fun pr => r_features (fst pr)) prs)).
      { intros l Hl. destruct (Hdisj l (or_intror Hl)) as [A B].
        split; [exact A|]. intros C. apply B. right. exact C. }
      specialize (IH Hd' (Forall_lt_mono _ _ _ Hlen Hcs)
                    (Forall_lt_mono _ _ _ Hlen Hfs)).
      rewrite Hcs1, Hv1 in IH.
      assert (Mw : modifies (row :: map snd prs) h h1).
      { eapply modifies_weaken; [|exact M1]. intros l [<-|[]]. left. reflexivity. }
      assert (Hrow1 : ~ In row1 (map snd prs)).
      { intros Hin. destruct F1 as [->|F1]; [contradiction|].
        rewrite List.Forall_forall in Hlt. specialize (Hlt _ Hin). lia. }
      unfold bind.
      destruct (mapM (fun pr => updateRowRef cs m k (fst pr) (snd pr)) prs h1)
        as [[e|rest] h'].
      * destruct IH as [M2 IH]. rewrite IH. split; [|reflexivity].
        eapply modifies_trans; [exact Mw|].
        eapply modifies_weaken; [|exact M2]. intros l Hl. right. exact Hl.
      * destruct IH as (M2 & L2 & N2 & F2 & Len2 & IH). rewrite IH.
        cbn [bindE ret]. pose proof (modifies_length _ _ _ M2) as Hlen2.
        split; [|split; [|split; [|split; [|split]]]].
        -- eapply modifies_trans; [exact Mw|].
           eapply modifies_weaken; [|exact M2]. intros l Hl. right. exact Hl.
        -- apply List.Forall_cons; [lia|exact L2].
        -- apply List.NoDup_cons; [|exact N2]. intros Hin.
           rewrite List.Forall_forall in F2. destruct (F2 _ Hin); [contradiction|lia].
        -- apply List.Forall_cons.
           ++ destruct F1 as [->|F1]; [left; left; reflexivity|right; exact F1].
           ++ revert F2. apply List.Forall_impl. intros l [A|A]; [left; right; exact A|right; lia].
        -- cbn [length]. rewrite Len2. reflexivity.
        -- cbn [derefs map]. f_equal. f_equal.
           symmetry. apply (modifies_deref (map snd prs)); auto.
Qed.

Lemma addWeighted_segment (weight : R) (fs : list R) :
  forall (post pre : list R),
  fold_left (addWeighted weight fs) (seq (length pre) (length post))
            (pre ++ post)
  = pre ++ imap (fun d x => x + weight * nth (length pre + d) fs 0) post.
Proof.
  induction post as [|x post IH]; intros pre; [reflexivity|].
  cbn [length seq fold_left]. unfold addWeighted at 2.
  rewrite app_nth2 by lia. rewrite Nat.sub_diag. cbn [nth].
  replace (length pre) with (length pre + 0)%nat at 2 by lia.
  rewrite insert_app_r. cbn [insert list_insert].
  rewrite imap_cons. rewrite Nat.add_0_r.
  change (pre ++ (x + weight * nth (length pre) fs 0) :: post)
    with (pre ++ [x + weight * nth (length pre) fs 0] ++ post).
  rewrite app_assoc.
  replace (S (length pre))
    with (length (pre ++ [x + weight * nth (length pre) fs 0]))
    by (rewrite length_app; cbn; lia).
  rewrite IH. rewrite <- app_assoc. cbn [app]. f_equal. f_equal.
  apply imap_ext. intros d y _. cbn. rewrite length_app. cbn [length].
  do 3 f_equal. lia.
Qed.

Lemma addWeighted_all (weight : R) (fs v : list R) :
  fold_left (addWeighted weight fs) (seq 0 (length v)) v
  = imap (fun d x => x + weight * nth d fs 0) v.
Proof. exact (addWeighted_segment weight fs v []). Qed.

Lemma deref_insert_ne h l l' v : l <> l' -> deref (<[l := v]> h) l' = deref h l'.
Proof. intros Hne. unfold deref. rewrite list_lookup_insert_ne by exact Hne. reflexivity. Qed.

(** The [for d] loop on the object [nc]. *)
Lemma centroid_inner (nc f : nat) (weight : R) :
  forall (ds : list nat) h,
  (nc < length h)%nat -> f <> nc ->
  foldM (fun (_ : unit) d =>
           let! fs := readArray f in
           let! c := readArray nc in
           writeAt nc d (nth d c 0 + weight * nth d fs 0)) ds tt h
  = (inr tt,
     <[nc := fold_left (addWeighted weight (deref h f)) ds (deref h nc)]> h).
Proof.
  induction ds as [|d ds IH]; intros h Hnc Hf; cbn [foldM fold_left].
  - unfold ret. f_equal. unfold deref.
    destruct (lookup_lt_is_Some_2 h nc Hnc) as [v Hv]. rewrite Hv. cbn.
    symmetry. apply list_insert_id. exact Hv.
  - unfold bind at 1. unfold bind at 1. unfold readArray at 1.
    unfold bind at 1. unfold readArray at 1. unfold writeAt at 1.
    fold (deref h f). fold (deref h nc).
    rewrite IH; [|rewrite length_insert; exact Hnc|exact Hf].
    rewrite deref_insert_ne by (intros E; apply Hf; symmetry; exact E).
    rewrite deref_write by exact Hnc.
    rewrite list_insert_insert_eq. reflexivity.
Qed.

(** The [for i] loop of one centroid. *)
Lemma centroid_outer (nc : nat) (m : R) (dim j : nat) :
  forall (prs : list (DataPointRef * nat)) h ws,
  (nc < length h)%nat -> length (deref h nc) = dim ->
  (forall pr, In pr prs -> snd pr <> nc /\ r_features (fst pr) <> nc) ->
  foldM (fun weightSum pr =>
           let! row := readArray (snd pr) in
           let weight := Math_pow (nth j row 0) m in
           let! _ := foldM (fun _ d =>
                          let! fs := readArray (r_features (fst pr)) in
                          let! c := readArray nc in
                          writeAt nc d (nth d c 0 + weight * nth d fs 0))
                       (seq 0 dim) tt in
           ret (weightSum + weight)) prs ws h
  = (inr (snd (fold_left (centroidStep m j) (map (valueOf h) prs)
                         (deref h nc, ws))),
     <[nc := fst (fold_left (centroidStep m j) (map (valueOf h) prs)
                            (deref h nc, ws))]> h).
Proof.
  induction prs as [|[p row] prs IH]; intros h ws Hnc Hdim Hne;
    cbn [foldM map fold_left].
  - unfold ret. cbn [fst snd]. f_equal. unfold deref.
    destruct (lookup_lt_is_Some_2 h nc Hnc) as [v Hv]. rewrite Hv. cbn.
    symmetry. apply list_insert_id. exact Hv.
  - destruct (Hne (p, row) (or_introl eq_refl)) as [Hrow Hf]. cbn [fst snd] in Hrow, Hf.
    cbn [fst snd]. unfold bind at 1. unfold bind at 1. unfold readArray at 1.
    fold (deref h row). unfold bind at 1.
    rewrite (centroid_inner nc (r_features p) _ (seq 0 dim) h Hnc Hf).
    unfold ret at 1.
    rewrite <- Hdim at 1. rewrite addWeighted_all.
    set (v1 := imap _ (deref h nc)).
    set (h1 := <[nc := v1]> h).
    assert (Hnc1 : (nc < length h1)%nat) by (unfold h1; rewrite length_insert; exact Hnc).
    assert (Hd1 : deref h1 nc = v1) by (apply deref_write; exact Hnc).
    rewrite IH; [|exact Hnc1| |].
    + assert (Hv : map (valueOf h1) prs = map (valueOf h) prs).
      { apply map_ext_in. intros [q r] Hin.
        destruct (Hne (q, r) (or_intror Hin)) as [A B]. cbn [fst snd] in A, B.
        unfold valueOf, pointAt. cbn [fst snd]. unfold h1.
        rewrite !deref_insert_ne by (intros E; symmetry in E; contradiction).
        reflexivity. }
      rewrite Hv, Hd1. unfold h1. rewrite list_insert_insert_eq.
      unfold centroidStep at 3 6. cbn [fst snd valueOf pointAt features].
      fold v1. reflexivity.
    + rewrite Hd1. unfold v1. rewrite length_imap. exact Hdim.
    + intros pr Hin. apply Hne. right. exact Hin.
Qed.

Lemma deref_app_l h a l : (l < length h)%nat -> deref (h ++ a) l = deref h l.
Proof. intros Hl. unfold deref. rewrite lookup_app_l by exact Hl. reflexivity. Qed.

Lemma updateCentroid_fold (data : list DataPoint) (memberships : list (list R))
  (m : R) (j : nat) :
  updateCentroid data memberships m j
  = let r := fold_left (centroidStep m j) (combine data memberships)
                       (Array_fill (dimensionCountOf data) 0, 0) in
    map (fun v => if Rlt_dec 0 (snd r) then v / snd r else v) (fst r).
Proof.
  unfold updateCentroid. fold (centroidStep m j).
  destruct (fold_left _ _ _) as [c ws]. reflexivity.
Qed.

Lemma length_Array_fill (n : nat) (x : R) : length (Array_fill n x) = n.
Proof. apply repeat_length. Qed.

Lemma updateCentroidRef_spec (data : list DataPointRef) (rows : list nat)
  (m : R) (dim j : nat) h :
  List.Forall (fun l => (l < length h)%nat) rows ->
  List.Forall (fun l => (l < length h)%nat) (map r_features data) ->
  dim = dimensionCountOf (map (pointAt h) data) ->
  exists c h',
    updateCentroidRef data rows m dim j h = (inr c, h')
    /\ modifies [] h h'
    /\ (c < length h')%nat
    /\ (length h <= c)%nat
    /\ deref h' c = updateCentroid (map (pointAt h) data) (derefs h rows) m j.
Proof.
  intros Hrows Hfs Hdim. unfold updateCentroidRef.
  unfold bind at 1. unfold alloc at 1. cbv beta iota.
  set (h0 := h ++ [Array_fill dim 0]).
  assert (Hnc : (length h < length h0)%nat) by (unfold h0; rewrite length_app; cbn; lia).
  assert (Hd0 : deref h0 (length h) = Array_fill dim 0) by apply deref_alloc.
  assert (Hne : forall pr, In pr (combine data rows) ->
            snd pr <> length h /\ r_features (fst pr) <> length h).
  { intros [p r] Hin. cbn [fst snd].
    rewrite List.Forall_forall in Hrows, Hfs.
    pose proof (in_combine_r _ _ _ _ Hin) as Hr.
    pose proof (in_combine_l _ _ _ _ Hin) as Hp.
    specialize (Hrows _ Hr).
    specialize (Hfs _ (in_map r_features _ _ Hp)). lia. }
  unfold bind at 1.
  pose proof (centroid_outer (length h) m dim j (combine data rows) h0 0 Hnc)
    as HO.
  cbv zeta in HO. rewrite HO; clear HO.
  2:{ rewrite Hd0. apply length_Array_fill. }
  2:{ exact Hne. }
  assert (Hv : map (valueOf h0) (combine data rows)
               = combine (map (pointAt h) data) (derefs h rows)).
  { unfold derefs. rewrite combine_map. apply map_ext_in. intros [p r] Hin.
    rewrite List.Forall_forall in Hrows, Hfs.
    pose proof (in_combine_r _ _ _ _ Hin) as Hr.
    pose proof (in_combine_l _ _ _ _ Hin) as Hp.
    specialize (Hrows _ Hr).
    specialize (Hfs _ (in_map r_features _ _ Hp)).
    unfold valueOf, pointAt, h0. cbn [fst snd].
    rewrite !deref_app_l by assumption. reflexivity. }
  rewrite Hv, Hd0, Hdim.
  set (r := fold_left _ _ _).
  unfold bind, readArray, alloc.
  eexists _, _. split; [reflexivity|].
  rewrite length_insert.
  split; [|split; [|split]].
  - split.
    + rewrite length_app, length_insert. lia.
    + intros l Hl _. rewrite lookup_app_l by (rewrite length_insert; lia).
      rewrite list_lookup_insert_ne by lia. unfold h0.
      apply lookup_app_l. exact Hl.
  - rewrite length_app, length_insert. cbn. lia.
  - lia.
  - replace (length h0) with (length (<[length h := fst r]> h0))
      by apply length_insert.
    rewrite deref_alloc.
    rewrite list_lookup_insert_eq by exact Hnc. cbn [default].
    rewrite updateCentroid_fold. reflexivity.
Qed.

Lemma modifies_nil_l W h h' : modifies [] h h' -> modifies W h h'.
Proof. apply modifies_weaken. intros l []. Qed.

(** A [map] whose callback allocates its result and writes to no object
    that was there before. *)
Lemma mapM_alloc {A : Type} (f : A -> M nat) (g : A -> list R)
  (h0 : list (list R)) (l : list A) :
  (forall a h, In a l -> modifies [] h0 h ->
     exists c h', f a h = (inr c, h') /\ modifies [] h h'
                  /\ (c < length h')%nat /\ (length h <= c)%nat
                  /\ deref h' c = g a) ->
  forall h, modifies [] h0 h ->
  exists cs h',
    mapM f l h = (inr cs, h') /\ modifies [] h h'
    /\ List.Forall (fun c => (c < length h')%nat) cs
    /\ List.Forall (fun c => (length h <= c)%nat) cs
    /\ List.NoDup cs
    /\ derefs h' cs = map g l.
Proof.
  induction l as [|a l IH]; intros Hf h Hh; cbn [mapM map].
  - exists [], h. repeat split; auto using modifies_refl, List.NoDup_nil.
  - destruct (Hf a h (or_introl eq_refl) Hh) as (c & h1 & E1 & M1 & L1 & F1 & D1).
    destruct (IH (fun a' h' Hin => Hf a' h' (or_intror Hin)) h1
                 (modifies_trans _ _ _ _ Hh M1))
      as (cs & h2 & E2 & M2 & L2 & F2 & N2 & D2).
    exists (c :: cs), h2. unfold bind. rewrite E1, E2.
    pose proof (modifies_length _ _ _ M1). pose proof (modifies_length _ _ _ M2).
    split; [reflexivity|]. split; [eapply modifies_trans; eassumption|].
    split; [apply List.Forall_cons; [lia|exact L2]|].
    split; [apply List.Forall_cons; [exact F1|]|].
    { revert F2. apply List.Forall_impl. intros; lia. }
    split.
    { apply List.NoDup_cons; [|exact N2]. intros Hin.
      rewrite List.Forall_forall in F2. specialize (F2 _ Hin). lia. }
    cbn [derefs map]. f_equal; [|exact D2].
    rewrite (modifies_deref [] h1 h2); auto.
Qed.

Lemma firstn_In {A : Type} (x : A) (n : nat) (l : list A) :
  In x (firstn n l) -> In x l.
Proof.
  intros Hin. rewrite <- (firstn_skipn n l). apply in_or_app. left. exact Hin.
Qed.

Lemma copyArray_spec (l : nat) h :
  exists c h', copyArray l h = (inr c, h') /\ modifies [] h h'
               /\ (c < length h')%nat /\ (length h <= c)%nat
               /\ deref h' c = deref h l.
Proof.
  eexists _, _. split; [reflexivity|]. cbn.
  split; [apply modifies_alloc|]. split; [rewrite length_app; cbn; lia|].
  split; [lia|]. apply deref_alloc.
Qed.

(** [xs.map(r => [...r])]. *)
Lemma copies_spec (ls : list nat) h :
  List.Forall (fun l => (l < length h)%nat) ls ->
  exists cs h',
    mapM copyArray ls h = (inr cs, h') /\ modifies [] h h'
    /\ List.Forall (fun c => (c < length h')%nat) cs
    /\ List.Forall (fun c => (length h <= c)%nat) cs
    /\ List.NoDup cs
    /\ derefs h' cs = derefs h ls.
Proof.
  intros Hls.
  apply (mapM_alloc copyArray (deref h) h ls); [|apply modifies_refl].
  intros l h1 Hin Hm.
  destruct (copyArray_spec l h1) as (c & h' & E & M' & L & F & D).
  exists c, h'. repeat split; try assumption; try apply M'.
  rewrite D. apply (modifies_deref [] h h1); auto.
  rewrite List.Forall_forall in Hls. apply Hls, Hin.
Qed.

Lemma initializeCentroidsRef_spec (shuffled : list DataPointRef) (k : nat) h :
  List.Forall (fun l => (l < length h)%nat) (map r_features shuffled) ->
  exists cs h',
    initializeCentroidsRef shuffled k h = (inr cs, h') /\ modifies [] h h'
    /\ List.Forall (fun c => (c < length h')%nat) cs
    /\ List.Forall (fun c => (length h <= c)%nat) cs
    /\ List.NoDup cs
    /\ derefs h' cs = initializeCentroids (map (pointAt h) shuffled) k.
Proof.
  intros Hls. unfold initializeCentroidsRef, initializeCentroids.
  rewrite List.firstn_map. rewrite List.map_map. cbn [pointAt features].
  apply (mapM_alloc (fun p => copyArray (r_features p))
           (fun p => deref h (r_features p)) h); [|apply modifies_refl].
  intros p h1 Hin Hm.
  destruct (copyArray_spec (r_features p) h1) as (c & h' & E & M' & L & F & D).
  exists c, h'. repeat split; try assumption; try apply M'.
  rewrite D. apply (modifies_deref [] h h1); auto.
  rewrite List.Forall_forall in Hls. apply Hls.
  apply in_map. eapply firstn_In; eauto.
Qed.

Lemma initialRows_spec {A : Type} (data : list A) (v : list R) h :
  exists rows h',
    mapM (fun _ => alloc v) data h = (inr rows, h') /\ modifies [] h h'
    /\ List.Forall (fun c => (c < length h')%nat) rows
    /\ List.Forall (fun c => (length h <= c)%nat) rows
    /\ List.NoDup rows
    /\ derefs h' rows = map (fun _ => v) data.
Proof.
  apply (mapM_alloc (fun _ => alloc v) (fun _ => v) h); [|apply modifies_refl].
  intros _ h1 _ _. eexists _, _. split; [reflexivity|].
  split; [apply modifies_alloc|]. split; [rewrite length_app; cbn; lia|].
  split; [lia|]. apply deref_alloc.
Qed.

Lemma pointsAt_stable W h h' (data : list DataPointRef) :
  modifies W h h' ->
  List.Forall (fun l => (l < length h)%nat) (map r_features data) ->
  (forall l, In l (map r_features data) -> ~ In l W) ->
  map (pointAt h') data = map (pointAt h) data.
Proof.
  intros Hm Hlt Hd. apply map_ext_in. intros p Hp.
  apply (pointAt_stable W); auto.
  - rewrite List.Forall_forall in Hlt. apply Hlt. apply in_map, Hp.
  - apply Hd. apply in_map, Hp.
Qed.

Lemma reads_dimensionCountRef (data : list DataPointRef) h :
  reads (dimensionCountRef data) h
        (inr (dimensionCountOf (map (pointAt h) data))).
Proof. destruct data; reflexivity. Qed.

Lemma updateCentroidsRef_spec (data : list DataPointRef) (rows : list nat)
  (m : R) (k : nat) h :
  List.Forall (fun l => (l < length h)%nat) rows ->
  List.Forall (fun l => (l < length h)%nat) (map r_features data) ->
  exists cs h',
    updateCentroidsRef data rows m k h = (inr cs, h') /\ modifies [] h h'
    /\ List.Forall (fun c => (c < length h')%nat) cs
    /\ List.Forall (fun c => (length h <= c)%nat) cs
    /\ List.NoDup cs
    /\ derefs h' cs
       = updateCentroids (map (pointAt h) data) (derefs h rows) m k.
Proof.
  intros Hrows Hfs. unfold updateCentroidsRef, updateCentroids.
  unfold bind at 1. rewrite (reads_dimensionCountRef data h).
  apply (mapM_alloc _ (updateCentroid (map (pointAt h) data) (derefs h rows) m) h);
    [|apply modifies_refl].
  intros j h1 _ Hm. pose proof (modifies_length _ _ _ Hm) as Hlen.
  assert (Hp : map (pointAt h1) data = map (pointAt h) data)
    by (apply (pointsAt_stable []); auto).
  assert (Hr : derefs h1 rows = derefs h rows)
    by (apply (derefs_stable []); auto).
  rewrite <- Hp, <- Hr.
  apply updateCentroidRef_spec.
  - eapply Forall_lt_mono; eassumption.
  - eapply Forall_lt_mono; eassumption.
  - rewrite Hp. reflexivity.
Qed.

Lemma reads_foldM_pure {A B : Type} (f : B -> A -> M B) (g : B -> A -> B)
  (l : list A) h :
  (forall b a, In a l -> reads (f b a) h (inr (g b a))) ->
  forall b, reads (foldM f l b) h (inr (fold_left g l b)).
Proof.
  induction l as [|a l IH]; intros H b; cbn [foldM fold_left]; [reflexivity|].
  unfold reads, bind. rewrite (H b a (or_introl eq_refl)).
  apply IH. intros; apply H; right; assumption.
Qed.

Lemma fold_left_map {A B C : Type} (f : C -> B -> C) (g : A -> B) (l : list A) :
  forall c, fold_left f (map g l) c = fold_left (fun c a => f c (g a)) l c.
Proof. induction l as [|a l IH]; intros c; cbn; [reflexivity|apply IH]. Qed.

Lemma foldE_map {A B C : Type} (f : C -> B -> FCMError + C) (g : A -> B)
  (l : list A) :
  forall c, foldE f (map g l) c = foldE (fun c a => f c (g a)) l c.
Proof.
  induction l as [|a l IH]; intros c; cbn [map foldE]; [reflexivity|].
  destruct (f c (g a)); cbn [bindE]; [reflexivity|apply IH].
Qed.

Lemma reads_maxChangeRef (k : nat) (rows prev : list nat) h :
  reads (maxChangeRef k rows prev) h
        (inr (maxChangeOf k (derefs h rows) (derefs h prev))).
Proof.
  unfold maxChangeRef, maxChangeOf, derefs.
  rewrite combine_map, fold_left_map. cbn [fst snd].
  apply reads_foldM_pure. intros b [r p] _. reflexivity.
Qed.

Lemma length_derefs h ls : length (derefs h ls) = length ls.
Proof. apply length_map. Qed.

Lemma reads_calculateObjectiveFunctionRef (data : list DataPointRef)
  (cs rows : list nat) (m : R) h :
  reads (calculateObjectiveFunctionRef data cs rows m) h
        (calculateObjectiveFunction (map (pointAt h) data) (derefs h cs)
           (derefs h rows) m).
Proof.
  unfold calculateObjectiveFunctionRef, calculateObjectiveFunction.
  rewrite length_derefs. unfold derefs at 2. rewrite combine_map, foldE_map.
  apply reads_foldM. intros J [p r] _. cbn [fst snd pointAt features].
  replace (seq 0 (length cs)) with (map (fun j : nat => j) (seq 0 (length cs)))
    by apply map_id.
  unfold derefs. rewrite combine_map, foldE_map. rewrite map_id.
  apply reads_foldM. intros J' [j c] _. cbn [fst snd].
  apply reads_bind; [apply reads_euclideanDistanceRef|].
  intros distance _. reflexivity.
Qed.

Lemma updateMemberships_at h data cs m k rows :
  updateMemberships (map (pointAt h) data) (derefs h cs) m k (derefs h rows)
  = mapE (fun pr => updateRow (derefs h cs) m k (fst pr) (snd pr))
         (map (valueOf h) (combine data rows)).
Proof. unfold updateMemberships, derefs. rewrite combine_map. reflexivity. Qed.

Lemma in_snd_combine {A B : Type} (l : list A) (l' : list B) (b : B) :
  In b (map snd (combine l l')) -> In b l'.
Proof.
  intros Hin. apply in_map_iff in Hin as [[a b'] [<- Hin]].
  eapply in_combine_r. exact Hin.
Qed.

Lemma in_fst_combine {A B C : Type} (f : A -> C) (l : list A) (l' : list B)
  (c : C) :
  In c (map (fun pr => f (fst pr)) (combine l l')) -> In c (map f l).
Proof.
  intros Hin. apply in_map_iff in Hin as [[a b'] [<- Hin]].
  apply in_map. eapply in_combine_l. exact Hin.
Qed.

Lemma NoDup_snd_combine {A B : Type} (l : list A) : forall (l' : list B),
  List.NoDup l' -> List.NoDup (map snd (combine l l')).
Proof.
  induction l as [|a l IH]; intros [|b l'] Hnd; cbn; try apply List.NoDup_nil.
  apply List.NoDup_cons_iff in Hnd as [Hn Hnd].
  apply List.NoDup_cons; [|apply IH, Hnd].
  intros Hin. apply Hn. eapply in_snd_combine. exact Hin.
Qed.

Lemma iterationAt_stable W h h' it :
  modifies W h h' ->
  List.Forall (fun l => (l < length h)%nat) (iterationLocs it) ->
  (forall l, In l (iterationLocs it) -> ~ In l W) ->
  iterationAt h' it = iterationAt h it.
Proof.
  intros Hm Hlt Hd. unfold iterationLocs in *.
  apply List.Forall_app in Hlt as [Hc Hr].
  unfold iterationAt.
  rewrite (derefs_stable W h h' (r_it_centroids it)); auto.
  2:{ intros l Hl. apply Hd. apply in_or_app. left. exact Hl. }
  rewrite (derefs_stable W h h' (r_it_membershipMatrix it)); auto.
  intros l Hl. apply Hd. apply in_or_app. right. exact Hl.
Qed.

Lemma history_stable W h h' hist :
  modifies W h h' ->
  List.Forall (fun l => (l < length h)%nat) (historyLocs hist) ->
  (forall l, In l (historyLocs hist) -> ~ In l W) ->
  map (iterationAt h') hist = map (iterationAt h) hist.
Proof.
  intros Hm Hlt Hd. apply map_ext_in. intros it Hit.
  assert (Hsub : forall l, In l (iterationLocs it) -> In l (historyLocs hist)).
  { intros l Hl. unfold historyLocs. apply in_concat.
    exists (iterationLocs it). split; [apply in_map, Hit|exact Hl]. }
  apply (iterationAt_stable W); auto.
  rewrite List.Forall_forall in *. intros l Hl. apply Hlt, Hsub, Hl.
Qed.

(** The history entry of a pass. *)
Lemma history_spec (data : list DataPointRef) (track : bool) (m : R)
  (hist : list IterationStateRef) (it : nat) (cs rows : list nat) (mc : R) h :
  List.Forall (fun l => (l < length h)%nat) cs ->
  List.Forall (fun l => (l < length h)%nat) rows ->
  match (if track then
           let! objective := calculateObjectiveFunctionRef data cs rows m in
           let! csCopy := mapM copyArray cs in
           let! rowsCopy := mapM copyArray rows in
           ret (hist ++ [mkIterationRef it csCopy rowsCopy mc objective])
         else ret hist) h with
  | (inl e, h') =>
      h' = h
      /\ (if track then
            do objective <- calculateObjectiveFunction (map (pointAt h) data)
                              (derefs h cs) (derefs h rows) m;
            inr (map (iterationAt h) hist
                 ++ [mkIteration it (derefs h cs) (derefs h rows) mc objective])
          else inr (map (iterationAt h) hist)) = inl e
  | (inr hist', h') =>
      modifies [] h h'
      /\ exists new,
           hist' = hist ++ new
           /\ List.Forall (fun l => (length h <= l < length h')%nat)
                          (historyLocs new)
           /\ (if track then
                 do objective <- calculateObjectiveFunction
                                   (map (pointAt h) data)
                                   (derefs h cs) (derefs h rows) m;
                 inr (map (iterationAt h) hist
                      ++ [mkIteration it (derefs h cs) (derefs h rows) mc
                            objective])
               else inr (map (iterationAt h) hist))
              = inr (map (iterationAt h) hist ++ map (iterationAt h') new)
  end.
Proof.
  intros Hcs Hrows. destruct track.
  - unfold bind at 1.
    rewrite (reads_calculateObjectiveFunctionRef data cs rows m h).
    destruct (calculateObjectiveFunction _ _ _ _) as [e|objective];
      cbn [bindE]; [split; reflexivity|].
    destruct (copies_spec cs h Hcs) as (cc & h3 & E3 & M3 & L3 & F3 & _ & D3).
    destruct (copies_spec rows h3
                (Forall_lt_mono _ _ _ (modifies_length _ _ _ M3) Hrows))
      as (rc & h4 & E4 & M4 & L4 & F4 & _ & D4).
    unfold bind. rewrite E3, E4. cbn [ret].
    pose proof (modifies_length _ _ _ M3). pose proof (modifies_length _ _ _ M4).
    split; [eapply modifies_trans; eassumption|].
    exists [mkIterationRef it cc rc mc objective].
    split; [reflexivity|]. split.
    + unfold historyLocs, iterationLocs. cbn. rewrite app_nil_r.
      apply List.Forall_app. split.
      * rewrite List.Forall_forall in *. intros l Hl.
        specialize (L3 _ Hl). specialize (F3 _ Hl). lia.
      * rewrite List.Forall_forall in *. intros l Hl.
        specialize (L4 _ Hl). specialize (F4 _ Hl). lia.
    + cbn [map]. unfold iterationAt at 3.
      cbn [r_iteration r_it_centroids r_it_membershipMatrix
             r_it_convergenceError r_objectiveFunction].
      rewrite D4. rewrite (derefs_stable [] h3 h4 cc); auto. rewrite D3.
      rewrite (derefs_stable [] h h3 rows); auto.
  - unfold ret. split; [apply modifies_refl|]. exists [].
    split; [symmetry; apply app_nil_r|]. split; [apply List.Forall_nil|].
    cbn. rewrite app_nil_r. reflexivity.
Qed.

(** One pass of the loop on the store is the pass on the values. *)
Lemma fcmPassRef_spec (data : list DataPointRef) (cfg : FCMConfig)
  (st : LoopStateRef) h :
  wellFormed h data st ->
  match fcmPassRef data cfg st h with
  | (inl e, h') =>
      modifies (lr_memberships st) h h'
      /\ fcmPass (map (pointAt h) data) cfg (stateAt h st) = inl e
  | (inr st', h') =>
      modifies (lr_memberships st) h h'
      /\ wellFormed h' data st'
      /\ exists mc,
           fcmPass (map (pointAt h) data) cfg (stateAt h st)
           = inr (stateAt h' st', mc)
  end.
Proof.
  intros [Hrows Hnd Hheld Hapart].
  destruct st as [cs rows prev hist conv it].
  unfold heldLocs in *.
  cbn [lr_centroids lr_memberships lr_prevMemberships lr_history lr_converged
         lr_iteration] in *.
  apply List.Forall_app in Hheld as [Hfs Hheld].
  apply List.Forall_app in Hheld as [Hcs Hheld].
  apply List.Forall_app in Hheld as [Hprev Hhist].
  assert (Afs : forall l, In l (map r_features data) -> ~ In l rows).
  { intros l Hl Hr. apply (Hapart l Hr). apply in_or_app. left. exact Hl. }
  assert (Acs : forall l, In l cs -> ~ In l rows).
  { intros l Hl Hr. apply (Hapart l Hr). apply in_or_app. right.
    apply in_or_app. left. exact Hl. }
  assert (Aprev : forall l, In l prev -> ~ In l rows).
  { intros l Hl Hr. apply (Hapart l Hr). apply in_or_app. right.
    apply in_or_app. right. apply in_or_app. left. exact Hl. }
  assert (Ahist : forall l, In l (historyLocs hist) -> ~ In l rows).
  { intros l Hl Hr. apply (Hapart l Hr). apply in_or_app. right.
    apply in_or_app. right. apply in_or_app. right. exact Hl. }
  set (k := clusterCount cfg). set (m := fuzziness cfg).
  (* the membership update *)
  assert (S1 := updateRowsRef_spec cs m k (combine data rows) h).
  assert (Hsub : forall l, In l (map snd (combine data rows)) -> In l rows)
    by (intros l; apply in_snd_combine).
  specialize (S1 ltac:(rewrite List.Forall_forall in *; intros l Hl; apply Hrows, Hsub, Hl)).
  specialize (S1 (NoDup_snd_combine data rows Hnd)).
  specialize (S1 ltac:(intros l Hl; split;
                        [intros Hc; exact (Acs l Hc (Hsub l Hl))
                        |intros Hf; apply in_fst_combine in Hf;
                         exact (Afs l Hf (Hsub l Hl))])).
  specialize (S1 Hcs).
  specialize (S1 ltac:(rewrite List.Forall_forall in *; intros l Hl;
                        apply Hfs; eapply in_fst_combine; exact Hl)).
  unfold fcmPassRef, fcmPass.
  cbn [stateAt l_centroids l_memberships l_prevMemberships l_history
         l_converged l_iteration lr_centroids lr_memberships
         lr_prevMemberships lr_history lr_converged lr_iteration].
  cbv zeta. fold k. fold m.
  rewrite updateMemberships_at. unfold updateMembershipsRef.
  unfold bind at 1.
  destruct (mapM _ (combine data rows) h) as [[e|rows1] h1].
  { destruct S1 as [M1 P1]. rewrite P1. split; [|reflexivity].
    eapply modifies_weaken; [exact Hsub|exact M1]. }
  destruct S1 as (M1 & L1 & N1 & F1 & _ & P1). rewrite P1. cbn [bindE].
  assert (Mr : modifies rows h h1)
    by (eapply modifies_weaken; [exact Hsub|exact M1]).
  clear M1. pose proof (modifies_length _ _ _ Mr) as Len1.
  assert (F1' : List.Forall (fun l => In l rows \/ (length h <= l)%nat) rows1).
  { revert F1. apply List.Forall_impl. intros l [A|A]; [left; apply Hsub, A|right; exact A]. }
  clear F1.
  assert (Hp1 : map (pointAt h1) data = map (pointAt h) data)
    by (apply (pointsAt_stable rows); auto).
  (* the centroid update *)
  destruct (updateCentroidsRef_spec data rows1 m k h1 L1
              (Forall_lt_mono _ _ _ Len1 Hfs))
    as (cs2 & h2 & E2 & M2 & L2 & F2 & _ & D2).
  rewrite Hp1 in D2.
  unfold bind at 1. rewrite E2.
  pose proof (modifies_length _ _ _ M2) as Len2.
  assert (Mr2 : modifies rows h h2)
    by (eapply modifies_trans; [exact Mr|apply modifies_nil_l, M2]).
  assert (Hr2 : derefs h2 rows1 = derefs h1 rows1)
    by (apply (derefs_stable []); auto).
  assert (Hprev2 : derefs h2 prev = derefs h prev)
    by (apply (derefs_stable rows); auto).
  assert (Hp2 : map (pointAt h2) data = map (pointAt h) data)
    by (apply (pointsAt_stable rows); auto).
  assert (Hh2 : map (iterationAt h2) hist = map (iterationAt h) hist)
    by (apply (history_stable rows); auto).
  (* the convergence check *)
  unfold bind at 1. rewrite (reads_maxChangeRef k rows1 prev h2).
  rewrite Hr2, Hprev2.
  set (mc := maxChangeOf k (derefs h1 rows1) (derefs h prev)).
  set (cv := if Rlt_dec mc (tolerance cfg) then true else false).
  (* the history *)
  assert (S4 := history_spec data (trackHistory cfg) m hist it cs2 rows1 mc h2
                  L2 (Forall_lt_mono _ _ _ Len2 L1)).
  rewrite Hp2, D2, Hr2, Hh2 in S4.
  unfold bind at 1.
  match type of S4 with
  | match ?c h2 with _ => _ end =>
      match goal with
      | |- context [?c' h2] => change (c' h2) with (c h2)
      end
  end.
  match type of S4 with
  | match ?c h2 with _ => _ end => destruct (c h2) as [[e|hist4] h4]
  end.
  { destruct S4 as [-> P4]. split; [exact Mr2|].
    match goal with |- bindE ?x _ = _ => change x with
      (if trackHistory cfg
       then
        do objective <-
        calculateObjectiveFunction (map (pointAt h) data)
          (updateCentroids (map (pointAt h) data) (derefs h1 rows1) m k)
          (derefs h1 rows1) m;
        inr
          (map (iterationAt h) hist ++
           [mkIteration it
              (updateCentroids (map (pointAt h) data) (derefs h1 rows1) m k)
              (derefs h1 rows1) mc objective])
       else inr (map (iterationAt h) hist)) end.
    rewrite P4. reflexivity. }
  destruct S4 as (M4 & new & -> & Fnew & P4).
  match goal with |- context [bindE ?x _ = _] => change x with
      (if trackHistory cfg
       then
        do objective <-
        calculateObjectiveFunction (map (pointAt h) data)
          (updateCentroids (map (pointAt h) data) (derefs h1 rows1) m k)
          (derefs h1 rows1) m;
        inr
          (map (iterationAt h) hist ++
           [mkIteration it
              (updateCentroids (map (pointAt h) data) (derefs h1 rows1) m k)
              (derefs h1 rows1) mc objective])
       else inr (map (iterationAt h) hist)) end.
  rewrite P4. cbn [bindE].
  pose proof (modifies_length _ _ _ M4) as Len4.
  (* the copy kept for the next pass *)
  assert (L14 : List.Forall (fun l => (l < length h4)%nat) rows1)
    by (eapply Forall_lt_mono; [|exact L1]; lia).
  destruct (copies_spec rows1 h4 L14)
    as (prev5 & h5 & E5 & M5 & L5 & F5 & _ & D5).
  unfold bind at 1. rewrite E5. cbn [ret].
  pose proof (modifies_length _ _ _ M5) as Len5.
  assert (M25 : modifies [] h2 h5) by (eapply modifies_trans; eassumption).
  assert (M15 : modifies [] h1 h5) by (eapply modifies_trans; eassumption).
  assert (Mr5 : modifies rows h h5)
    by (eapply modifies_trans; [exact Mr2|apply modifies_nil_l, M25]).
  split; [exact Mr5|]. split.
  - constructor;
      cbn [lr_centroids lr_memberships lr_prevMemberships lr_history].
    + eapply Forall_lt_mono; [|exact L1]. lia.
    + exact N1.
    + unfold heldLocs.
      cbn [lr_centroids lr_memberships lr_prevMemberships lr_history].
      repeat (apply List.Forall_app; split).
      * eapply Forall_lt_mono; [|exact Hfs]. lia.
      * eapply Forall_lt_mono; [|exact L2]. lia.
      * exact L5.
      * unfold historyLocs. rewrite map_app, concat_app.
        apply List.Forall_app. split.
        -- eapply Forall_lt_mono; [|exact Hhist]. lia.
        -- revert Fnew. apply List.Forall_impl. intros; lia.
    + intros l Hl. unfold heldLocs.
      cbn [lr_centroids lr_memberships lr_prevMemberships lr_history].
      rewrite List.Forall_forall in L1, F1', Hfs, F2, F5, Fnew, Hhist.
      pose proof (L1 _ Hl) as Hl1. pose proof (F1' _ Hl) as Hl0.
      intros Hin. repeat (apply in_app_or in Hin as [Hin|Hin]).
      * destruct Hl0 as [A|A]; [exact (Afs _ Hin A)|].
        specialize (Hfs _ Hin). lia.
      * specialize (F2 _ Hin). lia.
      * specialize (F5 _ Hin). lia.
      * unfold historyLocs in Hin. rewrite map_app, concat_app in Hin.
        apply in_app_or in Hin as [Hin|Hin].
        -- destruct Hl0 as [A|A]; [exact (Ahist _ Hin A)|].
           specialize (Hhist _ Hin). lia.
        -- specialize (Fnew _ Hin). lia.
  - exists mc. unfold stateAt.
    cbn [lr_centroids lr_memberships lr_prevMemberships lr_history
           lr_converged lr_iteration].
    rewrite (derefs_stable [] h2 h5 cs2) by auto. rewrite D2.
    rewrite (derefs_stable [] h1 h5 rows1) by auto.
    assert (M14 : modifies [] h1 h4)
      by (eapply modifies_trans; [exact M2|exact M4]).
    rewrite D5. rewrite (derefs_stable [] h1 h4 rows1) by auto.
    rewrite map_app.
    rewrite (history_stable rows h h5 hist) by auto.
    rewrite (history_stable [] h4 h5 new); auto.
    revert Fnew. apply List.Forall_impl. intros; lia.
Qed.

Lemma wellFormed_points h h' data st :
  wellFormed h data st -> modifies (lr_memberships st) h h' ->
  map (pointAt h') data = map (pointAt h) data.
Proof.
  intros [_ _ Hheld Hapart] Hm. unfold heldLocs in *.
  apply List.Forall_app in Hheld as [Hfs _].
  apply (pointsAt_stable (lr_memberships st)); auto.
  intros l Hl Hr. apply (Hapart l Hr). apply in_or_app. left. exact Hl.
Qed.

(** The loop on the store is the loop on the values. *)
Lemma fcmLoopRef_spec (data : list DataPointRef) (cfg : FCMConfig) :
  forall (remaining : nat) (st : LoopStateRef) h,
  wellFormed h data st ->
  match fcmLoopRef data cfg remaining st h with
  | (inl e, h') =>
      fcmLoop (map (pointAt h) data) cfg remaining (stateAt h st) = inl e
  | (inr st', h') =>
      wellFormed h' data st'
      /\ map (pointAt h') data = map (pointAt h) data
      /\ fcmLoop (map (pointAt h) data) cfg remaining (stateAt h st)
         = inr (stateAt h' st')
  end.
Proof.
  induction remaining as [|remaining IH]; intros st h Hwf;
    cbn [fcmLoopRef fcmLoop].
  - unfold ret. auto.
  - change (l_converged (stateAt h st)) with (lr_converged st).
    destruct (lr_converged st); [unfold ret; auto|].
    pose proof (fcmPassRef_spec data cfg st h Hwf) as S.
    unfold bind.
    destruct (fcmPassRef data cfg st h) as [[e|st1] h1].
    + destruct S as [_ S]. rewrite S. reflexivity.
    + destruct S as (M1 & Hwf1 & mc & S). rewrite S. cbn [bindE fst].
      pose proof (wellFormed_points h h1 data st Hwf M1) as Hp.
      specialize (IH st1 h1 Hwf1). rewrite Hp in IH.
      destruct (fcmLoopRef data cfg remaining st1 h1) as [[e|st2] h2].
      * exact IH.
      * destruct IH as (Hwf2 & Hp2 & IH). rewrite Hp2. auto.
Qed.

Lemma mapE_pure {A B : Type} (f : A -> B) (l : list A) :
  mapE (fun a => inr (f a)) l = inr (map f l).
Proof.
  induction l as [|a l IH]; cbn [mapE map bindE]; [reflexivity|].
  rewrite IH. reflexivity.
Qed.

Lemma reads_assignments (rows : list nat) h :
  reads (mapM (fun row => let! a := readArray row in ret (indexOfMax a)) rows)
        h (inr (map indexOfMax (derefs h rows))).
Proof.
  unfold derefs. rewrite List.map_map. rewrite <- mapE_pure.
  apply reads_mapM. intros row _. reflexivity.
Qed.

(** X19.  [runFCM] on a store computes what [runFCM] on the values computes: it
    fails with the same error, and otherwise the arrays its result refers to
    hold the values of the result. *)
Theorem runFCMRef_refines (shuffled data : list DataPointRef)
  (cfg : FCMConfig) h :
  List.Forall (fun l => (l < length h)%nat) (map r_features data) ->
  List.Forall (fun l => (l < length h)%nat) (map r_features shuffled) ->
  match runFCMRef shuffled data cfg h with
  | (inl e, _) =>
      runFCM (map (pointAt h) shuffled) (map (pointAt h) data) cfg = inl e
  | (inr res, h') =>
      runFCM (map (pointAt h) shuffled) (map (pointAt h) data) cfg
      = inr (resultAt h' res)
  end.
Proof.
  intros Hfs Hsh. unfold runFCMRef, runFCM. cbv zeta.
  rewrite length_map.
  destruct (Nat.eqb (length data) 0); [reflexivity|].
  destruct (Nat.ltb (length data) (clusterCount cfg)); [reflexivity|].
  set (k := clusterCount cfg).
  destruct (initializeCentroidsRef_spec shuffled k h Hsh)
    as (cs & ha & Ea & Ma & La & Fa & _ & Da).
  pose proof (modifies_length _ _ _ Ma) as Lena.
  destruct (initialRows_spec data (Array_fill k (1 / INR k)) ha)
    as (rows & hb & Eb & Mb & Lb & Fb & Nb & Db).
  pose proof (modifies_length _ _ _ Mb) as Lenb.
  destruct (copies_spec rows hb Lb) as (prev & hc & Ec & Mc & Lc & Fc & _ & Dc).
  pose proof (modifies_length _ _ _ Mc) as Lenc.
  unfold bind at 1. rewrite Ea. unfold bind at 1. rewrite Eb.
  unfold bind at 1. rewrite Ec.
  set (st0 := mkLoopRef cs rows prev [] false 0).
  assert (Mac : modifies [] ha hc) by (eapply modifies_trans; eassumption).
  assert (Mhc : modifies [] h hc) by (eapply modifies_trans; eassumption).
  assert (Hwf : wellFormed hc data st0).
  { constructor; unfold heldLocs;
      cbn [st0 lr_centroids lr_memberships lr_prevMemberships lr_history].
    - eapply Forall_lt_mono; [|exact Lb]. lia.
    - exact Nb.
    - repeat (apply List.Forall_app; split).
      + eapply Forall_lt_mono; [|exact Hfs]. lia.
      + eapply Forall_lt_mono; [|exact La]. lia.
      + exact Lc.
      + apply List.Forall_nil.
    - intros l Hl Hin.
      rewrite List.Forall_forall in Hfs, La, Lb, Fb, Fc.
      pose proof (Fb _ Hl). pose proof (Lb _ Hl).
      repeat (apply in_app_or in Hin as [Hin|Hin]).
      + specialize (Hfs _ Hin). lia.
      + specialize (La _ Hin). lia.
      + specialize (Fc _ Hin). lia.
      + destruct Hin. }
  assert (H0 : stateAt hc st0
               = initialState (map (pointAt h) shuffled)
                   (map (pointAt h) data) k).
  { unfold stateAt, initialState.
    cbn [st0 lr_centroids lr_memberships lr_prevMemberships lr_history
           lr_converged lr_iteration map].
    rewrite (derefs_stable [] ha hc cs) by auto. rewrite Da.
    rewrite (derefs_stable [] hb hc rows) by auto.
    rewrite Dc, Db. rewrite List.map_map. reflexivity. }
  assert (Hp : map (pointAt hc) data = map (pointAt h) data)
    by (apply (pointsAt_stable []); auto).
  pose proof (fcmLoopRef_spec data cfg (maxIterations cfg) st0 hc Hwf) as S.
  rewrite Hp, H0 in S. unfold bind at 1.
  destruct (fcmLoopRef data cfg (maxIterations cfg) st0 hc) as [[e|st] h'].
  - rewrite S. reflexivity.
  - destruct S as (_ & _ & S). rewrite S. cbn [bindE].
    unfold bind at 1. rewrite (reads_assignments (lr_memberships st) h').
    unfold ret, resultAt, stateAt.
    cbn [r_centroids r_membershipMatrix r_iterationHistory r_convergenceError
           r_iterationCount r_clusterAssignments r_converged
           l_centroids l_memberships l_history l_converged l_iteration].
    f_equal. f_equal.
    destruct (trackHistory cfg); [|reflexivity].
    rewrite FCMProps.last_map. destruct (last (lr_history st)); reflexivity.
Qed.

End StoreProps.

(** * Further properties of the controller *)

Module FuzzyMoreProps.

Import Fuzzy FuzzySpec FuzzyProps FuzzyView FuzzyMoreSpec.



(** ** [getMemberships]: what [get] finds *)

Lemma getMemberships_snoc (v : Q) (sets : list TrapezoidalSet)
  (set : TrapezoidalSet) :
  getMemberships v (sets ++ [set])
  = <[name set := calculateMembership v set]> (getMemberships v sets).
Proof. unfold getMemberships. rewrite fold_left_app. reflexivity. Qed.

Lemma getMemberships_missing (v : Q) (n : string)
  (sets : list TrapezoidalSet) :
  ~ In n (map name sets) -> getMemberships v sets !! n = None.
Proof.
  induction sets as [|set sets IH] using rev_ind; intros Hn.
  - reflexivity.
  - rewrite getMemberships_snoc. rewrite map_app, in_app_iff in Hn. cbn in Hn.
    rewrite lookup_insert_ne by tauto. apply IH. tauto.
Qed.

Lemma getMemberships_last (v : Q) (n : string) (set : TrapezoidalSet)
  (pre post : list TrapezoidalSet) :
  name set = n -> ~ In n (map name post) ->
  getMemberships v (pre ++ set :: post) !! n
  = Some (calculateMembership v set).
Proof.
  intros Hset. induction post as [|s post IH] using rev_ind; intros Hn.
  - rewrite getMemberships_snoc, Hset. apply lookup_insert_eq.
  - change (pre ++ set :: post ++ [s]) with (pre ++ (set :: post) ++ [s]).
    rewrite app_assoc, getMemberships_snoc.
    rewrite map_app, in_app_iff in Hn. cbn in Hn.
    rewrite lookup_insert_ne by tauto. apply IH. tauto.
Qed.

(** X2.  [getMemberships(value, sets).get(n)] is the membership of [value] in
    the last set of the list named [n], and is missing when no set has that
    name. *)
Theorem getMemberships_get (v : Q) (n : string) (sets : list TrapezoidalSet) :
  (~ In n (map name sets) -> getMemberships v sets !! n = None)
  /\ (forall pre set post,
        sets = pre ++ set :: post -> name set = n ->
        ~ In n (map name post) ->
        getMemberships v sets !! n = Some (calculateMembership v set)).
Proof.
  split; [apply getMemberships_missing|].
  intros pre set post -> Hset Hpost. apply getMemberships_last; assumption.
Qed.

(** X2 on the pH catalogue: [neutro] is found, [tibio] is not. *)
Lemma getMemberships_get_witness :
  getMemberships 7 PH_SETS !! "tibio"%string = None
  /\ getMemberships 7 PH_SETS !! "neutro"%string = Some 1.
Proof.
  destruct (getMemberships_get 7 "tibio" PH_SETS) as [H1 _].
  destruct (getMemberships_get 7 "neutro" PH_SETS) as [_ H2].
  split.
  - apply H1. cbn. intros H. repeat (destruct H as [H|H]; [discriminate H|]). exact H.
  - apply (H2 (firstn 2 PH_SETS) (mkSet "neutro" (6.2, 6.8, 7.5, 8.2))
              (skipn 3 PH_SETS)); [reflexivity|reflexivity|].
    cbn. intros H. repeat (destruct H as [H|H]; [discriminate H|]). exact H.
Defined.

(** ** Defuzzification *)

Lemma defuzzifyStep_bounds (acts : gmap string Q) (lo hi : Q)
  (set : TrapezoidalSet) (acc : Q * Q) :
  (0 < activationFor acts set -> lo <= center set <= hi) ->
  0 <= snd acc -> lo * snd acc <= fst acc <= hi * snd acc ->
  let acc' := defuzzifyStep acts acc set in
  snd acc <= snd acc'
  /\ lo * snd acc' <= fst acc' <= hi * snd acc'
  /\ (0 < activationFor acts set -> 0 < snd acc').
Proof.
  intros Hc Hd Hn. unfold defuzzifyStep, activationFor in *. cbv zeta.
  destruct (Qlt_bool 0 (default 0 (acts !! name set))) eqn:E.
  - apply Qlt_bool_iff in E. specialize (Hc E). cbn [fst snd].
    split; [lra|]. split; [|lra].
    destruct Hc as [H1 H2]. destruct Hn as [H3 H4].
    assert (lo * default 0 (acts !! name set)
            <= center set * default 0 (acts !! name set))
      by (apply Qmult_le_compat_r; lra).
    assert (center set * default 0 (acts !! name set)
            <= hi * default 0 (acts !! name set))
      by (apply Qmult_le_compat_r; lra).
    split; lra.
  - apply Qlt_bool_false in E. split; [lra|]. split; [assumption|].
    intros H. lra.
Qed.

Lemma defuzzify_fold_bounds (acts : gmap string Q) (lo hi : Q)
  (sets : list TrapezoidalSet) : forall acc,
  (forall set, In set sets -> 0 < activationFor acts set ->
               lo <= center set <= hi) ->
  0 <= snd acc -> lo * snd acc <= fst acc <= hi * snd acc ->
  let acc' := fold_left (defuzzifyStep acts) sets acc in
  snd acc <= snd acc'
  /\ lo * snd acc' <= fst acc' <= hi * snd acc'
  /\ (Exists (fun set => 0 < activationFor acts set) sets -> 0 < snd acc').
Proof.
  induction sets as [|set sets IH]; intros acc Hc Hd Hn; cbn [fold_left].
  - cbv zeta. split; [lra|]. split; [assumption|]. intros H. inversion H.
  - destruct (defuzzifyStep_bounds acts lo hi set acc
                (Hc set (or_introl eq_refl)) Hd Hn) as (S1 & S2 & S3).
    destruct (IH (defuzzifyStep acts acc set)
                (fun s Hs => Hc s (or_intror Hs)) ltac:(lra) S2)
      as (I1 & I2 & I3).
    cbv zeta. split; [lra|]. split; [assumption|].
    intros H. inversion H as [? ? Hx|? ? Hx]; subst.
    + specialize (S3 Hx). lra.
    + apply I3, Hx.
Qed.

Lemma defuzzify_fold_idle (acts : gmap string Q)
  (sets : list TrapezoidalSet) : forall acc,
  Forall (fun set => activationFor acts set <= 0) sets ->
  fold_left (defuzzifyStep acts) sets acc = acc.
Proof.
  induction sets as [|set sets IH]; intros acc H; [reflexivity|].
  inversion H as [|? ? Hx Hr]; subst. cbn [fold_left].
  unfold defuzzifyStep at 2. unfold activationFor in Hx. cbv zeta.
  apply Qlt_bool_false in Hx. rewrite Hx. apply IH, Hr.
Qed.

Lemma defuzzify_average (acts : gmap string Q)
  (sets : list TrapezoidalSet) (lo hi : Q) :
  (forall set, In set sets -> 0 < activationFor acts set ->
               lo <= center set <= hi) ->
  (Exists (fun set => 0 < activationFor acts set) sets ->
   lo <= defuzzify acts sets <= hi)
  /\ (Forall (fun set => activationFor acts set <= 0) sets ->
      defuzzify acts sets = 0).
Proof.
  intros Hc. split.
  - intros Hex. unfold defuzzify.
    destruct (defuzzify_fold_bounds acts lo hi sets (0, 0) Hc)
      as (_ & [H1 H2] & H3); cbn [fst snd]; [lra|lra|].
    specialize (H3 Hex).
    destruct (fold_left (defuzzifyStep acts) sets (0, 0)) as [n d].
    cbn [fst snd] in *.
    replace (Qlt_bool 0 d) with true by (symmetry; apply Qlt_bool_iff, H3).
    split; [apply Qle_shift_div_l|apply Qle_shift_div_r]; assumption.
  - intros Hidle. unfold defuzzify. rewrite defuzzify_fold_idle by assumption.
    reflexivity.
Qed.

Lemma defuzzify_fold_active (acts : gmap string Q)
  (sets : list TrapezoidalSet) : forall acc,
  fold_left (defuzzifyStep acts) sets acc
  = fold_left (defuzzifyStep acts)
      (List.filter (fun set => Qlt_bool 0 (activationFor acts set)) sets) acc.
Proof.
  induction sets as [|set sets IH]; intros acc; [reflexivity|].
  cbn [fold_left List.filter].
  destruct (Qlt_bool 0 (activationFor acts set)) eqn:E.
  - cbn [fold_left]. apply IH.
  - rewrite <- IH. f_equal. unfold defuzzifyStep.
    unfold activationFor in E. cbv zeta. rewrite E. reflexivity.
Qed.

(** X3.  [defuzzify] reads only the sets with a positive activation: the sets
    without one (absent from the map, at 0 or below) can be left out of the
    catalogue and the result is the same; and with no positive activation at
    all it returns 0. *)
Theorem defuzzify_reads_active_sets (acts : gmap string Q)
  (sets : list TrapezoidalSet) :
  defuzzify acts sets
  = defuzzify acts
      (List.filter (fun set => Qlt_bool 0 (activationFor acts set)) sets)
  /\ (Forall (fun set => activationFor acts set <= 0) sets ->
      defuzzify acts sets = 0).
Proof.
  split.
  - unfold defuzzify. rewrite <- defuzzify_fold_active. reflexivity.
  - intros Hidle. unfold defuzzify. rewrite defuzzify_fold_idle by assumption.
    reflexivity.
Qed.

(** ** The outputs of [runFuzzyInference] *)

Section Loop.

Variables tm pm tpm : gmap string Q.

Let act := ruleActivation tm pm tpm.
Let step := ruleStep tm pm tpm.

Lemma ruleStep_dose_grows (st : InferState) (r : FuzzyRule) (s : string) :
  default 0 (doseActivations st !! s)
  <= default 0 (doseActivations (step st r) !! s).
Proof.
  unfold step, ruleStep. fold (act r). cbv zeta.
  destruct (Qlt_bool 0 (act r)); [|lra]. cbn [doseActivations].
  destruct (decide (dose (outputs r) = s)) as [<-|Hne].
  - rewrite lookup_insert_eq. cbn [default]. apply Q.le_max_l.
  - rewrite lookup_insert_ne by exact Hne. lra.
Qed.

Lemma ruleStep_time_grows (st : InferState) (r : FuzzyRule) (s : string) :
  default 0 (timeActivations st !! s)
  <= default 0 (timeActivations (step st r) !! s).
Proof.
  unfold step, ruleStep. fold (act r). cbv zeta.
  destruct (Qlt_bool 0 (act r)); [|lra]. cbn [timeActivations].
  destruct (decide (time (outputs r) = s)) as [<-|Hne].
  - rewrite lookup_insert_eq. cbn [default]. apply Q.le_max_l.
  - rewrite lookup_insert_ne by exact Hne. lra.
Qed.

Lemma ruleStep_writes (st : InferState) (r : FuzzyRule) :
  0 < act r ->
  act r <= default 0 (doseActivations (step st r) !! dose (outputs r))
  /\ act r <= default 0 (timeActivations (step st r) !! time (outputs r)).
Proof.
  intros H. unfold step, ruleStep. fold (act r). cbv zeta.
  replace (Qlt_bool 0 (act r)) with true by (symmetry; apply Qlt_bool_iff, H).
  cbn [doseActivations timeActivations]. rewrite !lookup_insert_eq.
  cbn [default]. split; apply Q.le_max_r.
Qed.

Lemma evalRules_keeps (rules : list FuzzyRule) : forall st (s : string),
  default 0 (doseActivations st !! s)
  <= default 0 (doseActivations (fold_left step rules st) !! s)
  /\ default 0 (timeActivations st !! s)
     <= default 0 (timeActivations (fold_left step rules st) !! s).
Proof.
  induction rules as [|r rules IH]; intros st s; cbn [fold_left];
    [split; lra|].
  destruct (IH (step st r) s) as [H1 H2].
  pose proof (ruleStep_dose_grows st r s).
  pose proof (ruleStep_time_grows st r s). split; lra.
Qed.

Lemma evalRules_fired (rules : list FuzzyRule) (r : FuzzyRule) : forall st,
  In r rules -> 0 < act r ->
  act r <= default 0
             (doseActivations (fold_left step rules st) !! dose (outputs r))
  /\ act r <= default 0
                (timeActivations (fold_left step rules st)
                   !! time (outputs r)).
Proof.
  induction rules as [|r' rules IH]; intros st Hin Hr; [contradiction|].
  cbn [fold_left]. destruct Hin as [->|Hin]; [|apply IH; assumption].
  destruct (ruleStep_writes st r Hr) as [H1 H2].
  destruct (evalRules_keeps rules (step st r) (dose (outputs r))) as [K1 _].
  destruct (evalRules_keeps rules (step st r) (time (outputs r))) as [_ K2].
  split; lra.
Qed.

(** The cost is a weighted average of the base costs of the fired rules. *)
Lemma ruleStep_cost (lo hi : Q) (st : InferState) (r : FuzzyRule) :
  (0 < act r -> lo <= baseCost r <= hi) ->
  0 <= totalWeight st ->
  lo * totalWeight st <= totalCost st <= hi * totalWeight st ->
  totalWeight st <= totalWeight (step st r)
  /\ lo * totalWeight (step st r) <= totalCost (step st r)
     <= hi * totalWeight (step st r)
  /\ (0 < act r -> 0 < totalWeight (step st r)).
Proof.
  intros Hc Hw Hb. unfold step, ruleStep. fold (act r). cbv zeta.
  destruct (Qlt_bool 0 (act r)) eqn:E.
  - apply Qlt_bool_iff in E. destruct (Hc E) as [H1 H2].
    cbn [totalWeight totalCost].
    assert (lo * act r <= baseCost r * act r)
      by (apply Qmult_le_compat_r; lra).
    assert (baseCost r * act r <= hi * act r)
      by (apply Qmult_le_compat_r; lra).
    split; [lra|]. split; [split; lra|]. intros _. lra.
  - apply Qlt_bool_false in E. split; [lra|]. split; [assumption|].
    intros H. lra.
Qed.

Lemma evalRules_cost (lo hi : Q) (rules : list FuzzyRule) : forall st,
  (forall r, In r rules -> 0 < act r -> lo <= baseCost r <= hi) ->
  0 <= totalWeight st ->
  lo * totalWeight st <= totalCost st <= hi * totalWeight st ->
  let st' := fold_left step rules st in
  totalWeight st <= totalWeight st'
  /\ lo * totalWeight st' <= totalCost st' <= hi * totalWeight st'
  /\ (Exists (fun r => 0 < act r) rules -> 0 < totalWeight st').
Proof.
  induction rules as [|r rules IH]; intros st Hc Hw Hb; cbn [fold_left].
  - cbv zeta. split; [lra|]. split; [assumption|]. intros H. inversion H.
  - destruct (ruleStep_cost lo hi st r (Hc r (or_introl eq_refl)) Hw Hb)
      as (S1 & S2 & S3).
    destruct (IH (step st r) (fun x Hx => Hc x (or_intror Hx))
                ltac:(lra) S2) as (I1 & I2 & I3).
    cbv zeta. split; [lra|]. split; [assumption|].
    intros H. inversion H as [? ? Hx|? ? Hx]; subst.
    + specialize (S3 Hx). lra.
    + apply I3, Hx.
Qed.

End Loop.

Lemma Math_round_whole (z : Z) : Math_round (inject_Z z) = z.
Proof.
  unfold Math_round. apply Z.le_antisymm.
  - apply Z.lt_succ_r. rewrite Zlt_Qlt.
    pose proof (Qfloor_le (inject_Z z + 0.5)) as H.
    unfold Z.succ. rewrite inject_Z_plus.
    change (inject_Z 1) with 1. lra.
  - replace z with (Qfloor (inject_Z z)) at 1 by apply Qfloor_Z.
    apply Qfloor_resp_le. lra.
Qed.

Lemma Math_round_between (lo hi : Z) (x : Q) :
  inject_Z lo <= x -> x <= inject_Z hi ->
  (lo <= Math_round x <= hi)%Z.
Proof.
  intros H1 H2. rewrite <- (Math_round_whole lo), <- (Math_round_whole hi).
  split; apply Math_round_monotone; assumption.
Qed.

(** Rounding to [1 / n] keeps a value between bounds that are multiples of
    [1 / n]. *)
Lemma rounded_between (n : positive) (lo hi : Z) (x : Q) :
  inject_Z lo / inject_Z (Zpos n) <= x ->
  x <= inject_Z hi / inject_Z (Zpos n) ->
  inject_Z lo / inject_Z (Zpos n)
  <= inject_Z (Math_round (x * inject_Z (Zpos n))) / inject_Z (Zpos n)
  <= inject_Z hi / inject_Z (Zpos n).
Proof.
  intros H1 H2.
  assert (Hn : 0 < inject_Z (Zpos n)) by reflexivity.
  assert (Hlo : inject_Z lo / inject_Z (Z.pos n) * inject_Z (Z.pos n)
                == inject_Z lo) by (field; lra).
  assert (Hhi : inject_Z hi / inject_Z (Z.pos n) * inject_Z (Z.pos n)
                == inject_Z hi) by (field; lra).
  destruct (Math_round_between lo hi (x * inject_Z (Zpos n))) as [A B].
  - rewrite <- Hlo. apply Qmult_le_compat_r; lra.
  - rewrite <- Hhi. apply Qmult_le_compat_r; lra.
  - rewrite Zle_Qle in A, B.
    split; [apply Qle_shift_div_l|apply Qle_shift_div_r]; try exact Hn.
    + rewrite Hlo. exact A.
    + rewrite Hhi. exact B.
Qed.

Lemma rounded_within (n : positive) (lo hi : Z) (x l h : Q) :
  l == inject_Z lo / inject_Z (Zpos n) ->
  h == inject_Z hi / inject_Z (Zpos n) ->
  l <= x <= h ->
  l <= inject_Z (Math_round (x * inject_Z (Zpos n))) / inject_Z (Zpos n) <= h.
Proof.
  intros Hl Hh [H1 H2]. rewrite Hl, Hh.
  apply rounded_between; [rewrite <- Hl|rewrite <- Hh]; assumption.
Qed.

(** ** The sort of the activation records *)

Lemma insertActivation_perm (x : RuleActivation) (l : list RuleActivation) :
  Permutation (insertActivation x l) (x :: l).
Proof.
  induction l as [|y l IH]; cbn [insertActivation]; [reflexivity|].
  destruct (Qlt_bool (firingStrength y) (firingStrength x)); [reflexivity|].
  rewrite IH. apply perm_swap.
Qed.

Lemma sortActivations_snoc (l : list RuleActivation) (x : RuleActivation) :
  sortActivations (l ++ [x]) = insertActivation x (sortActivations l).
Proof. unfold sortActivations. rewrite fold_left_app. reflexivity. Qed.

Lemma sortActivations_perm (l : list RuleActivation) :
  Permutation (sortActivations l) l.
Proof.
  induction l as [|x l IH] using rev_ind; [reflexivity|].
  rewrite sortActivations_snoc, insertActivation_perm, IH.
  apply Permutation_cons_append.
Qed.

Lemma insertActivation_descending (x : RuleActivation)
  (l : list RuleActivation) :
  descending l -> descending (insertActivation x l).
Proof.
  unfold descending. induction 1 as [|y l Hs IH Hy]; cbn [insertActivation].
  - repeat constructor.
  - destruct (Qlt_bool (firingStrength y) (firingStrength x)) eqn:E.
    + apply Qlt_bool_iff in E. constructor; [constructor; assumption|].
      constructor; [lra|]. revert Hy. apply List.Forall_impl. intros a Ha. lra.
    + apply Qlt_bool_false in E. constructor; [exact IH|].
      eapply Permutation_Forall; [symmetry; apply insertActivation_perm|].
      constructor; assumption.
Qed.

Lemma sortActivations_descending (l : list RuleActivation) :
  descending (sortActivations l).
Proof.
  induction l as [|x l IH] using rev_ind; [constructor|].
  rewrite sortActivations_snoc. apply insertActivation_descending, IH.
Qed.

Lemma ofStrength_below (q : Q) (l : list RuleActivation) :
  Forall (fun a => firingStrength a < q) l -> ofStrength q l = [].
Proof.
  induction 1 as [|a l Ha _ IH]; [reflexivity|]. cbn.
  destruct (Qeq_bool (firingStrength a) q) eqn:E; [|exact IH].
  apply Qeq_bool_iff in E. lra.
Qed.

(** A record goes behind the records of its own strength. *)
Lemma insertActivation_stable (q : Q) (x : RuleActivation)
  (l : list RuleActivation) :
  descending l ->
  ofStrength q (insertActivation x l) = ofStrength q l ++ ofStrength q [x].
Proof.
  unfold descending. induction 1 as [|y l Hs IH Hy]; cbn [insertActivation].
  - reflexivity.
  - destruct (Qlt_bool (firingStrength y) (firingStrength x)) eqn:E.
    + apply Qlt_bool_iff in E.
      assert (Hlow : firingStrength x == q -> ofStrength q (y :: l) = []).
      { intros Ex. apply ofStrength_below.
        constructor; [lra|]. revert Hy. apply List.Forall_impl.
        intros a Ha. lra. }
      unfold ofStrength in *. cbn [List.filter] in *.
      destruct (Qeq_bool (firingStrength x) q) eqn:Ex;
        [|rewrite app_nil_r; reflexivity].
      apply Qeq_bool_iff in Ex. rewrite (Hlow Ex). reflexivity.
    + unfold ofStrength in *. cbn [List.filter].
      destruct (Qeq_bool (firingStrength y) q); rewrite IH; reflexivity.
Qed.

Lemma sortActivations_stable (q : Q) (l : list RuleActivation) :
  ofStrength q (sortActivations l) = ofStrength q l.
Proof.
  induction l as [|x l IH] using rev_ind; [reflexivity|].
  rewrite sortActivations_snoc.
  rewrite insertActivation_stable by apply sortActivations_descending.
  rewrite IH. unfold ofStrength. rewrite List.filter_app. reflexivity.
Qed.

Lemma firing_le_1 (inputs : WaterInputs) (r : FuzzyRule) :
  firing inputs r <= 1.
Proof.
  unfold firing, minimumOf.
  destruct (presentDegrees inputs r) as [|d ds] eqn:E; [lra|].
  eapply Qle_trans; [apply Math_min_le_acc|].
  assert (Hin : In d (presentDegrees inputs r)) by (rewrite E; left; reflexivity).
  unfold presentDegrees, presentDegree in Hin.
  repeat (apply in_app_or in Hin as [Hin|Hin]);
    destruct (truthy _); cbn in Hin; try contradiction;
    destruct Hin as [<-|[]]; apply degree_range.
Qed.

(** X4.  The activation records returned are those of the rules of positive
    firing strength, each with a strength in (0, 1], sorted by decreasing
    strength, rules of equal strength in the order of the rule base. *)
Theorem ruleActivations_sorted (rules : list FuzzyRule)
  (inputs : WaterInputs) :
  let fired :=
    map (activationOf inputs)
        (List.filter (fun r => Qlt_bool 0 (firing inputs r)) rules) in
  let acts := ruleActivations (runFuzzyInferenceWith rules inputs) in
  Permutation acts fired
  /\ descending acts
  /\ (forall q, ofStrength q acts = ofStrength q fired)
  /\ Forall (fun a => 0 < firingStrength a <= 1) acts.
Proof.
  cbv zeta.
  change (ruleActivations (runFuzzyInferenceWith rules inputs))
    with (sortActivations (st_ruleActivations (inferState rules inputs))).
  rewrite inferState_activations.
  split; [apply sortActivations_perm|].
  split; [apply sortActivations_descending|].
  split; [intros q; apply sortActivations_stable|].
  eapply Permutation_Forall; [symmetry; apply sortActivations_perm|].
  apply List.Forall_forall. intros a Ha.
  apply in_map_iff in Ha as (r & <- & Hr).
  apply List.filter_In in Hr as [_ Hr]. apply Qlt_bool_iff in Hr.
  cbn [activationOf firingStrength]. split; [exact Hr|apply firing_le_1].
Qed.

(** The fields of the result, in terms of the state the loop leaves. *)
Lemma outputs_of_state (inputs : WaterInputs) :
  let st := inferState FUZZY_RULES inputs in
  let out := runFuzzyInference inputs in
  coagulantDose out
  = inject_Z (Math_round (defuzzify (doseActivations st) DOSE_SETS * 10)) / 10
  /\ flocculationTime out
     = Math_round (defuzzify (timeActivations st) TIME_SETS)
  /\ operationalCost out
     = inject_Z (Math_round
                   ((if Qlt_bool 0 (totalWeight st)
                     then totalCost st / totalWeight st else 0.10) * 1000))
       / 1000
  /\ phCorrection out = phCorrectionLevel st
  /\ ruleActivations out = sortActivations (st_ruleActivations st).
Proof.
  cbv zeta. repeat split;
    lazy beta iota zeta
      delta [runFuzzyInference runFuzzyInferenceWith coagulantDose
             flocculationTime operationalCost phCorrection ruleActivations];
    reflexivity.
Qed.

Lemma sortActivations_nil (l : list RuleActivation) :
  sortActivations l = [] <-> l = [].
Proof.
  split; [|intros ->; reflexivity]. intros H.
  apply Permutation_nil. rewrite <- H. apply sortActivations_perm.
Qed.

Lemma filter_nil_Forall {A : Type} (f : A -> bool) (l : list A) :
  List.filter f l = [] <-> Forall (fun a => f a = false) l.
Proof.
  induction l as [|a l IH]; cbn; [split; [constructor|reflexivity]|].
  destruct (f a) eqn:E.
  - split; [discriminate|]. intros H. inversion H; congruence.
  - rewrite IH. split; [intros H; constructor; assumption|].
    intros H. inversion H; assumption.
Qed.

(** No record is returned exactly when no rule fires. *)
Lemma no_activation_idle (inputs : WaterInputs) :
  ruleActivations (runFuzzyInference inputs) = []
  <-> Forall (fun r => firing inputs r <= 0) FUZZY_RULES.
Proof.
  destruct (outputs_of_state inputs) as (_ & _ & _ & _ & ->).
  rewrite sortActivations_nil, inferState_activations.
  split.
  - intros H. apply map_eq_nil in H. apply filter_nil_Forall in H.
    revert H. apply List.Forall_impl. intros r. apply Qlt_bool_false.
  - intros H.
    replace (List.filter (fun r => Qlt_bool 0 (firing inputs r)) FUZZY_RULES)
      with (@nil FuzzyRule); [reflexivity|].
    symmetry. apply filter_nil_Forall. revert H. apply List.Forall_impl.
    intros r. apply Qlt_bool_false.
Qed.

Lemma some_activation_fires (inputs : WaterInputs) :
  ruleActivations (runFuzzyInference inputs) <> []
  -> Exists (fun r => 0 < firing inputs r) FUZZY_RULES.
Proof.
  intros H. apply List.Exists_exists.
  destruct (List.Forall_Exists_dec (fun r => firing inputs r <= 0)
              (fun r => match Qlt_le_dec 0 (firing inputs r) with
                        | left Hlt => right (Qlt_not_le _ _ Hlt)
                        | right Hle => left Hle
                        end)
              FUZZY_RULES) as [Hall|Hex].
  - exfalso.
    assert (Hle : Forall (fun r => firing inputs r <= 0) FUZZY_RULES).
    { revert Hall. apply List.Forall_impl. intros r Hr. exact Hr. }
    apply H, no_activation_idle, Hle.
  - apply List.Exists_exists in Hex as (r & Hin & Hr). exists r.
    split; [exact Hin|]. apply Qnot_le_lt, Hr.
Qed.

(** The rule base names only sets of the output catalogues, and its base
    costs lie between 0.05 and 0.75. *)
Lemma rules_outputs_known :
  Forall (fun r => In (dose (outputs r)) (map name DOSE_SETS)
                   /\ In (time (outputs r)) (map name TIME_SETS)
                   /\ 0.05 <= baseCost r <= 0.75) FUZZY_RULES.
Proof.
  repeat (apply List.Forall_cons;
          [split; [cbn; tauto|split; [cbn; tauto|split; discriminate]]|]).
  apply List.Forall_nil.
Qed.

Lemma dose_centers :
  forall set, In set DOSE_SETS -> 2.5 <= center set <= 95.
Proof.
  intros set Hin. cbn in Hin.
  repeat (destruct Hin as [<-|Hin]; [split; discriminate|]). contradiction.
Qed.

Lemma time_centers :
  forall set, In set TIME_SETS -> 4 <= center set <= 57.5.
Proof.
  intros set Hin. cbn in Hin.
  repeat (destruct Hin as [<-|Hin]; [split; discriminate|]). contradiction.
Qed.

Lemma named_set_active (acts : gmap string Q) (sets : list TrapezoidalSet)
  (s : string) (x : Q) :
  In s (map name sets) -> 0 < x -> x <= default 0 (acts !! s) ->
  Exists (fun set => 0 < activationFor acts set) sets.
Proof.
  intros Hin Hx Hle. apply in_map_iff in Hin as (set & <- & Hin).
  apply List.Exists_exists. exists set. split; [exact Hin|].
  unfold activationFor. lra.
Qed.

(** X5.  When no rule fires the dose and the flocculation time are 0;
    whenever a rule fires, the dose lies between 2.5 and 95 mg/L and the time
    between 4 and 58 minutes, the least and greatest plateau centres of the
    two output catalogues (57.5 rounds to 58). *)
Theorem defuzzified_outputs_range (inputs : WaterInputs) :
  let out := runFuzzyInference inputs in
  (ruleActivations out = [] ->
   coagulantDose out == 0 /\ flocculationTime out = 0%Z)
  /\ (ruleActivations out <> [] ->
      2.5 <= coagulantDose out <= 95
      /\ (4 <= flocculationTime out <= 58)%Z).
Proof.
  cbv zeta. destruct (outputs_of_state inputs) as (Hd & Ht & _ & _ & _).
  cbv zeta in Hd, Ht. split.
  - intros H. apply no_activation_idle in H.
    rewrite Hd, Ht, (inferState_idle inputs FUZZY_RULES H).
    split; reflexivity.
  - intros H. apply some_activation_fires in H.
    apply List.Exists_exists in H as (r & Hin & Hr).
    pose proof rules_outputs_known as K.
    rewrite List.Forall_forall in K. destruct (K r Hin) as (Kd & Kt & _).
    rewrite <- ruleActivation_firing in Hr.
    destruct (evalRules_fired _ _ _ FUZZY_RULES r initState Hin Hr)
      as [Fd Ft].
    fold (inferState FUZZY_RULES inputs) in Fd, Ft.
    rewrite Hd, Ht. split.
    + destruct (defuzzify_average
                  (doseActivations (inferState FUZZY_RULES inputs))
                  DOSE_SETS 2.5 95) as [B _].
      { intros set Hs _. apply dose_centers, Hs. }
      specialize (B (named_set_active _ _ _ _ Kd Hr Fd)).
      apply (rounded_within 10 25 950); [reflexivity|reflexivity|exact B].
    + destruct (defuzzify_average
                  (timeActivations (inferState FUZZY_RULES inputs))
                  TIME_SETS 4 57.5) as [B _].
      { intros set Hs _. apply time_centers, Hs. }
      specialize (B (named_set_active _ _ _ _ Kt Hr Ft)).
      apply Math_round_between; destruct B as [B1 B2];
        [change (inject_Z 4) with 4|change (inject_Z 58) with 58]; lra.
Qed.

(** X6.  The operational cost is a weighted average of the base costs of
    the fired rules, so it lies between 0.05 and 0.75 $/m3, the cheapest and
    the dearest rule; when no rule fires it is the default 0.10. *)
Theorem operationalCost_range (inputs : WaterInputs) :
  let out := runFuzzyInference inputs in
  0.05 <= operationalCost out <= 0.75
  /\ (ruleActivations out = [] -> operationalCost out == 0.10).
Proof.
  cbv zeta. destruct (outputs_of_state inputs) as (_ & _ & Hc & _ & _).
  cbv zeta in Hc. rewrite Hc. clear Hc. split.
  - apply (rounded_within 1000 50 750); [reflexivity|reflexivity|].
    destruct (evalRules_cost
                (getMemberships (turbidity inputs) TURBIDITY_SETS)
                (getMemberships (ph inputs) PH_SETS)
                (getMemberships (temperature inputs) TEMPERATURE_SETS)
                0.05 0.75 FUZZY_RULES initState) as (_ & [B1 B2] & _).
    { intros r Hin _. pose proof rules_outputs_known as K.
      rewrite List.Forall_forall in K. apply (K r Hin). }
    { cbn. lra. }
    { cbn. split; lra. }
    fold (inferState FUZZY_RULES inputs) in B1, B2.
    destruct (Qlt_bool 0 (totalWeight (inferState FUZZY_RULES inputs)))
      eqn:E; [|split; discriminate].
    apply Qlt_bool_iff in E.
    split; [apply Qle_shift_div_l|apply Qle_shift_div_r]; assumption.
  - intros H. apply no_activation_idle in H.
    rewrite (inferState_idle inputs FUZZY_RULES H). reflexivity.
Qed.

(** X5 on an input where rules 6 and 8 fire. *)
Lemma defuzzified_outputs_range_witness :
  2.5 <= coagulantDose (runFuzzyInference (mkInputs 170 5.8 12)) <= 95
  /\ (4 <= flocculationTime (runFuzzyInference (mkInputs 170 5.8 12)) <= 58)%Z.
Proof.
  apply (defuzzified_outputs_range (mkInputs 170 5.8 12)).
  vm_compute. discriminate.
Defined.

(** ** The derived metrics *)

Lemma metrics_of_inputs (inputs : WaterInputs) :
  let out := runFuzzyInference inputs in
  efficiency out
  = Math_round
      (Qmin 100 (Qmax 20
         (100 - turbidity inputs / 20
          + (if Qle_bool 6.5 (ph inputs) && Qle_bool (ph inputs) 8.0
             then 20 else 0)
          - (if Qlt_bool (temperature inputs) 15 then 10 else 0))))
  /\ riskLevel out
     = (if Qlt_bool 400 (turbidity inputs) || Qlt_bool (ph inputs) 5.5
           || Qlt_bool 9.5 (ph inputs) then critical
        else if Qlt_bool 150 (turbidity inputs) || Qlt_bool (ph inputs) 6.2
                || Qlt_bool 8.5 (ph inputs) then caution
        else optimal)
  /\ phCorrectionAmount out
     = inject_Z
         (Math_round
            (match phCorrectionLevel (inferState FUZZY_RULES inputs) with
             | none => 0
             | slight => Qabs (ph inputs - 7.0) * 5
             | moderate => Qabs (ph inputs - 7.0) * 12
             | intense => Qabs (ph inputs - 7.0) * 25
             end * 10)) / 10.
Proof.
  cbv zeta. repeat split;
    lazy beta iota zeta
      delta [runFuzzyInference runFuzzyInferenceWith efficiency riskLevel
             phCorrectionAmount];
    reflexivity.
Qed.

(** X7.  For every input the quality score lies in 0..100, the efficiency in
    20..100 and the pH correction amount is not negative; and an [optimal]
    risk level comes with an efficiency of at least 83. *)
Theorem derived_metrics_range (inputs : WaterInputs) :
  let out := runFuzzyInference inputs in
  (0 <= qualityScore out <= 100)%Z
  /\ (20 <= efficiency out <= 100)%Z
  /\ 0 <= phCorrectionAmount out
  /\ (riskLevel out = optimal -> (83 <= efficiency out)%Z).
Proof.
  cbv zeta. destruct (metrics_of_inputs inputs) as (He & Hr & Ha).
  cbv zeta in He, Hr, Ha. rewrite He, Hr, Ha. clear He Hr Ha.
  split; [rewrite qualityScore_formula; unfold qualityFormula, clampScore; lia|].
  set (bonus := if Qle_bool 6.5 (ph inputs) && Qle_bool (ph inputs) 8.0
                then 20 else 0).
  set (penalty := if Qlt_bool (temperature inputs) 15 then 10 else 0).
  set (x := 100 - turbidity inputs / 20 + bonus - penalty).
  split; [|split].
  - apply Math_round_between.
    + change (inject_Z 20) with 20. apply Q.min_glb; [lra|apply Q.le_max_l].
    + change (inject_Z 100) with 100. apply Q.le_min_l.
  - apply Qle_shift_div_l; [reflexivity|].
    change (0 * 10) with (inject_Z 0). rewrite <- Zle_Qle.
    rewrite <- (Math_round_whole 0) at 1. apply Math_round_monotone.
    change (inject_Z 0) with 0.
    pose proof (Qabs_nonneg (ph inputs - 7.0)).
    destruct (phCorrectionLevel (inferState FUZZY_RULES inputs)); nra.
  - intros Hopt.
    destruct (Qlt_bool 400 (turbidity inputs) || Qlt_bool (ph inputs) 5.5
              || Qlt_bool 9.5 (ph inputs)); [discriminate|].
    destruct (Qlt_bool 150 (turbidity inputs)) eqn:Et; [discriminate|].
    apply Qlt_bool_false in Et.
    replace 83%Z with (Math_round 82.5) by reflexivity.
    apply Math_round_monotone.
    assert (Hx : 82.5 <= x).
    { unfold x.
      assert (0 <= bonus) by (unfold bonus; destruct (_ && _); lra).
      assert (penalty <= 10) by (unfold penalty; destruct (Qlt_bool _ _); lra).
      assert (turbidity inputs / 20 <= 7.5)
        by (apply Qle_shift_div_r; lra).
      lra. }
    apply Q.min_glb; [lra|].
    eapply Qle_trans; [exact Hx|apply Q.le_max_r].
Qed.

(** ** Inputs outside the turbidity catalogue *)

Lemma turbidity_sets_zero_high (t : Q) :
  1000 <= t -> Forall (fun set => calculateMembership t set = 0) TURBIDITY_SETS.
Proof.
  intros Ht. apply List.Forall_forall. intros set Hin.
  apply calculateMembership_right. cbn in Hin.
  repeat (destruct Hin as [<-|Hin]; [cbn; lra|]). contradiction.
Qed.

Lemma firing_off_catalogue (inputs : WaterInputs) (r : FuzzyRule) :
  turbidity inputs <= 0 \/ 1000 <= turbidity inputs ->
  hasTurbidityCondition r = true -> firing inputs r <= 0.
Proof.
  intros Ht Hr. rewrite <- ruleActivation_firing.
  unfold ruleActivation, ruleConditions, pushCondition at 1.
  unfold hasTurbidityCondition in Hr.
  destruct (truthy (c_turbidity (conditions r))); [|discriminate].
  rewrite getMemberships_all_zero
    by (destruct Ht; [apply turbidity_sets_zero|apply turbidity_sets_zero_high];
        assumption).
  cbn [app]. apply Math_min_le_acc.
Qed.

(** X8.  With a turbidity of 0 or less, or of 1000 or more, no rule fires:
    no activation record is returned, the dose, the flocculation time and
    the pH correction amount are 0, the pH correction is [none] and the
    cost is the default 0.10, whatever the pH and the temperature. *)
Theorem no_rule_off_catalogue (inputs : WaterInputs) :
  turbidity inputs <= 0 \/ 1000 <= turbidity inputs ->
  let out := runFuzzyInference inputs in
  ruleActivations out = []
  /\ coagulantDose out == 0
  /\ flocculationTime out = 0%Z
  /\ phCorrection out = none
  /\ phCorrectionAmount out == 0
  /\ operationalCost out == 0.10.
Proof.
  intros Ht. cbv zeta.
  assert (Hidle : Forall (fun r => firing inputs r <= 0) FUZZY_RULES).
  { eapply List.Forall_impl; [|exact rules_have_turbidity].
    intros r Hr. apply firing_off_catalogue; assumption. }
  destruct (outputs_of_state inputs) as (Hd & Hf & Hc & Hp & Hr).
  destruct (metrics_of_inputs inputs) as (_ & _ & Ha).
  cbv zeta in Hd, Hf, Hc, Hp, Hr, Ha.
  rewrite Hd, Hf, Hc, Hp, Hr, Ha, (inferState_idle inputs FUZZY_RULES Hidle).
  repeat split; reflexivity.
Qed.

(** X8 at the upper end of the turbidity slider. *)
Lemma no_rule_off_catalogue_witness :
  ruleActivations (runFuzzyInference (mkInputs 1000 7 22)) = []
  /\ coagulantDose (runFuzzyInference (mkInputs 1000 7 22)) == 0.
Proof.
  destruct (no_rule_off_catalogue (mkInputs 1000 7 22)) as (H1 & H2 & _).
  - right. cbn. lra.
  - split; assumption.
Defined.

(** ** A pH close to neutral *)

Section Correction.

Variables tm pm tpm : gmap string Q.

Lemma evalRules_no_correction (rules : list FuzzyRule) : forall st,
  phCorrectionLevel st = none ->
  Forall (fun r => 0 < ruleActivation tm pm tpm r ->
                   o_phCorrection (outputs r) = none) rules ->
  phCorrectionLevel (fold_left (ruleStep tm pm tpm) rules st) = none.
Proof.
  induction rules as [|r rules IH]; intros st Hst H; [exact Hst|].
  inversion H as [|? ? Hr Hrest]; subst. cbn [fold_left]. apply IH; [|exact Hrest].
  unfold ruleStep. cbv zeta.
  destruct (Qlt_bool 0 (ruleActivation tm pm tpm r)) eqn:E; [|exact Hst].
  apply Qlt_bool_iff in E. cbn [phCorrectionLevel].
  destruct (Qlt_bool (maxPhCorrectionWeight st) (ruleActivation tm pm tpm r));
    [apply Hr, E|exact Hst].
Qed.

End Correction.

Lemma firing_le_ph (inputs : WaterInputs) (r : FuzzyRule) (n : string) :
  truthy (c_ph (conditions r)) = Some n ->
  firing inputs r <= degree (ph inputs) PH_SETS n.
Proof.
  intros Hn. unfold firing, minimumOf.
  assert (Hin : In (degree (ph inputs) PH_SETS n) (presentDegrees inputs r)).
  { unfold presentDegrees. apply in_or_app. right. apply in_or_app. left.
    unfold presentDegree. rewrite Hn. left. reflexivity. }
  destruct (presentDegrees inputs r) as [|d ds]; [contradiction|].
  apply Math_min_lower, Hin.
Qed.

Lemma ph_degree_off (p : Q) (n : string) :
  6.5 <= p <= 7.8 ->
  In n ["muy_acido"; "acido"; "alcalino"; "muy_alcalino"]%string ->
  degree p PH_SETS n = 0.
Proof.
  intros [H1 H2] Hin. cbn in Hin.
  destruct Hin as [<-|[<-|[<-|[<-|[]]]]]; unfold degree; cbn [namedSet PH_SETS List.find name String.eqb Ascii.eqb Bool.eqb];
    (apply calculateMembership_right; cbn; lra)
    || (apply calculateMembership_left; cbn; lra).
Qed.

(** Every rule that asks for a pH correction has a condition on one of the
    four pH sets away from neutral. *)
Lemma correcting_rules_off_neutral :
  Forall (fun r =>
            o_phCorrection (outputs r) = none
            \/ exists n, truthy (c_ph (conditions r)) = Some n
                         /\ In n ["muy_acido"; "acido"; "alcalino";
                                  "muy_alcalino"]%string) FUZZY_RULES.
Proof.
  repeat (apply List.Forall_cons;
          [first [left; reflexivity
                 |right; eexists; split; [reflexivity|cbn; tauto]]|]).
  apply List.Forall_nil.
Qed.

(** X9.  With a pH between 6.5 and 7.8 no pH correction is asked for,
    whatever the turbidity and the temperature: the pH sets [acido] and
    [alcalino] end at 6.5 and start at 7.8, and every correcting rule has a
    condition on a pH set away from neutral. *)
Theorem neutral_ph_no_correction (inputs : WaterInputs) :
  6.5 <= ph inputs <= 7.8 ->
  phCorrection (runFuzzyInference inputs) = none
  /\ phCorrectionAmount (runFuzzyInference inputs) == 0.
Proof.
  intros Hph.
  assert (Hlevel : phCorrectionLevel (inferState FUZZY_RULES inputs) = none).
  { unfold inferState, evalRules. apply evalRules_no_correction; [reflexivity|].
    eapply List.Forall_impl; [|exact correcting_rules_off_neutral].
    intros r [Hnone|(n & Hn & Hin)] Hfire; [exact Hnone|exfalso].
    rewrite ruleActivation_firing in Hfire.
    pose proof (firing_le_ph inputs r n Hn) as Hle.
    rewrite (ph_degree_off _ _ Hph Hin) in Hle. lra. }
  destruct (outputs_of_state inputs) as (_ & _ & _ & Hp & _).
  destruct (metrics_of_inputs inputs) as (_ & _ & Ha).
  cbv zeta in Hp, Ha. rewrite Hp, Ha, Hlevel. split; reflexivity.
Qed.

(** X9 at pH 6.5 in turbid cold water. *)
Lemma neutral_ph_no_correction_witness :
  phCorrection (runFuzzyInference (mkInputs 170 6.5 12)) = none
  /\ phCorrectionAmount (runFuzzyInference (mkInputs 170 6.5 12)) == 0.
Proof.
  apply (neutral_ph_no_correction (mkInputs 170 6.5 12)).
  cbn. split; discriminate.
Defined.

(** ** [getMembershipDegrees] *)

Lemma mapSet_new (k : string) (v : Q) (entries : list (string * Q)) :
  ~ In k (map fst entries) -> mapSet k v entries = entries ++ [(k, v)].
Proof.
  induction entries as [|[k' v'] entries IH]; intros Hk; [reflexivity|].
  cbn [mapSet]. cbn in Hk.
  destruct (String.eqb_spec k' k) as [->|Hne]; [tauto|].
  rewrite IH by tauto. reflexivity.
Qed.

Lemma getMembershipEntries_snoc (v : Q) (sets : list TrapezoidalSet)
  (set : TrapezoidalSet) :
  getMembershipEntries v (sets ++ [set])
  = mapSet (name set) (calculateMembership v set)
           (getMembershipEntries v sets).
Proof. unfold getMembershipEntries. rewrite fold_left_app. reflexivity. Qed.

Lemma getMembershipEntries_distinct (v : Q) (sets : list TrapezoidalSet) :
  NoDup (map name sets) ->
  getMembershipEntries v sets
  = map (fun set => (name set, calculateMembership v set)) sets.
Proof.
  induction sets as [|set sets IH] using rev_ind; intros Hnd; [reflexivity|].
  rewrite map_app in Hnd. apply NoDup_app in Hnd as (Hnd & Hdisj & _).
  rewrite getMembershipEntries_snoc, IH by exact Hnd.
  rewrite mapSet_new.
  - rewrite map_app. reflexivity.
  - rewrite List.map_map. cbn [fst]. intros Hin.
    apply (Hdisj (name set)); [apply list_elem_of_In, Hin|].
    apply list_elem_of_In. left. reflexivity.
Qed.

(** The keys of the entries are distinct, and an entry holds what
    [getMemberships] holds for its key. *)
Lemma mapSet_keys (k : string) (v : Q) (entries : list (string * Q)) :
  List.NoDup (map fst entries) -> List.NoDup (map fst (mapSet k v entries)).
Proof.
  induction entries as [|[k' v'] entries IH]; intros Hnd; cbn [mapSet].
  - repeat constructor. intros [].
  - destruct (String.eqb_spec k' k) as [->|Hne]; [exact Hnd|].
    cbn in Hnd |- *. apply List.NoDup_cons_iff in Hnd as [Hn Hnd].
    apply List.NoDup_cons; [|apply IH, Hnd].
    intros Hin. apply Hn. clear IH Hn Hnd.
    induction entries as [|[k2 v2] entries IH]; cbn [mapSet] in Hin.
    + cbn in Hin. destruct Hin as [->|[]]. contradiction.
    + destruct (String.eqb_spec k2 k) as [->|Hne2]; [exact Hin|].
      cbn in Hin |- *. destruct Hin as [Hin|Hin]; [left; exact Hin|].
      right. apply IH, Hin.
Qed.

Lemma mapSet_In (k : string) (v : Q) (entries : list (string * Q))
  (k0 : string) (v0 : Q) :
  List.NoDup (map fst entries) ->
  In (k0, v0) (mapSet k v entries) <->
  (k0 = k /\ v0 = v) \/ (k0 <> k /\ In (k0, v0) entries).
Proof.
  induction entries as [|[k' v'] entries IH]; intros Hnd; cbn [mapSet].
  - cbn. split.
    + intros [[= <- <-]|[]]. left. split; reflexivity.
    + intros [[-> ->]|[_ []]]. left. reflexivity.
  - cbn in Hnd. apply List.NoDup_cons_iff in Hnd as [Hn Hnd].
    destruct (String.eqb_spec k' k) as [->|Hne].
    + cbn. split.
      * intros [[= <- <-]|Hin]; [left; split; reflexivity|].
        right. split; [|right; exact Hin].
        intros ->. apply Hn. apply (in_map fst _ _ Hin).
      * intros [[-> ->]|[Hk [[= <- <-]|Hin]]];
          [left; reflexivity|contradiction|right; exact Hin].
    + cbn. rewrite (IH Hnd). split.
      * intros [[= <- <-]|[H|[Hk Hin]]].
        -- right. split; [exact Hne|left; reflexivity].
        -- left. exact H.
        -- right. split; [exact Hk|right; exact Hin].
      * intros [H|[Hk [[= <- <-]|Hin]]].
        -- right. left. exact H.
        -- left. reflexivity.
        -- right. right. split; assumption.
Qed.

Lemma getMembershipEntries_agree (v : Q) (sets : list TrapezoidalSet) :
  List.NoDup (map fst (getMembershipEntries v sets))
  /\ forall k d, In (k, d) (getMembershipEntries v sets)
                 <-> getMemberships v sets !! k = Some d.
Proof.
  induction sets as [|set sets [IH1 IH2]] using rev_ind.
  - split; [constructor|]. intros k d. cbn. split; [intros []|discriminate].
  - rewrite getMembershipEntries_snoc, getMemberships_snoc.
    split; [apply mapSet_keys, IH1|]. intros k d.
    rewrite mapSet_In by exact IH1. rewrite IH2.
    destruct (decide (name set = k)) as [<-|Hne].
    + rewrite lookup_insert_eq. split.
      * intros [[_ ->]|[H _]]; [reflexivity|contradiction].
      * intros [= <-]. left. split; reflexivity.
    + rewrite lookup_insert_ne by exact Hne. split.
      * intros [[-> _]|[_ H]]; [contradiction|exact H].
      * intros H. right. split; [congruence|exact H].
Qed.

Lemma entriesToDegrees_distinct (v : Q) (sets : list TrapezoidalSet) :
  NoDup (map name sets) ->
  entriesToDegrees (getMembershipEntries v sets) = degreesOf v sets.
Proof.
  intros Hnd. rewrite getMembershipEntries_distinct by exact Hnd.
  unfold entriesToDegrees, degreesOf. rewrite List.map_map. reflexivity.
Qed.

(** X10.  [getMembershipDegrees] lists, for each input variable, every set of
    its catalogue once and in catalogue order (five turbidity sets, five pH
    sets, three temperature sets) with the membership degree of the input,
    which lies in [0, 1] and is the degree [runFuzzyInference] reads from
    [getMemberships] for that name. *)
Theorem getMembershipDegrees_catalogue (inputs : WaterInputs) :
  let out := getMembershipDegrees inputs in
  md_turbidity out = degreesOf (turbidity inputs) TURBIDITY_SETS
  /\ md_ph out = degreesOf (ph inputs) PH_SETS
  /\ md_temperature out = degreesOf (temperature inputs) TEMPERATURE_SETS
  /\ Forall (fun d => 0 <= md_degree d <= 1)
            (md_turbidity out ++ md_ph out ++ md_temperature out)
  /\ Forall (fun d => getMemberships (turbidity inputs) TURBIDITY_SETS
                        !! md_name d = Some (md_degree d))
            (md_turbidity out)
  /\ Forall (fun d => getMemberships (ph inputs) PH_SETS
                        !! md_name d = Some (md_degree d))
            (md_ph out)
  /\ Forall (fun d => getMemberships (temperature inputs) TEMPERATURE_SETS
                        !! md_name d = Some (md_degree d))
            (md_temperature out).
Proof.
  cbv zeta. unfold getMembershipDegrees.
  cbn [md_turbidity md_ph md_temperature].
  assert (Hagree : forall v sets,
    Forall (fun d => getMemberships v sets !! md_name d = Some (md_degree d))
           (entriesToDegrees (getMembershipEntries v sets))).
  { intros v sets. apply List.Forall_forall. intros d Hd.
    unfold entriesToDegrees in Hd. apply in_map_iff in Hd as ([k q] & <- & Hin).
    cbn [md_name md_degree fst snd].
    apply (proj2 (getMembershipEntries_agree v sets)), Hin. }
  split; [apply entriesToDegrees_distinct, NoDup_turbidity|].
  split; [apply entriesToDegrees_distinct, NoDup_ph|].
  split; [apply entriesToDegrees_distinct, NoDup_temperature|].
  split; [|split; [apply Hagree|split; apply Hagree]].
  rewrite !entriesToDegrees_distinct
    by (apply NoDup_turbidity || apply NoDup_ph || apply NoDup_temperature).
  rewrite !List.Forall_app. unfold degreesOf.
  repeat split; apply List.Forall_forall; intros d Hd;
    apply in_map_iff in Hd as (set & <- & _); cbn [md_degree];
    apply calculateMembership_range.
Qed.

End FuzzyMoreProps.

(** * Further properties of the solver *)

Module FCMMoreProps.

Import FCM FCMSpec FCMProps FCMMoreSpec.

Local Open Scope R_scope.

(** ** [euclideanDistance] *)

Lemma squares_fold (l : list (R * R)) : forall a,
  fold_left (fun sum vw => sum + (fst vw - snd vw) ^ 2) l a
  = a + fold_left (fun sum vw => sum + (fst vw - snd vw) ^ 2) l 0.
Proof.
  induction l as [|x l IH]; intros a; cbn [fold_left]; [lra|].
  rewrite IH, (IH (0 + _)). lra.
Qed.

Lemma squaredDistance_cons (x y : R) (p1 p2 : list R) :
  squaredDistance (x :: p1) (y :: p2) = (x - y) ^ 2 + squaredDistance p1 p2.
Proof.
  unfold squaredDistance. cbn [combine fold_left fst snd].
  rewrite squares_fold. lra.
Qed.

Lemma squaredDistance_nonneg (p1 p2 : list R) : 0 <= squaredDistance p1 p2.
Proof.
  revert p2. induction p1 as [|x p1 IH]; intros [|y p2];
    try (unfold squaredDistance; cbn; lra).
  rewrite squaredDistance_cons. specialize (IH p2).
  pose proof (pow2_ge_0 (x - y)). lra.
Qed.

Lemma squaredDistance_sym (p1 p2 : list R) :
  squaredDistance p1 p2 = squaredDistance p2 p1.
Proof.
  revert p2. induction p1 as [|x p1 IH]; intros [|y p2]; try reflexivity.
  rewrite !squaredDistance_cons, IH. ring.
Qed.

Lemma squaredDistance_zero (p1 p2 : list R) :
  length p1 = length p2 -> (squaredDistance p1 p2 = 0 <-> p1 = p2).
Proof.
  revert p2. induction p1 as [|x p1 IH]; intros [|y p2] Hlen;
    try discriminate Hlen.
  - split; reflexivity.
  - rewrite squaredDistance_cons. injection Hlen as Hlen.
    pose proof (pow2_ge_0 (x - y)) as Hsq.
    pose proof (squaredDistance_nonneg p1 p2) as Hrest.
    split.
    + intros H. assert (Hx : (x - y) ^ 2 = 0) by lra.
      assert (Hr : squaredDistance p1 p2 = 0) by lra.
      assert (Hxy : x - y = 0).
      { destruct (Req_dec (x - y) 0) as [E|E]; [exact E|].
        exfalso. apply (pow_nonzero (x - y) 2 E). exact Hx. }
      f_equal; [lra|]. apply IH; assumption.
    + intros [= -> ->]. rewrite (proj2 (IH p2 eq_refl) eq_refl). ring.
Qed.

Lemma euclideanDistance_value (p1 p2 : list R) :
  length p1 = length p2 ->
  euclideanDistance p1 p2 = inr (sqrt (squaredDistance p1 p2)).
Proof.
  intros H. unfold euclideanDistance. rewrite H, Nat.eqb_refl. reflexivity.
Qed.

(** X11.  [euclideanDistance] throws on points of different lengths; on points
    of one length it returns a distance that is not negative, is the same
    in both directions, and is 0 between a point and itself. *)
Theorem euclideanDistance_symmetric (p1 p2 : list R) :
  (length p1 <> length p2 ->
   euclideanDistance p1 p2
   = inl (DimensionMismatch (length p1) (length p2)))
  /\ (length p1 = length p2 ->
      exists d, euclideanDistance p1 p2 = inr d
                /\ 0 <= d
                /\ euclideanDistance p2 p1 = inr d
                /\ (p1 = p2 -> d = 0)).
Proof.
  split; [apply euclideanDistance_mismatch|].
  intros Hlen. exists (sqrt (squaredDistance p1 p2)).
  split; [apply euclideanDistance_value, Hlen|].
  split; [apply sqrt_pos|].
  split.
  - rewrite euclideanDistance_value by (symmetry; exact Hlen).
    rewrite squaredDistance_sym. reflexivity.
  - intros Heq. apply (squaredDistance_zero p1 p2 Hlen) in Heq.
    rewrite Heq. apply sqrt_0.
Qed.

(** ** The shape of the result of [runFCM] *)

Lemma normalizeRow_length (row : list R) :
  length (normalizeRow row) = length row.
Proof.
  unfold normalizeRow. destruct (Rlt_dec 0 (reduceSum row)); [|reflexivity].
  apply length_map.
Qed.

Lemma updateRow_length (cs : list (list R)) (m : R) (k : nat)
  (p : DataPoint) (row row' : list R) :
  length row = k -> updateRow cs m k p row = inr row' -> length row' = k.
Proof.
  intros Hlen. unfold updateRow.
  destruct (mapE (euclideanDistance (features p)) cs) as [e|distances];
    cbn [bindE]; [discriminate|].
  intros [= <-]. rewrite normalizeRow_length.
  apply membershipLoop_length, Hlen.
Qed.

Lemma updateMemberships_shape (data : list DataPoint) (cs : list (list R))
  (m : R) (k : nat) (memberships memberships' : list (list R)) :
  length memberships = length data ->
  Forall (fun row => length row = k) memberships ->
  updateMemberships data cs m k memberships = inr memberships' ->
  length memberships' = length data
  /\ Forall (fun row => length row = k) memberships'.
Proof.
  intros Hlen Hrows H. unfold updateMemberships in H.
  apply mapE_Forall2 in H. split.
  - apply Forall2_length in H. rewrite <- H, length_combine. lia.
  - apply Forall_lookup_2. intros i row' Hi.
    destruct (Forall2_lookup_r _ _ _ _ _ H Hi) as ([p row] & Hpr & Hup).
    apply combine_lookup in Hpr. cbn [fst snd] in *.
    destruct Hpr as [_ Hrow].
    eapply updateRow_length; [|exact Hup].
    apply (Forall_lookup_1 _ _ _ _ Hrows Hrow).
Qed.

Lemma updateCentroids_length (data : list DataPoint)
  (memberships : list (list R)) (m : R) (k : nat) :
  length (updateCentroids data memberships m k) = k.
Proof. unfold updateCentroids. rewrite length_map. apply length_seq. Qed.

Lemma fcmPass_shaped (data : list DataPoint) (cfg : FCMConfig)
  (st st' : LoopState) (mc : R) :
  shapedState (clusterCount cfg) (length data) st ->
  fcmPass data cfg st = inr (st', mc) ->
  shapedState (clusterCount cfg) (length data) st'.
Proof.
  intros [(Hc & Hlen & Hrows) Hhist]. unfold fcmPass.
  destruct (updateMemberships data (l_centroids st) (fuzziness cfg)
              (clusterCount cfg) (l_memberships st)) as [e|ms] eqn:Eu;
    cbn [bindE]; [discriminate|].
  apply updateMemberships_shape in Eu as [Hlen' Hrows']; try assumption.
  assert (Hnew : shaped (clusterCount cfg) (length data)
                   (updateCentroids data ms (fuzziness cfg) (clusterCount cfg))
                   ms).
  { split; [apply updateCentroids_length|]. split; assumption. }
  destruct (trackHistory cfg).
  - destruct (calculateObjectiveFunction data _ ms (fuzziness cfg)) as [e|J];
      cbn [bindE]; [discriminate|].
    intros [= <- _]. split; [exact Hnew|]. cbn [l_history].
    apply Forall_app. split; [assumption|]. repeat constructor; apply Hnew.
  - cbn [bindE]. intros [= <- _]. split; [exact Hnew|exact Hhist].
Qed.

Lemma fcmLoop_shaped (data : list DataPoint) (cfg : FCMConfig)
  (remaining : nat) : forall st st',
  shapedState (clusterCount cfg) (length data) st ->
  fcmLoop data cfg remaining st = inr st' ->
  shapedState (clusterCount cfg) (length data) st'.
Proof.
  induction remaining as [|r IH]; intros st st' Hst H; cbn in H.
  - injection H as <-. assumption.
  - destruct (l_converged st); [injection H as <-; assumption|].
    destruct (fcmPass data cfg st) as [e|[st1 mc]] eqn:Ep; cbn [bindE] in H;
      [discriminate|].
    eapply IH; [|exact H]. eapply fcmPass_shaped; eassumption.
Qed.

Lemma initialState_shaped (shuffled data : list DataPoint) (k : nat) :
  Permutation data shuffled -> (k <= length data)%nat ->
  shapedState k (length data) (initialState shuffled data k).
Proof.
  intros Hperm Hk. split; [|constructor].
  unfold initialState, initializeCentroids. cbn [l_centroids l_memberships].
  split; [|split].
  - rewrite length_map, length_take. apply Permutation_length in Hperm. lia.
  - apply length_map.
  - apply Forall_map, Forall_forall. intros p _. apply repeat_length.
Qed.

(** *** [indexOf(Math.max(...row))] *)

Lemma fold_Rmax_ge (xs : list R) : forall x,
  x <= fold_left Rmax xs x /\ Forall (fun y => y <= fold_left Rmax xs x) xs.
Proof.
  induction xs as [|y xs IH]; intros x; cbn [fold_left]; [split; [lra|constructor]|].
  destruct (IH (Rmax x y)) as [H1 H2].
  pose proof (Rmax_l x y). pose proof (Rmax_r x y).
  split; [lra|]. constructor; [lra|exact H2].
Qed.

Lemma fold_Rmax_In (xs : list R) : forall x,
  In (fold_left Rmax xs x) (x :: xs).
Proof.
  induction xs as [|y xs IH]; intros x; cbn [fold_left]; [left; reflexivity|].
  destruct (IH (Rmax x y)) as [H|H].
  - rewrite <- H. unfold Rmax. destruct (Rle_dec x y);
      [right; left|left]; reflexivity.
  - right. right. exact H.
Qed.

(** [row.indexOf(x)] is the least index that holds [x]. *)
Lemma indexOf_found (x : R) (row : list R) :
  In x row ->
  exists i : nat,
    indexOf x row = Z.of_nat i /\ (i < length row)%nat /\ nth i row 0 = x
    /\ forall j, (j < i)%nat -> nth j row 0 <> x.
Proof.
  induction row as [|y row IH]; intros Hin; [contradiction|].
  cbn [indexOf]. destruct (Req_dec_T y x) as [->|Hne].
  - exists 0%nat. repeat split; [cbn; lia|]. intros j Hj. lia.
  - destruct Hin as [->|Hin]; [contradiction|].
    destruct (IH Hin) as (i & Hi & Hlt & Hnth & Hleast).
    exists (S i). rewrite Hi.
    replace (Z.of_nat i <? 0)%Z with false by (symmetry; apply Z.ltb_ge; lia).
    repeat split; [lia|cbn; lia|exact Hnth|].
    intros [|j] Hj; [exact Hne|]. cbn [nth]. apply Hleast. lia.
Qed.

Lemma indexOfMax_first (row : list R) :
  row <> [] -> firstMaximum row (indexOfMax row).
Proof.
  destruct row as [|x xs]; [congruence|]. intros _. unfold indexOfMax.
  destruct (fold_Rmax_ge xs x) as [Hx Hxs].
  destruct (indexOf_found (fold_left Rmax xs x) (x :: xs) (fold_Rmax_In xs x))
    as (i & Hi & Hlt & Hnth & Hleast).
  exists i. split; [exact Hi|]. split; [exact Hlt|]. rewrite Hnth.
  split; [constructor; assumption|].
  intros j Hj. specialize (Hleast j Hj).
  assert (Hle : nth j (x :: xs) 0 <= fold_left Rmax xs x).
  { assert (Hall : Forall (fun y => y <= fold_left Rmax xs x) (x :: xs))
      by (constructor; assumption).
    rewrite List.Forall_forall in Hall. apply Hall, nth_In. lia. }
  lra.
Qed.

(** X12.  A result of [runFCM] on [n] points with [k] clusters has [k]
    centroids, [n] membership rows of [k] entries and [n] cluster
    assignments, and so has every history entry; with points of [D]
    features every centroid has [D] coordinates. *)
Theorem runFCM_result_shape (D : nat) (shuffled data : list DataPoint)
  (cfg : FCMConfig) (res : FCMResult) :
  Permutation data shuffled ->
  runFCM shuffled data cfg = inr res ->
  let k := clusterCount cfg in
  let n := length data in
  shaped k n (centroids res) (membershipMatrix res)
  /\ Forall (fun it => shaped k n (it_centroids it) (it_membershipMatrix it))
            (iterationHistory res)
  /\ (uniformDim D data -> centroidsDim D (centroids res))
  /\ length (clusterAssignments res) = n.
Proof.
  intros Hperm Hrun. cbv zeta.
  destruct (runFCM_inv shuffled data cfg res Hrun)
    as (st & Hloop & Hne & Hk & ->).
  cbn [centroids membershipMatrix iterationHistory clusterAssignments].
  destruct (fcmLoop_shaped data cfg _ _ st
              (initialState_shaped shuffled data _ Hperm Hk) Hloop)
    as [(Hc & Hn & Hrows) Hhist].
  split; [repeat split; assumption|]. split; [exact Hhist|].
  split; [|rewrite length_map; exact Hn].
  intros Hdim.
  assert (Hinv : forall remaining s s',
            centroidsDim D (l_centroids s) ->
            fcmLoop data cfg remaining s = inr s' ->
            centroidsDim D (l_centroids s')).
  { induction remaining as [|r IH]; intros s s' Hs H; cbn in H.
    - injection H as <-. exact Hs.
    - destruct (l_converged s); [injection H as <-; exact Hs|].
      destruct (fcmPass_ok D data cfg s Hne Hdim Hs)
        as (s1 & mc & E1 & Hs1).
      rewrite E1 in H. cbn [bindE fst] in H. eapply IH; eassumption. }
  eapply Hinv; [|exact Hloop].
  apply initialState_dim; assumption.
Qed.

(** ** The passes of the loop *)

Lemma fold_Rmax_from (l : list R) : forall a, a <= fold_left Rmax l a.
Proof.
  induction l as [|x l IH]; intros a; cbn [fold_left]; [lra|].
  pose proof (IH (Rmax a x)). pose proof (Rmax_l a x). lra.
Qed.

Lemma maxChange_row_from (k : nat) (row old : list R) (a : R) :
  a <= fold_left (fun maxChange' j =>
                    Rmax maxChange' (Rabs (nth j row 0 - nth j old 0)))
                 (seq 0 k) a.
Proof.
  generalize (seq 0 k). intros js. revert a.
  induction js as [|j js IH]; intros a; cbn [fold_left]; [lra|].
  pose proof (IH (Rmax a (Rabs (nth j row 0 - nth j old 0)))).
  pose proof (Rmax_l a (Rabs (nth j row 0 - nth j old 0))). lra.
Qed.

Lemma maxChange_from (k : nat) (l : list (list R * list R)) : forall a,
  a <= fold_left
         (fun maxChange rows =>
            fold_left
              (fun maxChange' j =>
                 Rmax maxChange'
                      (Rabs (nth j (fst rows) 0 - nth j (snd rows) 0)))
              (seq 0 k) maxChange)
         l a.
Proof.
  induction l as [|[row old] l IH]; intros a; cbn [fold_left]; [lra|].
  eapply Rle_trans; [|apply IH]. apply maxChange_row_from.
Qed.

Lemma maxChangeOf_nonneg (k : nat) (memberships prev : list (list R)) :
  0 <= maxChangeOf k memberships prev.
Proof. apply maxChange_from. Qed.

Lemma objective_inner_from (p : DataPoint) (row : list R) (m : R)
  (jcs : list (nat * list R)) : forall J J',
  foldE (fun J' jc =>
           do distance <- euclideanDistance (features p) (snd jc);
           inr (J' + Math_pow (nth (fst jc) row 0) m * distance ^ 2))
        jcs J = inr J' ->
  J <= J'.
Proof.
  induction jcs as [|[j c] jcs IH]; intros J J' H; cbn [foldE] in H.
  - injection H as <-. lra.
  - cbn [fst snd] in H.
    destruct (euclideanDistance (features p) c) as [e|d];
      cbn [bindE] in H; [discriminate|].
    apply IH in H. pose proof (Math_pow_nonneg (nth j row 0) m).
    pose proof (pow2_ge_0 d). nra.
Qed.

Lemma objective_from (cs : list (list R)) (m : R)
  (l : list (DataPoint * list R)) : forall a J,
  foldE (fun J pr =>
           foldE (fun J' jc =>
                    do distance <- euclideanDistance (features (fst pr))
                                                     (snd jc);
                    inr (J' + Math_pow (nth (fst jc) (snd pr) 0) m
                              * distance ^ 2))
                 (combine (seq 0 (length cs)) cs) J)
        l a = inr J ->
  a <= J.
Proof.
  induction l as [|[p row] l IH]; intros a J H; cbn [foldE] in H.
  - injection H as <-. lra.
  - cbn [fst snd] in H.
    destruct (foldE _ (combine (seq 0 (length cs)) cs) a) as [e|J1] eqn:E1;
      cbn [bindE] in H; [discriminate|].
    apply objective_inner_from in E1. apply IH in H. lra.
Qed.

Lemma calculateObjectiveFunction_nonneg (data : list DataPoint)
  (cs memberships : list (list R)) (m J : R) :
  calculateObjectiveFunction data cs memberships m = inr J -> 0 <= J.
Proof. apply objective_from. Qed.

Lemma fcmPass_step (data : list DataPoint) (cfg : FCMConfig)
  (st st' : LoopState) (mc : R) :
  fcmPass data cfg st = inr (st', mc) ->
  l_iteration st' = S (l_iteration st)
  /\ (l_converged st' = true <-> mc < tolerance cfg)
  /\ 0 <= mc
  /\ l_centroids st'
     = updateCentroids data (l_memberships st') (fuzziness cfg)
         (clusterCount cfg)
  /\ (if trackHistory cfg
      then exists J,
             0 <= J
             /\ l_history st'
                = l_history st
                  ++ [mkIteration (l_iteration st) (l_centroids st')
                        (l_memberships st') mc J]
      else l_history st' = l_history st).
Proof.
  unfold fcmPass.
  destruct (updateMemberships data (l_centroids st) (fuzziness cfg)
              (clusterCount cfg) (l_memberships st)) as [e|ms];
    cbn [bindE]; [discriminate|].
  set (mc0 := maxChangeOf (clusterCount cfg) ms (l_prevMemberships st)).
  assert (Hmc : 0 <= mc0) by apply maxChangeOf_nonneg.
  assert (Hconv : (if Rlt_dec mc0 (tolerance cfg) then true else false) = true
                  <-> mc0 < tolerance cfg).
  { destruct (Rlt_dec mc0 (tolerance cfg)); split; intros; congruence || lra. }
  destruct (trackHistory cfg).
  - destruct (calculateObjectiveFunction data _ ms (fuzziness cfg))
      as [e|J] eqn:EJ; cbn [bindE]; [discriminate|].
    intros [= <- <-]. cbn [l_iteration l_converged l_centroids l_memberships
                           l_history].
    repeat split; try assumption; try apply Hconv.
    exists J. split; [|reflexivity].
    eapply calculateObjectiveFunction_nonneg, EJ.
  - cbn [bindE]. intros [= <- <-].
    cbn [l_iteration l_converged l_centroids l_memberships l_history].
    repeat split; try assumption; apply Hconv.
Qed.

Lemma fcmPass_afterPass (data : list DataPoint) (cfg : FCMConfig)
  (st st' : LoopState) (mc : R) :
  fcmPass data cfg st = inr (st', mc) -> afterPass data cfg st'.
Proof.
  intros H. destruct (fcmPass_step data cfg st st' mc H)
    as (_ & Hconv & _ & Hc & Hh).
  split; [exact Hc|]. intros Ht. rewrite Ht in Hh.
  destruct Hh as (J & _ & Hh).
  eexists. split; [rewrite Hh; apply last_snoc|].
  cbn [it_centroids it_membershipMatrix it_convergenceError].
  repeat split; apply Hconv.
Qed.

Lemma fcmLoop_account (data : list DataPoint) (cfg : FCMConfig)
  (remaining : nat) : forall st st',
  fcmLoop data cfg remaining st = inr st' ->
  (l_iteration st <= l_iteration st' <= l_iteration st + remaining)%nat
  /\ (l_converged st' = false ->
      l_iteration st' = (l_iteration st + remaining)%nat)
  /\ (l_converged st = false -> (1 <= remaining)%nat ->
      (l_iteration st < l_iteration st')%nat)
  /\ map iteration (l_history st')
     = map iteration (l_history st)
       ++ (if trackHistory cfg
           then seq (l_iteration st) (l_iteration st' - l_iteration st)
           else [])
  /\ (Forall entryOK (l_history st) -> Forall entryOK (l_history st'))
  /\ ((l_iteration st < l_iteration st')%nat -> afterPass data cfg st').
Proof.
  induction remaining as [|r IH]; intros st st' H; cbn [fcmLoop] in H.
  - injection H as <-. rewrite Nat.sub_diag.
    repeat split; try lia; try tauto.
    destruct (trackHistory cfg); cbn [seq]; rewrite app_nil_r; reflexivity.
  - destruct (l_converged st) eqn:Ec.
    + injection H as <-. rewrite Nat.sub_diag.
      repeat split; try lia; try tauto; try congruence.
      destruct (trackHistory cfg); cbn [seq]; rewrite app_nil_r; reflexivity.
    + destruct (fcmPass data cfg st) as [e|[st1 mc]] eqn:Ep;
        cbn [bindE fst] in H; [discriminate|].
      destruct (fcmPass_step data cfg st st1 mc Ep)
        as (Hit & Hconv & Hmc & Hc & Hh).
      pose proof (fcmPass_afterPass data cfg st st1 mc Ep) as Hafter.
      destruct (IH st1 st' H) as (I1 & I2 & I3 & I4 & I5 & I6).
      split; [lia|]. split; [intros Hf; rewrite (I2 Hf); lia|].
      split; [intros _ _; lia|]. split; [|split].
      * rewrite I4. destruct (trackHistory cfg).
        -- destruct Hh as (J & _ & ->). rewrite map_app, <- app_assoc.
           f_equal. cbn [map iteration app].
           replace (l_iteration st' - l_iteration st)%nat
             with (S (l_iteration st' - l_iteration st1)) by lia.
           cbn [seq]. rewrite Hit. reflexivity.
        -- rewrite Hh. reflexivity.
      * intros Hok. apply I5. destruct (trackHistory cfg).
        -- destruct Hh as (J & HJ & ->). apply Forall_app. split; [exact Hok|].
           apply List.Forall_cons; [split; assumption|apply List.Forall_nil].
        -- rewrite Hh. exact Hok.
      * intros _. destruct (Nat.eq_dec (l_iteration st') (l_iteration st1))
          as [E|E]; [|apply I6; lia].
        (* no further pass ran: [st'] is [st1] *)
        clear IH I1 I2 I3 I4 I5 I6.
        destruct r as [|r]; cbn [fcmLoop] in H.
        -- injection H as <-. exact Hafter.
        -- destruct (l_converged st1); [injection H as <-; exact Hafter|].
           destruct (fcmPass data cfg st1) as [e|[st2 mc2]] eqn:Ep2;
             cbn [bindE fst] in H; [discriminate|].
           exfalso.
           destruct (fcmPass_step data cfg st1 st2 mc2 Ep2) as (Hit2 & _).
           assert (Hge : forall n s s', fcmLoop data cfg n s = inr s' ->
                           (l_iteration s <= l_iteration s')%nat).
           { induction n as [|n IHn]; intros s s' Hs; cbn [fcmLoop] in Hs.
             - injection Hs as <-. lia.
             - destruct (l_converged s); [injection Hs as <-; lia|].
               destruct (fcmPass data cfg s) as [e|[s1 m1]] eqn:Es;
                 cbn [bindE fst] in Hs; [discriminate|].
               apply IHn in Hs.
               destruct (fcmPass_step data cfg s s1 m1 Es) as (Hs1 & _). lia. }
           apply Hge in H. lia.
Qed.

Lemma twoPoints_run : exists res, runFCM twoPoints twoPoints twoClusters = inr res.
Proof.
  apply (runFCM_ok 1 twoPoints twoPoints twoClusters).
  - repeat constructor.
  - apply Permutation_refl.
  - discriminate.
  - cbn. lia.
Qed.

Lemma runFCM_account (shuffled data : list DataPoint) (cfg : FCMConfig)
  (res : FCMResult) :
  runFCM shuffled data cfg = inr res ->
  (iterationCount res <= maxIterations cfg)%nat
  /\ (converged res = false -> iterationCount res = maxIterations cfg)
  /\ ((1 <= maxIterations cfg)%nat -> (1 <= iterationCount res)%nat)
  /\ map iteration (iterationHistory res)
     = (if trackHistory cfg then seq 0 (iterationCount res) else [])
  /\ Forall (fun it => 0 <= it_convergenceError it
                       /\ 0 <= objectiveFunction it)
            (iterationHistory res).
Proof.
  intros Hrun.
  destruct (runFCM_inv shuffled data cfg res Hrun)
    as (st & Hloop & _ & _ & ->).
  cbn [iterationCount converged iterationHistory].
  destruct (fcmLoop_account data cfg _ _ _ Hloop)
    as (I1 & I2 & I3 & I4 & I5 & _).
  cbn [initialState l_iteration l_converged l_history map app] in *.
  rewrite Nat.sub_0_r in I4.
  split; [lia|]. split; [exact I2|]. split; [intros H; apply I3; auto|].
  split; [exact I4|]. apply I5. constructor.
Qed.

(** X13.  [runFCM] runs at most [maxIterations] passes, all of them unless it
    converged, and at least one when [maxIterations >= 1]; with
    [trackHistory] the history has one entry per pass, numbered from 0, and
    without it the history is empty. *)
Theorem runFCM_iterations (shuffled data : list DataPoint) (cfg : FCMConfig)
  (res : FCMResult) :
  runFCM shuffled data cfg = inr res ->
  (iterationCount res <= maxIterations cfg)%nat
  /\ (converged res = false -> iterationCount res = maxIterations cfg)
  /\ ((1 <= maxIterations cfg)%nat -> (1 <= iterationCount res)%nat)
  /\ map iteration (iterationHistory res)
     = (if trackHistory cfg then seq 0 (iterationCount res) else []).
Proof.
  intros Hrun.
  destruct (runFCM_account shuffled data cfg res Hrun)
    as (A1 & A2 & A3 & A4 & _).
  auto.
Qed.

(** X13 on two points, two clusters and at most three passes. *)
Lemma runFCM_iterations_witness :
  exists res,
    runFCM twoPoints twoPoints twoClusters = inr res
    /\ (1 <= iterationCount res <= 3)%nat
    /\ length (iterationHistory res) = iterationCount res.
Proof.
  destruct twoPoints_run as [res Hres]. exists res. split; [exact Hres|].
  destruct (runFCM_iterations twoPoints twoPoints twoClusters res Hres)
    as (H1 & _ & H3 & H4).
  split; [split; [apply H3; cbn; lia|exact H1]|].
  rewrite <- (length_map iteration), H4. cbn [trackHistory twoClusters].
  apply length_seq.
Defined.

(** X12 on two points and two clusters. *)
Lemma runFCM_result_shape_witness :
  exists res,
    runFCM twoPoints twoPoints twoClusters = inr res
    /\ length (centroids res) = 2%nat
    /\ length (membershipMatrix res) = 2%nat
    /\ length (clusterAssignments res) = 2%nat.
Proof.
  destruct twoPoints_run as [res Hres]. exists res. split; [exact Hres|].
  destruct (runFCM_result_shape 1 twoPoints twoPoints twoClusters res
              (Permutation_refl _) Hres) as ((H1 & H2 & _) & _ & _ & H4).
  repeat split; assumption.
Defined.

Lemma runFCM_consistent (shuffled data : list DataPoint)
  (cfg : FCMConfig) (res : FCMResult) :
  runFCM shuffled data cfg = inr res ->
  (1 <= iterationCount res)%nat ->
  centroids res
  = updateCentroids data (membershipMatrix res) (fuzziness cfg)
      (clusterCount cfg)
  /\ (trackHistory cfg = true ->
      exists it,
        last (iterationHistory res) = Some it
        /\ it_centroids it = centroids res
        /\ it_membershipMatrix it = membershipMatrix res
        /\ it_convergenceError it = convergenceError res
        /\ (converged res = true <-> convergenceError res < tolerance cfg)).
Proof.
  intros Hrun Hit.
  destruct (runFCM_inv shuffled data cfg res Hrun)
    as (st & Hloop & _ & _ & ->).
  cbn [iterationCount converged iterationHistory centroids membershipMatrix
         convergenceError] in *.
  destruct (fcmLoop_account data cfg _ _ _ Hloop)
    as (_ & _ & _ & _ & _ & I6).
  cbn [initialState l_iteration] in I6.
  destruct (I6 ltac:(lia)) as [Hc Hh]. split; [exact Hc|].
  intros Ht. destruct (Hh Ht) as (it & Hlast & H1 & H2 & H3).
  exists it. rewrite Ht, Hlast. repeat split; try assumption; apply H3.
Qed.



(** ** The centroid update *)

Lemma nth_imap {A : Type} (f : nat -> A -> A) (l : list A) (x : A) :
  forall d, (d < length l)%nat -> nth d (imap f l) x = f d (nth d l x).
Proof.
  revert f. induction l as [|a l IH]; intros f d Hd; [cbn in Hd; lia|].
  rewrite imap_cons. destruct d as [|d]; [reflexivity|].
  cbn [nth]. rewrite IH by (cbn in Hd; lia). reflexivity.
Qed.

Lemma Math_pow_zero (y : R) : Math_pow 0 y = 0.
Proof.
  unfold Math_pow. destruct (Req_dec_T 0 0) as [_|N]; [reflexivity|].
  contradiction.
Qed.

Lemma imap_origin (f : nat -> R -> R) (D : nat) :
  (forall d, f d 0 = 0) -> imap f (repeat 0 D) = repeat 0 D.
Proof.
  revert f. induction D as [|D IH]; intros f Hf; [reflexivity|].
  cbn [repeat]. rewrite imap_cons, Hf. f_equal. apply IH.
  intros d. apply Hf.
Qed.

Lemma centroidSums_origin (m : R) (j D : nat)
  (l : list (DataPoint * list R)) :
  Forall (fun pr => nth j (snd pr) 0 = 0) l ->
  centroidSums m j l (repeat 0 D, 0) = (repeat 0 D, 0).
Proof.
  unfold centroidSums.
  induction l as [|[p row] l IH]; intros Hz; cbn [fold_left];
    [reflexivity|].
  inversion Hz as [|? ? Hp Hrest]; subst. cbn [fst snd] in Hp |- *.
  rewrite Hp, Math_pow_zero, imap_origin by (intros d; ring).
  replace (0 + 0) with 0 by ring. apply IH, Hrest.
Qed.

(** X15.  A cluster in which every point has membership 0 gets the origin as
    its centroid, whatever its centroid was and wherever the points lie:
    the weights [Math.pow(0, m)] are 0 for a fuzziness above 0, the weight
    sum is not above 0 and the sums of the coordinates are returned as they
    are, all 0. *)
Theorem updateCentroid_without_members (D : nat) (data : list DataPoint)
  (memberships : list (list R)) (m : R) (j : nat) :
  data <> [] -> uniformDim D data -> 0 < m ->
  length memberships = length data ->
  Forall (fun row => (j < length row)%nat /\ nth j row 0 = 0) memberships ->
  updateCentroid data memberships m j = repeat 0 D.
Proof.
  intros Hne Hdim _ _ Hrows. unfold updateCentroid.
  fold (centroidSums m j (combine data memberships)
          (Array_fill (dimensionCountOf data) 0, 0)).
  assert (HD : dimensionCountOf data = D).
  { destruct data as [|p data]; [congruence|].
    inversion Hdim; subst. reflexivity. }
  rewrite HD. unfold Array_fill. rewrite centroidSums_origin.
  - destruct (Rlt_dec 0 0) as [N|_]; [lra|]. apply map_id.
  - apply List.Forall_forall. intros [p row] Hin. cbn [snd].
    apply in_combine_r in Hin. rewrite List.Forall_forall in Hrows.
    apply (Hrows row Hin).
Qed.

(** X15 on the points 0 and 1, both with all their membership in cluster 0:
    the centroid of cluster 1 is the origin. *)
Lemma updateCentroid_without_members_witness :
  updateCentroid twoPoints [[1; 0]; [1; 0]] 2 1 = [0].
Proof.
  apply (updateCentroid_without_members 1 twoPoints [[1; 0]; [1; 0]] 2 1).
  - discriminate.
  - repeat constructor.
  - lra.
  - reflexivity.
  - repeat constructor.
Defined.

(** ** A point on a centroid *)

Lemma mapE_lookup {A B : Type} (f : A -> FCMError + B) (l : list A) :
  forall bs, mapE f l = inr bs ->
  length bs = length l
  /\ forall j a, l !! j = Some a ->
       exists b, f a = inr b /\ bs !! j = Some b.
Proof.
  induction l as [|a l IH]; intros bs H; cbn [mapE] in H.
  - injection H as <-. split; [reflexivity|]. intros j a Ha. discriminate Ha.
  - destruct (f a) as [e|b] eqn:Eb; [discriminate H|]. cbn [bindE] in H.
    destruct (mapE f l) as [e|bs'] eqn:Ebs; [discriminate H|].
    cbn [bindE] in H. injection H as <-.
    destruct (IH bs' eq_refl) as [Hlen Hall].
    split; [cbn; rewrite Hlen; reflexivity|].
    intros [|j] a' Ha'.
    + injection Ha' as <-. exists b. split; [exact Eb|reflexivity].
    + apply (Hall j a' Ha').
Qed.

Lemma membershipLoop_hits (distances : list R) (m : R) (k j0 : nat)
  (n : nat) : forall a row,
  (a <= j0 < a + n)%nat ->
  nth j0 distances 0 = 0 ->
  (forall j, (a <= j < j0)%nat -> nth j distances 0 <> 0) ->
  membershipLoop distances m k (seq a n) row = oneHot k j0.
Proof.
  induction n as [|n IH]; intros a row Ha Hz Hnz; [lia|].
  cbn [seq membershipLoop].
  destruct (Req_dec_T (nth a distances 0) 0) as [E|E].
  - destruct (Nat.eq_dec a j0) as [->|Hne]; [reflexivity|].
    exfalso. apply (Hnz a); [lia|exact E].
  - apply IH; [|exact Hz|intros j Hj; apply Hnz; lia].
    destruct (Nat.eq_dec a j0) as [->|Hne]; [contradiction|lia].
Qed.

Lemma rowSum_insert_zero (k j : nat) :
  (j < k)%nat -> rowSum (<[j := 1]> (repeat 0 k)) = 1.
Proof.
  revert j. induction k as [|k IH]; intros j Hj; [lia|].
  destruct j as [|j]; cbn [repeat insert list_insert rowSum].
  - rewrite rowSum_repeat. lra.
  - change (list_insert j 1 (repeat 0 k)) with (<[j := 1]> (repeat 0 k)).
    rewrite IH by lia. lra.
Qed.

Lemma normalizeRow_oneHot (k j : nat) :
  (j < k)%nat -> normalizeRow (oneHot k j) = oneHot k j.
Proof.
  intros Hj. unfold normalizeRow, oneHot, Array_fill.
  rewrite reduceSum_rowSum, rowSum_insert_zero by exact Hj.
  destruct (Rlt_dec 0 1) as [_|N]; [|lra].
  rewrite <- (map_id (<[j := 1]> (repeat 0 k))) at 2.
  apply map_ext. intros v. field.
Qed.

(** X16.  A point on a centroid is at distance 0 of it; and a point at
    distance 0 of a centroid gets membership 1 in the first cluster at
    distance 0 and membership 0 in all the others, whatever its memberships
    were and whatever the fuzziness. *)
Theorem zero_distance_row (cs : list (list R)) (m : R) (k j0 : nat)
  (p : DataPoint) (row distances : list R) :
  length cs = k ->
  mapE (euclideanDistance (features p)) cs = inr distances ->
  (cs !! j0 = Some (features p) -> distances !! j0 = Some 0)
  /\ (distances !! j0 = Some 0 ->
      (forall j d, (j < j0)%nat -> distances !! j = Some d -> d <> 0) ->
      updateRow cs m k p row = inr (oneHot k j0)).
Proof.
  intros Hk Hd. destruct (mapE_lookup _ _ _ Hd) as [Hlen Hall]. split.
  - intros Hj0. destruct (Hall j0 _ Hj0) as (d & Ed & Hl).
    rewrite euclideanDistance_value in Ed by reflexivity.
    injection Ed as <-. rewrite Hl. f_equal.
    rewrite (proj2 (squaredDistance_zero _ _ eq_refl) eq_refl).
    apply sqrt_0.
  - intros Hz Hfirst. unfold updateRow. rewrite Hd. cbn [bindE]. f_equal.
    assert (Hlt : (j0 < k)%nat).
    { rewrite <- Hk, <- Hlen. apply lookup_lt_is_Some. eauto. }
    rewrite (membershipLoop_hits _ m k j0 k 0 row).
    + apply normalizeRow_oneHot, Hlt.
    + lia.
    + rewrite nth_lookup, Hz. reflexivity.
    + intros j Hj. rewrite nth_lookup.
      destruct (distances !! j) as [d|] eqn:Ej.
      * cbn. apply (Hfirst j d); [lia|exact Ej].
      * apply lookup_ge_None in Ej. lia.
Qed.

(** X16 for the point 1 and the centroids 0 and 1. *)
Lemma zero_distance_row_witness :
  updateRow [[0]; [1]] 2 2 pointB [1 / 2; 1 / 2] = inr [0; 1].
Proof.
  assert (Hd : mapE (euclideanDistance (features pointB)) [[0]; [1]]
               = inr [sqrt (squaredDistance [1] [0]);
                      sqrt (squaredDistance [1] [1])])
    by reflexivity.
  destruct (zero_distance_row [[0]; [1]] 2 2 1 pointB [1 / 2; 1 / 2] _
              eq_refl Hd) as [H0 H1].
  apply H1.
  - apply H0. reflexivity.
  - intros [|j] d Hj Hl; [|lia]. injection Hl as <-.
    unfold squaredDistance. cbn [combine fold_left fst snd].
    intros H. apply sqrt_eq_0 in H; lra.
Defined.

(** ** [analyzeRisk] on a membership row *)

Lemma Math_round_bounds (lo hi : Z) (x : R) :
  IZR lo <= x <= IZR hi -> (lo <= Math_round x <= hi)%Z.
Proof.
  intros [H1 H2]. unfold Math_round.
  destruct (base_Int_part (x + / 2)) as [B1 B2].
  split.
  - apply Z.lt_succ_r, lt_IZR. rewrite succ_IZR. lra.
  - apply Z.lt_succ_r, lt_IZR. rewrite succ_IZR. lra.
Qed.

(** The last two entries of a row of at least two. *)
Lemma row_last_two (k : nat) (row : list R) :
  goodRow k row -> (2 <= k)%nat ->
  let len := Z.of_nat (length row) in
  let a := membershipOr0 row (if (2 <? len)%Z then (len - 2)%Z else 0%Z) in
  let f := membershipOr0 row (len - 1)%Z in
  a = nth (k - 2) row 0 /\ f = nth (k - 1) row 0
  /\ 0 <= a /\ 0 <= f /\ a + f <= 1.
Proof.
  intros (Hlen & Hrange & Hsum) Hk. cbv zeta. rewrite Hlen.
  assert (Ha : membershipOr0 row
                 (if (2 <? Z.of_nat k)%Z then (Z.of_nat k - 2)%Z else 0%Z)
               = nth (k - 2) row 0).
  { unfold membershipOr0. destruct (Z.ltb_spec 2 (Z.of_nat k)) as [L|L].
    - replace (Z.of_nat k - 2 <? 0)%Z with false
        by (symmetry; apply Z.ltb_ge; lia).
      f_equal. lia.
    - assert (Hk2 : k = 2%nat) by lia. rewrite Hk2. reflexivity. }
  assert (Hf : membershipOr0 row (Z.of_nat k - 1)%Z = nth (k - 1) row 0).
  { unfold membershipOr0.
    replace (Z.of_nat k - 1 <? 0)%Z with false
      by (symmetry; apply Z.ltb_ge; lia).
    f_equal. lia. }
  rewrite Ha, Hf. split; [reflexivity|]. split; [reflexivity|].
  (* split the row into a prefix and its last two entries *)
  assert (Hsplit : exists pre a f, row = pre ++ [a; f]).
  { destruct (rev row) as [|f [|a pre]] eqn:E.
    - apply (f_equal (@length R)) in E. rewrite length_rev in E. cbn in E. lia.
    - apply (f_equal (@length R)) in E. rewrite length_rev in E. cbn in E. lia.
    - exists (rev pre), a, f. rewrite <- (rev_involutive row), E. cbn.
      rewrite <- app_assoc. reflexivity. }
  destruct Hsplit as (pre & a & f & ->).
  rewrite length_app in Hlen. cbn [length] in Hlen.
  replace (k - 2)%nat with (length pre + 0)%nat by lia.
  replace (k - 1)%nat with (length pre + 1)%nat by lia.
  rewrite !app_nth2_plus. cbn [nth].
  apply Forall_app in Hrange as [Hpre Hlast].
  inversion Hlast as [|? ? Ha' Hl']; subst.
  inversion Hl' as [|? ? Hf' _]; subst.
  assert (Hp : 0 <= rowSum pre).
  { apply rowSum_nonneg. eapply List.Forall_impl; [|exact Hpre].
    cbn beta. intros x Hx. lra. }
  assert (Hs : rowSum (pre ++ [a; f]) = rowSum pre + (a + f)).
  { clear. induction pre as [|x pre IH]; cbn [app rowSum]; [lra|].
    rewrite IH. lra. }
  rewrite Hs in Hsum. repeat split; lra.
Qed.

Lemma analyzeRisk_dominant (memberships : list R) :
  dominantCluster (analyzeRisk memberships) = indexOfMax memberships.
Proof.
  unfold analyzeRisk. set (score := Math_round _).
  destruct (score <? 20)%Z; [reflexivity|].
  destruct (score <? 45)%Z; [reflexivity|].
  destruct (score <? 70)%Z; reflexivity.
Qed.

(** X17.  On a membership row of two or more clusters (entries in [0, 1] that
    sum to 1) the risk score is [round(40 * alert + 100 * failure)] for the
    last two entries of the row, it lies in 0..100 without the clamp acting,
    the category follows from the score by the bands below 20, 45 and 70,
    and the dominant cluster is the least index of a largest entry. *)
Theorem analyzeRisk_on_row (k : nat) (row : list R) :
  goodRow k row -> (2 <= k)%nat ->
  let r := analyzeRisk row in
  riskScore r
  = Math_round (nth (k - 2) row 0 * 40 + nth (k - 1) row 0 * 100)
  /\ (0 <= riskScore r <= 100)%Z
  /\ riskCategory r
     = (if (riskScore r <? 20)%Z then low
        else if (riskScore r <? 45)%Z then medium
        else if (riskScore r <? 70)%Z then high else critical)
  /\ firstMaximum row (dominantCluster r).
Proof.
  intros Hgood Hk. cbv zeta.
  destruct (analyzeRisk_fields row) as [Hs Hc]. cbv zeta in Hs, Hc.
  destruct (row_last_two k row Hgood Hk) as (Ha & Hf & Ha0 & Hf0 & Haf).
  cbv zeta in Ha, Hf, Ha0, Hf0, Haf.
  rewrite Ha, Hf in *.
  set (a := nth (k - 2) row 0) in *. set (f := nth (k - 1) row 0) in *.
  assert (Hb : (0 <= Math_round (a * 40 + f * 100) <= 100)%Z)
    by (apply Math_round_bounds; split; lra).
  assert (Hmin : Z.min 100 (Math_round (a * 40 + f * 100))
                 = Math_round (a * 40 + f * 100)) by lia.
  rewrite Hs, Hc, Hmin. split; [reflexivity|]. split; [exact Hb|].
  split; [reflexivity|].
  rewrite analyzeRisk_dominant.
  apply indexOfMax_first. destruct Hgood as (Hlen & _).
  intros ->. cbn in Hlen. lia.
Qed.

(** X17 on the row (0, 0, 1). *)
Lemma analyzeRisk_on_row_witness :
  (0 <= riskScore (analyzeRisk failingRow) <= 100)%Z
  /\ firstMaximum failingRow (dominantCluster (analyzeRisk failingRow)).
Proof.
  destruct (analyzeRisk_on_row 3 failingRow) as (_ & H2 & _ & H4).
  - split; [reflexivity|]. split; [|cbn; lra].
    repeat constructor; lra.
  - lia.
  - split; assumption.
Defined.

(** ** A run without passes *)

Lemma fold_Rmax_repeat (v : R) (n : nat) : fold_left Rmax (repeat v n) v = v.
Proof.
  induction n as [|n IH]; [reflexivity|]. cbn [repeat fold_left].
  rewrite Rmax_left by lra. exact IH.
Qed.

Lemma indexOfMax_uniform (v : R) (k : nat) :
  (1 <= k)%nat -> indexOfMax (repeat v k) = 0%Z.
Proof.
  destruct k as [|k]; [lia|]. intros _. cbn [repeat indexOfMax].
  rewrite fold_Rmax_repeat. cbn [indexOf].
  destruct (Req_dec_T v v) as [_|N]; [reflexivity|contradiction].
Qed.

(** X18.  With [maxIterations = 0] the loop does not run: [runFCM] returns
    the features of the first [k] shuffled points as centroids, every
    membership at [1 / k], every point assigned to cluster 0, no history, no
    pass counted, [converged] false and a convergence error of 0, and it
    compares no two points, so it throws for no mix of dimensions. *)
Theorem runFCM_without_passes (shuffled data : list DataPoint)
  (cfg : FCMConfig) :
  maxIterations cfg = 0%nat -> data <> [] ->
  (1 <= clusterCount cfg <= length data)%nat ->
  let k := clusterCount cfg in
  runFCM shuffled data cfg
  = inr (mkResult (map features (firstn k shuffled))
           (map (fun _ => Array_fill k (1 / INR k)) data)
           [] 0 0 (map (fun _ => 0%Z) data) false).
Proof.
  intros Hmax Hne [Hk1 Hkn]. cbv zeta. unfold runFCM. rewrite Hmax.
  destruct (Nat.eqb_spec (length data) 0) as [E|_].
  { destruct data; [congruence|discriminate]. }
  destruct (Nat.ltb_spec (length data) (clusterCount cfg)) as [L|_]; [lia|].
  cbn [fcmLoop bindE initialState l_centroids l_memberships l_history
         l_iteration l_converged initializeCentroids].
  f_equal. f_equal.
  - destruct (trackHistory cfg); reflexivity.
  - rewrite List.map_map. apply map_ext. intros _.
    apply indexOfMax_uniform, Hk1.
Qed.

(** X18 on one point and one cluster. *)
Lemma runFCM_without_passes_witness :
  runFCM single single (mkConfig 1 2 0 (1 / 1000) true)
  = inr (mkResult [[0]] [[1 / INR 1]] [] 0 0 [0%Z] false).
Proof.
  apply (runFCM_without_passes single single (mkConfig 1 2 0 (1 / 1000) true)).
  - reflexivity.
  - discriminate.
  - cbn. lia.
Defined.

(** ** The run on the store, on one point *)

End FCMMoreProps.

(** * The solver on a store, on an example *)

Module StoreMoreProps.

Import FCM FCMStore FCMSpec FCMProps StoreProps FCMMoreSpec FCMMoreProps.

Local Open Scope R_scope.

(** X19 on a store with one features array. *)
Lemma runFCMRef_refines_witness :
  match runFCMRef [refA] [refA] oneCluster oneStore with
  | (inl e, _) =>
      runFCM (map (pointAt oneStore) [refA]) (map (pointAt oneStore) [refA])
             oneCluster = inl e
  | (inr res, h') =>
      runFCM (map (pointAt oneStore) [refA]) (map (pointAt oneStore) [refA])
             oneCluster = inr (resultAt h' res)
  end.
Proof.
  apply (runFCMRef_refines [refA] [refA] oneCluster oneStore).
  - repeat constructor.
  - repeat constructor.
Defined.

End StoreMoreProps.

(** * Properties of the scenarios *)

Module ScenariosProps.

Import Fuzzy FuzzyProps Scenarios ScenariosSpec.

(** ** [easeInOutCubic] *)

Lemma cube_expand (x : Q) : x ^ 3 == x * x * x.
Proof. simpl. ring. Qed.

Lemma cube_monotone (x y : Q) : x <= y -> x * x * x <= y * y * y.
Proof.
  intros H.
  assert (H0 : 0 <= (y - x) * ((x + y) * (x + y) + x * x + y * y)).
  { apply Qmult_le_0_compat; [lra|nra]. }
  nra.
Qed.

Lemma ease_low (t : Q) : t < 0.5 -> easeInOutCubic t == 4 * t * t * t.
Proof.
  intros H. unfold easeInOutCubic.
  replace (Qlt_bool t 0.5) with true by (symmetry; apply Qlt_bool_iff, H).
  reflexivity.
Qed.

Lemma ease_high (t : Q) :
  0.5 <= t ->
  easeInOutCubic t == 1 - 4 * ((1 - t) * (1 - t) * (1 - t)).
Proof.
  intros H. unfold easeInOutCubic.
  replace (Qlt_bool t 0.5) with false by (symmetry; apply Qlt_bool_false, H).
  rewrite cube_expand. field.
Qed.

Lemma ease_monotone (t1 t2 : Q) :
  t1 <= t2 -> easeInOutCubic t1 <= easeInOutCubic t2.
Proof.
  intros H.
  destruct (Qlt_le_dec t1 0.5) as [L1|L1], (Qlt_le_dec t2 0.5) as [L2|L2].
  - rewrite (ease_low t1 L1), (ease_low t2 L2).
    pose proof (cube_monotone t1 t2 H). lra.
  - rewrite (ease_low t1 L1), (ease_high t2 L2).
    pose proof (cube_monotone t1 0.5 ltac:(lra)).
    pose proof (cube_monotone (1 - t2) 0.5 ltac:(lra)). lra.
  - lra.
  - rewrite (ease_high t1 L1), (ease_high t2 L2).
    pose proof (cube_monotone (1 - t2) (1 - t1) ltac:(lra)). lra.
Qed.

Lemma ease_ends : easeInOutCubic 0 == 0 /\ easeInOutCubic 1 == 1.
Proof. split; reflexivity. Qed.

Lemma ease_unit (t : Q) : 0 <= t <= 1 -> 0 <= easeInOutCubic t <= 1.
Proof.
  intros [H0 H1]. destruct ease_ends as [E0 E1].
  pose proof (ease_monotone 0 t H0). pose proof (ease_monotone t 1 H1).
  split; lra.
Qed.

(** X20.  The easing is 0 at 0, one half at one half and 1 at 1; it does not
    decrease; and it maps [0, 1] into [0, 1]. *)
Theorem easeInOutCubic_shape (t1 t2 : Q) :
  easeInOutCubic 0 == 0 /\ easeInOutCubic 0.5 == 0.5
  /\ easeInOutCubic 1 == 1
  /\ (t1 <= t2 -> easeInOutCubic t1 <= easeInOutCubic t2)
  /\ (0 <= t1 <= 1 -> 0 <= easeInOutCubic t1 <= 1).
Proof.
  split; [reflexivity|]. split; [reflexivity|]. split; [reflexivity|].
  split; [apply ease_monotone|apply ease_unit].
Qed.

(** ** [interpolateKeyframes] *)

Lemma easeInOutCubic_comp (t t' : Q) :
  t == t' -> easeInOutCubic t == easeInOutCubic t'.
Proof.
  intros H. unfold easeInOutCubic.
  rewrite (Qlt_bool_comp t 0.5 t' 0.5 H (Qeq_refl _)).
  destruct (Qlt_bool t' 0.5); rewrite H; reflexivity.
Qed.

Lemma interpolateKeyframes_blend (keyframes : list ScenarioKeyframe)
  (t : Q) (first final : ScenarioKeyframe) :
  head keyframes = Some first -> last keyframes = Some final ->
  interpolateKeyframes keyframes t
  = let '(a, b) := default (first, final) (findSegment keyframes t) in
    Some (blend a b (easeInOutCubic (Qmax 0 (Qmin 1 (progressOf a b t))))).
Proof.
  intros Hh Hl. unfold interpolateKeyframes. rewrite Hh, Hl.
  destruct (default (first, final) (findSegment keyframes t)) as [a b].
  reflexivity.
Qed.

Lemma findSegment_In (keyframes : list ScenarioKeyframe) (t : Q)
  (a b : ScenarioKeyframe) :
  findSegment keyframes t = Some (a, b) ->
  In a keyframes /\ In b keyframes
  /\ kf_time a <= t /\ t <= kf_time b.
Proof.
  induction keyframes as [|k1 [|k2 rest] IH]; cbn [findSegment];
    try discriminate.
  destruct (Qle_bool (kf_time k1) t && Qle_bool t (kf_time k2)) eqn:E.
  - intros [= <- <-]. apply andb_true_iff in E as [E1 E2].
    apply Qle_bool_iff in E1, E2.
    repeat split; try assumption; cbn; auto.
  - intros H. destruct (IH H) as (Ha & Hb & Ht).
    repeat split; try apply Ht; right; assumption.
Qed.

Lemma head_In {A : Type} (l : list A) (x : A) : head l = Some x -> In x l.
Proof. destruct l; [discriminate|]. intros [= ->]. left. reflexivity. Qed.

Lemma last_In {A : Type} (l : list A) (x : A) : last l = Some x -> In x l.
Proof.
  intros H. apply last_Some in H as [l' ->]. apply in_or_app. right.
  left. reflexivity.
Qed.

Lemma clamp_unit (p : Q) : 0 <= Qmax 0 (Qmin 1 p) <= 1.
Proof.
  split; [apply Q.le_max_l|].
  apply Q.max_lub; [lra|apply Q.le_min_l].
Qed.

Lemma between_blend (x y e lo hi : Q) :
  0 <= e <= 1 -> lo <= x <= hi -> lo <= y <= hi ->
  lo <= x + (y - x) * e <= hi.
Proof. intros He Hx Hy. split; nra. Qed.

Lemma interpolate_range (keyframes : list ScenarioKeyframe) (t : Q) :
  keyframes <> [] ->
  exists r,
    interpolateKeyframes keyframes t = Some r
    /\ (forall lo hi,
          (forall k, In k keyframes -> lo <= kf_turbidity k <= hi) ->
          lo <= turbidity r <= hi)
    /\ (forall lo hi,
          (forall k, In k keyframes -> lo <= kf_ph k <= hi) ->
          lo <= ph r <= hi)
    /\ (forall lo hi,
          (forall k, In k keyframes -> lo <= kf_temperature k <= hi) ->
          lo <= temperature r <= hi).
Proof.
  intros Hne.
  destruct (head keyframes) as [first|] eqn:Hh;
    [|destruct keyframes; [contradiction|discriminate]].
  destruct (last keyframes) as [final|] eqn:Hl;
    [|apply last_None in Hl; subst; contradiction].
  rewrite (interpolateKeyframes_blend keyframes _ first final Hh Hl).
  assert (Hab : exists a b,
            default (first, final) (findSegment keyframes t) = (a, b)
            /\ In a keyframes /\ In b keyframes).
  { destruct (findSegment keyframes t) as [[a b]|] eqn:E; cbn [default].
    - exists a, b. split; [reflexivity|].
      destruct (findSegment_In _ _ _ _ E) as (Ha & Hb & _). auto.
    - exists first, final. split; [reflexivity|].
      split; [apply head_In|apply last_In]; assumption. }
  destruct Hab as (a & b & -> & Ha & Hb).
  eexists. split; [reflexivity|].
  pose proof (ease_unit _ (clamp_unit (progressOf a b t))) as He.
  unfold blend. cbn [turbidity ph temperature].
  split; [|split]; intros lo hi H; apply between_blend; auto.
Qed.

Lemma findSegment_adjacent (keyframes : list ScenarioKeyframe) (t : Q)
  (a b : ScenarioKeyframe) :
  findSegment keyframes t = Some (a, b) ->
  exists pre post, keyframes = pre ++ a :: b :: post.
Proof.
  induction keyframes as [|k1 [|k2 rest] IH]; cbn [findSegment];
    try discriminate.
  destruct (Qle_bool (kf_time k1) t && Qle_bool t (kf_time k2)).
  - intros [= <- <-]. exists [], rest. reflexivity.
  - intros H. destruct (IH H) as (pre & post & E).
    exists (k1 :: pre), post. rewrite E. reflexivity.
Qed.

Lemma increasing_adjacent (pre post : list ScenarioKeyframe)
  (a b : ScenarioKeyframe) :
  increasing (pre ++ a :: b :: post) -> kf_time a < kf_time b.
Proof.
  unfold increasing. induction pre as [|p pre IH]; cbn [app]; intros Hs;
    apply StronglySorted_inv in Hs as [Hs1 Hall].
  - inversion Hall; assumption.
  - apply IH, Hs1.
Qed.

Lemma increasing_head_least (keyframes : list ScenarioKeyframe)
  (first k : ScenarioKeyframe) :
  increasing keyframes -> head keyframes = Some first -> In k keyframes ->
  k = first \/ kf_time first < kf_time k.
Proof.
  unfold increasing. intros Hs Hh Hk.
  destruct keyframes as [|k0 rest]; [contradiction|]. injection Hh as <-.
  apply StronglySorted_inv in Hs as [_ Hall].
  destruct Hk as [E0|Hk]; [left; symmetry; exact E0|right].
  rewrite List.Forall_forall in Hall. apply (Hall k Hk).
Qed.

Lemma increasing_last_greatest (keyframes : list ScenarioKeyframe)
  (final k : ScenarioKeyframe) :
  increasing keyframes -> last keyframes = Some final -> In k keyframes ->
  k = final \/ kf_time k < kf_time final.
Proof.
  unfold increasing. intros Hs Hl Hk.
  apply last_Some in Hl as [pre E]. subst keyframes.
  apply in_app_or in Hk as [Hk|[E0|[]]]; [right|left; symmetry; exact E0].
  induction pre as [|p pre IH]; [contradiction|].
  cbn [app] in Hs. apply StronglySorted_inv in Hs as [Hs1 Hall].
  destruct Hk as [E0|Hk]; [subst p|apply IH; assumption].
  rewrite List.Forall_forall in Hall. apply Hall.
  apply in_or_app. right. left. reflexivity.
Qed.

Lemma ease_at_0 (p : Q) : p <= 0 -> easeInOutCubic (Qmax 0 (Qmin 1 p)) == 0.
Proof.
  intros H. rewrite (easeInOutCubic_comp _ 0); [reflexivity|].
  apply Q.max_l. eapply Qle_trans; [apply Q.le_min_r|exact H].
Qed.

Lemma blend_0 (a b : ScenarioKeyframe) (e : Q) :
  e == 0 -> sameInputs (blend a b e) (atKeyframe a).
Proof.
  intros He. unfold sameInputs, blend, atKeyframe.
  cbn [turbidity ph temperature]. rewrite He. repeat split; ring.
Qed.

Lemma blend_same (a : ScenarioKeyframe) (e : Q) :
  sameInputs (blend a a e) (atKeyframe a).
Proof.
  unfold sameInputs, blend, atKeyframe.
  cbn [turbidity ph temperature]. repeat split; ring.
Qed.

Lemma progressOf_low (a b : ScenarioKeyframe) (t : Q) :
  kf_time a < kf_time b -> t <= kf_time a -> progressOf a b t <= 0.
Proof.
  intros Hab Ht. unfold progressOf.
  replace (Qlt_bool 0 (kf_time b - kf_time a)) with true
    by (symmetry; apply Qlt_bool_iff; lra).
  apply Qle_shift_div_r; lra.
Qed.

(** Before the first keyframe, and at it. *)
Lemma interpolate_before (keyframes : list ScenarioKeyframe) (t : Q)
  (first final : ScenarioKeyframe) :
  increasing keyframes ->
  head keyframes = Some first -> last keyframes = Some final ->
  t <= kf_time first ->
  exists r, interpolateKeyframes keyframes t = Some r
            /\ sameInputs r (atKeyframe first).
Proof.
  intros Hs Hh Hl Ht.
  rewrite (interpolateKeyframes_blend keyframes _ first final Hh Hl).
  destruct (findSegment keyframes t) as [[a b]|] eqn:E; cbn [default];
    (eexists; split; [reflexivity|]).
  - destruct (findSegment_In _ _ _ _ E) as (Ha & Hb & Hta & Htb).
    destruct (findSegment_adjacent _ _ _ _ E) as (pre & post & Ek).
    assert (Hab : kf_time a < kf_time b)
      by (apply (increasing_adjacent pre post); rewrite <- Ek; exact Hs).
    destruct (increasing_head_least _ first a Hs Hh Ha) as [Ea|Hlt];
      [subst a|lra].
    apply blend_0, ease_at_0, progressOf_low; assumption.
  - destruct (increasing_last_greatest _ final first Hs Hl
                (head_In _ _ Hh)) as [Ef|Hlt].
    + subst final. apply blend_same.
    + apply blend_0, ease_at_0, progressOf_low; assumption.
Qed.

End ScenariosProps.

(** * Properties of the simulator store *)

Module WaterStoreProps.

Import Fuzzy FuzzyProps FuzzyView Scenarios ScenariosSpec ScenariosProps.
Import WaterStore WaterStoreSpec.

Lemma clamp_between (lo hi v : Q) :
  lo <= hi -> lo <= Qmax lo (Qmin hi v) <= hi.
Proof.
  intros H. split; [apply Q.le_max_l|].
  apply Q.max_lub; [exact H|apply Q.le_min_l].
Qed.

Lemma clamp_inside (lo hi v : Q) :
  lo <= v <= hi -> Qmax lo (Qmin hi v) == v.
Proof.
  intros [H1 H2]. rewrite Q.min_r by exact H2. apply Q.max_r. exact H1.
Qed.

Lemma history_step (h : list HistoryPoint) (p : HistoryPoint) (m : nat) :
  (1 <= m)%nat -> (length h <= m)%nat ->
  let h' := if (m <? length (h ++ [p]))%nat then tail (h ++ [p])
            else h ++ [p] in
  (length h' <= m)%nat /\ last h' = Some p
  /\ exists old, old ++ h' = h ++ [p] /\ (length old <= 1)%nat.
Proof.
  intros Hm Hh. cbv zeta. rewrite length_app. cbn [length].
  destruct (Nat.ltb_spec m (length h + 1)) as [H|H].
  - destruct h as [|x h]; cbn [length] in *; [lia|].
    cbn [app tail]. split; [rewrite length_app; cbn; lia|].
    split; [apply last_snoc|].
    exists [x]. split; [reflexivity|cbn; lia].
  - split; [rewrite length_app; cbn; lia|].
    split; [apply last_snoc|].
    exists []. split; [reflexivity|cbn; lia].
Qed.

(** [runInference] on a store whose parameters are on the sliders. *)
Lemma runInference_invariant (now : Z) (st : WaterState) :
  onSliders (inputsOf st) ->
  (length (ws_history st) <= 200)%nat ->
  ws_maxHistoryLength st = 200%nat ->
  0.25 <= ws_simulationSpeed st <= 4 ->
  (ws_isSimulating st = true -> is_Some (ws_currentScenario st)) ->
  (is_Some (ws_simulationStartTime st)
   <-> is_Some (ws_currentScenario st)) ->
  invariant (runInference now st).
Proof.
  destruct st as [t p temp fo ms sim sc start el sp h m].
  unfold onSliders, inputsOf, invariant, resultsCurrent, newestCurrent.
  unfold runInference, setResults, inputsOf.
  cbn [ws_turbidity ws_ph ws_temperature ws_fuzzyOutputs ws_memberships
       ws_isSimulating ws_currentScenario ws_simulationStartTime
       ws_simulationElapsedTime ws_simulationSpeed ws_history
       ws_maxHistoryLength turbidity ph temperature].
  intros Hs Hh Hm Hsp Hsim Hst. subst m.
  set (outputs := runFuzzyInference (mkInputs t p temp)).
  set (pt := mkHistoryPoint now (qualityScore outputs) t p temp
               (operationalCost outputs)).
  destruct (history_step h pt 200 ltac:(lia) Hh) as (H1 & H2 & _).
  cbv zeta in H1, H2.
  split; [exact Hs|]. split; [split; right; reflexivity|].
  split; [rewrite H2; subst pt;
          cbn [hp_turbidity hp_ph hp_temperature hp_qualityScore
               hp_operationalCost]; auto|].
  split; [exact H1|]. auto.
Qed.

Lemma setInputs_runInference (now : Z) (t p temp : Q) (st : WaterState) :
  invariant st -> onSliders (mkInputs t p temp) ->
  invariant (runInference now (setInputs t p temp st)).
Proof.
  intros (_ & _ & _ & Hh & Hm & Hsp & Hsim & Hst) Hs.
  apply runInference_invariant; destruct st; assumption.
Qed.

Lemma setParameters_invariant (params : PartialInputs) (now : Z)
  (st : WaterState) :
  invariant st -> invariant (setParameters params now st).
Proof.
  intros Hinv. unfold setParameters. apply setInputs_runInference;
    [exact Hinv|].
  destruct Hinv as ((H1 & H2 & H3) & _).
  unfold inputsOf in H1, H2, H3. cbn [turbidity ph temperature] in *.
  unfold onSliders. cbn [turbidity ph temperature].
  split; [|split].
  - destruct (p_turbidity params); [apply clamp_between; lra|exact H1].
  - destruct (p_ph params); [apply clamp_between; lra|exact H2].
  - destruct (p_temperature params); [apply clamp_between; lra|exact H3].
Qed.

Lemma frame_invariant (st st' : WaterState) :
  invariant st ->
  ws_turbidity st' = ws_turbidity st -> ws_ph st' = ws_ph st ->
  ws_temperature st' = ws_temperature st ->
  ws_fuzzyOutputs st' = ws_fuzzyOutputs st ->
  ws_memberships st' = ws_memberships st ->
  (ws_history st' = ws_history st \/ ws_history st' = []) ->
  ws_maxHistoryLength st' = ws_maxHistoryLength st ->
  0.25 <= ws_simulationSpeed st' <= 4 ->
  (ws_isSimulating st' = true -> is_Some (ws_currentScenario st')) ->
  (is_Some (ws_simulationStartTime st')
   <-> is_Some (ws_currentScenario st')) ->
  invariant st'.
Proof.
  intros (Hs & Hr & Hn & Hh & Hm & _) Et Ep Etemp Efo Ems Ehist Emax Hsp
    Hsim Hst.
  unfold invariant, onSliders, resultsCurrent, newestCurrent, inputsOf in *.
  cbn [turbidity ph temperature] in *.
  rewrite Et, Ep, Etemp, Efo, Ems, Emax.
  split; [exact Hs|]. split; [exact Hr|].
  destruct Ehist as [-> | ->].
  - split; [exact Hn|]. split; [exact Hh|]. auto.
  - split; [exact I|]. split; [cbn; lia|]. auto.
Qed.

Ltac fields :=
  cbn [ws_turbidity ws_ph ws_temperature ws_fuzzyOutputs ws_memberships
       ws_isSimulating ws_currentScenario ws_simulationStartTime
       ws_simulationElapsedTime ws_simulationSpeed ws_history
       ws_maxHistoryLength setSimulation setIsSimulating setElapsedTime
       setSpeed setHistory stopSimulation pauseSimulation
       setSimulationSpeed clearHistory] in *.

Lemma waterStore_perform_invariant (a : Action) (st : WaterState) :
  invariant st -> invariant (stateOf (perform a st)).
Proof.
  intros Hinv.
  assert (Hinv' := Hinv).
  destruct Hinv' as ((H1 & H2 & H3) & _ & _ & Hh & Hm & Hsp & Hsim & Hst).
  unfold inputsOf in H1, H2, H3. cbn [turbidity ph temperature] in *.
  destruct a; cbn [perform stateOf].
  - unfold setTurbidity, setPh, setTemperature.
    apply setInputs_runInference; [exact Hinv|].
    unfold onSliders; cbn [turbidity ph temperature].
    split; [apply clamp_between; lra|auto].
  - unfold setTurbidity, setPh, setTemperature.
    apply setInputs_runInference; [exact Hinv|].
    unfold onSliders; cbn [turbidity ph temperature].
    split; [|split]; [exact H1|apply clamp_between; lra|exact H3].
  - unfold setTurbidity, setPh, setTemperature.
    apply setInputs_runInference; [exact Hinv|].
    unfold onSliders; cbn [turbidity ph temperature].
    split; [|split]; [exact H1|exact H2|apply clamp_between; lra].
  - apply setParameters_invariant, Hinv.
  - apply runInference_invariant; try assumption.
    unfold onSliders, inputsOf; cbn [turbidity ph temperature]. auto.
  - unfold startSimulation.
    assert (Hset : invariant
                     (setSimulation true (Some scenario) (Some startedAt) 0
                        st)).
    { apply (frame_invariant st); try (destruct st; reflexivity);
        try assumption; destruct st; fields; auto.
      split; intros _; eexists; reflexivity. }
    destruct (interpolateKeyframes (s_keyframes scenario) 0);
      cbn [stateOf]; [|exact Hset].
    apply setParameters_invariant, Hset.
  - apply (frame_invariant st); try (destruct st; reflexivity);
      try assumption; destruct st; fields; auto; try discriminate.
    split; intros [? [=]].
  - apply (frame_invariant st); try (destruct st; reflexivity);
      try assumption; destruct st; fields; auto; discriminate.
  - unfold resumeSimulation.
    destruct (ws_currentScenario st) eqn:E; [|exact Hinv].
    apply (frame_invariant st); try (destruct st; reflexivity);
      try assumption; destruct st; fields; auto.
    all: rewrite ?E; try assumption.
  - unfold updateSimulation.
    destruct (ws_isSimulating st); [|exact Hinv].
    destruct (ws_currentScenario st) as [sc|] eqn:E; [|exact Hinv].
    destruct (Qle_bool _ _).
    + destruct (last (s_keyframes sc)); cbn [stateOf]; [|exact Hinv].
      pose proof (setParameters_invariant
                    (allOf (kf_turbidity s) (kf_ph s) (kf_temperature s))
                    now st Hinv) as Hp.
      apply (frame_invariant _ _ Hp);
        try (destruct (setParameters _ _ _); reflexivity);
        try (destruct (setParameters _ _ _); fields; auto; fail).
      * apply Hp.
      * destruct (setParameters _ _ _); fields. discriminate.
      * destruct (setParameters _ _ _); fields. split; intros [? [=]].
    + destruct (interpolateKeyframes _ _); cbn [stateOf]; [|exact Hinv].
      apply setParameters_invariant.
      apply (frame_invariant st); try (destruct st; reflexivity);
        try assumption; destruct st; fields; auto.
      rewrite E. assumption.
  - apply (frame_invariant st); try (destruct st; reflexivity);
      try assumption; try (destruct st; fields; auto; fail).
    destruct st; cbn [setSimulationSpeed setSpeed ws_simulationSpeed].
    apply clamp_between. lra.
  - unfold reset. apply runInference_invariant; unfold onSliders, inputsOf;
      fields; cbn [turbidity ph temperature].
    + lra.
    + exact Hh.
    + reflexivity.
    + lra.
    + discriminate.
    + split; intros [? [=]].
  - apply (frame_invariant st); try (destruct st; reflexivity);
      try assumption; destruct st; fields; auto.
Qed.

Lemma waterStore_initial_invariant : invariant DEFAULT_STATE.
Proof.
  unfold invariant, onSliders, resultsCurrent, newestCurrent, inputsOf.
  unfold DEFAULT_STATE.
  cbn [ws_turbidity ws_ph ws_temperature ws_fuzzyOutputs ws_memberships
       ws_isSimulating ws_currentScenario ws_simulationStartTime
       ws_simulationElapsedTime ws_simulationSpeed ws_history
       ws_maxHistoryLength turbidity ph temperature last length].
  split; [lra|]. split; [split; left; reflexivity|].
  split; [exact I|]. split; [lia|]. split; [reflexivity|].
  split; [lra|]. split; [discriminate|]. split; intros [? [=]].
Qed.

(** X22.  On an empty list of keyframes [interpolateKeyframes] throws, and on
    any other list it returns, at every time.  For keyframes in the order of
    their times, none before time 0, and on the sliders, a time up to that of
    the first keyframe gives the parameters of the first keyframe. *)
Theorem interpolateKeyframes_edges (keyframes : list ScenarioKeyframe)
  (t : Q) :
  (keyframes = [] -> interpolateKeyframes keyframes t = None)
  /\ (keyframes <> [] ->
      exists r, interpolateKeyframes keyframes t = Some r)
  /\ (forall first,
        increasing keyframes -> keyframesOnSliders keyframes ->
        Forall (fun k => 0 <= kf_time k) keyframes ->
        head keyframes = Some first -> t <= kf_time first ->
        exists r, interpolateKeyframes keyframes t = Some r
                  /\ sameInputs r (atKeyframe first)).
Proof.
  split; [intros ->; reflexivity|]. split.
  - intros Hne. destruct (interpolate_range keyframes t Hne) as (r & Hr & _).
    exists r. exact Hr.
  - intros first Hs _ _ Hh Ht.
    destruct (last keyframes) as [final|] eqn:Hl;
      [|apply last_None in Hl; rewrite Hl in Hh; discriminate].
    apply (interpolate_before keyframes t first final); assumption.
Qed.

Lemma waterStore_after_invariant (actions : list Action) (st : WaterState) :
  invariant st -> invariant (after actions st).
Proof.
  unfold after. revert st.
  induction actions as [|a actions IH]; intros st Hinv; [exact Hinv|].
  cbn [fold_left]. apply IH, waterStore_perform_invariant, Hinv.
Qed.

(** X23.  Whatever actions are called on the store, in whatever order, whether
    they return or throw, as long as every scenario started has its
    keyframes on the sliders and none before time 0 and every time step is
    not negative: the three parameters stay on the sliders; the results
    shown, when there are any, are those of the inference on the parameters
    of the store; the newest point of the history records these parameters
    and results; the history holds at most 200 points; the speed is between
    a quarter and four; and a simulation runs only with a scenario. *)
Theorem waterStore_invariant (actions : list Action) :
  Forall admissible actions -> invariant (after actions DEFAULT_STATE).
Proof.
  intros _. apply waterStore_after_invariant, waterStore_initial_invariant.
Qed.

Ltac increasing_list :=
  unfold increasing; cbn [s_keyframes];
  repeat (apply SSorted_cons;
          [|repeat (apply List.Forall_cons; [reflexivity|]);
            apply List.Forall_nil]);
  apply SSorted_nil.

Ltac on_sliders :=
  let k := fresh "k" in let Hk := fresh "Hk" in
  intros k Hk; cbn [s_keyframes In] in Hk;
  repeat (destruct Hk as [Hk|Hk];
          [subst k; cbn [kf_turbidity kf_ph kf_temperature]; lra|]);
  contradiction.

Ltac well_built s :=
  unfold wellBuilt, s;
  split; [increasing_list|];
  split; [eexists; eexists; cbn [s_keyframes head last s_duration kf_time];
          repeat split; reflexivity|];
  on_sliders.

Lemma ALL_SCENARIOS_wellBuilt : Forall wellBuilt ALL_SCENARIOS.
Proof.
  unfold ALL_SCENARIOS.
  repeat apply List.Forall_cons; [| | | | | |apply List.Forall_nil].
  - well_built STORM_SCENARIO.
  - well_built INDUSTRIAL_ACID_SPILL.
  - well_built INDUSTRIAL_ALKALINE_SPILL.
  - well_built RECOVERY_SCENARIO.
  - well_built DIURNAL_FLUCTUATION.
  - well_built EXTREME_CONDITIONS.
Qed.

Lemma interpolate_on_sliders (keyframes : list ScenarioKeyframe) (t : Q) :
  keyframes <> [] -> keyframesOnSliders keyframes ->
  exists r, interpolateKeyframes keyframes t = Some r /\ onSliders r.
Proof.
  intros Hne Hon.
  destruct (interpolate_range keyframes t Hne) as (r & Hr & Ht & Hp & Htemp).
  exists r. split; [exact Hr|]. unfold onSliders.
  split; [|split].
  - apply Ht. intros k Hk. apply (Hon k Hk).
  - apply Hp. intros k Hk. apply (Hon k Hk).
  - apply Htemp. intros k Hk. apply (Hon k Hk).
Qed.

Lemma wellBuilt_nonempty (s : Scenario) : wellBuilt s -> s_keyframes s <> [].
Proof.
  intros (_ & (first & final & Hh & _) & _) E. rewrite E in Hh.
  discriminate.
Qed.

(** X24.  Each scenario that ships with the simulator has its keyframes in the
    order of their times, the first at time 0 and the last at the duration of
    the scenario; and at every time, also one outside the scenario,
    [interpolateKeyframes] returns parameters on the sliders. *)
Theorem builtin_scenarios_on_sliders :
  Forall (fun s =>
            increasing (s_keyframes s)
            /\ (exists first final,
                  head (s_keyframes s) = Some first
                  /\ last (s_keyframes s) = Some final
                  /\ kf_time first = 0 /\ kf_time final = s_duration s)
            /\ forall t, exists r,
                 interpolateKeyframes (s_keyframes s) t = Some r
                 /\ onSliders r)
         ALL_SCENARIOS.
Proof.
  eapply List.Forall_impl; [|apply ALL_SCENARIOS_wellBuilt].
  intros s Hs. pose proof (wellBuilt_nonempty s Hs) as Hne.
  destruct Hs as (H1 & H2 & H3).
  split; [exact H1|]. split; [exact H2|].
  intros t. apply interpolate_on_sliders; assumption.
Qed.

Lemma find_id (id : string) (l : list Scenario) (s : Scenario) :
  List.find (fun s => String.eqb (s_id s) id) l = Some s ->
  In s l /\ s_id s = id.
Proof.
  intros H. apply List.find_some in H as [H1 H2].
  split; [exact H1|]. apply String.eqb_eq, H2.
Qed.

(** [getScenarioById] finds each scenario of the catalogue under its own
    id; what it returns is a scenario of the catalogue with the id asked for;
    and for an id that no scenario has it returns [undefined]. *)
Theorem getScenarioById_lookup :
  Forall (fun s => getScenarioById (s_id s) = Some s) ALL_SCENARIOS
  /\ (forall id s, getScenarioById id = Some s ->
        In s ALL_SCENARIOS /\ s_id s = id)
  /\ (forall id, (forall s, In s ALL_SCENARIOS -> s_id s <> id) ->
        getScenarioById id = None).
Proof.
  split; [|split].
  - unfold ALL_SCENARIOS.
    repeat apply List.Forall_cons; try apply List.Forall_nil;
      vm_compute; reflexivity.
  - intros id s. apply find_id.
  - intros id H. unfold getScenarioById.
    destruct (List.find _ ALL_SCENARIOS) as [s|] eqn:E; [|reflexivity].
    apply find_id in E as [E1 E2]. destruct (H s E1 E2).
Qed.

(** ** A simulation *)

Lemma setParameters_inputs (a b c : Q) (now : Z) (st : WaterState) :
  inputsOf (setParameters (allOf a b c) now st)
  = mkInputs (Qmax 0 (Qmin 1000 a)) (Qmax 0 (Qmin 14 b))
      (Qmax 0 (Qmin 40 c)).
Proof. destruct st. reflexivity. Qed.

Lemma setParameters_on_sliders (r : WaterInputs) (now : Z)
  (st : WaterState) :
  onSliders r ->
  sameInputs
    (inputsOf (setParameters
                 (allOf (turbidity r) (ph r) (temperature r)) now st)) r.
Proof.
  intros (H1 & H2 & H3). rewrite setParameters_inputs.
  unfold sameInputs. cbn [turbidity ph temperature].
  split; [|split]; apply clamp_inside; assumption.
Qed.

Lemma setParameters_simulation (params : PartialInputs) (now : Z)
  (st : WaterState) :
  ws_isSimulating (setParameters params now st) = ws_isSimulating st
  /\ ws_currentScenario (setParameters params now st)
     = ws_currentScenario st
  /\ ws_simulationStartTime (setParameters params now st)
     = ws_simulationStartTime st
  /\ ws_simulationElapsedTime (setParameters params now st)
     = ws_simulationElapsedTime st
  /\ ws_simulationSpeed (setParameters params now st)
     = ws_simulationSpeed st.
Proof. destruct st. repeat split; reflexivity. Qed.

Lemma setParameters_results (params : PartialInputs) (now : Z)
  (st : WaterState) :
  ws_fuzzyOutputs (setParameters params now st)
  = Some (runFuzzyInference (inputsOf (setParameters params now st))).
Proof. destruct st. reflexivity. Qed.

Lemma sameInputs_trans (a b c : WaterInputs) :
  sameInputs a b -> sameInputs b c -> sameInputs a c.
Proof.
  intros (H1 & H2 & H3) (K1 & K2 & K3). unfold sameInputs.
  rewrite H1, H2, H3. auto.
Qed.

Lemma onSliders_atKeyframe (keyframes : list ScenarioKeyframe)
  (k : ScenarioKeyframe) :
  keyframesOnSliders keyframes -> In k keyframes ->
  onSliders (atKeyframe k).
Proof. intros H Hk. apply (H k Hk). Qed.

(** X25.  [startSimulation] with a scenario whose keyframes are in the order
    of their times, on the sliders, and do not begin before time 0 returns
    and leaves a running simulation of that scenario at elapsed time 0, the
    parameters of the store those of the first keyframe and the results
    those of the inference on them. *)
Theorem startSimulation_first_keyframe (scenario : Scenario)
  (first : ScenarioKeyframe) (startedAt now : Z) (st : WaterState) :
  increasing (s_keyframes scenario) ->
  keyframesOnSliders (s_keyframes scenario) ->
  head (s_keyframes scenario) = Some first -> 0 <= kf_time first ->
  exists st',
    startSimulation scenario startedAt now st = Done st'
    /\ sameInputs (inputsOf st') (atKeyframe first)
    /\ ws_fuzzyOutputs st' = Some (runFuzzyInference (inputsOf st'))
    /\ ws_isSimulating st' = true
    /\ ws_currentScenario st' = Some scenario
    /\ ws_simulationStartTime st' = Some startedAt
    /\ ws_simulationElapsedTime st' = 0
    /\ ws_simulationSpeed st' = ws_simulationSpeed st.
Proof.
  intros Hs Hon Hh Ht.
  destruct (last (s_keyframes scenario)) as [final|] eqn:Hl;
    [|apply last_None in Hl; rewrite Hl in Hh; discriminate].
  destruct (interpolate_before _ 0 first final Hs Hh Hl Ht)
    as (r & Hr & Hsame).
  assert (Hne : s_keyframes scenario <> [])
    by (intros E; rewrite E in Hh; discriminate).
  destruct (interpolate_on_sliders _ 0 Hne Hon) as (r' & Hr' & Hon').
  rewrite Hr in Hr'. injection Hr' as <-.
  unfold startSimulation. rewrite Hr.
  eexists. split; [reflexivity|].
  split; [eapply sameInputs_trans;
          [apply setParameters_on_sliders, Hon'|exact Hsame]|].
  split; [apply setParameters_results|].
  destruct (setParameters_simulation
              (allOf (turbidity r) (ph r) (temperature r)) now
              (setSimulation true (Some scenario) (Some startedAt) 0 st))
    as (E1 & E2 & E3 & E4 & E5).
  rewrite E1, E2, E3, E4, E5. destruct st. repeat split; reflexivity.
Qed.

Lemma STORM_wellBuilt : wellBuilt STORM_SCENARIO.
Proof. well_built STORM_SCENARIO. Qed.

(** X23.  The storm is started, runs for a frame, and is run to its end. *)
Lemma waterStore_invariant_witness :
  invariant
    (after [CallSetTurbidity 2000 1; CallStartSimulation STORM_SCENARIO 2 3;
            CallUpdateSimulation 16 4; CallSetSimulationSpeed 10;
            CallUpdateSimulation 40000 5]
       DEFAULT_STATE).
Proof.
  apply waterStore_invariant.
  repeat (apply List.Forall_cons; [|]); try apply List.Forall_nil;
    try exact I.
  - split; [apply STORM_wellBuilt|].
    cbn [s_keyframes STORM_SCENARIO].
    repeat (apply List.Forall_cons; [cbn; lra|]). apply List.Forall_nil.
  - cbn. lra.
  - cbn. lra.
Defined.

(** X25 on the storm, started on the initial store. *)
Lemma startSimulation_first_keyframe_witness :
  exists st',
    startSimulation STORM_SCENARIO 1000 1001 DEFAULT_STATE = Done st'
    /\ sameInputs (inputsOf st') (mkInputs 50 7.0 22)
    /\ ws_fuzzyOutputs st' = Some (runFuzzyInference (inputsOf st'))
    /\ ws_isSimulating st' = true
    /\ ws_currentScenario st' = Some STORM_SCENARIO
    /\ ws_simulationStartTime st' = Some 1000%Z
    /\ ws_simulationElapsedTime st' = 0
    /\ ws_simulationSpeed st' = 1.
Proof.
  apply (startSimulation_first_keyframe STORM_SCENARIO
           (mkKeyframe 0 50 7.0 22) 1000 1001 DEFAULT_STATE).
  - apply STORM_wellBuilt.
  - apply STORM_wellBuilt.
  - reflexivity.
  - cbn. lra.
Defined.

(** X26.  While a simulation of a scenario runs, whose keyframes are in the
    order of their times and on the sliders, [updateSimulation] advances the
    elapsed time by [deltaTime] times the speed.  Short of the duration of
    the scenario it sets the parameters of the store to those that
    [interpolateKeyframes] gives at the new elapsed time, and the simulation
    goes on; from the duration on it sets them to those of the last keyframe
    and stops the simulation.  In both cases the results are those of the
    inference on the new parameters. *)
Theorem updateSimulation_follows_scenario (scenario : Scenario)
  (deltaTime : Q) (now : Z) (st : WaterState) :
  ws_isSimulating st = true -> ws_currentScenario st = Some scenario ->
  increasing (s_keyframes scenario) ->
  keyframesOnSliders (s_keyframes scenario) ->
  s_keyframes scenario <> [] ->
  let newElapsedTime :=
    ws_simulationElapsedTime st + deltaTime * ws_simulationSpeed st in
  (newElapsedTime < s_duration scenario ->
   exists r st',
     interpolateKeyframes (s_keyframes scenario) newElapsedTime = Some r
     /\ updateSimulation deltaTime now st = Done st'
     /\ sameInputs (inputsOf st') r
     /\ ws_fuzzyOutputs st' = Some (runFuzzyInference (inputsOf st'))
     /\ ws_simulationElapsedTime st' = newElapsedTime
     /\ ws_isSimulating st' = true
     /\ ws_currentScenario st' = Some scenario)
  /\ (s_duration scenario <= newElapsedTime ->
      exists final st',
        last (s_keyframes scenario) = Some final
        /\ updateSimulation deltaTime now st = Done st'
        /\ sameInputs (inputsOf st') (atKeyframe final)
        /\ ws_fuzzyOutputs st' = Some (runFuzzyInference (inputsOf st'))
        /\ ws_simulationElapsedTime st' = 0
        /\ ws_isSimulating st' = false
        /\ ws_currentScenario st' = None
        /\ ws_simulationStartTime st' = None).
Proof.
  intros Hsim Hsc Hs Hon Hne newElapsedTime. unfold updateSimulation.
  rewrite Hsim, Hsc. fold newElapsedTime. split; intros Ht.
  - replace (Qle_bool (s_duration scenario) newElapsedTime) with false
      by (symmetry; apply Qle_bool_false; exact Ht).
    destruct (interpolate_on_sliders _ newElapsedTime Hne Hon)
      as (r & Hr & Hon').
    rewrite Hr. exists r. eexists. split; [reflexivity|].
    split; [reflexivity|].
    split; [apply setParameters_on_sliders, Hon'|].
    split; [apply setParameters_results|].
    destruct (setParameters_simulation
                (allOf (turbidity r) (ph r) (temperature r)) now
                (setElapsedTime newElapsedTime st))
      as (E1 & E2 & E3 & E4 & E5).
    rewrite E1, E2, E4. destruct st.
    cbn [setElapsedTime ws_simulationElapsedTime ws_isSimulating
         ws_currentScenario] in *.
    auto.
  - replace (Qle_bool (s_duration scenario) newElapsedTime) with true
      by (symmetry; apply Qle_bool_iff; exact Ht).
    destruct (last (s_keyframes scenario)) as [final|] eqn:Hl;
      [|apply last_None in Hl; contradiction].
    exists final. eexists. split; [reflexivity|].
    split; [reflexivity|].
    pose proof (setParameters_on_sliders (atKeyframe final) now st
                  (onSliders_atKeyframe _ final Hon (last_In _ _ Hl)))
      as Hsame.
    cbn [atKeyframe turbidity ph temperature] in Hsame.
    pose proof (setParameters_results
                  (allOf (kf_turbidity final) (kf_ph final)
                     (kf_temperature final)) now st) as Hres.
    destruct (setParameters _ now st).
    unfold stopSimulation, setSimulation, inputsOf in *.
    cbn [ws_turbidity ws_ph ws_temperature ws_fuzzyOutputs
         ws_simulationElapsedTime ws_isSimulating ws_currentScenario
         ws_simulationStartTime] in *.
    auto 10.
Qed.

(** X26 on the storm, at its last step: 200 ms at double speed. *)
Lemma updateSimulation_follows_scenario_witness :
  exists st',
    updateSimulation 200 31000 (setSpeed 2 lateInStorm) = Done st'
    /\ sameInputs (inputsOf st') (mkInputs 60 7.0 22)
    /\ ws_isSimulating st' = false
    /\ ws_currentScenario st' = None.
Proof.
  destruct (updateSimulation_follows_scenario STORM_SCENARIO 200 31000
              (setSpeed 2 lateInStorm))
    as [_ H].
  - reflexivity.
  - reflexivity.
  - apply STORM_wellBuilt.
  - apply STORM_wellBuilt.
  - discriminate.
  - destruct H as (final & st' & Hl & Hu & Hs & _ & _ & Hi & Hc & _).
    + cbn. lra.
    + injection Hl as <-. exists st'. auto.
Defined.

(** X27.  [startSimulation] with a scenario without keyframes throws, after it
    has marked the simulation as running: the store is left simulating that
    scenario, with its parameters, results and history untouched.  From then
    on every [updateSimulation] throws too and changes nothing, and pausing
    and resuming leads back to the same store. *)
Theorem startSimulation_without_keyframes (scenario : Scenario)
  (startedAt now : Z) (st : WaterState) :
  s_keyframes scenario = [] ->
  let st' := setSimulation true (Some scenario) (Some startedAt) 0 st in
  startSimulation scenario startedAt now st = Thrown st'
  /\ (forall deltaTime now',
        updateSimulation deltaTime now' st' = Thrown st')
  /\ resumeSimulation (pauseSimulation st') = st'
  /\ inputsOf st' = inputsOf st
  /\ ws_fuzzyOutputs st' = ws_fuzzyOutputs st
  /\ ws_history st' = ws_history st.
Proof.
  intros He st'. unfold startSimulation. rewrite He. cbn [interpolateKeyframes head].
  split; [reflexivity|]. split.
  - intros deltaTime now'. unfold updateSimulation. subst st'.
    destruct st. cbn [setSimulation ws_isSimulating ws_currentScenario].
    rewrite He. cbn [last interpolateKeyframes head].
    destruct (Qle_bool _ _); reflexivity.
  - subst st'. destruct st. repeat split; reflexivity.
Qed.

(** X27 on the initial store. *)
Lemma startSimulation_without_keyframes_witness :
  startSimulation emptyScenario 0 0 DEFAULT_STATE
  = Thrown (setSimulation true (Some emptyScenario) (Some 0%Z) 0
              DEFAULT_STATE)
  /\ updateSimulation 16 16
       (setSimulation true (Some emptyScenario) (Some 0%Z) 0 DEFAULT_STATE)
     = Thrown (setSimulation true (Some emptyScenario) (Some 0%Z) 0
                 DEFAULT_STATE).
Proof.
  destruct (startSimulation_without_keyframes emptyScenario 0 0
              DEFAULT_STATE eq_refl) as (H1 & H2 & _).
  split; [exact H1|apply H2].
Defined.

(** X28.  While a simulation is paused, [updateSimulation] changes nothing,
    and [resumeSimulation] gives back the store as it was before the pause,
    the elapsed time included.  After [stopSimulation] neither
    [resumeSimulation] nor [updateSimulation] changes anything. *)
Theorem pauseSimulation_keeps_progress (deltaTime : Q) (now : Z)
  (st : WaterState) :
  ws_isSimulating st = true -> is_Some (ws_currentScenario st) ->
  updateSimulation deltaTime now (pauseSimulation st)
  = Done (pauseSimulation st)
  /\ resumeSimulation
       (stateOf (updateSimulation deltaTime now (pauseSimulation st)))
     = st
  /\ resumeSimulation (stopSimulation st) = stopSimulation st
  /\ updateSimulation deltaTime now (stopSimulation st)
     = Done (stopSimulation st).
Proof.
  intros Hsim [sc Hsc]. destruct st.
  cbn [ws_isSimulating ws_currentScenario] in *. subst.
  repeat split; reflexivity.
Qed.

(** X28 on the storm after 29.9 seconds. *)
Lemma pauseSimulation_keeps_progress_witness :
  resumeSimulation
    (stateOf (updateSimulation 16 16 (pauseSimulation lateInStorm)))
  = lateInStorm.
Proof.
  apply (pauseSimulation_keeps_progress 16 16 lateInStorm).
  - reflexivity.
  - eexists. reflexivity.
Defined.

End WaterStoreProps.

(** * Properties of the diagnostics store *)

Module DiagnosticsProps.

Import FCM FCMSpec FCMProps FCMMoreSpec FCMMoreProps.
Import DiagnosticsStore DiagnosticsSpec.

Ltac store_fields :=
  cbn [dataPoints config result isRunning animation tour isPlaying
       currentFrame totalFrames playbackSpeed isActive currentStep
       totalSteps hasCompletedTour setAnimation setTour setIsRunning
       DEFAULT_ANIMATION] in *.

Ltac min_max :=
  repeat match goal with
         | |- context [Qmin ?a ?b] =>
             let m := fresh "m" in
             let H := fresh in
             pose proof (Q.min_spec a b) as H;
             generalize dependent (Qmin a b); intros m H;
             destruct H as [[? ?]|[? ?]]
         | |- context [Qmax ?a ?b] =>
             let m := fresh "m" in
             let H := fresh in
             pose proof (Q.max_spec a b) as H;
             generalize dependent (Qmax a b); intros m H;
             destruct H as [[? ?]|[? ?]]
         end.

Ltac tour_case :=
  repeat (split; [assumption|]); lia.

Lemma frames_whole (n : nat) :
  inject_Z (Z.of_nat n) == 0 \/ 1 <= inject_Z (Z.of_nat n).
Proof.
  destruct n as [|n]; [left; reflexivity|right].
  change 1 with (inject_Z 1). rewrite <- Zle_Qle. lia.
Qed.

Lemma animation_step (res : option FCMResult) (a a' : AnimationState) :
  totalFrames a' = totalFrames a ->
  playbackSpeed a' = playbackSpeed a ->
  (1 <= totalFrames a -> 0 <= currentFrame a' <= totalFrames a - 1) ->
  (totalFrames a == 0 -> -1 <= currentFrame a' <= 0) ->
  ((forall r, res = Some r -> totalFrames a == historyLength r)
   /\ (exists n : nat, totalFrames a == inject_Z (Z.of_nat n))
   /\ (1 <= totalFrames a -> 0 <= currentFrame a <= totalFrames a - 1)
   /\ (totalFrames a == 0 -> -1 <= currentFrame a <= 0)
   /\ 0.5 <= playbackSpeed a <= 10) ->
  (forall r, res = Some r -> totalFrames a' == historyLength r)
  /\ (exists n : nat, totalFrames a' == inject_Z (Z.of_nat n))
  /\ (1 <= totalFrames a' -> 0 <= currentFrame a' <= totalFrames a' - 1)
  /\ (totalFrames a' == 0 -> -1 <= currentFrame a' <= 0)
  /\ 0.5 <= playbackSpeed a' <= 10.
Proof.
  intros -> -> H1 H0 (I1 & I2 & _ & _ & I5). auto.
Qed.

Lemma diagnostics_perform_invariant (a : Action) (st : DiagnosticsState) :
  invariant st -> invariant (perform a st).
Proof.
  destruct st as [dp cfg res run [pl cf tf sp] [act cs ts done]].
  unfold invariant. store_fields.
  intros (I1 & I2 & I3 & I4 & I5 & I6 & I7).
  destruct a; cbn [perform].
  - unfold generateSynthetic; store_fields.
    split; [discriminate|]. auto 10.
  - unfold clearData; store_fields.
    split; [discriminate|]. split; [exists 0%nat; reflexivity|].
    split; [intros H; exfalso; revert H; apply Qlt_not_le; reflexivity|].
    split; [intros _; split; discriminate|].
    split; [split; discriminate|]. auto.
  - unfold updateConfig; store_fields. auto 10.
  - unfold runClustering; store_fields.
    destruct (Nat.eqb (length dp) 0); cbn [fst]; store_fields; auto 10.
  - unfold runClusteringCallback; store_fields.
    destruct (runFCM shuffled (fst held) (tracking (snd held))) as [e|r];
      store_fields; [auto 10|].
    split; [intros r' [= <-]; reflexivity|].
    split; [eexists; reflexivity|].
    split; [intros H; lra|].
    split; [intros H; lra|]. auto.
  - unfold resetClustering; store_fields.
    split; [discriminate|]. split; [exists 0%nat; reflexivity|].
    split; [intros H; exfalso; revert H; apply Qlt_not_le; reflexivity|].
    split; [intros _; split; discriminate|].
    split; [split; discriminate|]. auto.
  - unfold playAnimation; store_fields.
    destruct res as [r|]; [|auto 10].
    destruct (Nat.eqb_spec (length (iterationHistory r)) 0) as [E|E];
      store_fields; [auto 10|].
    split; [exact I1|]. split; [exact I2|].
    split; [intros H; lra|].
    split; [intros H; lra|]. auto.
  - unfold pauseAnimation; store_fields. auto 10.
  - unfold stopAnimation; store_fields.
    split; [exact I1|]. split; [exact I2|].
    destruct res as [r|].
    + specialize (I1 r eq_refl).
      split; [intros H; lra|]. split; [intros H; lra|]. auto.
    + split; [intros H; lra|]. split; [intros H; lra|]. auto.
  - unfold stepForward; store_fields.
    split; [exact I1|]. split; [exact I2|].
    split; [intros H; specialize (I3 H); min_max; lra|].
    split; [intros H; specialize (I4 H); min_max; lra|]. auto.
  - unfold stepBackward; store_fields.
    split; [exact I1|]. split; [exact I2|].
    split; [intros H; specialize (I3 H); min_max; lra|].
    split; [intros H; specialize (I4 H); min_max; lra|]. auto.
  - unfold setAnimationFrame; store_fields.
    split; [exact I1|]. split; [exact I2|].
    split; [intros H; min_max; lra|].
    split; [intros H; min_max; lra|]. auto.
  - unfold setPlaybackSpeed; store_fields.
    split; [exact I1|]. split; [exact I2|].
    split; [exact I3|]. split; [exact I4|].
    split; [min_max; lra|]. auto.
  - unfold startTour; store_fields. tour_case.
  - unfold nextTourStep; store_fields.
    destruct (Z.leb_spec ts (cs + 1)); store_fields; tour_case.
  - unfold prevTourStep; store_fields. tour_case.
  - unfold skipTour; store_fields. tour_case.
Qed.

Lemma diagnostics_initial_invariant : invariant DEFAULT_STATE.
Proof.
  unfold invariant, DEFAULT_STATE. store_fields.
  split; [discriminate|]. split; [exists 0%nat; reflexivity|].
  split; [intros H; exfalso; revert H; apply Qlt_not_le; reflexivity|].
  split; [intros _; split; discriminate|].
  split; [split; discriminate|]. split; [reflexivity|lia].
Qed.

Lemma after_invariant (actions : list Action) (st : DiagnosticsState) :
  invariant st -> invariant (after actions st).
Proof.
  unfold after. revert st.
  induction actions as [|a actions IH]; intros st Hinv; [exact Hinv|].
  cbn [fold_left]. apply IH, diagnostics_perform_invariant, Hinv.
Qed.

(** X29.  Whatever actions are called on the diagnostics store, and whenever
    the callbacks of [runClustering] run: the number of frames is a whole
    number and, while a result is held, the length of its iteration history;
    with at least one frame the current frame lies between 0 and the number
    of frames minus 1; the playback speed is between 0.5 and 10; the tour
    has 5 steps and its current step lies between 0 and 4.  Without frames
    the current frame lies between -1 and 0, and [stepForward] sets it to
    -1. *)
Theorem diagnostics_invariant (actions : list Action) :
  let st := after actions DiagnosticsStore.DEFAULT_STATE in
  invariant st
  /\ (forall res, result st = Some res ->
      (1 <= length (iterationHistory res))%nat ->
      0 <= currentFrame (animation st) <= historyLength res - 1)
  /\ (totalFrames (animation st) == 0 ->
      -1 <= currentFrame (animation st) <= 0
      /\ currentFrame (animation (stepForward st)) == -1).
Proof.
  intros st.
  pose proof (after_invariant actions _ diagnostics_initial_invariant) as Hinv.
  fold st in Hinv. split; [exact Hinv|].
  destruct Hinv as (I1 & I2 & I3 & I4 & _). split.
  - intros res Hres Hlen. specialize (I1 res Hres).
    rewrite <- I1. apply I3. rewrite I1. unfold historyLength.
    change 1 with (inject_Z 1). rewrite <- Zle_Qle. lia.
  - intros H0. specialize (I4 H0). split; [exact I4|].
    destruct st as [dp cfg res run [pl cf tf sp] tr].
    unfold stepForward. store_fields. min_max; lra.
Qed.

Lemma last_seq (n : nat) (l : list IterationState) (it : IterationState) :
  map iteration l = seq 0 n -> last l = Some it ->
  length l = n /\ iteration it = (n - 1)%nat.
Proof.
  intros Hmap Hlast.
  assert (Hlen : length l = n)
    by (rewrite <- (length_map iteration), Hmap; apply length_seq).
  split; [exact Hlen|].
  apply last_Some in Hlast as [l' ->].
  rewrite map_app, length_app in *. cbn [map length] in *.
  assert (Hn : n = S (length l')) by lia.
  rewrite Hn in Hmap |- *. rewrite seq_S in Hmap. cbn [Nat.add] in Hmap.
  apply app_inj_tail in Hmap as [_ E]. rewrite E. lia.
Qed.

(** X30.  [runClustering] does nothing while there are no data points.
    Otherwise it marks the store as running and sets a timer.  When the
    callback runs, [runFCM] is called on the data points and the
    configuration as they were at the call, with [trackHistory] switched on
    whatever the configuration says.  If [runFCM] throws, the store is only
    marked as no longer running.  If it returns, the store holds the result,
    the number of frames is the number of passes, the current frame is the
    last one, and, if at least one pass was allowed, the history entry of
    that frame has the centroids and memberships of the result. *)
Theorem runClustering_shows_final_pass (st later : DiagnosticsState)
  (shuffled : list DataPoint) :
  (dataPoints st = [] -> runClustering st = (st, None))
  /\ (dataPoints st <> [] ->
      exists held,
        runClustering st = (setIsRunning true st, Some held)
        /\ match runFCM shuffled (dataPoints st) (tracking (config st)) with
           | inl _ =>
               runClusteringCallback held shuffled later
               = setIsRunning false later
           | inr res =>
               let st' := runClusteringCallback held shuffled later in
               result st' = Some res
               /\ isRunning st' = false
               /\ dataPoints st' = dataPoints later
               /\ totalFrames (animation st')
                  = inject_Z (Z.of_nat (iterationCount res))
               /\ currentFrame (animation st')
                  = inject_Z (Z.of_nat (iterationCount res)) - 1
               /\ ((1 <= maxIterations (config st))%nat ->
                   exists it,
                     last (iterationHistory res) = Some it
                     /\ iteration it = (iterationCount res - 1)%nat
                     /\ it_centroids it = centroids res
                     /\ it_membershipMatrix it = membershipMatrix res)
           end).
Proof.
  split.
  - intros E. unfold runClustering. rewrite E. reflexivity.
  - intros Hne. exists (dataPoints st, config st). split.
    + unfold runClustering.
      destruct (dataPoints st); [contradiction|reflexivity].
    + unfold runClusteringCallback. cbn [fst snd].
      destruct (runFCM shuffled (dataPoints st) (tracking (config st)))
        as [e|res] eqn:Hrun.
      * reflexivity.
      * destruct (runFCM_account _ _ _ _ Hrun) as (_ & _ & A3 & A4 & _).
        cbn [tracking trackHistory maxIterations] in A3, A4.
        assert (Hlen : length (iterationHistory res) = iterationCount res)
          by (rewrite <- (length_map iteration), A4; apply length_seq).
        cbv zeta. store_fields. unfold historyLength. rewrite Hlen.
        repeat split.
        intros Hmax. specialize (A3 Hmax).
        destruct (runFCM_consistent _ _ _ _ Hrun A3) as [_ Hc].
        destruct (Hc eq_refl) as (it & Hlast & C1 & C2 & _).
        exists it. split; [exact Hlast|].
        split; [apply (last_seq _ _ _ A4 Hlast)|]. auto.
Qed.

End DiagnosticsProps.

(** * Properties of the solver in double arithmetic *)

Module FCMDoubleProps.

Import FCM FCMDouble FCMDoubleSpec Floats.

Local Open Scope float_scope.

Lemma add_nan_r (x : float) : x + nan = nan.
Proof.
  rewrite <- (SF2Prim_Prim2SF (x + nan)), add_spec.
  change (Prim2SF nan) with S754_nan.
  destruct (Prim2SF x) as [s|s| |s m e]; reflexivity.
Qed.

Lemma add_nan_l (x : float) : nan + x = nan.
Proof.
  rewrite <- (SF2Prim_Prim2SF (nan + x)), add_spec.
  change (Prim2SF nan) with S754_nan. reflexivity.
Qed.

Lemma ltb_nan_l (x : float) : (nan <? x) = false.
Proof. rewrite ltb_spec. reflexivity. Qed.

Section Engine.

Variable approximatePower : float -> float -> float.

(** The first pass, whichever of the two points the shuffle puts first: the
    point chosen as centroid gets membership 1, the other NaN, and the new
    centroid is NaN. *)
Lemma first_pass (shuffled : list DataPoint) (passes : nat)
  (tolerance : float) :
  Permutation [near; far] shuffled ->
  exists rows,
    (rows = [[1]; [nan]] \/ rows = [[nan]; [1]])
    /\ (shuffled = [near; far] -> rows = [[1]; [nan]])
    /\ fcmPass approximatePower [near; far] (singleCluster passes tolerance)
         (initialState shuffled [near; far] 1)
       = inr (mkLoop [[nan]] rows rows [] false 1, nan).
Proof.
  intros Hperm. apply Permutation_length_2_inv in Hperm.
  destruct Hperm as [E|E]; rewrite E;
    [exists [[1]; [nan]]|exists [[nan]; [1]]];
    (split; [auto|]); (split; [try reflexivity; discriminate|]);
    unfold fcmPass;
    cbn [clusterCount fuzziness singleCluster trackHistory FCMDouble.tolerance].
  - replace (updateMemberships approximatePower [near; far]
               (l_centroids (initialState [near; far] [near; far] 1)) 2 1
               (l_memberships (initialState [near; far] [near; far] 1)))
      with (inr (A := FCMError) [[1]; [nan]]) by (vm_compute; reflexivity).
    cbn [bindE].
    replace (maxChangeOf 1 [[1]; [nan]]
               (l_prevMemberships (initialState [near; far] [near; far] 1)))
      with nan by (vm_compute; reflexivity).
    rewrite ltb_nan_l.
    replace (updateCentroids approximatePower [near; far] [[1]; [nan]] 2 1)
      with [[nan]]; [reflexivity|].
    vm_compute. rewrite !add_nan_r. reflexivity.
  - replace (updateMemberships approximatePower [near; far]
               (l_centroids (initialState [far; near] [near; far] 1)) 2 1
               (l_memberships (initialState [far; near] [near; far] 1)))
      with (inr (A := FCMError) [[nan]; [1]]) by (vm_compute; reflexivity).
    cbn [bindE].
    replace (maxChangeOf 1 [[nan]; [1]]
               (l_prevMemberships (initialState [far; near] [near; far] 1)))
      with nan by (vm_compute; reflexivity).
    rewrite ltb_nan_l.
    replace (updateCentroids approximatePower [near; far] [[nan]; [1]] 2 1)
      with [[nan]]; [reflexivity|].
    vm_compute. rewrite !add_nan_l. reflexivity.
Qed.

(** A pass from a NaN centroid: every membership is NaN afterwards. *)
Lemma second_pass (rows : list (list float)) (passes : nat)
  (tolerance : float) :
  rows = [[1]; [nan]] \/ rows = [[nan]; [1]] ->
  fcmPass approximatePower [near; far] (singleCluster passes tolerance)
    (mkLoop [[nan]] rows rows [] false 1)
  = inr (lostState 2, nan).
Proof.
  intros [E|E]; rewrite E; unfold fcmPass;
    cbn [clusterCount fuzziness singleCluster trackHistory FCMDouble.tolerance
         l_centroids l_memberships l_prevMemberships l_history l_iteration].
  - replace (updateMemberships approximatePower [near; far] [[nan]] 2 1
               [[1]; [nan]])
      with (inr (A := FCMError) [[nan]; [nan]]) by (vm_compute; reflexivity).
    cbn [bindE].
    replace (maxChangeOf 1 [[nan]; [nan]] [[1]; [nan]])
      with nan by (vm_compute; reflexivity).
    rewrite ltb_nan_l.
    replace (updateCentroids approximatePower [near; far] [[nan]; [nan]] 2 1)
      with [[nan]] by (vm_compute; reflexivity).
    reflexivity.
  - replace (updateMemberships approximatePower [near; far] [[nan]] 2 1
               [[nan]; [1]])
      with (inr (A := FCMError) [[nan]; [nan]]) by (vm_compute; reflexivity).
    cbn [bindE].
    replace (maxChangeOf 1 [[nan]; [nan]] [[nan]; [1]])
      with nan by (vm_compute; reflexivity).
    rewrite ltb_nan_l.
    replace (updateCentroids approximatePower [near; far] [[nan]; [nan]] 2 1)
      with [[nan]] by (vm_compute; reflexivity).
    reflexivity.
Qed.

(** And so is it after every later pass. *)
Lemma lost_pass (passes iteration : nat) (tolerance : float) :
  fcmPass approximatePower [near; far] (singleCluster passes tolerance)
    (lostState iteration)
  = inr (lostState (S iteration), nan).
Proof.
  unfold fcmPass.
  cbn [clusterCount fuzziness singleCluster trackHistory FCMDouble.tolerance
       lostState l_centroids l_memberships l_prevMemberships l_history
       l_iteration].
  replace (updateMemberships approximatePower [near; far] [[nan]] 2 1
             [[nan]; [nan]])
    with (inr (A := FCMError) [[nan]; [nan]]) by (vm_compute; reflexivity).
  cbn [bindE].
  replace (maxChangeOf 1 [[nan]; [nan]] [[nan]; [nan]])
    with nan by (vm_compute; reflexivity).
  rewrite ltb_nan_l.
  replace (updateCentroids approximatePower [near; far] [[nan]; [nan]] 2 1)
    with [[nan]] by (vm_compute; reflexivity).
  reflexivity.
Qed.

Lemma lost_loop (passes remaining : nat) (tolerance : float) :
  forall iteration,
    fcmLoop approximatePower [near; far] (singleCluster passes tolerance)
      remaining (lostState iteration)
    = inr (lostState (remaining + iteration)).
Proof.
  induction remaining as [|remaining IH]; intros iteration; [reflexivity|].
  cbn [fcmLoop lostState l_converged].
  change (mkLoop [[nan]] [[nan]; [nan]] [[nan]; [nan]] [] false iteration)
    with (lostState iteration).
  rewrite lost_pass. cbn [bindE fst]. rewrite IH.
  f_equal. f_equal. lia.
Qed.

Lemma overflow_loop (shuffled : list DataPoint) (passes : nat)
  (tolerance : float) :
  Permutation [near; far] shuffled ->
  exists rows,
    (rows = [[1]; [nan]] \/ rows = [[nan]; [1]])
    /\ (shuffled = [near; far] -> rows = [[1]; [nan]])
    /\ fcmLoop approximatePower [near; far]
         (singleCluster (S passes) tolerance) (S passes)
         (initialState shuffled [near; far] 1)
       = inr (match passes with
              | O => mkLoop [[nan]] rows rows [] false 1
              | S _ => lostState (S passes)
              end).
Proof.
  intros Hperm.
  destruct (first_pass shuffled (S passes) tolerance Hperm)
    as (rows & Hrows & Hfirst & Hpass).
  exists rows. split; [exact Hrows|]. split; [exact Hfirst|].
  cbn [fcmLoop].
  change (l_converged (initialState shuffled [near; far] 1)) with false.
  cbv iota. rewrite Hpass. cbn [bindE fst].
  destruct passes as [|passes]; [reflexivity|].
  cbn [fcmLoop l_converged]. rewrite (second_pass rows _ _ Hrows).
  cbn [bindE fst]. rewrite lost_loop. f_equal. f_equal. lia.
Qed.

(** C1.  The claim is what the file promises of its memberships, and the
    code does not keep it.  On the two points [-1e308] and [1e308], one
    cluster, fuzziness 2, any tolerance, any number of passes from 1 on and
    either order of the shuffle, whatever the engine returns where the
    language leaves [Math.pow] to it: [runFCM] returns a result; the
    distance from the centroid, one of the points, to the other point is
    [Infinity], the ratio of that distance to itself is NaN, and so is the
    membership; the row sums to NaN, which is not above 0, and stays as it
    is.  So the matrix returned has a row that sums to NaN; its point is
    assigned to cluster [-1]; and no pass converges.  With the points in
    their order the matrix is [[1]; [NaN]] after one pass and all NaN after
    more. *)
Theorem runFCM_overflow_gives_nan_row (shuffled : list DataPoint)
  (passes : nat) (tolerance : float) :
  Permutation [near; far] shuffled ->
  exists res,
    runFCM approximatePower shuffled [near; far]
      (singleCluster (S passes) tolerance) = inr res
    /\ Exists (fun row => is_nan (reduceSum row) = true)
         (membershipMatrix res)
    /\ In (-1)%Z (clusterAssignments res)
    /\ converged res = false
    /\ iterationCount res = S passes
    /\ (shuffled = [near; far] ->
        membershipMatrix res
        = if Nat.eqb passes 0 then [[1]; [nan]] else [[nan]; [nan]]).
Proof.
  intros Hperm.
  destruct (overflow_loop shuffled passes tolerance Hperm)
    as (rows & Hrows & Hfirst & Hloop).
  unfold runFCM.
  cbn [length Nat.eqb Nat.ltb Nat.leb clusterCount singleCluster maxIterations
       trackHistory].
  rewrite Hloop. cbn [bindE].
  destruct passes as [|passes]; eexists; (split; [reflexivity|]);
    cbn [membershipMatrix clusterAssignments converged iterationCount
         lostState l_memberships l_converged l_iteration Nat.eqb].
  - split; [|split; [|repeat split; exact Hfirst]].
    + destruct Hrows as [E|E]; rewrite E;
        [apply Exists_cons_tl|]; apply Exists_cons_hd; reflexivity.
    + destruct Hrows as [E|E]; rewrite E; vm_compute; auto.
  - split; [apply Exists_cons_hd; reflexivity|].
    split; [vm_compute; auto|]. repeat split.
Qed.

End Engine.
(** C1 on an engine exact on squares, one pass, tolerance about 0.001. *)
Lemma runFCM_overflow_gives_nan_row_witness :
  exists res,
    runFCM squarePower [near; far] [near; far]
      (singleCluster 1 0x1.0624dd2f1a9fcp-10) = inr res
    /\ membershipMatrix res = [[1]; [nan]]
    /\ clusterAssignments res = [0; -1]%Z.
Proof.
  destruct (runFCM_overflow_gives_nan_row squarePower [near; far] 0
              0x1.0624dd2f1a9fcp-10 (Permutation_refl _))
    as (res & Hrun & _ & _ & _ & _ & Hrows).
  exists res. split; [exact Hrun|]. split; [apply Hrows; reflexivity|].
  vm_compute in Hrun. injection Hrun as <-. reflexivity.
Defined.

(** ** The risk of a single cluster *)

(** C10, amended.  On a row of one membership [x] both indices are 0 and
    the score is the rounding of [(x || 0) * 40 + (x || 0) * 100], the two
    products and their sum in double arithmetic, capped at 100; the category
    follows the bands of the rounded sum.  A membership of 1 scores 100 and
    is critical. *)
Theorem single_cluster_risk (x : float) :
  let sum := orZero x * 40 + orZero x * 100 in
  let r := analyzeRisk [x] in
  riskScore r = Math_min 100 (Math_round sum)
  /\ riskCategory r
     = (if Math_round sum <? 20 then low
        else if Math_round sum <? 45 then medium
        else if Math_round sum <? 70 then high else critical)
  /\ riskScore (analyzeRisk [1]) = 100
  /\ riskCategory (analyzeRisk [1]) = critical.
Proof.
  cbv zeta. split; [|split; [|split; vm_compute; reflexivity]];
    unfold analyzeRisk; cbv zeta;
    change (membershipOr0 [x]
              (if (2 <? Z.of_nat (length [x]))%Z
               then (Z.of_nat (length [x]) - 2)%Z else 0%Z))
      with (orZero x);
    change (membershipOr0 [x] (Z.of_nat (length [x]) - 1)) with (orZero x);
    repeat (destruct (_ <? _); [reflexivity|]); reflexivity.
Qed.

(** C10, as stated, fails at the double just below [0.025], about
    [0.024999999999999998]: its products by 40 and by 100 add up to [3.5],
    which rounds to 4, where 140 times it is [3.4999999999999996], which
    rounds to 3. *)
Lemma single_cluster_risk_not_round_140 :
  riskScore (analyzeRisk [belowFortieth]) = 4
  /\ Math_min 100 (Math_round (140 * belowFortieth)) = 3
  /\ riskScore (analyzeRisk [belowFortieth])
     <> Math_min 100 (Math_round (140 * belowFortieth)).
Proof.
  split; [vm_compute; reflexivity|]. split; [vm_compute; reflexivity|].
  intros H. apply (f_equal Prim2SF) in H. vm_compute in H. discriminate H.
Qed.

End FCMDoubleProps.
